(** * Hierarchical elaboration core of the slang front end

    A shallow embedding of the instance, configuration and package symbols of
    [source/ast/symbols/InstanceSymbols.cpp] and
    [source/ast/symbols/CompilationUnitSymbols.cpp], and the properties the
    elaboration specification states about them.

    Conventions of the embedding:
    - objects that the compilation arena owns ([comp.emplace<T>]) live in a
      store indexed by address; a C++ pointer or reference to such an object
      is an address ([Addr]), a nullable pointer an [option];
    - syntax nodes are immutable values; a source range or location is a
      number;
    - functions that report diagnostics or allocate thread the compilation
      state explicitly;
    - collaborators that are declared outside the two source files (name
      lookup, definition lookup, dimension evaluation, ...) are fields of the
      context record that the caller supplies. *)

From stdpp Require Import gmap strings list fin_maps.
From Stdlib Require Import ZArith Lia.

#[local] Set Warnings "-register-all,-clear-no-such-hyp".
#[local] Open Scope string_scope.
#[local] Open Scope list_scope.
#[local] Open Scope nat_scope.

(* ===================================================================== *)
(** * Syntax nodes                                                        *)
(* ===================================================================== *)

(** A source range or location, and the address of an object of the arena. *)
Abbreviation SourceRange := nat (only parsing).
Abbreviation Addr := nat (only parsing).

(** [ParameterValueAssignmentSyntax]: one entry per assignment; the
    expression of a named assignment may be absent. *)
Inductive ParamAssignmentSyntax :=
| OrderedParamAssignment (expr : nat)
| NamedParamAssignment (name : string) (expr : option nat).

Record ParameterValueAssignmentSyntax := {
  pvas_parameters : list ParamAssignmentSyntax;
  pvas_sourceRange : SourceRange }.

(** [ConfigCellIdentifierSyntax]: [library.cell]; an absent library is the
    empty text. *)
Record ConfigCellIdentifierSyntax := {
  ccis_library : string;
  ccis_cell : string;
  ccis_sourceRange : SourceRange }.

Inductive ConfigRuleClauseSyntax :=
| ConfigUseClause (name : option ConfigCellIdentifierSyntax)
                  (paramAssignments : option ParameterValueAssignmentSyntax)
                  (config : bool)
| ConfigLiblist (libraries : list string).

Inductive ConfigRuleSyntax :=
| DefaultConfigRule (liblist : list string)
| CellConfigRule (name : ConfigCellIdentifierSyntax)
                 (ruleClause : ConfigRuleClauseSyntax) (range : SourceRange)
| InstanceConfigRule (topModule : string) (instanceNames : list string)
                     (ruleClause : ConfigRuleClauseSyntax) (range : SourceRange).

Record ConfigDeclarationSyntax := {
  cds_name : string;
  cds_topCells : list ConfigCellIdentifierSyntax;
  cds_rules : list ConfigRuleSyntax }.

(* ===================================================================== *)
(** * Diagnostics                                                         *)
(* ===================================================================== *)

Inductive DiagCode :=
| InstanceNameRequired
| MaxInstanceArrayExceeded
| MaxInstanceDepthExceeded
| InvalidPrimInstanceForParent
| BindTargetPrimitive
| InvalidInstanceForParent
| BindUnderBind
| CheckerParameterAssign
| CheckerInForkJoin
| CheckerInCheckerProc
| CheckerClassBadInstantiation
| CheckerFuncBadInstantiation
| NotAChecker
| InvalidPrimitivePortConn
| EmptyUdpPort
| InvalidNGateCount
| PrimitivePortCountWrong.

#[global] Instance DiagCode_eq_dec : EqDecision DiagCode.
Proof. solve_decision. Defined.

Record Diagnostic := { diagCode : DiagCode; diagRange : SourceRange }.

#[global] Instance Diagnostic_eq_dec : EqDecision Diagnostic.
Proof. solve_decision. Defined.

(** Number of diagnostics with a given code. *)
Definition countCode (c : DiagCode) (ds : list Diagnostic) : nat :=
  length (filter (fun d => diagCode d = c) ds).

(* ===================================================================== *)
(** * Configurations (CompilationUnitSymbols.cpp)                         *)
(* ===================================================================== *)

Record SourceLibrary := {
  lib_name : string;
  lib_priority : Z }.

Record ConfigCellId := {
  cell_lib : string;
  cell_name : string;
  cell_targetConfig : bool;
  cell_sourceRange : SourceRange }.

(** The default-constructed cell id: empty names. *)
Definition ConfigCellId_default : ConfigCellId :=
  {| cell_lib := ""; cell_name := ""; cell_targetConfig := false;
     cell_sourceRange := 0%nat |}.

Definition mkConfigCellId (lib name : string) (r : SourceRange) : ConfigCellId :=
  {| cell_lib := lib; cell_name := name; cell_targetConfig := false;
     cell_sourceRange := r |}.

Definition ConfigCellId_setTargetConfig (b : bool) (c : ConfigCellId) :=
  {| cell_lib := cell_lib c; cell_name := cell_name c; cell_targetConfig := b;
     cell_sourceRange := cell_sourceRange c |}.

(** [ConfigRule]: three slots.  [paramOverrides] is a nullable pointer to
    syntax, [liblist] an optional span, [useCell] a cell id whose name is
    empty when the slot is unset. *)
Record ConfigRule := {
  paramOverrides : option ParameterValueAssignmentSyntax;
  liblist : option (list SourceLibrary);
  useCell : ConfigCellId;
  rule_sourceRange : SourceRange }.

Definition ConfigRule_default : ConfigRule :=
  {| paramOverrides := None; liblist := None; useCell := ConfigCellId_default;
     rule_sourceRange := 0%nat |}.

Record CellOverride := {
  specificLib : option SourceLibrary;
  co_rule : ConfigRule }.

(** A node of the per-instance override trie. *)
Inductive InstanceOverride := mkInstanceOverride {
  childNodes : gmap string InstanceOverride;
  rule : option ConfigRule }.

Definition InstanceOverride_default : InstanceOverride :=
  mkInstanceOverride ∅ None.

Record ConfigBlockSymbol := {
  cb_name : string;
  topCells : list ConfigCellId;
  defaultLiblist : list SourceLibrary;
  cellOverrides : gmap string (list CellOverride);
  instanceOverrides : gmap string InstanceOverride }.

(** [comp.allocConfigBlock(name, loc)]. *)
Definition allocConfigBlock (name : string) : ConfigBlockSymbol :=
  {| cb_name := name; topCells := []; defaultLiblist := [];
     cellOverrides := ∅; instanceOverrides := ∅ |}.

Section ConfigFromSyntax.

(** [comp.getSourceLibrary(name)]: the registered library of that name. *)
Variable getSourceLibrary : string → option SourceLibrary.

(** The [buildLiblist] lambda: unknown library names are skipped. *)
Definition buildLiblist (libraries : list string) : list SourceLibrary :=
  omap getSourceLibrary libraries.

(** The [buildRule] lambda. *)
Definition buildRule (clause : ConfigRuleClauseSyntax) (parentRange : SourceRange)
  : ConfigRule :=
  match clause with
  | ConfigUseClause name paramAssignments config =>
      let useCell' :=
        match name with
        | Some n =>
            if decide (ccis_cell n = "") then ConfigCellId_default
            else
              let c := mkConfigCellId (ccis_library n) (ccis_cell n)
                                      (ccis_sourceRange n) in
              if config then ConfigCellId_setTargetConfig true c else c
        | None => ConfigCellId_default
        end in
      {| paramOverrides := paramAssignments; liblist := None;
         useCell := useCell'; rule_sourceRange := parentRange |}
  | ConfigLiblist libraries =>
      {| paramOverrides := None; liblist := Some (buildLiblist libraries);
         useCell := ConfigCellId_default; rule_sourceRange := parentRange |}
  end.

(** The test that guards the merge of a new rule [r] into the rule [nr]
    already stored at a trie node: some slot is set in both. *)
Definition slotConflict (r nr : ConfigRule) : bool :=
  (bool_decide (is_Some (paramOverrides r)) && bool_decide (is_Some (paramOverrides nr)))
  || (bool_decide (is_Some (liblist r)) && bool_decide (is_Some (liblist nr)))
  || (negb (bool_decide (cell_name (useCell r) = ""))
      && negb (bool_decide (cell_name (useCell nr) = ""))).

(** The [else] branch of the merge: every slot that [r] sets overwrites the
    slot of [nr]. *)
Definition mergeSlots (r nr : ConfigRule) : ConfigRule :=
  {| paramOverrides :=
       if bool_decide (is_Some (paramOverrides r)) then paramOverrides r
       else paramOverrides nr;
     liblist :=
       if bool_decide (is_Some (liblist r)) then liblist r else liblist nr;
     useCell :=
       if negb (bool_decide (cell_name (useCell r) = "")) then useCell r
       else useCell nr;
     rule_sourceRange := rule_sourceRange nr |}.

(** What the [InstanceConfigRule] case does to [node->rule], together with
    the diagnostics it reports.  The conflict branch of the source is
    empty (it holds only a [TODO: error] comment): the stored rule stays
    and nothing is reported. *)
Definition storeRule (r : ConfigRule) (slot : option ConfigRule)
  : option ConfigRule * list Diagnostic :=
  match slot with
  | None => (Some r, [])
  | Some nr =>
      if slotConflict r nr then (Some nr, [])
      else (Some (mergeSlots r nr), [])
  end.

(** [node = &node->childNodes[part]] for every part of the path, then the
    update of the rule at the node reached.  [operator[]] creates missing
    nodes on the way. *)
Fixpoint updateNode (parts : list string)
    (f : option ConfigRule → option ConfigRule) (n : InstanceOverride)
  : InstanceOverride :=
  match parts with
  | [] => mkInstanceOverride (childNodes n) (f (rule n))
  | p :: parts' =>
      mkInstanceOverride
        (<[p := updateNode parts' f
                  (default InstanceOverride_default (childNodes n !! p))]>
           (childNodes n))
        (rule n)
  end.

(** The node that a path reaches, if every node on the way exists. *)
Fixpoint findNode (parts : list string) (n : InstanceOverride)
  : option InstanceOverride :=
  match parts with
  | [] => Some n
  | p :: parts' =>
      match childNodes n !! p with
      | Some c => findNode parts' c
      | None => None
      end
  end.

Definition ruleAt (cb : ConfigBlockSymbol) (topModule : string)
    (parts : list string) : option ConfigRule :=
  match instanceOverrides cb !! topModule with
  | Some n => match findNode parts n with Some m => rule m | None => None end
  | None => None
  end.

Definition setDefaultLiblist (l : list SourceLibrary) (cb : ConfigBlockSymbol) :=
  {| cb_name := cb_name cb; topCells := topCells cb; defaultLiblist := l;
     cellOverrides := cellOverrides cb;
     instanceOverrides := instanceOverrides cb |}.

Definition setTopCells (l : list ConfigCellId) (cb : ConfigBlockSymbol) :=
  {| cb_name := cb_name cb; topCells := l; defaultLiblist := defaultLiblist cb;
     cellOverrides := cellOverrides cb;
     instanceOverrides := instanceOverrides cb |}.

Definition setCellOverrides (m : gmap string (list CellOverride))
    (cb : ConfigBlockSymbol) :=
  {| cb_name := cb_name cb; topCells := topCells cb;
     defaultLiblist := defaultLiblist cb; cellOverrides := m;
     instanceOverrides := instanceOverrides cb |}.

Definition setInstanceOverrides (m : gmap string InstanceOverride)
    (cb : ConfigBlockSymbol) :=
  {| cb_name := cb_name cb; topCells := topCells cb;
     defaultLiblist := defaultLiblist cb; cellOverrides := cellOverrides cb;
     instanceOverrides := m |}.

(** One iteration of the loop over [syntax.rules]; the state is the
    configuration under construction and the diagnostics reported so far. *)
Definition addRule (st : ConfigBlockSymbol * list Diagnostic)
    (ruleSyntax : ConfigRuleSyntax) : ConfigBlockSymbol * list Diagnostic :=
  let '(result, diags) := st in
  match ruleSyntax with
  | DefaultConfigRule libs =>
      (setDefaultLiblist (buildLiblist libs) result, diags)
  | CellConfigRule name clause range =>
      let cellName := ccis_cell name in
      let co :=
        {| specificLib :=
             if decide (ccis_library name = "") then None
             else getSourceLibrary (ccis_library name);
           co_rule := buildRule clause range |} in
      (setCellOverrides
         (<[cellName := default [] (cellOverrides result !! cellName) ++ [co]]>
            (cellOverrides result))
         result,
       diags)
  | InstanceConfigRule topModule instanceNames clause range =>
      let r := buildRule clause range in
      let top := default InstanceOverride_default
                         (instanceOverrides result !! topModule) in
      let reported :=
        match findNode instanceNames top with
        | Some n => snd (storeRule r (rule n))
        | None => snd (storeRule r None)
        end in
      (setInstanceOverrides
         (<[topModule := updateNode instanceNames
                           (fun slot => fst (storeRule r slot)) top]>
            (instanceOverrides result))
         result,
       diags ++ reported)
  end.

(** [ConfigBlockSymbol::fromSyntax].  Local parameters and attributes are
    members of the symbol and are not part of the embedding. *)
Definition ConfigBlockSymbol_fromSyntax (syntax : ConfigDeclarationSyntax)
  : ConfigBlockSymbol * list Diagnostic :=
  let result := allocConfigBlock (cds_name syntax) in
  let cells :=
    omap (fun cellId : ConfigCellIdentifierSyntax =>
            if decide (ccis_cell cellId = "") then None
            else Some (mkConfigCellId (ccis_library cellId) (ccis_cell cellId)
                                      (ccis_sourceRange cellId)))
         (cds_topCells syntax) in
  foldl addRule (setTopCells cells result, []) (cds_rules syntax).

End ConfigFromSyntax.

(** [ResolvedConfig]: [useConfig] and [rootInstance] are references,
    [configRule] a nullable pointer. *)
Record ResolvedConfig := {
  useConfig : ConfigBlockSymbol;
  rootInstance : Addr;
  rc_liblist : list SourceLibrary;
  configRule : option ConfigRule }.

(** The constructor [ResolvedConfig(useConfig, rootInstance)]. *)
Definition mkResolvedConfig (cfg : ConfigBlockSymbol) (root : Addr) : ResolvedConfig :=
  {| useConfig := cfg; rootInstance := root; rc_liblist := defaultLiblist cfg;
     configRule := None |}.

Definition ResolvedConfig_setConfigRule (r : option ConfigRule) (rc : ResolvedConfig) :=
  {| useConfig := useConfig rc; rootInstance := rootInstance rc;
     rc_liblist := rc_liblist rc; configRule := r |}.

Definition ResolvedConfig_setLiblist (l : list SourceLibrary) (rc : ResolvedConfig) :=
  {| useConfig := useConfig rc; rootInstance := rootInstance rc;
     rc_liblist := l; configRule := configRule rc |}.

(* ===================================================================== *)
(** * Packages (CompilationUnitSymbols.cpp)                               *)
(* ===================================================================== *)

(** A symbol as import lookup sees it: its name and the name of the package
    that declares it (the [packageParent] that [noteImport] walks up to). *)
Record ImportedSymbol := {
  sym_name : string;
  sym_package : string }.

#[global] Instance ImportedSymbol_eq_dec : EqDecision ImportedSymbol.
Proof. solve_decision. Defined.

(** The item of an export declaration [export P::*] or [export P::name]. *)
Inductive ExportItem :=
| ExportStar
| ExportName (n : string).

Record PackageImportItemSyntax := {
  pii_package : string;
  pii_item : ExportItem }.

(** A lookup that the elaboration of a package body performs through one of
    its wildcard imports: the imported package and the name looked up. *)
Record WildcardLookup := {
  wl_package : Addr;
  wl_name : string }.

Record PackageSymbol := {
  pkg_name : string;
  pkg_members : gmap string ImportedSymbol;
  hasExportAll : bool;
  exportDecls : list PackageImportItemSyntax;
  hasForceElaborated : bool;
  pkg_body : list WildcardLookup }.

Definition PackageSymbol_setForceElaborated (p : PackageSymbol) : PackageSymbol :=
  {| pkg_name := pkg_name p; pkg_members := pkg_members p;
     hasExportAll := hasExportAll p; exportDecls := exportDecls p;
     hasForceElaborated := true; pkg_body := pkg_body p |}.

Inductive PkgEvent :=
| EvForceElaborate (p : Addr)
| EvFindCandidate (p : Addr) (n : string).

#[global] Instance PkgEvent_eq_dec : EqDecision PkgEvent.
Proof. solve_decision. Defined.

(** The part of the compilation that import lookup reads and writes. *)
Record PkgState := {
  packages : gmap Addr PackageSymbol;
  exportCandidates : gmap (Addr * string) ImportedSymbol;
  pkgTrace : list PkgEvent }.

Definition PkgState_setPackages (m : gmap Addr PackageSymbol) (s : PkgState) :=
  {| packages := m; exportCandidates := exportCandidates s;
     pkgTrace := pkgTrace s |}.

Definition PkgState_setCandidates (m : gmap (Addr * string) ImportedSymbol)
    (s : PkgState) :=
  {| packages := packages s; exportCandidates := m; pkgTrace := pkgTrace s |}.

Definition PkgState_log (e : PkgEvent) (s : PkgState) :=
  {| packages := packages s; exportCandidates := exportCandidates s;
     pkgTrace := pkgTrace s ++ [e] |}.

(** Modelled from the spec: [Compilation::notePackageExportCandidate] and
    [Compilation::findPackageExportCandidate] are declared outside the
    sources; they maintain, per package, the set of export candidates by
    name. *)
Definition notePackageExportCandidate (p : Addr) (sym : ImportedSymbol)
    (s : PkgState) : PkgState :=
  match exportCandidates s !! (p, sym_name sym) with
  | Some _ => s
  | None => PkgState_setCandidates (<[(p, sym_name sym) := sym]> (exportCandidates s)) s
  end.

Definition findPackageExportCandidate (p : Addr) (lookupName : string)
    (s : PkgState) : option ImportedSymbol :=
  exportCandidates s !! (p, lookupName).

(** The loop of [noteImport] over the export declarations. *)
Fixpoint matchingExportDecl (decls : list PackageImportItemSyntax)
    (sym : ImportedSymbol) : bool :=
  match decls with
  | [] => false
  | decl :: rest =>
      if negb (bool_decide (pii_package decl = sym_package sym)) then
        matchingExportDecl rest sym
      else
        match pii_item decl with
        | ExportStar => true
        | ExportName n =>
            if bool_decide (n = sym_name sym) then true
            else matchingExportDecl rest sym
        end
  end.

(** [PackageSymbol::noteImport]. *)
Definition PackageSymbol_noteImport (p : Addr) (sym : ImportedSymbol)
    (s : PkgState) : PkgState :=
  match packages s !! p with
  | None => s
  | Some pkg =>
      if hasExportAll pkg then notePackageExportCandidate p sym s
      else if bool_decide (exportDecls pkg = []) then s
      else if matchingExportDecl (exportDecls pkg) sym then
             notePackageExportCandidate p sym s
      else s
  end.

(** Modelled from the spec: [Compilation::forceElaborate] is declared outside
    the sources.  Elaborating the body of a package performs the lookups of
    its wildcard imports ([pkg_body]), each a [findForImport] on the imported
    package ([find]) whose result, when found, is noted as an import of the
    package that is being elaborated. *)
Fixpoint Compilation_forceElaborate
    (find : Addr → string → PkgState → option (option ImportedSymbol * PkgState))
    (p : Addr) (body : list WildcardLookup) (s : PkgState) : option PkgState :=
  match body with
  | [] => Some s
  | wl :: rest =>
      match find (wl_package wl) (wl_name wl) s with
      | None => None
      | Some (Some sym, s') =>
          Compilation_forceElaborate find p rest (PackageSymbol_noteImport p sym s')
      | Some (None, s') => Compilation_forceElaborate find p rest s'
      end
  end.

(** [PackageSymbol::findForImport].  It and the elaboration of a package
    body call each other, so the definition takes fuel; [None] is the answer
    of a run that ran out of it. *)
Fixpoint PackageSymbol_findForImport (fuel : nat) (p : Addr) (lookupName : string)
    (s : PkgState) : option (option ImportedSymbol * PkgState) :=
  match fuel with
  | O => None
  | S fuel' =>
      match packages s !! p with
      | None => Some (None, s)
      | Some pkg =>
          match pkg_members pkg !! lookupName with
          | Some sym => Some (Some sym, s)
          | None =>
              if negb (hasExportAll pkg) && bool_decide (exportDecls pkg = [])
              then Some (None, s)
              else
                let forced :=
                  if negb (hasForceElaborated pkg) then
                    Compilation_forceElaborate
                      (PackageSymbol_findForImport fuel') p (pkg_body pkg)
                      (PkgState_log (EvForceElaborate p)
                         (PkgState_setPackages
                            (<[p := PackageSymbol_setForceElaborated pkg]>
                               (packages s)) s))
                  else Some s in
                match forced with
                | None => None
                | Some s2 =>
                    let s3 := PkgState_log (EvFindCandidate p lookupName) s2 in
                    Some (findPackageExportCandidate p lookupName s3, s3)
                end
          end
      end
  end.

(** Number of [EvForceElaborate p] events of a trace. *)
Definition forceCount (p : Addr) (t : list PkgEvent) : nat :=
  length (filter (fun e => e = EvForceElaborate p) t).

(** Number of packages that have not been force-elaborated yet. *)
Definition unforced (s : PkgState) : nat :=
  size (filter (fun kv => hasForceElaborated (snd kv) = false) (packages s)).

(* ===================================================================== *)
(** * Instantiation syntax and the symbols of InstanceSymbols.cpp         *)
(* ===================================================================== *)

Abbreviation PropertyExprSyntax := nat (only parsing).
Abbreviation AttributeInstanceSyntax := nat (only parsing).

Inductive PortConnectionSyntax :=
| OrderedPortConnection (expr : PropertyExprSyntax) (range : SourceRange)
| NamedPortConnection (name : string) (expr : option PropertyExprSyntax)
                      (range : SourceRange)
| WildcardPortConnection (range : SourceRange)
| EmptyPortConnection (range : SourceRange).

Record VariableDimensionSyntax := { dim_sourceRange : SourceRange }.

Record InstanceNameSyntax := {
  decl_name : string;
  dimensions : list VariableDimensionSyntax }.

Record HierarchicalInstanceSyntax := {
  decl : option InstanceNameSyntax;
  connections : list PortConnectionSyntax;
  his_sourceRange : SourceRange }.

(** The members of [HierarchyInstantiationSyntax], [PrimitiveInstantiationSyntax]
    and [CheckerInstantiationSyntax] that the functions below read.  [type] is
    the text of the type token ([valueText]); for a checker instantiation it
    is the last token of the type name and [typeName] identifies the name
    syntax that [Lookup::name] resolves. *)
Record InstantiationSyntax := {
  type : string;
  typeRange : SourceRange;
  typeName : nat;
  parameters : option ParameterValueAssignmentSyntax;
  instances : list HierarchicalInstanceSyntax;
  attributes : list AttributeInstanceSyntax;
  parentIsCheckerInstanceStatement : bool;
  syntax_sourceRange : SourceRange }.

(** Modelled from the spec: [ConstantRange] is declared outside the sources.
    A range [lo..hi] is given by its two bounds in either order; its width is
    [hi - lo + 1].  The default-constructed range is the one that
    [createEmpty] passes for an instance array that failed to evaluate. *)
Record ConstantRange := {
  range_left : Z;
  range_right : Z }.

Definition ConstantRange_default : ConstantRange :=
  {| range_left := 0; range_right := 0 |}.

Definition lower (r : ConstantRange) : Z := Z.min (range_left r) (range_right r).
Definition upper (r : ConstantRange) : Z := Z.max (range_left r) (range_right r).
Definition width (r : ConstantRange) : Z := (upper r - lower r + 1)%Z.

(** The result of [ASTContext::evalDimension]. *)
Record EvaluatedDimension := {
  isRange : bool;
  dim_range : ConstantRange }.

Inductive DefinitionKind :=
| DefinitionKind_Module
| DefinitionKind_Interface
| DefinitionKind_Program.

#[global] Instance DefinitionKind_eq_dec : EqDecision DefinitionKind.
Proof. solve_decision. Defined.

Record DefinitionSymbol := {
  def_name : string;
  definitionKind : DefinitionKind }.

Inductive PrimitiveKind := UserDefined | Fixed | NInput | NOutput.

#[global] Instance PrimitiveKind_eq_dec : EqDecision PrimitiveKind.
Proof. solve_decision. Defined.

Inductive PrimitivePortDirection :=
| PrimitivePortDirection_In
| PrimitivePortDirection_Out
| PrimitivePortDirection_OutReg
| PrimitivePortDirection_InOut.

Record PrimitiveSymbol := {
  prim_name : string;
  primitiveKind : PrimitiveKind;
  prim_ports : list PrimitivePortDirection }.

Record CheckerSymbol := {
  checker_name : string;
  checker_location : SourceRange }.

(** What [Compilation::getDefinition] returns: a definition, a primitive or a
    configuration block. *)
Inductive DefinitionLike :=
| IsDefinition (d : DefinitionSymbol)
| IsPrimitive (p : PrimitiveSymbol)
| IsConfigBlock (c : ConfigBlockSymbol).

(** A node of the hierarchy override tree.  A child is keyed by the syntax
    node it belongs to ([inl], the range of the node) or by an array index
    ([inr]), and by name. *)
Inductive HierarchyOverrideNode := mkHierarchyOverrideNode {
  childrenBySyntax : gmap (SourceRange + nat) HierarchyOverrideNode;
  childrenByName : gmap string HierarchyOverrideNode }.

(** ** Symbols owned by the arena *)

Record InstanceBodySymbol := {
  ib_definition : DefinitionSymbol;
  hierarchyOverrideNode : option HierarchyOverrideNode;
  ib_isUninstantiated : bool;
  ib_isFromBind : bool;
  ib_parentInstance : option Addr }.

Record InstanceSymbol := {
  inst_name : string;
  body : Addr;
  arrayPath : list Z;
  inst_syntax : option HierarchicalInstanceSyntax;
  inst_attributes : list AttributeInstanceSyntax;
  resolvedConfig : option Addr;
  inst_parent : option Addr }.

Record InstanceArraySymbol := {
  arr_name : string;
  elements : list Addr;
  arr_range : ConstantRange;
  arr_syntax : option HierarchicalInstanceSyntax;
  arr_parent : option Addr }.

Record PrimitiveInstanceSymbol := {
  prim_inst_name : string;
  primitiveType : PrimitiveSymbol;
  prim_arrayPath : list Z;
  prim_syntax : option HierarchicalInstanceSyntax;
  prim_attributes : list AttributeInstanceSyntax;
  prim_parent : option Addr }.

Record CheckerInstanceBodySymbol := {
  cib_checker : CheckerSymbol;
  instanceDepth : nat;
  isProcedural : bool;
  cib_isFromBind : bool;
  cib_isUninstantiated : bool;
  cib_parentInstance : option Addr }.

(** [ci_syntax] is the instance syntax, or nothing for the invalid instance,
    whose syntax is the declaration of the checker. *)
Record CheckerInstanceSymbol := {
  ci_name : string;
  ci_body : Addr;
  ci_arrayPath : list Z;
  ci_syntax : option HierarchicalInstanceSyntax;
  ci_attributes : list AttributeInstanceSyntax;
  ci_parent : option Addr }.

Record UninstantiatedDefSymbol := {
  ud_name : string;
  definitionName : string;
  paramExpressions : list nat;
  mustBeChecker : bool;
  ud_syntax : option HierarchicalInstanceSyntax;
  ud_attributes : list AttributeInstanceSyntax }.

Inductive Symbol :=
| SInstance (i : InstanceSymbol)
| SInstanceBody (b : InstanceBodySymbol)
| SInstanceArray (a : InstanceArraySymbol)
| SPrimitiveInstance (p : PrimitiveInstanceSymbol)
| SCheckerInstance (c : CheckerInstanceSymbol)
| SCheckerInstanceBody (b : CheckerInstanceBodySymbol)
| SUninstantiatedDef (u : UninstantiatedDefSymbol)
| SNet (name : string).

(** [symbol->name = n]: the name is a member of the [Symbol] base class.  A
    body is named after its definition and a net after its identifier; the
    functions below rename only what they have just created. *)
Definition Symbol_setName (n : string) (s : Symbol) : Symbol :=
  match s with
  | SInstance i =>
      SInstance {| inst_name := n; body := body i; arrayPath := arrayPath i;
                   inst_syntax := inst_syntax i;
                   inst_attributes := inst_attributes i;
                   resolvedConfig := resolvedConfig i;
                   inst_parent := inst_parent i |}
  | SInstanceArray a =>
      SInstanceArray {| arr_name := n; elements := elements a;
                        arr_range := arr_range a; arr_syntax := arr_syntax a;
                        arr_parent := arr_parent a |}
  | SPrimitiveInstance p =>
      SPrimitiveInstance {| prim_inst_name := n; primitiveType := primitiveType p;
                            prim_arrayPath := prim_arrayPath p;
                            prim_syntax := prim_syntax p;
                            prim_attributes := prim_attributes p;
                            prim_parent := prim_parent p |}
  | SCheckerInstance c =>
      SCheckerInstance {| ci_name := n; ci_body := ci_body c;
                          ci_arrayPath := ci_arrayPath c; ci_syntax := ci_syntax c;
                          ci_attributes := ci_attributes c;
                          ci_parent := ci_parent c |}
  | SUninstantiatedDef u =>
      SUninstantiatedDef {| ud_name := n; definitionName := definitionName u;
                            paramExpressions := paramExpressions u;
                            mustBeChecker := mustBeChecker u;
                            ud_syntax := ud_syntax u;
                            ud_attributes := ud_attributes u |}
  | SNet _ => SNet n
  | SInstanceBody b => SInstanceBody b
  | SCheckerInstanceBody b => SCheckerInstanceBody b
  end.

Definition Symbol_name (s : Symbol) : option string :=
  match s with
  | SInstance i => Some (inst_name i)
  | SInstanceArray a => Some (arr_name a)
  | SPrimitiveInstance p => Some (prim_inst_name p)
  | SCheckerInstance c => Some (ci_name c)
  | SUninstantiatedDef u => Some (ud_name u)
  | SNet n => Some n
  | SInstanceBody _ | SCheckerInstanceBody _ => None
  end.

(** [scope.addMember(symbol)] as far as the member is concerned: its parent
    scope becomes the array. *)
Definition Symbol_setParent (parent : Addr) (s : Symbol) : Symbol :=
  match s with
  | SInstance i =>
      SInstance {| inst_name := inst_name i; body := body i;
                   arrayPath := arrayPath i; inst_syntax := inst_syntax i;
                   inst_attributes := inst_attributes i;
                   resolvedConfig := resolvedConfig i;
                   inst_parent := Some parent |}
  | SInstanceArray a =>
      SInstanceArray {| arr_name := arr_name a; elements := elements a;
                        arr_range := arr_range a; arr_syntax := arr_syntax a;
                        arr_parent := Some parent |}
  | SPrimitiveInstance p =>
      SPrimitiveInstance {| prim_inst_name := prim_inst_name p;
                            primitiveType := primitiveType p;
                            prim_arrayPath := prim_arrayPath p;
                            prim_syntax := prim_syntax p;
                            prim_attributes := prim_attributes p;
                            prim_parent := Some parent |}
  | SCheckerInstance c =>
      SCheckerInstance {| ci_name := ci_name c; ci_body := ci_body c;
                          ci_arrayPath := ci_arrayPath c; ci_syntax := ci_syntax c;
                          ci_attributes := ci_attributes c;
                          ci_parent := Some parent |}
  | other => other
  end.

(** [body.parentInstance = this] in the two instance constructors. *)
Definition Symbol_setParentInstance (this : Addr) (s : Symbol) : Symbol :=
  match s with
  | SInstanceBody b =>
      SInstanceBody {| ib_definition := ib_definition b;
                       hierarchyOverrideNode := hierarchyOverrideNode b;
                       ib_isUninstantiated := ib_isUninstantiated b;
                       ib_isFromBind := ib_isFromBind b;
                       ib_parentInstance := Some this |}
  | SCheckerInstanceBody b =>
      SCheckerInstanceBody {| cib_checker := cib_checker b;
                              instanceDepth := instanceDepth b;
                              isProcedural := isProcedural b;
                              cib_isFromBind := cib_isFromBind b;
                              cib_isUninstantiated := cib_isUninstantiated b;
                              cib_parentInstance := Some this |}
  | other => other
  end.

(** [inst->resolvedConfig = rc]. *)
Definition Symbol_setResolvedConfig (rc : Addr) (s : Symbol) : Symbol :=
  match s with
  | SInstance i =>
      SInstance {| inst_name := inst_name i; body := body i;
                   arrayPath := arrayPath i; inst_syntax := inst_syntax i;
                   inst_attributes := inst_attributes i;
                   resolvedConfig := Some rc;
                   inst_parent := inst_parent i |}
  | other => other
  end.

(** [sym->as<UninstantiatedDefSymbol>().mustBeChecker = true]. *)
Definition Symbol_setMustBeChecker (s : Symbol) : Symbol :=
  match s with
  | SUninstantiatedDef u =>
      SUninstantiatedDef {| ud_name := ud_name u; definitionName := definitionName u;
                            paramExpressions := paramExpressions u;
                            mustBeChecker := true;
                            ud_syntax := ud_syntax u;
                            ud_attributes := ud_attributes u |}
  | other => other
  end.

(** ** The enclosing scopes of an instantiation

    The chain of scopes around an instantiation statement exists before the
    statement is elaborated and is only read.  Every scope is given by the
    symbol it belongs to; [parent] is that symbol's [getParentScope()]. *)

Inductive StatementBlockKind := Sequential | JoinAll | JoinAny | JoinNone.

#[global] Instance StatementBlockKind_eq_dec : EqDecision StatementBlockKind.
Proof. solve_decision. Defined.

(** The instance that owns an instance body: its address, its name and the
    configuration it was resolved under (the pointer and what it points to). *)
Record EnclosingInstance := {
  ei_addr : Addr;
  ei_name : string;
  ei_resolvedConfig : option (Addr * ResolvedConfig) }.

Record EnclosingBody := {
  eb_definition : DefinitionSymbol;
  eb_hierarchyOverrideNode : option HierarchyOverrideNode;
  eb_isUninstantiated : bool;
  eb_isFromBind : bool }.

Inductive Scope :=
| ScopeInstanceBody (b : EnclosingBody)
    (parentInstance : option (EnclosingInstance * option Scope))
| ScopeCheckerInstanceBody (name : string) (isUninstantiated isFromBind : bool)
    (depth : nat) (parent : option Scope) (parentInstanceScope : option Scope)
| ScopeGenerateBlock (name : string) (isUninstantiated : bool)
    (parent : option Scope)
| ScopeStatementBlock (name : string) (blockKind : StatementBlockKind)
    (parent : option Scope)
| ScopeOther (name : string) (parent : option Scope).

(* ===================================================================== *)
(** * The elaboration state                                               *)
(* ===================================================================== *)

(** What name lookup can find for the type of an instantiation. *)
Inductive LookupSymbol :=
| FoundChecker (c : CheckerSymbol)
| FoundClassType (name : string)
| FoundSubroutine (name : string)
| FoundOther (name : string).

(** The read-only side of [Compilation]: its options and the definition
    lookup, which is declared outside the sources.  [getDefinition name scope
    rule] stands for both [getDefinition(name, scope, range, code)] (no rule)
    and [getDefinition(name, scope, rule, range, code)]; the diagnostics that
    the lookup itself reports are not part of the embedding. *)
Record Compilation := {
  maxInstanceArray : Z;
  maxCheckerInstanceDepth : nat;
  getDefinition : string → Scope → option ConfigRule → option DefinitionLike;
  getDefinitionForCell : ConfigBlockSymbol → ConfigCellId → option DefinitionLike }.

(** [ASTContext], with the collaborators that the functions below reach
    through it: dimension evaluation, name lookup in [scope], the scan of a
    connection expression for implicit nets, the default net type of the
    scope, and the hierarchy override node of the scope
    ([findParentOverrideNode], whose walk over the syntax of
    the enclosing generate blocks is not part of the embedding). *)
Record ASTContext := {
  scope : Scope;
  getCompilation : Compilation;
  evalDimension : VariableDimensionSyntax → EvaluatedDimension;
  lookupUnqualified : string → option LookupSymbol;
  lookupName : nat → option LookupSymbol;
  findPotentiallyImplicitNets : PropertyExprSyntax → list string;
  defaultNetTypeIsError : bool;
  findParentOverrideNode : option HierarchyOverrideNode }.

(** Calls to the lookup collaborators, in the order they are made. *)
Inductive Event :=
| EvLookupUnqualified (name : string)
| EvLookupName (typeName : nat)
| EvGetDefinition (name : string) (withRule : bool)
| EvGetDefinitionForCell (config : string) (cell : string)
| EvNoteInstantiated (definition : string).

#[global] Instance Event_eq_dec : EqDecision Event.
Proof. solve_decision. Defined.

(** The mutable side: the arena ([symbols], [resolvedConfigs], [nextAddr]),
    the diagnostics sink, the calls made, and the two vectors [results] and
    [implicitNets] that the caller passes by reference. *)
Record Elab := {
  nextAddr : Addr;
  symbols : gmap Addr Symbol;
  resolvedConfigs : gmap Addr ResolvedConfig;
  diags : list Diagnostic;
  trace : list Event;
  results : list Addr;
  implicitNets : list Addr }.

Definition Elab_empty : Elab :=
  {| nextAddr := 0; symbols := ∅; resolvedConfigs := ∅; diags := [];
     trace := []; results := []; implicitNets := [] |}.

Definition M (A : Type) : Type := Elab → A * Elab.

#[global] Instance M_ret : MRet M := λ A a s, (a, s).
#[global] Instance M_bind : MBind M :=
  λ A B k m s, let '(a, s') := m s in k a s'.

Fixpoint mapM {A B} (f : A → M B) (xs : list A) : M (list B) :=
  match xs with
  | [] => mret []
  | x :: xs' => y ← f x; ys ← mapM f xs'; mret (y :: ys)
  end.

Fixpoint forM_ {A} (f : A → M unit) (xs : list A) : M unit :=
  match xs with
  | [] => mret tt
  | x :: xs' => f x;; forM_ f xs'
  end.

(** A loop that carries a value from one iteration to the next. *)
Fixpoint foldM {A B} (f : B → A → M B) (b : B) (xs : list A) : M B :=
  match xs with
  | [] => mret b
  | x :: xs' => b' ← f b x; foldM f b' xs'
  end.

(** Memory for one object. *)
Definition allocate : M Addr := λ s,
  (nextAddr s,
   {| nextAddr := S (nextAddr s); symbols := symbols s;
      resolvedConfigs := resolvedConfigs s; diags := diags s; trace := trace s;
      results := results s; implicitNets := implicitNets s |}).

Definition store (a : Addr) (sym : Symbol) : M unit := λ s,
  (tt,
   {| nextAddr := nextAddr s; symbols := <[a := sym]> (symbols s);
      resolvedConfigs := resolvedConfigs s; diags := diags s; trace := trace s;
      results := results s; implicitNets := implicitNets s |}).

(** An assignment to a member of the object at [a]. *)
Definition modify (a : Addr) (f : Symbol → Symbol) : M unit := λ s,
  (tt,
   {| nextAddr := nextAddr s; symbols := alter f a (symbols s);
      resolvedConfigs := resolvedConfigs s; diags := diags s; trace := trace s;
      results := results s; implicitNets := implicitNets s |}).

(** [compilation.emplace<T>(...)] for a symbol whose constructor does
    nothing but initialise its members. *)
Definition emplace (sym : Symbol) : M Addr :=
  a ← allocate; store a sym;; mret a.

Definition emplaceResolvedConfig (rc : ResolvedConfig) : M Addr := λ s,
  (nextAddr s,
   {| nextAddr := S (nextAddr s); symbols := symbols s;
      resolvedConfigs := <[nextAddr s := rc]> (resolvedConfigs s);
      diags := diags s; trace := trace s;
      results := results s; implicitNets := implicitNets s |}).

Definition addDiag (code : DiagCode) (range : SourceRange) : M unit := λ s,
  (tt,
   {| nextAddr := nextAddr s; symbols := symbols s;
      resolvedConfigs := resolvedConfigs s;
      diags := diags s ++ [{| diagCode := code; diagRange := range |}];
      trace := trace s;
      results := results s; implicitNets := implicitNets s |}).

Definition logEvent (e : Event) : M unit := λ s,
  (tt,
   {| nextAddr := nextAddr s; symbols := symbols s;
      resolvedConfigs := resolvedConfigs s; diags := diags s;
      trace := trace s ++ [e];
      results := results s; implicitNets := implicitNets s |}).

(** [results.push_back(sym)]. *)
Definition pushResult (a : Addr) : M unit := λ s,
  (tt,
   {| nextAddr := nextAddr s; symbols := symbols s;
      resolvedConfigs := resolvedConfigs s; diags := diags s; trace := trace s;
      results := results s ++ [a]; implicitNets := implicitNets s |}).

(** [implicitNets.push_back(net)]. *)
Definition pushImplicitNet (a : Addr) : M unit := λ s,
  (tt,
   {| nextAddr := nextAddr s; symbols := symbols s;
      resolvedConfigs := resolvedConfigs s; diags := diags s; trace := trace s;
      results := results s; implicitNets := implicitNets s ++ [a] |}).

Definition getResults : M (list Addr) := λ s, (results s, s).

(* ===================================================================== *)
(** * InstanceSymbols.cpp: helpers and the instance builder               *)
(* ===================================================================== *)

(** [getNameLoc]: the declared name, or the empty name. *)
Definition getNameLoc (syntax : HierarchicalInstanceSyntax) : string :=
  match decl syntax with
  | Some d => decl_name d
  | None => ""
  end.

(** [InstanceBodySymbol::fromDefinition(comp, definition, loc, paramBuilder,
    isUninstantiated, isFromBind)].  [overrideNode] is what the parameter
    builder holds ([paramBuilder.getOverrides()]).  The members, ports and
    parameters of the body are not part of the embedding. *)
Definition InstanceBodySymbol_fromDefinition (definition : DefinitionSymbol)
    (overrideNode : option HierarchyOverrideNode)
    (isUninstantiated isFromBind : bool) : M Addr :=
  emplace (SInstanceBody
             {| ib_definition := definition;
                hierarchyOverrideNode := overrideNode;
                ib_isUninstantiated := isUninstantiated;
                ib_isFromBind := isFromBind;
                ib_parentInstance := None |}).

(** [compilation.emplace<InstanceSymbol>(compilation, name, loc, definition,
    paramBuilder, isUninstantiated, isFromBind)]: the delegating constructor
    creates the body, the target constructor stores the reference to it and
    sets the back-pointer of the body. *)
Definition InstanceSymbol_new (name : string) (definition : DefinitionSymbol)
    (overrideNode : option HierarchyOverrideNode)
    (isUninstantiated isFromBind : bool) : M Addr :=
  this ← allocate;
  b ← InstanceBodySymbol_fromDefinition definition overrideNode
        isUninstantiated isFromBind;
  store this (SInstance {| inst_name := name; body := b; arrayPath := [];
                           inst_syntax := None; inst_attributes := [];
                           resolvedConfig := None; inst_parent := None |});;
  modify b (Symbol_setParentInstance this);;
  mret this.

(** [compilation.emplace<InstanceSymbol>(name, loc, body)] for a body that
    exists already: the constructor stores the reference to the body and
    sets the back-pointer of the body. *)
Definition InstanceSymbol_newWithBody (name : string) (b : Addr) : M Addr :=
  this ← allocate;
  store this (SInstance {| inst_name := name; body := b; arrayPath := [];
                           inst_syntax := None; inst_attributes := [];
                           resolvedConfig := None; inst_parent := None |});;
  modify b (Symbol_setParentInstance this);;
  mret this.

(** [InstanceSymbol::createDefault]: the body is an argument of the
    constructor and is created first. *)
Definition InstanceSymbol_createDefault (definition : DefinitionSymbol)
    (hierarchyOverrideNode : option HierarchyOverrideNode) : M Addr :=
  b ← InstanceBodySymbol_fromDefinition definition hierarchyOverrideNode
        false false;
  InstanceSymbol_newWithBody (def_name definition) b.

(** [InstanceSymbol::createInvalid]: an instance with the empty name whose
    body is uninstantiated. *)
Definition InstanceSymbol_createInvalid (definition : DefinitionSymbol) : M Addr :=
  b ← InstanceBodySymbol_fromDefinition definition None true false;
  InstanceSymbol_newWithBody "" b.

(** [InstanceSymbol::createVirtual]; the parent pointer that it sets is the
    scope of the context, which is not an object of the arena. *)
Definition InstanceSymbol_createVirtual (definition : DefinitionSymbol) : M Addr :=
  InstanceSymbol_new (def_name definition) definition None false false.

(** [inst->arrayPath = path.copy(...); inst->setSyntax(syntax);
    inst->setAttributes(scope, attributes)]. *)
Definition Symbol_setInstanceDetails (path : list Z)
    (syntax : HierarchicalInstanceSyntax)
    (attrs : list AttributeInstanceSyntax) (s : Symbol) : Symbol :=
  match s with
  | SInstance i =>
      SInstance {| inst_name := inst_name i; body := body i; arrayPath := path;
                   inst_syntax := Some syntax; inst_attributes := attrs;
                   resolvedConfig := resolvedConfig i;
                   inst_parent := inst_parent i |}
  | SPrimitiveInstance p =>
      SPrimitiveInstance {| prim_inst_name := prim_inst_name p;
                            primitiveType := primitiveType p;
                            prim_arrayPath := path;
                            prim_syntax := Some syntax;
                            prim_attributes := attrs;
                            prim_parent := prim_parent p |}
  | SCheckerInstance c =>
      SCheckerInstance {| ci_name := ci_name c; ci_body := ci_body c;
                          ci_arrayPath := path; ci_syntax := Some syntax;
                          ci_attributes := attrs; ci_parent := ci_parent c |}
  | other => other
  end.

(** [result->setSyntax(syntax)] on an instance array. *)
Definition Symbol_setArraySyntax (syntax : HierarchicalInstanceSyntax)
    (s : Symbol) : Symbol :=
  match s with
  | SInstanceArray a =>
      SInstanceArray {| arr_name := arr_name a; elements := elements a;
                        arr_range := arr_range a; arr_syntax := Some syntax;
                        arr_parent := arr_parent a |}
  | other => other
  end.

(** The members of [InstanceBuilder] that stay fixed; the [path] member is
    passed along the recursion, which pushes an index before each recursive
    call and pops it afterwards. *)
Record InstanceBuilder := {
  bld_context : ASTContext;
  bld_definition : DefinitionSymbol;
  parentOverrideNode : option HierarchyOverrideNode;
  bld_attributes : list AttributeInstanceSyntax;
  bld_resolvedConfig : option (Addr * ResolvedConfig);
  newConfigRoot : option ConfigBlockSymbol;
  bld_isFromBind : bool }.

(** [InstanceBuilder::createInstance]. *)
Definition InstanceBuilder_createInstance (b : InstanceBuilder)
    (syntax : HierarchicalInstanceSyntax)
    (overrideNode : option HierarchyOverrideNode) (path : list Z) : M Addr :=
  inst ← InstanceSymbol_new (getNameLoc syntax) (bld_definition b) overrideNode
           false (bld_isFromBind b);
  modify inst (Symbol_setInstanceDetails path syntax (bld_attributes b));;
  match bld_resolvedConfig b with
  | Some (rcAddr, resolved) =>
      match newConfigRoot b with
      | Some root =>
          rc ← emplaceResolvedConfig
                 (ResolvedConfig_setConfigRule (configRule resolved)
                    (mkResolvedConfig root inst));
          modify inst (Symbol_setResolvedConfig rc)
      | None => modify inst (Symbol_setResolvedConfig rcAddr)
      end
  | None => mret tt
  end;;
  mret inst.

(** The [createEmpty] lambda of the three array recursions. *)
Definition createEmpty (name : string) : M Addr :=
  emplace (SInstanceArray {| arr_name := name; elements := [];
                             arr_range := ConstantRange_default;
                             arr_syntax := None; arr_parent := None |}).

(** [InstanceBuilder::recurse]; [dims] is the iterator range [it, end).
    The loop counter [i] runs from [0] below [range.width()]. *)
Fixpoint InstanceBuilder_recurse (b : InstanceBuilder)
    (syntax : HierarchicalInstanceSyntax)
    (overrideNode : option HierarchyOverrideNode)
    (dims : list VariableDimensionSyntax) (path : list Z) : M Addr :=
  match dims with
  | [] => InstanceBuilder_createInstance b syntax overrideNode path
  | dimSyntax :: rest =>
      let nameToken := getNameLoc syntax in
      let dim := evalDimension (bld_context b) dimSyntax in
      if negb (isRange dim) then createEmpty nameToken
      else
        let range := dim_range dim in
        if (maxInstanceArray (getCompilation (bld_context b)) <? width range)%Z then
          addDiag MaxInstanceArrayExceeded (dim_sourceRange dimSyntax);;
          createEmpty nameToken
        else
          elems ← mapM
            (fun i : nat =>
               let childOverrides :=
                 match overrideNode with
                 | Some node => childrenBySyntax node !! inr i
                 | None => None
                 end in
               symbol ← InstanceBuilder_recurse b syntax childOverrides rest
                          (path ++ [(lower range + Z.of_nat i)%Z]);
               modify symbol (Symbol_setName "");;
               mret symbol)
            (seq 0 (Z.to_nat (width range)));
          result ← emplace (SInstanceArray
                              {| arr_name := nameToken; elements := elems;
                                 arr_range := range; arr_syntax := None;
                                 arr_parent := None |});
          modify result (Symbol_setArraySyntax syntax);;
          forM_ (fun element => modify element (Symbol_setParent result)) elems;;
          mret result
  end.

(** [InstanceBuilder::create]. *)
Definition InstanceBuilder_create (b : InstanceBuilder)
    (syntax : HierarchicalInstanceSyntax) : M Addr :=
  match decl syntax with
  | None =>
      addDiag InstanceNameRequired (his_sourceRange syntax);;
      InstanceBuilder_createInstance b syntax None []
  | Some d =>
      let overrideNode :=
        match parentOverrideNode b with
        | Some parent =>
            match childrenBySyntax parent !! inl (his_sourceRange syntax) with
            | Some n => Some n
            | None => childrenByName parent !! decl_name d
            end
        | None => None
        end in
      InstanceBuilder_recurse b syntax overrideNode (dimensions d) []
  end.

(** [createImplicitNets]; [implicitNetNames] is passed in and handed back. *)
Definition createImplicitNets (instance : HierarchicalInstanceSyntax)
    (context : ASTContext) (implicitNetNames : gset string) : M (gset string) :=
  if defaultNetTypeIsError context then mret implicitNetNames
  else
    foldM
      (fun names conn =>
         let expr :=
           match conn with
           | OrderedPortConnection e _ => Some e
           | NamedPortConnection _ e _ => e
           | _ => None
           end in
         match expr with
         | None => mret names
         | Some e =>
             foldM
               (fun names' ins =>
                  if bool_decide (ins ∈ names') then mret names'
                  else
                    net ← emplace (SNet ins);
                    pushImplicitNet net;;
                    mret ({[ins]} ∪ names'))
               names (findPotentiallyImplicitNets context e)
         end)
      implicitNetNames (connections instance).

(* ===================================================================== *)
(** * Uninstantiated definitions                                          *)
(* ===================================================================== *)

(** [createUninstantiatedDef]. *)
Definition createUninstantiatedDef (syntax : InstantiationSyntax)
    (instanceSyntax : HierarchicalInstanceSyntax) (moduleName : string)
    (context : ASTContext) (params : list nat)
    (implicitNetNames : gset string) : M (gset string) :=
  names ← createImplicitNets instanceSyntax context implicitNetNames;
  sym ← emplace (SUninstantiatedDef
                   {| ud_name := getNameLoc instanceSyntax;
                      definitionName := moduleName;
                      paramExpressions := params;
                      mustBeChecker := false;
                      ud_syntax := Some instanceSyntax;
                      ud_attributes := attributes syntax |});
  pushResult sym;;
  mret names.

(** [createUninstantiatedDefs]. *)
Definition createUninstantiatedDefs (syntax : InstantiationSyntax)
    (moduleName : string) (context : ASTContext) (params : list nat) : M unit :=
  foldM (fun names instanceSyntax =>
           createUninstantiatedDef syntax instanceSyntax moduleName context
             params names)
        ∅ (instances syntax);;
  mret tt.

(** [createUninstantiatedParams]: the expressions that are bound; an empty
    named assignment is ignored. *)
Definition createUninstantiatedParams (syntax : InstantiationSyntax) : list nat :=
  match parameters syntax with
  | Some p =>
      omap (fun e => match e with
                     | OrderedParamAssignment x => Some x
                     | NamedParamAssignment _ x => x
                     end)
           (pvas_parameters p)
  | None => []
  end.

(** [UninstantiatedDefSymbol::fromSyntax] for a hierarchy instantiation. *)
Definition UninstantiatedDefSymbol_fromSyntax (syntax : InstantiationSyntax)
    (parentContext : ASTContext) : M unit :=
  createUninstantiatedDefs syntax (type syntax) parentContext
    (createUninstantiatedParams syntax).

(** The overload with [specificInstance], which shares the set of implicit
    net names with its caller. *)
Definition UninstantiatedDefSymbol_fromSyntax_specific
    (syntax : InstantiationSyntax)
    (specificInstance : option HierarchicalInstanceSyntax)
    (parentContext : ASTContext) (implicitNetNames : gset string)
  : M (gset string) :=
  let params := createUninstantiatedParams syntax in
  match specificInstance with
  | Some inst =>
      createUninstantiatedDef syntax inst (type syntax) parentContext params
        implicitNetNames
  | None =>
      foldM (fun names instanceSyntax =>
               createUninstantiatedDef syntax instanceSyntax (type syntax)
                 parentContext params names)
            implicitNetNames (instances syntax)
  end.

(** The overload for a checker instantiation: every symbol of [results] is
    marked afterwards. *)
Definition UninstantiatedDefSymbol_fromSyntax_checker
    (syntax : InstantiationSyntax) (parentContext : ASTContext) : M unit :=
  createUninstantiatedDefs syntax (type syntax) parentContext [];;
  rs ← getResults;
  forM_ (fun sym => modify sym Symbol_setMustBeChecker) rs.

(* ===================================================================== *)
(** * Primitive instances                                                 *)
(* ===================================================================== *)

(** [createPrimInst]. *)
Definition createPrimInst (primitive : PrimitiveSymbol)
    (syntax : HierarchicalInstanceSyntax)
    (attrs : list AttributeInstanceSyntax) (path : list Z) : M Addr :=
  emplace (SPrimitiveInstance
             {| prim_inst_name := getNameLoc syntax; primitiveType := primitive;
                prim_arrayPath := path; prim_syntax := Some syntax;
                prim_attributes := attrs; prim_parent := None |}).

(** [recursePrimArray].  The loop counter [i] is an [int32_t] that runs from
    [range.lower()] up to [range.upper()]; the embedding enumerates that
    interval. *)
Fixpoint recursePrimArray (primitive : PrimitiveSymbol)
    (instance : HierarchicalInstanceSyntax) (context : ASTContext)
    (dims : list VariableDimensionSyntax)
    (attrs : list AttributeInstanceSyntax) (path : list Z) : M Addr :=
  match dims with
  | [] => createPrimInst primitive instance attrs path
  | dimSyntax :: rest =>
      let nameToken := getNameLoc instance in
      let dim := evalDimension context dimSyntax in
      if negb (isRange dim) then createEmpty nameToken
      else
        let range := dim_range dim in
        if (maxInstanceArray (getCompilation context) <? width range)%Z then
          addDiag MaxInstanceArrayExceeded (dim_sourceRange dimSyntax);;
          createEmpty nameToken
        else
          elems ← mapM
            (fun i : Z =>
               symbol ← recursePrimArray primitive instance context rest attrs
                          (path ++ [i]);
               modify symbol (Symbol_setName "");;
               mret symbol)
            (seqZ (lower range) (width range));
          result ← emplace (SInstanceArray
                              {| arr_name := nameToken; elements := elems;
                                 arr_range := range; arr_syntax := None;
                                 arr_parent := None |});
          forM_ (fun element => modify element (Symbol_setParent result)) elems;;
          mret result
  end.

(** One iteration of the loop of [createPrimitives] over the instances of
    the statement; [implicitNetNames] is passed in and handed back. *)
Definition createPrimitives_body (primitive : PrimitiveSymbol)
    (syntax : InstantiationSyntax) (context : ASTContext)
    (implicitNetNames : gset string) (instance : HierarchicalInstanceSyntax)
  : M (gset string) :=
  names' ← createImplicitNets instance context implicitNetNames;
  match decl instance with
  | None =>
      sym ← createPrimInst primitive instance (attributes syntax) [];
      pushResult sym;;
      mret names'
  | Some d =>
      sym ← recursePrimArray primitive instance context (dimensions d)
              (attributes syntax) [];
      pushResult sym;;
      mret names'
  end.

(** [createPrimitives]. *)
Definition createPrimitives (primitive : PrimitiveSymbol)
    (syntax : InstantiationSyntax) (context : ASTContext) : M unit :=
  foldM (createPrimitives_body primitive syntax context) ∅ (instances syntax);;
  mret tt.

(** [PrimitiveInstanceSymbol::fromSyntax(primitive, syntax, ...)]. *)
Definition PrimitiveInstanceSymbol_fromSyntax (primitive : PrimitiveSymbol)
    (syntax : InstantiationSyntax) (context : ASTContext) : M unit :=
  createPrimitives primitive syntax context.

(* ===================================================================== *)
(** * Checker instances                                                   *)
(* ===================================================================== *)

(** What contains an assertion instance: a checker instance body, with its
    depth and whether it comes from a bind, or an instance body. *)
Inductive AssertionParent :=
| ParentCheckerBody (depth : nat) (isFromBind : bool)
| ParentInstanceBody (isFromBind : bool).

(** Modelled from the spec: [ASTContext::tryFillAssertionDetails] is declared
    outside the sources.  It yields the body that contains the scope: the
    nearest checker instance body or instance body on the way up. *)
Fixpoint tryFillAssertionDetails (sc : Scope) : option AssertionParent :=
  match sc with
  | ScopeInstanceBody b _ => Some (ParentInstanceBody (eb_isFromBind b))
  | ScopeCheckerInstanceBody _ _ fromBind depth _ _ =>
      Some (ParentCheckerBody depth fromBind)
  | ScopeGenerateBlock _ _ parent
  | ScopeStatementBlock _ _ parent
  | ScopeOther _ parent =>
      match parent with
      | Some p => tryFillAssertionDetails p
      | None => None
      end
  end.

(** Modelled from the spec: [Scope::isUninstantiated] is declared outside the
    sources.  A scope is uninstantiated inside an untaken generate arm or
    inside an uninstantiated instance body or checker body. *)
Fixpoint Scope_isUninstantiated (sc : Scope) : bool :=
  match sc with
  | ScopeInstanceBody b _ => eb_isUninstantiated b
  | ScopeCheckerInstanceBody _ u _ _ _ _ => u
  | ScopeGenerateBlock _ u parent =>
      u || match parent with
           | Some p => Scope_isUninstantiated p
           | None => false
           end
  | ScopeStatementBlock _ _ parent
  | ScopeOther _ parent =>
      match parent with
      | Some p => Scope_isUninstantiated p
      | None => false
      end
  end.

(** The constructor [CheckerInstanceSymbol(name, loc, body)]. *)
Definition CheckerInstanceSymbol_new (name : string) (b : Addr) : M Addr :=
  this ← allocate;
  store this (SCheckerInstance {| ci_name := name; ci_body := b;
                                  ci_arrayPath := []; ci_syntax := None;
                                  ci_attributes := []; ci_parent := None |});;
  modify b (Symbol_setParentInstance this);;
  mret this.

(** [CheckerInstanceSymbol::createInvalid].  The formal arguments and the
    members of the body are not part of the embedding. *)
Definition CheckerInstanceSymbol_createInvalid (checker : CheckerSymbol) : M Addr :=
  b ← emplace (SCheckerInstanceBody
                 {| cib_checker := checker; instanceDepth := 0;
                    isProcedural := false; cib_isFromBind := false;
                    cib_isUninstantiated := true;
                    cib_parentInstance := None |});
  CheckerInstanceSymbol_new (checker_name checker) b.

(** The loop over the enclosing statement blocks: is one of them a fork-join
    block? *)
Fixpoint inForkJoin (sc : Scope) : bool :=
  match sc with
  | ScopeStatementBlock _ kind parent =>
      if bool_decide (kind ≠ Sequential) then true
      else match parent with
           | Some p => inForkJoin p
           | None => false
           end
  | _ => false
  end.

(** [CheckerInstanceSymbol::fromSyntax(comp, parentContext, checker, syntax,
    attributes, path, isProcedural, isFromBind)]: one checker instance.  The
    connection of the formal ports is not part of the embedding; a location
    is identified with the range of the instance syntax. *)
Definition CheckerInstanceSymbol_fromSyntax_instance (parentContext : ASTContext)
    (checker : CheckerSymbol) (syntax : HierarchicalInstanceSyntax)
    (attrs : list AttributeInstanceSyntax) (path : list Z)
    (isProcedural isFromBind : bool) : M Addr :=
  let parentSym := tryFillAssertionDetails (scope parentContext) in
  let name := getNameLoc syntax in
  let depth :=
    match parentSym with
    | Some (ParentCheckerBody d _) => S d
    | _ => 0
    end in
  let parentIsFromBind :=
    match parentSym with
    | Some (ParentCheckerBody _ fb) => fb
    | Some (ParentInstanceBody fb) => fb
    | None => false
    end in
  if bool_decide (maxCheckerInstanceDepth (getCompilation parentContext) < depth)
  then
    addDiag MaxInstanceDepthExceeded (his_sourceRange syntax);;
    CheckerInstanceSymbol_createInvalid checker
  else if parentIsFromBind && isFromBind then
    addDiag BindUnderBind (his_sourceRange syntax);;
    CheckerInstanceSymbol_createInvalid checker
  else
    let isFromBind' := if parentIsFromBind then true else isFromBind in
    (if inForkJoin (scope parentContext)
     then addDiag CheckerInForkJoin (his_sourceRange syntax)
     else mret tt);;
    (match parentSym with
     | Some (ParentCheckerBody _ _) =>
         if isProcedural
         then addDiag CheckerInCheckerProc (his_sourceRange syntax)
         else mret tt
     | _ => mret tt
     end);;
    b ← emplace (SCheckerInstanceBody
                   {| cib_checker := checker; instanceDepth := depth;
                      isProcedural := isProcedural;
                      cib_isFromBind := isFromBind';
                      cib_isUninstantiated := false;
                      cib_parentInstance := None |});
    instance ← CheckerInstanceSymbol_new name b;
    modify instance (Symbol_setInstanceDetails path syntax attrs);;
    mret instance.

(** [recurseCheckerArray]; the loop is that of [recursePrimArray]. *)
Fixpoint recurseCheckerArray (checker : CheckerSymbol)
    (instance : HierarchicalInstanceSyntax) (context : ASTContext)
    (dims : list VariableDimensionSyntax)
    (attrs : list AttributeInstanceSyntax) (path : list Z)
    (isProcedural isFromBind : bool) : M Addr :=
  match dims with
  | [] =>
      CheckerInstanceSymbol_fromSyntax_instance context checker instance attrs
        path isProcedural isFromBind
  | dimSyntax :: rest =>
      let nameToken := getNameLoc instance in
      let dim := evalDimension context dimSyntax in
      if negb (isRange dim) then createEmpty nameToken
      else
        let range := dim_range dim in
        if (maxInstanceArray (getCompilation context) <? width range)%Z then
          addDiag MaxInstanceArrayExceeded (dim_sourceRange dimSyntax);;
          createEmpty nameToken
        else
          elems ← mapM
            (fun i : Z =>
               symbol ← recurseCheckerArray checker instance context rest attrs
                          (path ++ [i]) isProcedural isFromBind;
               modify symbol (Symbol_setName "");;
               mret symbol)
            (seqZ (lower range) (width range));
          result ← emplace (SInstanceArray
                              {| arr_name := nameToken; elements := elems;
                                 arr_range := range; arr_syntax := None;
                                 arr_parent := None |});
          forM_ (fun element => modify element (Symbol_setParent result)) elems;;
          mret result
  end.

(** One iteration of the loop of [createCheckers] over the instances of the
    statement; [implicitNetNames] is passed in and handed back. *)
Definition createCheckers_body (checker : CheckerSymbol)
    (syntax : InstantiationSyntax) (context : ASTContext)
    (isProcedural isFromBind : bool)
    (implicitNetNames : gset string) (instance : HierarchicalInstanceSyntax)
  : M (gset string) :=
  names' ← (if isProcedural then mret implicitNetNames
            else createImplicitNets instance context implicitNetNames);
  match decl instance with
  | None =>
      addDiag InstanceNameRequired (his_sourceRange instance);;
      sym ← CheckerInstanceSymbol_fromSyntax_instance context checker
              instance (attributes syntax) [] isProcedural isFromBind;
      pushResult sym;;
      mret names'
  | Some d =>
      sym ← recurseCheckerArray checker instance context (dimensions d)
              (attributes syntax) [] isProcedural isFromBind;
      pushResult sym;;
      mret names'
  end.

(** [createCheckers]. *)
Definition createCheckers (checker : CheckerSymbol) (syntax : InstantiationSyntax)
    (context : ASTContext) (isProcedural isFromBind : bool) : M unit :=
  (match parameters syntax with
   | Some p => addDiag CheckerParameterAssign (pvas_sourceRange p)
   | None => mret tt
   end);;
  foldM (createCheckers_body checker syntax context isProcedural isFromBind)
        ∅ (instances syntax);;
  mret tt.

(** [CheckerInstanceSymbol::fromSyntax(checker, syntax, ...)] for a hierarchy
    instantiation whose type is a checker. *)
Definition CheckerInstanceSymbol_fromSyntax_hierarchy (checker : CheckerSymbol)
    (syntax : InstantiationSyntax) (context : ASTContext) (isFromBind : bool)
  : M unit :=
  createCheckers checker syntax context false isFromBind.

(** [CheckerInstanceSymbol::fromSyntax(syntax, ...)] for a checker
    instantiation. *)
Definition CheckerInstanceSymbol_fromSyntax (syntax : InstantiationSyntax)
    (context : ASTContext) (isFromBind : bool) : M unit :=
  if Scope_isUninstantiated (scope context) then
    UninstantiatedDefSymbol_fromSyntax_checker syntax context
  else
    logEvent (EvLookupName (typeName syntax));;
    match lookupName context (typeName syntax) with
    | None => mret tt
    | Some (FoundChecker c) =>
        createCheckers c syntax context
          (parentIsCheckerInstanceStatement syntax) isFromBind
    | Some (FoundClassType _) =>
        addDiag CheckerClassBadInstantiation (syntax_sourceRange syntax)
    | Some (FoundSubroutine _) =>
        addDiag CheckerFuncBadInstantiation (syntax_sourceRange syntax)
    | Some (FoundOther _) =>
        addDiag NotAChecker (syntax_sourceRange syntax)
    end.

(* ===================================================================== *)
(** * InstanceSymbol::fromSyntax                                          *)
(* ===================================================================== *)

(** An entry of the [parentStack] of [findInstanceOverrideNode]: the name of
    the symbol and, when the symbol is an instance, its address and the name
    of its definition. *)
Record StackSymbol := {
  ss_name : string;
  ss_instance : option (Addr * string) }.

(** The [while (true)] loop of [findInstanceOverrideNode]: the symbols from
    the scope up to the root instance of the configuration (or to the top),
    in the order they are pushed.  An instance body without a parent
    instance violates the assertion of the loop; there is no stack then. *)
Fixpoint parentStackOf (root : Addr) (sc : Scope) : option (list StackSymbol) :=
  let continue (sym : StackSymbol) (stop : bool) (parent : option Scope) :=
    match parent with
    | None => Some [sym]
    | Some p =>
        if stop then Some [sym]
        else match parentStackOf root p with
             | Some rest => Some (sym :: rest)
             | None => None
             end
    end in
  match sc with
  | ScopeInstanceBody b (Some (inst, parent)) =>
      continue {| ss_name := ei_name inst;
                  ss_instance := Some (ei_addr inst, def_name (eb_definition b)) |}
               (bool_decide (ei_addr inst = root)) parent
  | ScopeInstanceBody _ None => None
  | ScopeCheckerInstanceBody name _ _ _ parent _
  | ScopeGenerateBlock name _ parent
  | ScopeStatementBlock name _ parent
  | ScopeOther name parent =>
      continue {| ss_name := name; ss_instance := None |} false parent
  end.

(** [findInstanceOverrideNode]. *)
Definition findInstanceOverrideNode (resolved : ResolvedConfig) (sc : Scope)
  : option InstanceOverride :=
  let instOverrides := instanceOverrides (useConfig resolved) in
  if bool_decide (size instOverrides = 0) then None
  else
    match parentStackOf (rootInstance resolved) sc with
    | None => None
    | Some parentStack =>
        match reverse parentStack with
        | [] => None
        | rootSym :: below =>
            let rootName :=
              match ss_instance rootSym with
              | Some (_, definitionName) => definitionName
              | None => ss_name rootSym
              end in
            match instOverrides !! rootName with
            | None => None
            | Some rootNode =>
                match findNode (map ss_name below) rootNode with
                | None => None
                | Some node =>
                    if bool_decide (size (childNodes node) = 0) then None
                    else Some node
                end
            end
        end
    end.

(** The [do ... while (currScope)] loop at the head of
    [InstanceSymbol::fromSyntax]: the enclosing instance body (with the
    instance that owns it), and the flags [isUninstantiated] and
    [inChecker]. *)
Fixpoint findParentInst (currScope : Scope) (isUninstantiated inChecker : bool)
  : option (EnclosingBody * option (EnclosingInstance * option Scope))
    * bool * bool :=
  let continue (u c : bool) (next : option Scope) :=
    match next with
    | Some p => findParentInst p u c
    | None => (None, u, c)
    end in
  match currScope with
  | ScopeInstanceBody b parentInstance =>
      (Some (b, parentInstance), isUninstantiated || eb_isUninstantiated b,
       inChecker)
  | ScopeCheckerInstanceBody _ u _ _ _ parentInstanceScope =>
      continue (isUninstantiated || u) true parentInstanceScope
  | ScopeGenerateBlock _ u parent =>
      continue (isUninstantiated || u) inChecker parent
  | ScopeStatementBlock _ _ parent
  | ScopeOther _ parent =>
      continue isUninstantiated inChecker parent
  end.

(** What the [createInstances] lambda does for one instance of the
    statement, be it the [specificInstance] or an iteration of its loop over
    [syntax.instances]: the implicit nets of the connections, then the
    instance, which is appended to [results]. *)
Definition createInstances_body (builder : InstanceBuilder)
    (context : ASTContext) (implicitNetNames : gset string)
    (instanceSyntax : HierarchicalInstanceSyntax) : M (gset string) :=
  names' ← createImplicitNets instanceSyntax context implicitNetNames;
  sym ← InstanceBuilder_create builder instanceSyntax;
  pushResult sym;;
  mret names'.

(** The variables that the [createInstances] lambda captures and only reads. *)
Record Captured := {
  cap_syntax : InstantiationSyntax;
  cap_context : ASTContext;
  cap_parentInst : option EnclosingBody;
  cap_inChecker : bool;
  cap_owningDefinition : option DefinitionSymbol;
  cap_parentOverrideNode : option HierarchyOverrideNode;
  cap_resolvedConfig : option (Addr * ResolvedConfig) }.

(** The [createInstances] lambda.  It captures everything by reference; the
    two captured variables that it writes, the set [implicitNetNames] and
    the parameter [isFromBind] of the enclosing function, are passed in and
    handed back, so that an assignment made by one call is seen by the
    next.  An [as<DefinitionSymbol>()] on a configuration block is an
    invariant violation that aborts; no symbol is produced then. *)
Definition createInstances (cap : Captured) (def : option DefinitionLike)
    (specificInstance : option HierarchicalInstanceSyntax)
    (confRule : option ConfigRule) (newRoot : option ConfigBlockSymbol)
    (shared : gset string * bool) : M (gset string * bool) :=
  let '(implicitNetNames, isFromBind) := shared in
  let syntax := cap_syntax cap in
  let context := cap_context cap in
  let site :=
    match confRule, specificInstance with
    | Some _, Some inst => his_sourceRange inst
    | _, _ => typeRange syntax
    end in
  match def with
  | None =>
      names ← UninstantiatedDefSymbol_fromSyntax_specific syntax specificInstance
                context implicitNetNames;
      mret (names, isFromBind)
  | Some (IsPrimitive primitive) =>
      PrimitiveInstanceSymbol_fromSyntax primitive syntax context;;
      rs ← getResults;
      (if bool_decide (rs ≠ []) then
         if match cap_owningDefinition cap with
            | None => true
            | Some owning =>
                bool_decide (definitionKind owning ≠ DefinitionKind_Module)
            end || cap_inChecker cap
         then addDiag InvalidPrimInstanceForParent site
         else if isFromBind then addDiag BindTargetPrimitive site
         else mret tt
       else mret tt);;
      mret (implicitNetNames, isFromBind)
  | Some (IsConfigBlock _) => mret (implicitNetNames, isFromBind)
  | Some (IsDefinition definition) =>
      logEvent (EvNoteInstantiated (def_name definition));;
      (if cap_inChecker cap then addDiag InvalidInstanceForParent site
       else
         match cap_owningDefinition cap with
         | Some owning =>
             if bool_decide (definitionKind owning = DefinitionKind_Program)
                || (bool_decide (definitionKind owning = DefinitionKind_Interface)
                    && bool_decide (definitionKind definition = DefinitionKind_Module))
             then addDiag InvalidInstanceForParent site
             else mret tt
         | None => mret tt
         end);;
      let parentIsFromBind :=
        match cap_parentInst cap with
        | Some parent => eb_isFromBind parent
        | None => false
        end in
      if parentIsFromBind && isFromBind then
        addDiag BindUnderBind site;;
        mret (implicitNetNames, isFromBind)
      else
        let isFromBind' := if parentIsFromBind then true else isFromBind in
        localConfig ←
          match confRule with
          | Some cr =>
              match cap_resolvedConfig cap with
              | Some (_, resolved) =>
                  let rc := ResolvedConfig_setConfigRule (Some cr) resolved in
                  let rc' :=
                    match liblist cr with
                    | Some l => ResolvedConfig_setLiblist l rc
                    | None => rc
                    end in
                  a ← emplaceResolvedConfig rc';
                  mret (Some (a, rc'))
              | None => mret None
              end
          | None => mret (cap_resolvedConfig cap)
          end;
        let builder :=
          {| bld_context := context; bld_definition := definition;
             parentOverrideNode := cap_parentOverrideNode cap;
             bld_attributes := attributes syntax;
             bld_resolvedConfig := localConfig;
             newConfigRoot := newRoot;
             bld_isFromBind := isFromBind' |} in
        match specificInstance with
        | Some inst =>
            names ← createInstances_body builder context implicitNetNames inst;
            mret (names, isFromBind')
        | None =>
            names ← foldM (createInstances_body builder context)
                          implicitNetNames (instances syntax);
            mret (names, isFromBind')
        end
  end.

(** The definition that a per-instance rule resolves to, and the new
    configuration root when the rule names a configuration: the root must
    list exactly one top cell, which is then looked up in it. *)
Definition resolveRuleTarget (comp : Compilation) (def : option DefinitionLike)
  : option DefinitionLike * option ConfigBlockSymbol :=
  match def with
  | Some (IsConfigBlock root) =>
      match topCells root with
      | [cell] => (getDefinitionForCell comp root cell, Some root)
      | _ => (None, Some root)
      end
  | _ => (def, None)
  end.

(** One iteration of the loop over the instances of a statement that a
    per-instance override node applies to.  [explicitDef] caches the default
    lookup. *)
Definition createOverriddenInstance (cap : Captured) (node : InstanceOverride)
    (st : option (option DefinitionLike) * (gset string * bool))
    (instSyntax : HierarchicalInstanceSyntax)
  : M (option (option DefinitionLike) * (gset string * bool)) :=
  let '(explicitDef, shared) := st in
  let syntax := cap_syntax cap in
  let context := cap_context cap in
  let comp := getCompilation context in
  let defName := type syntax in
  let instName := getNameLoc instSyntax in
  match childNodes node !! instName ≫= rule with
  | Some r =>
      logEvent (EvGetDefinition defName true);;
      let '(def, newRoot) :=
        resolveRuleTarget comp (getDefinition comp defName (scope context) (Some r)) in
      shared' ← createInstances cap def (Some instSyntax) (Some r) newRoot shared;
      mret (explicitDef, shared')
  | None =>
      def ← match explicitDef with
            | Some d => mret d
            | None =>
                logEvent (EvGetDefinition defName false);;
                mret (getDefinition comp defName (scope context) None)
            end;
      shared' ← createInstances cap def (Some instSyntax) None None shared;
      mret (Some def, shared')
  end.

(** [InstanceSymbol::fromSyntax]. *)
Definition InstanceSymbol_fromSyntax (syntax : InstantiationSyntax)
    (context : ASTContext) (isFromBind : bool) : M unit :=
  let comp := getCompilation context in
  let defName := type syntax in
  let '(parentInst, isUninstantiated, inChecker) :=
    findParentInst (scope context) false false in
  if isUninstantiated then UninstantiatedDefSymbol_fromSyntax syntax context
  else
    logEvent (EvLookupUnqualified defName);;
    match lookupUnqualified context defName with
    | Some (FoundChecker c) =>
        CheckerInstanceSymbol_fromSyntax_hierarchy c syntax context isFromBind
    | _ =>
        let cap :=
          {| cap_syntax := syntax; cap_context := context;
             cap_parentInst := fst <$> parentInst;
             cap_inChecker := inChecker;
             cap_owningDefinition := (fun p => eb_definition (fst p)) <$> parentInst;
             cap_parentOverrideNode :=
               match parentInst with
               | Some (b, _) =>
                   match eb_hierarchyOverrideNode b with
                   | Some _ => findParentOverrideNode context
                   | None => None
                   end
               | None => None
               end;
             cap_resolvedConfig :=
               match parentInst with
               | Some (_, Some (inst, _)) => ei_resolvedConfig inst
               | _ => None
               end |} in
        let overrideNode :=
          match cap_resolvedConfig cap with
          | Some (_, resolved) => findInstanceOverrideNode resolved (scope context)
          | None => None
          end in
        match overrideNode with
        | Some node =>
            foldM (createOverriddenInstance cap node) (None, (∅, isFromBind))
                  (instances syntax);;
            mret tt
        | None =>
            logEvent (EvGetDefinition defName false);;
            createInstances cap (getDefinition comp defName (scope context) None)
              None None None (∅, isFromBind);;
            mret tt
        end
    end.

(* ===================================================================== *)
(** * Port connections of an instance                                     *)
(* ===================================================================== *)

Inductive PortKind :=
| Port_Plain
| Port_Multi
| Port_Interface (interfaceDef : option DefinitionSymbol).

Record Port := {
  port_addr : Addr;
  port_name : string;
  port_kind : PortKind }.

(** What a port is connected to: an expression of the instantiation (if
    any), or an interface instance created for the port. *)
Inductive ConnectionActual :=
| ActualExpr (e : option PropertyExprSyntax)
| ActualDefaultInterface (definition : DefinitionSymbol).

Record PortConnection := {
  pc_port : Addr;
  pc_actual : ConnectionActual }.

(** The lazily elaborated port list of the body, as the one-shot cell of the
    design notes. *)
Inductive LazyState := Unset | InProgress | Ready.

#[global] Instance LazyState_eq_dec : EqDecision LazyState.
Proof. solve_decision. Defined.

(** The order of the operations on the connection map, kept for the
    statements about re-entrancy; [depth] counts the calls of
    [resolvePortConnections] that are active. *)
Inductive PortEvent :=
| EvEnterResolve (depth : nat)
| EvObserveSet (depth : nat)
| EvAllocMap (depth : nat)
| EvMakeConnections (depth : nat).

#[global] Instance PortEvent_eq_dec : EqDecision PortEvent.
Proof. solve_decision. Defined.

(** The mutable members of an [InstanceSymbol] that port resolution writes
    ([connectionMap], [connections]), the cell of its body, and the
    connection objects of the arena. *)
Record InstanceState := {
  connectionMap : option (gmap Addr Addr);
  inst_connections : list Addr;
  bodyPorts : LazyState;
  connectionStore : gmap Addr PortConnection;
  nextConnection : Addr;
  active : nat;
  portLog : list PortEvent }.

Definition InstanceState_initial : InstanceState :=
  {| connectionMap := None; inst_connections := []; bodyPorts := Unset;
     connectionStore := ∅; nextConnection := 0; active := 0; portLog := [] |}.

(** What stays fixed for the instance: the ports of its body, its syntax
    (the connections of the instantiation, none for a top-level instance),
    whether it is a top-level instance, the compilation flag
    [AllowTopLevelIfacePorts], the ports whose connections the elaboration
    of the body asks for (the re-entrant calls), and the expression that
    [PortConnection::makeConnections], which is declared outside the
    sources, connects to each port. *)
Record InstanceEnv := {
  portList : list Port;
  instanceSyntax : option HierarchicalInstanceSyntax;
  isTopLevel : bool;
  allowTopLevelIfacePorts : bool;
  reentrantCalls : list Addr;
  connectPort : Port → option PropertyExprSyntax }.

Definition setBodyPorts (l : LazyState) (s : InstanceState) : InstanceState :=
  {| connectionMap := connectionMap s; inst_connections := inst_connections s;
     bodyPorts := l; connectionStore := connectionStore s;
     nextConnection := nextConnection s; active := active s;
     portLog := portLog s |}.

Definition setConnectionMap (m : option (gmap Addr Addr)) (s : InstanceState) :=
  {| connectionMap := m; inst_connections := inst_connections s;
     bodyPorts := bodyPorts s; connectionStore := connectionStore s;
     nextConnection := nextConnection s; active := active s;
     portLog := portLog s |}.

Definition setConnections (l : list Addr) (s : InstanceState) :=
  {| connectionMap := connectionMap s; inst_connections := l;
     bodyPorts := bodyPorts s; connectionStore := connectionStore s;
     nextConnection := nextConnection s; active := active s;
     portLog := portLog s |}.

Definition setActive (n : nat) (s : InstanceState) :=
  {| connectionMap := connectionMap s; inst_connections := inst_connections s;
     bodyPorts := bodyPorts s; connectionStore := connectionStore s;
     nextConnection := nextConnection s; active := n;
     portLog := portLog s |}.

Definition logPort (e : PortEvent) (s : InstanceState) :=
  {| connectionMap := connectionMap s; inst_connections := inst_connections s;
     bodyPorts := bodyPorts s; connectionStore := connectionStore s;
     nextConnection := nextConnection s; active := active s;
     portLog := portLog s ++ [e] |}.

(** [comp.emplace<PortConnection>(...)]. *)
Definition emplaceConnection (c : PortConnection) (s : InstanceState)
  : Addr * InstanceState :=
  (nextConnection s,
   {| connectionMap := connectionMap s; inst_connections := inst_connections s;
      bodyPorts := bodyPorts s;
      connectionStore := <[nextConnection s := c]> (connectionStore s);
      nextConnection := S (nextConnection s); active := active s;
      portLog := portLog s |}).

(** [connectionMap->emplace(port, conn)]: an existing entry is kept. *)
Definition mapEmplace (port conn : Addr) (s : InstanceState) : InstanceState :=
  match connectionMap s with
  | Some m =>
      match m !! port with
      | Some _ => s
      | None => setConnectionMap (Some (<[port := conn]> m)) s
      end
  | None => s
  end.

(** The part of [resolvePortConnections] after the syntax has been found:
    [makeConnections] yields one connection per port, in port order, and
    each is entered into the map. *)
Definition connectFromSyntax (env : InstanceEnv) (s : InstanceState)
  : InstanceState :=
  let '(conns, s1) :=
    foldl (fun acc port =>
             let '(cs, st) := acc in
             let '(c, st') :=
               emplaceConnection {| pc_port := port_addr port;
                                    pc_actual := ActualExpr (connectPort env port) |}
                                 st in
             (cs ++ [(port_addr port, c)], st'))
          ([], s) (portList env) in
  let s2 := foldl (fun st pc => mapEmplace (fst pc) (snd pc) st) s1 conns in
  setConnections (map snd conns) s2.

(** [InstanceSymbol::connectDefaultIfacePorts]; the port list of the body is
    available when it runs. *)
Definition connectDefaultIfacePorts (env : InstanceEnv) (s : InstanceState)
  : InstanceState :=
  let '(conns, s1) :=
    foldl (fun acc port =>
             let '(cs, st) := acc in
             match port_kind port with
             | Port_Interface (Some def) =>
                 let '(c, st') :=
                   emplaceConnection {| pc_port := port_addr port;
                                        pc_actual := ActualDefaultInterface def |}
                                     st in
                 (cs ++ [c], mapEmplace (port_addr port) c st')
             | _ => (cs, st)
             end)
          ([], s) (portList env) in
  setConnections conns s1.

(** [InstanceSymbol::getPortConnection(port)], given the resolver that it
    calls when the map is not set. *)
Definition getPortConnection_with
    (resolve : InstanceState → option InstanceState) (port : Addr)
    (s : InstanceState) : option (option Addr * InstanceState) :=
  match connectionMap s with
  | Some m => Some (m !! port, s)
  | None =>
      match resolve s with
      | Some s' =>
          Some (match connectionMap s' with
                | Some m => m !! port
                | None => None
                end, s')
      | None => None
      end
  end.

(** The connection requests that the elaboration of the body makes, in
    order; [demand] is [getPortConnection]. *)
Fixpoint reentrantDemands
    (demand : Addr → InstanceState → option (option Addr * InstanceState))
    (ports : list Addr) (s : InstanceState) : option InstanceState :=
  match ports with
  | [] => Some s
  | port :: rest =>
      match demand port s with
      | Some (_, s') => reentrantDemands demand rest s'
      | None => None
      end
  end.

(** Modelled from the spec: [InstanceBodySymbol::getPortList] is declared
    outside the sources.  The first demand elaborates the body; while that
    is in progress the port list is already available to a re-entrant
    demand, and the elaboration may ask the instance for the connection of
    a port ([reentrantCalls]). *)
Definition InstanceBodySymbol_getPortList
    (demand : Addr → InstanceState → option (option Addr * InstanceState))
    (env : InstanceEnv) (s : InstanceState) : option InstanceState :=
  match bodyPorts s with
  | Unset =>
      match reentrantDemands demand (reentrantCalls env)
              (setBodyPorts InProgress s) with
      | Some s' => Some (setBodyPorts Ready s')
      | None => None
      end
  | _ => Some s
  end.

(** The part of [resolvePortConnections] that follows the call of
    [body.getPortList()], in the call at nesting [depth]. *)
Definition resolveWithPortList (env : InstanceEnv) (depth : nat)
    (s : InstanceState) : InstanceState :=
  match connectionMap s with
  | Some _ => logPort (EvObserveSet depth) s
  | None =>
      let s' := setConnectionMap (Some ∅) (logPort (EvAllocMap depth) s) in
      match instanceSyntax env with
      | None =>
          if isTopLevel env && allowTopLevelIfacePorts env
          then connectDefaultIfacePorts env s'
          else s'
      | Some _ => connectFromSyntax env (logPort (EvMakeConnections depth) s')
      end
  end.

(** [InstanceSymbol::resolvePortConnections].  It calls itself through
    [getPortList] and [getPortConnection], so it takes fuel; [None] is the
    answer of a run that ran out of it. *)
Fixpoint InstanceSymbol_resolvePortConnections (fuel : nat) (env : InstanceEnv)
    (s : InstanceState) : option InstanceState :=
  match fuel with
  | O => None
  | S fuel' =>
      let depth := S (active s) in
      match InstanceBodySymbol_getPortList
              (getPortConnection_with
                 (InstanceSymbol_resolvePortConnections fuel' env))
              env (logPort (EvEnterResolve depth) (setActive depth s)) with
      | None => None
      | Some s1 =>
          Some (setActive (active s) (resolveWithPortList env depth s1))
      end
  end.

(** [InstanceSymbol::getPortConnections]. *)
Definition InstanceSymbol_getPortConnections (fuel : nat) (env : InstanceEnv)
    (s : InstanceState) : option (list Addr * InstanceState) :=
  match connectionMap s with
  | Some _ => Some (inst_connections s, s)
  | None =>
      match InstanceSymbol_resolvePortConnections fuel env s with
      | Some s' => Some (inst_connections s', s')
      | None => None
      end
  end.

(** The contents of the connection map: for every port, what it is
    connected to. *)
Definition mapContents (s : InstanceState) : gmap Addr PortConnection :=
  match connectionMap s with
  | Some m => omap (fun c => connectionStore s !! c) m
  | None => ∅
  end.

(* ===================================================================== *)
(** * Port connections of a primitive instance                            *)
(* ===================================================================== *)

Inductive ArgumentDirection :=
| ArgumentDirection_In
| ArgumentDirection_Out
| ArgumentDirection_InOut.

#[global] Instance ArgumentDirection_eq_dec : EqDecision ArgumentDirection.
Proof. solve_decision. Defined.

(** [Expression::bindArgument(type, direction, syntax, context)]: the
    direction and the expression that is bound. *)
Record BoundArgument := {
  ba_direction : ArgumentDirection;
  ba_expr : nat }.

(** The first loop of [PrimitiveInstanceSymbol::getPortConnections]: the
    simple expression of every connection ([None] for the empty connection
    of a user-defined primitive), or nothing when a connection is invalid;
    with the diagnostics reported. *)
Fixpoint collectConns (requireSimpleExpr : PropertyExprSyntax → option nat)
    (kind : PrimitiveKind) (conns : list PortConnectionSyntax)
  : option (list (option nat)) * list Diagnostic :=
  match conns with
  | [] => (Some [], [])
  | port :: rest =>
      match port with
      | OrderedPortConnection e _ =>
          match requireSimpleExpr e with
          | None => (None, [])
          | Some expr =>
              let '(r, ds) := collectConns requireSimpleExpr kind rest in
              (cons (Some expr) <$> r, ds)
          end
      | EmptyPortConnection range =>
          if bool_decide (kind ≠ UserDefined) then
            (None, [{| diagCode := InvalidPrimitivePortConn; diagRange := range |}])
          else
            let '(r, ds) := collectConns requireSimpleExpr kind rest in
            (cons None <$> r,
             {| diagCode := EmptyUdpPort; diagRange := range |} :: ds)
      | NamedPortConnection _ _ range
      | WildcardPortConnection range =>
          (None, [{| diagCode := InvalidPrimitivePortConn; diagRange := range |}])
      end
  end.

(** The direction that the loop over the connections of an N-input or
    N-output gate computes for connection [i] of [size]. *)
Definition nGateDirection (kind : PrimitiveKind) (i size : nat)
  : ArgumentDirection :=
  if bool_decide (kind = NInput) then
    if bool_decide (i = 0) then ArgumentDirection_Out else ArgumentDirection_In
  else
    if bool_decide (size - 1 ≠ 0) then ArgumentDirection_In
    else ArgumentDirection_Out.

Definition portDirection (d : PrimitivePortDirection) : ArgumentDirection :=
  match d with
  | PrimitivePortDirection_In => ArgumentDirection_In
  | PrimitivePortDirection_InOut => ArgumentDirection_InOut
  | PrimitivePortDirection_Out | PrimitivePortDirection_OutReg =>
      ArgumentDirection_Out
  end.

(** [PrimitiveInstanceSymbol::getPortConnections] on an instance whose
    [ports] member is not set yet: the bound arguments that it stores and
    returns, and the diagnostics.  [requireSimpleExpr] is the method of the
    context. *)
Definition PrimitiveInstanceSymbol_getPortConnections
    (requireSimpleExpr : PropertyExprSyntax → option nat)
    (primitiveType : PrimitiveSymbol) (his : HierarchicalInstanceSyntax)
  : list BoundArgument * list Diagnostic :=
  let kind := primitiveKind primitiveType in
  match collectConns requireSimpleExpr kind (connections his) with
  | (None, ds) => ([], ds)
  | (Some conns, ds) =>
      if bool_decide (kind = NInput) || bool_decide (kind = NOutput) then
        if bool_decide (length conns < 2) then
          ([], ds ++ [{| diagCode := InvalidNGateCount;
                         diagRange := his_sourceRange his |}])
        else
          (omap id
             (imap (fun i c =>
                      (fun e => {| ba_direction := nGateDirection kind i (length conns);
                                   ba_expr := e |}) <$> c)
                   conns),
           ds)
      else
        if bool_decide (length conns ≠ length (prim_ports primitiveType)) then
          ([], ds ++ [{| diagCode := PrimitivePortCountWrong;
                         diagRange := his_sourceRange his |}])
        else
          (omap id
             (zip_with (fun c d =>
                          (fun e => {| ba_direction := portDirection d;
                                       ba_expr := e |}) <$> c)
                       conns (prim_ports primitiveType)),
           ds)
  end.


(* ********************************************************************* *)
(** * Predicates and example inputs for the properties below             *)
(* ********************************************************************* *)

(** A configuration with two [instance top.a use ...] rules, the second of
    which names another cell. *)
Definition conflictingConfig : ConfigDeclarationSyntax :=
  {| cds_name := "cfg";
     cds_topCells := [{| ccis_library := ""; ccis_cell := "top";
                         ccis_sourceRange := 1 |}];
     cds_rules :=
       [InstanceConfigRule "top" ["a"]
          (ConfigUseClause (Some {| ccis_library := ""; ccis_cell := "foo";
                                    ccis_sourceRange := 2 |}) None false) 3;
        InstanceConfigRule "top" ["a"]
          (ConfigUseClause (Some {| ccis_library := ""; ccis_cell := "bar";
                                    ccis_sourceRange := 4 |}) None false) 5] |}.


(** The [buf] gate with one output and one input connected. *)
Definition bufGate : PrimitiveSymbol :=
  {| prim_name := "buf"; primitiveKind := NOutput; prim_ports := [] |}.


Definition bufInstance : HierarchicalInstanceSyntax :=
  {| decl := Some {| decl_name := "b1"; dimensions := [] |};
     connections := [OrderedPortConnection 10 1; OrderedPortConnection 11 2];
     his_sourceRange := 3 |}.


(** A package keeps what is fixed about it; its flag can only be set. *)
Definition pkg_le (a b : PackageSymbol) : Prop :=
  pkg_name b = pkg_name a ∧ pkg_members b = pkg_members a
  ∧ hasExportAll b = hasExportAll a ∧ exportDecls b = exportDecls a
  ∧ pkg_body b = pkg_body a
  ∧ (hasForceElaborated a = true → hasForceElaborated b = true).


Definition pkgs_le (s s' : PkgState) : Prop :=
  ∀ q, match packages s !! q, packages s' !! q with
       | Some a, Some b => pkg_le a b
       | None, None => True
       | _, _ => False
       end.


(** What a lookup does to the state: packages keep their fixed part, and the
    trace grows by events among which no package that was already
    elaborated is elaborated again. *)
Definition pkgExtends (s s' : PkgState) : Prop :=
  pkgs_le s s'
  ∧ ∃ ext, pkgTrace s' = pkgTrace s ++ ext
           ∧ ∀ p pkg, packages s !! p = Some pkg →
                      hasForceElaborated pkg = true → forceCount p ext = 0.


(** A package without export declarations; nothing in it is called [N]. *)
Definition plainPackage : PackageSymbol :=
  {| pkg_name := "P"; pkg_members := ∅; hasExportAll := false;
     exportDecls := []; hasForceElaborated := false; pkg_body := [] |}.


Definition plainState : PkgState :=
  {| packages := {[ 0 := plainPackage ]}; exportCandidates := ∅; pkgTrace := [] |}.


(** Two packages: [Q] exports everything and imports [P] by wildcard; the
    elaboration of [Q] looks [x] up in [P]. *)
Definition exportingState : PkgState :=
  {| packages :=
       {[ 0 := {| pkg_name := "P";
                  pkg_members := {[ "x" := {| sym_name := "x"; sym_package := "P" |} ]};
                  hasExportAll := false; exportDecls := [];
                  hasForceElaborated := false; pkg_body := [] |};
          1 := {| pkg_name := "Q"; pkg_members := ∅;
                  hasExportAll := true; exportDecls := [];
                  hasForceElaborated := false;
                  pkg_body := [{| wl_package := 0; wl_name := "x" |}] |} ]};
     exportCandidates := ∅; pkgTrace := [] |}.


(** What connecting ports leaves alone: the cell of the body, the nesting
    depth and the log; and a map that is set stays set. *)
Definition sameControl (s s' : InstanceState) : Prop :=
  bodyPorts s' = bodyPorts s ∧ active s' = active s ∧ portLog s' = portLog s
  ∧ (is_Some (connectionMap s) → is_Some (connectionMap s')).


(** Number of allocations of the map that a log records. *)
Definition allocations (l : list PortEvent) : nat :=
  length (List.filter (λ e, match e with EvAllocMap _ => true | _ => false end) l).


(** Number of calls of [makeConnections] that a log records. *)
Definition connectionsMade (l : list PortEvent) : nat :=
  length (List.filter (λ e, match e with EvMakeConnections _ => true | _ => false end) l).


(** An instance with an interface port and a plain port whose body asks for
    the connection of the interface port while it is elaborated. *)
Definition reentrantEnv : InstanceEnv :=
  {| portList := [{| port_addr := 100; port_name := "iface";
                     port_kind := Port_Interface None |};
                  {| port_addr := 101; port_name := "foo";
                     port_kind := Port_Plain |}];
     instanceSyntax := Some {| decl := Some {| decl_name := "m"; dimensions := [] |};
                               connections := []; his_sourceRange := 1 |};
     isTopLevel := false; allowTopLevelIfacePorts := false;
     reentrantCalls := [100];
     connectPort := fun p => Some (port_addr p) |}.

(** A computation keeps an invariant of the state. *)
Definition preserves (I : Elab → Prop) {A} (m : M A) : Prop :=
  ∀ s, I s → I (m s).2.

(** An instance array either is the empty one or has as many elements as its
    range is wide. *)
Definition goodArray (a : InstanceArraySymbol) : Prop :=
  (elements a = [] ∧ arr_range a = ConstantRange_default)
  ∨ length (elements a) = Z.to_nat (width (arr_range a)).

(** What an invariant of the elaboration state must be stable under: the
    steps that the elaboration functions are composed of.  [goodBuilder]
    singles out the instance builders whose instances keep the invariant. *)
Record Stable (I : Elab → Prop) (goodBuilder : InstanceBuilder → Prop) : Prop := {
  stable_addDiag : ∀ c r, preserves I (addDiag c r);
  stable_logEvent : ∀ e, preserves I (logEvent e);
  stable_pushResult : ∀ a, preserves I (pushResult a);
  stable_pushImplicitNet : ∀ a, preserves I (pushImplicitNet a);
  stable_getResults : preserves I getResults;
  stable_setName : ∀ a n, preserves I (modify a (Symbol_setName n));
  stable_setParent : ∀ a p, preserves I (modify a (Symbol_setParent p));
  stable_setArraySyntax :
    ∀ a syn, preserves I (modify a (Symbol_setArraySyntax syn));
  stable_setMustBeChecker : ∀ a, preserves I (modify a Symbol_setMustBeChecker);
  stable_net : ∀ n, preserves I (emplace (SNet n));
  stable_uninstantiated : ∀ u, preserves I (emplace (SUninstantiatedDef u));
  stable_primitive : ∀ p, preserves I (emplace (SPrimitiveInstance p));
  stable_array : ∀ a, goodArray a → preserves I (emplace (SInstanceArray a));
  stable_emplaceResolvedConfig : ∀ rc, preserves I (emplaceResolvedConfig rc);
  stable_createInstance :
    ∀ b syn node path, goodBuilder b →
      preserves I (InstanceBuilder_createInstance b syn node path);
  stable_checker :
    ∀ ctx chk syn attrs path ip fb,
      preserves I (CheckerInstanceSymbol_fromSyntax_instance ctx chk syn attrs
                     path ip fb) }.

(** Every instance array of the arena is well-formed. *)
Definition arrayInv (s : Elab) : Prop :=
  ∀ a arr, symbols s !! a = Some (SInstanceArray arr) → goodArray arr.

(** An assignment to a member that turns nothing into an array and keeps
    the elements and the range of an array. *)
Definition arrayNeutral (f : Symbol → Symbol) : Prop :=
  ∀ sym arr', f sym = SInstanceArray arr' →
    ∃ arr, sym = SInstanceArray arr ∧ elements arr' = elements arr
           ∧ arr_range arr' = arr_range arr.

(** Which of the three array recursions creates an array, with what it
    carries. *)
Inductive ArrayOwner :=
| OwnerModule (b : InstanceBuilder) (node : option HierarchyOverrideNode)
| OwnerPrimitive (context : ASTContext) (primitive : PrimitiveSymbol)
    (attrs : list AttributeInstanceSyntax)
| OwnerChecker (context : ASTContext) (checker : CheckerSymbol)
    (attrs : list AttributeInstanceSyntax) (isProcedural isFromBind : bool).

Definition ownerContext (o : ArrayOwner) : ASTContext :=
  match o with
  | OwnerModule b _ => bld_context b
  | OwnerPrimitive context _ _ => context
  | OwnerChecker context _ _ _ _ => context
  end.

Definition recurseArray (o : ArrayOwner) (syntax : HierarchicalInstanceSyntax)
    (dims : list VariableDimensionSyntax) (path : list Z) : M Addr :=
  match o with
  | OwnerModule b node => InstanceBuilder_recurse b syntax node dims path
  | OwnerPrimitive context primitive attrs =>
      recursePrimArray primitive syntax context dims attrs path
  | OwnerChecker context checker attrs isProcedural isFromBind =>
      recurseCheckerArray checker syntax context dims attrs path
        isProcedural isFromBind
  end.

(** The array that [createEmpty] stores. *)
Definition emptyArray (name : string) : InstanceArraySymbol :=
  {| arr_name := name; elements := []; arr_range := ConstantRange_default;
     arr_syntax := None; arr_parent := None |}.

(** The body that an instance or a checker instance refers to. *)
Definition bodyOf (sym : Symbol) : option Addr :=
  match sym with
  | SInstance i => Some (body i)
  | SCheckerInstance c => Some (ci_body c)
  | _ => None
  end.

(** The [parentInstance] member of an instance body or a checker instance
    body. *)
Definition ownerOf (sym : Symbol) : option (option Addr) :=
  match sym with
  | SInstanceBody b => Some (ib_parentInstance b)
  | SCheckerInstanceBody b => Some (cib_parentInstance b)
  | _ => None
  end.

(** The variant of a symbol. *)
Definition kindOf (sym : Symbol) : nat :=
  match sym with
  | SInstance _ => 0
  | SInstanceBody _ => 1
  | SInstanceArray _ => 2
  | SPrimitiveInstance _ => 3
  | SCheckerInstance _ => 4
  | SCheckerInstanceBody _ => 5
  | SUninstantiatedDef _ => 6
  | SNet _ => 7
  end.

(** The body of an instance is an instance body, that of a checker instance
    a checker instance body. *)
Definition isBodyFor (sym bsym : Symbol) : Prop :=
  S (kindOf sym) = kindOf bsym.

(** Every object of the arena has an address below the next free one. *)
Definition wfArena (s : Elab) : Prop :=
  ∀ a, is_Some (symbols s !! a) → a < nextAddr s.

(** The invariant of the back-pointers: the body of every instance and of
    every checker instance is in the arena, is of the right variant, and
    points back to the instance. *)
Definition backPointers (s : Elab) : Prop :=
  ∀ a sym b, symbols s !! a = Some sym → bodyOf sym = Some b →
    ∃ bsym, symbols s !! b = Some bsym ∧ isBodyFor sym bsym
            ∧ ownerOf bsym = Some (Some a).

(** Every instance of [s0] is still an instance of the same variant in [s]
    and refers to the same body. *)
Definition persists (s0 s : Elab) : Prop :=
  ∀ a sym b, symbols s0 !! a = Some sym → bodyOf sym = Some b →
    ∃ sym', symbols s !! a = Some sym' ∧ kindOf sym' = kindOf sym
            ∧ bodyOf sym' = Some b.

Definition linked (s0 s : Elab) : Prop :=
  wfArena s ∧ backPointers s ∧ persists s0 s.

(** An assignment to a member that changes neither the variant of a symbol
    nor the two pointers between an instance and its body. *)
Definition benign (f : Symbol → Symbol) : Prop :=
  ∀ sym, kindOf (f sym) = kindOf sym ∧ bodyOf (f sym) = bodyOf sym
         ∧ ownerOf (f sym) = ownerOf sym.

(** One step of an elaboration: an instantiation statement or a checker
    instantiation is elaborated, a default, invalid or virtual instance is
    created, or the caller passes other result vectors. *)
Inductive ElabOp :=
| OpInstantiation (syntax : InstantiationSyntax) (context : ASTContext)
    (isFromBind : bool)
| OpCheckerInstantiation (syntax : InstantiationSyntax) (context : ASTContext)
    (isFromBind : bool)
| OpCreateDefault (definition : DefinitionSymbol)
    (node : option HierarchyOverrideNode)
| OpCreateInvalid (definition : DefinitionSymbol)
| OpCreateVirtual (definition : DefinitionSymbol)
| OpCreateInvalidChecker (checker : CheckerSymbol)
| OpVectors (rs nets : list Addr).

Definition runOp (s : Elab) (op : ElabOp) : Elab :=
  match op with
  | OpInstantiation syntax context isFromBind =>
      (InstanceSymbol_fromSyntax syntax context isFromBind s).2
  | OpCheckerInstantiation syntax context isFromBind =>
      (CheckerInstanceSymbol_fromSyntax syntax context isFromBind s).2
  | OpCreateDefault definition node =>
      (InstanceSymbol_createDefault definition node s).2
  | OpCreateInvalid definition => (InstanceSymbol_createInvalid definition s).2
  | OpCreateVirtual definition => (InstanceSymbol_createVirtual definition s).2
  | OpCreateInvalidChecker checker =>
      (CheckerInstanceSymbol_createInvalid checker s).2
  | OpVectors rs nets =>
      {| nextAddr := nextAddr s; symbols := symbols s;
         resolvedConfigs := resolvedConfigs s; diags := diags s;
         trace := trace s; results := rs; implicitNets := nets |}
  end.

Definition runOps (ops : list ElabOp) (s : Elab) : Elab := foldl runOp s ops.


(** A run from [s0] to [s] that reports nothing, looks nothing up and adds
    only symbols that satisfy [allowed]. *)
Definition quiet (allowed : Symbol → Prop) (s0 s : Elab) : Prop :=
  nextAddr s0 ≤ nextAddr s
  ∧ diags s = diags s0
  ∧ trace s = trace s0
  ∧ resolvedConfigs s = resolvedConfigs s0
  ∧ ∀ a sym, symbols s !! a = Some sym → symbols s0 !! a = Some sym ∨ allowed sym.

(** A run from [s0] to [s] that leaves alone every object that existed. *)
Definition framed (s0 s : Elab) : Prop :=
  nextAddr s0 ≤ nextAddr s
  ∧ ∀ a, a < nextAddr s0 → symbols s !! a = symbols s0 !! a.

Definition isNet (sym : Symbol) : Prop := ∃ n, sym = SNet n.

(** The state in which only nets have been added to [s0]. *)
Definition netsAdded (s0 s : Elab) : Prop :=
  quiet isNet s0 s ∧ framed s0 s ∧ results s = results s0.

(** The diagnostic of an instance without a name. *)
Definition nameRequired (r : SourceRange) : Diagnostic :=
  {| diagCode := InstanceNameRequired; diagRange := r |}.

(** The address that [InstanceBuilder::createInstance] stores in
    [inst->resolvedConfig] of the instance at [a]. *)
Definition createdConfig (b : InstanceBuilder) (a : Addr) : option Addr :=
  match bld_resolvedConfig b with
  | Some (rcAddr, _) =>
      match newConfigRoot b with
      | Some _ => Some (S (S a))
      | None => Some rcAddr
      end
  | None => None
  end.

(** The [depth] and the [parentIsFromBind] that
    [CheckerInstanceSymbol::fromSyntax] computes from the scope of the
    instantiation. *)
Definition assertionDepth (ctx : ASTContext) : nat :=
  match tryFillAssertionDetails (scope ctx) with
  | Some (ParentCheckerBody d _) => S d
  | _ => 0
  end.

Definition assertionParentIsFromBind (ctx : ASTContext) : bool :=
  match tryFillAssertionDetails (scope ctx) with
  | Some (ParentCheckerBody _ fb) => fb
  | Some (ParentInstanceBody fb) => fb
  | None => false
  end.

(** The two conditions under which a checker instantiation yields
    [createInvalid(checker)]. *)
Definition depthExceeded (ctx : ASTContext) : bool :=
  bool_decide (maxCheckerInstanceDepth (getCompilation ctx) < assertionDepth ctx).

Definition checkerBindUnderBind (ctx : ASTContext) (isFromBind : bool) : bool :=
  negb (depthExceeded ctx) && assertionParentIsFromBind ctx && isFromBind.

(** The body and the instance that [createInvalid(checker)] leaves in the
    arena. *)
Definition invalidCheckerBody (chk : CheckerSymbol) (this : Addr)
  : CheckerInstanceBodySymbol :=
  {| cib_checker := chk; instanceDepth := 0; isProcedural := false;
     cib_isFromBind := false; cib_isUninstantiated := true;
     cib_parentInstance := Some this |}.

Definition invalidCheckerInstance (chk : CheckerSymbol) (b : Addr)
  : CheckerInstanceSymbol :=
  {| ci_name := checker_name chk; ci_body := b; ci_arrayPath := [];
     ci_syntax := None; ci_attributes := []; ci_parent := None |}.

(** The body and the instance of a checker instantiation that is accepted. *)
Definition validCheckerBody (ctx : ASTContext) (chk : CheckerSymbol)
    (isProcedural isFromBind : bool) (this : Addr) : CheckerInstanceBodySymbol :=
  {| cib_checker := chk; instanceDepth := assertionDepth ctx;
     isProcedural := isProcedural;
     cib_isFromBind := assertionParentIsFromBind ctx || isFromBind;
     cib_isUninstantiated := false;
     cib_parentInstance := Some this |}.

Definition validCheckerInstance (syn : HierarchicalInstanceSyntax)
    (attrs : list AttributeInstanceSyntax) (path : list Z) (b : Addr)
  : CheckerInstanceSymbol :=
  {| ci_name := getNameLoc syn; ci_body := b; ci_arrayPath := path;
     ci_syntax := Some syn; ci_attributes := attrs; ci_parent := None |}.

(** The diagnostics of one checker instance. *)
Definition checkerDiags (ctx : ASTContext) (syn : HierarchicalInstanceSyntax)
    (isProcedural isFromBind : bool) : list Diagnostic :=
  let d c := {| diagCode := c; diagRange := his_sourceRange syn |} in
  if depthExceeded ctx then [d MaxInstanceDepthExceeded]
  else if checkerBindUnderBind ctx isFromBind then [d BindUnderBind]
  else
    (if inForkJoin (scope ctx) then [d CheckerInForkJoin] else [])
    ++ (match tryFillAssertionDetails (scope ctx) with
        | Some (ParentCheckerBody _ _) =>
            if isProcedural then [d CheckerInCheckerProc] else []
        | _ => []
        end).

(** Example inputs: a module body as the scope of a statement, a context
    whose collaborators find nothing, and a statement of one type. *)
Definition topDefinition : DefinitionSymbol :=
  {| def_name := "top"; definitionKind := DefinitionKind_Module |}.

Definition exampleCompilation : Compilation :=
  {| maxInstanceArray := 65535%Z; maxCheckerInstanceDepth := 8;
     getDefinition := fun _ _ _ => None;
     getDefinitionForCell := fun _ _ => None |}.

Definition moduleBody (isUninstantiated isFromBind : bool) : Scope :=
  ScopeInstanceBody
    {| eb_definition := topDefinition; eb_hierarchyOverrideNode := None;
       eb_isUninstantiated := isUninstantiated;
       eb_isFromBind := isFromBind |}
    None.

Definition exampleContext (sc : Scope) : ASTContext :=
  {| scope := sc; getCompilation := exampleCompilation;
     evalDimension := fun _ =>
       {| isRange := true;
          dim_range := {| range_left := 0; range_right := 1 |} |};
     lookupUnqualified := fun _ => None;
     lookupName := fun _ => None;
     findPotentiallyImplicitNets := fun _ => [];
     defaultNetTypeIsError := false;
     findParentOverrideNode := None |}.

Definition statementOf (ty : string) (insts : list HierarchicalInstanceSyntax)
  : InstantiationSyntax :=
  {| type := ty; typeRange := 1; typeName := 0; parameters := None;
     instances := insts; attributes := [];
     parentIsCheckerInstanceStatement := false; syntax_sourceRange := 2 |}.

Definition unnamedInstance : HierarchicalInstanceSyntax :=
  {| decl := None;
     connections := [OrderedPortConnection 10 1; OrderedPortConnection 11 2];
     his_sourceRange := 3 |}.

Definition exampleChecker : CheckerSymbol :=
  {| checker_name := "chk"; checker_location := 0 |}.

(** The scope of a statement lies in an untaken generate arm, in an
    uninstantiated instance body or in an uninstantiated checker body: on
    the way up to the nearest body, a generate block or that body is
    uninstantiated. *)
Inductive insideUninstantiated : Scope → Prop :=
| iu_instanceBody b parentInstance :
    eb_isUninstantiated b = true →
    insideUninstantiated (ScopeInstanceBody b parentInstance)
| iu_checkerBody name fromBind depth parent parentInstanceScope :
    insideUninstantiated
      (ScopeCheckerInstanceBody name true fromBind depth parent
         parentInstanceScope)
| iu_generate name parent :
    insideUninstantiated (ScopeGenerateBlock name true parent)
| iu_generate_up name u parent :
    insideUninstantiated parent →
    insideUninstantiated (ScopeGenerateBlock name u (Some parent))
| iu_block_up name kind parent :
    insideUninstantiated parent →
    insideUninstantiated (ScopeStatementBlock name kind (Some parent))
| iu_other_up name parent :
    insideUninstantiated parent →
    insideUninstantiated (ScopeOther name (Some parent)).

Definition isPlaceholder (sym : Symbol) : Prop := ∃ u, sym = SUninstantiatedDef u.

(** The symbol at [r] is the placeholder of the instance [inst] of a
    statement. *)
Definition placeholderFor (syntax : InstantiationSyntax) (s : Elab) (r : Addr)
    (inst : HierarchicalInstanceSyntax) : Prop :=
  ∃ u, symbols s !! r = Some (SUninstantiatedDef u)
       ∧ ud_name u = getNameLoc inst
       ∧ definitionName u = type syntax
       ∧ ud_syntax u = Some inst
       ∧ ud_attributes u = attributes syntax.

(** What a run from [s0] to [s] may do when the enclosing scope is
    uninstantiated: add nets and placeholders. *)
Definition placeholdersAdded (s0 s : Elab) : Prop :=
  quiet (fun sym => isNet sym ∨ isPlaceholder sym) s0 s.

(** What the loop over the instances [insts] of [syntax] appends to
    [results] on the way from [s0] to [s]: one new placeholder each. *)
Definition placeholdersFor (syntax : InstantiationSyntax)
    (insts : list HierarchicalInstanceSyntax) (s0 s : Elab) : Prop :=
  ∃ rs, results s = results s0 ++ rs
        ∧ Forall2 (placeholderFor syntax s) rs insts
        ∧ Forall (fun r => nextAddr s0 ≤ r < nextAddr s) rs
        ∧ NoDup rs.

(** A statement with two instances in an untaken generate arm of a module. *)
Definition untakenArm : Scope :=
  ScopeGenerateBlock "g" true (Some (moduleBody false false)).

(** Every object and every resolved configuration of the arena has an
    address below the next free one. *)
Definition wfElab (s : Elab) : Prop :=
  wfArena s ∧ ∀ r, is_Some (resolvedConfigs s !! r) → r < nextAddr s.

(** The instance [i] at [a] is what the builder [B] creates: its body is an
    instantiated body of the definition of [B] with the from-bind flag of
    [B], and its resolved configuration is the one [B] passes on or, when
    [B] has a new configuration root, a configuration of its own, stored
    next to the instance and its body, that was constructed from the root
    and the instance. *)
Definition instanceOf (B : InstanceBuilder) (lo : Addr) (s : Elab)
    (a : Addr) (i : InstanceSymbol) : Prop :=
  ∃ bd, symbols s !! body i = Some (SInstanceBody bd)
        ∧ ib_definition bd = bld_definition B
        ∧ ib_isFromBind bd = bld_isFromBind B
        ∧ ib_isUninstantiated bd = false
        ∧ match bld_resolvedConfig B, newConfigRoot B with
          | None, _ => resolvedConfig i = None
          | Some (rcAddr, _), None => resolvedConfig i = Some rcAddr
          | Some (_, resolved), Some root =>
              resolvedConfig i = Some (S (S a))
              ∧ resolvedConfigs s !! S (S a)
                = Some (ResolvedConfig_setConfigRule (configRule resolved)
                          (mkResolvedConfig root a))
          end.

(** Every instance at an address from [lo] on is one that [B] creates. *)
Definition builtBy (B : InstanceBuilder) (lo : Addr) (s : Elab) : Prop :=
  lo ≤ nextAddr s ∧ wfElab s
  ∧ ∀ a i, lo ≤ a → symbols s !! a = Some (SInstance i) → instanceOf B lo s a i.

(** An assignment to a member that leaves bodies alone, turns nothing into
    an instance and keeps the body and the resolved configuration of an
    instance. *)
Definition instanceNeutral (f : Symbol → Symbol) : Prop :=
  (∀ b, f (SInstanceBody b) = SInstanceBody b)
  ∧ ∀ sym i', f sym = SInstance i' →
      ∃ i, sym = SInstance i ∧ body i' = body i
           ∧ resolvedConfig i' = resolvedConfig i.

(** The [parentInst && parentInst->isFromBind] of the [createInstances]
    lambda. *)
Definition parentIsFromBind (cap : Captured) : bool :=
  match cap_parentInst cap with
  | Some parent => eb_isFromBind parent
  | None => false
  end.

(** Where the [addDiag] lambda of [createInstances] reports. *)
Definition diagSite (cap : Captured)
    (specificInstance : option HierarchicalInstanceSyntax)
    (confRule : option ConfigRule) : SourceRange :=
  match confRule, specificInstance with
  | Some _, Some inst => his_sourceRange inst
  | _, _ => typeRange (cap_syntax cap)
  end.

(** An arena whose first [n] addresses are taken by objects that are not
    followed here. *)
Definition arenaFrom (n : Addr) : Elab :=
  {| nextAddr := n; symbols := ∅; resolvedConfigs := ∅; diags := [];
     trace := []; results := []; implicitNets := [] |}.

(** The design of the example: [config cfg; design top; instance top.b1.x
    use leaf2; endconfig], a module [top], a module [mid] that holds the
    statement [leaf x(), y();], and [bind top mid b1();]. *)
Definition bindConfig : ConfigDeclarationSyntax :=
  {| cds_name := "cfg";
     cds_topCells := [{| ccis_library := ""; ccis_cell := "top";
                         ccis_sourceRange := 1 |}];
     cds_rules :=
       [InstanceConfigRule "top" ["b1"; "x"]
          (ConfigUseClause (Some {| ccis_library := ""; ccis_cell := "leaf2";
                                    ccis_sourceRange := 2 |}) None false) 3] |}.

Definition bindConfigBlock : ConfigBlockSymbol :=
  (ConfigBlockSymbol_fromSyntax (fun _ => None) bindConfig).1.

Definition moduleNamed (name : string) : DefinitionSymbol :=
  {| def_name := name; definitionKind := DefinitionKind_Module |}.

(** The definition lookup of the example: a rule with a [use] clause names
    the cell, otherwise the type of the statement does. *)
Definition bindCompilation : Compilation :=
  {| maxInstanceArray := 65535%Z; maxCheckerInstanceDepth := 8;
     getDefinition := fun name _ rule =>
       let target :=
         match rule with
         | Some r => if decide (cell_name (useCell r) = "") then name
                     else cell_name (useCell r)
         | None => name
         end in
       if decide (target = "leaf") then Some (IsDefinition (moduleNamed "leaf"))
       else if decide (target = "leaf2")
            then Some (IsDefinition (moduleNamed "leaf2"))
            else None;
     getDefinitionForCell := fun _ _ => None |}.

(** The body of [b1], which was created from the bind directive; [top] is
    at address 0 and is the root of the configuration at address 2, [b1] is
    at address 3. *)
Definition boundBody : Scope :=
  let rc := mkResolvedConfig bindConfigBlock 0 in
  ScopeInstanceBody
    {| eb_definition := moduleNamed "mid"; eb_hierarchyOverrideNode := None;
       eb_isUninstantiated := false; eb_isFromBind := true |}
    (Some ({| ei_addr := 3; ei_name := "b1"; ei_resolvedConfig := Some (2, rc) |},
           Some (ScopeInstanceBody
                   {| eb_definition := moduleNamed "top";
                      eb_hierarchyOverrideNode := None;
                      eb_isUninstantiated := false; eb_isFromBind := false |}
                   (Some ({| ei_addr := 0; ei_name := "top";
                             ei_resolvedConfig := Some (2, rc) |}, None))))).

Definition bindContext : ASTContext :=
  {| scope := boundBody; getCompilation := bindCompilation;
     evalDimension := fun _ =>
       {| isRange := false; dim_range := ConstantRange_default |};
     lookupUnqualified := fun _ => None;
     lookupName := fun _ => None;
     findPotentiallyImplicitNets := fun _ => [];
     defaultNetTypeIsError := false;
     findParentOverrideNode := None |}.

Definition instanceNamed (name : string) (r : SourceRange)
  : HierarchicalInstanceSyntax :=
  {| decl := Some {| decl_name := name; dimensions := [] |};
     connections := []; his_sourceRange := r |}.

(** The names of the instances of the arena, by address. *)
Definition instanceNames (s : Elab) : list string :=
  omap (fun entry => match entry.2 with
                     | SInstance i => Some (inst_name i)
                     | _ => None
                     end)
       (map_to_list (symbols s)).

(** The from-bind flags of the instance bodies of the arena, by address. *)
Definition bodyFlags (s : Elab) : list bool :=
  omap (fun entry => match entry.2 with
                     | SInstanceBody b => Some (ib_isFromBind b)
                     | _ => None
                     end)
       (map_to_list (symbols s)).

(** The design of the example: [config cfg; design top; instance top.x use
    cfg2:config; endconfig], [config cfg2; design leaf2; default liblist
    lib1; endconfig], and a module [top] that holds the statement
    [leaf x();]. *)
Definition outerConfig : ConfigDeclarationSyntax :=
  {| cds_name := "cfg";
     cds_topCells := [{| ccis_library := ""; ccis_cell := "top";
                         ccis_sourceRange := 1 |}];
     cds_rules :=
       [InstanceConfigRule "top" ["x"]
          (ConfigUseClause (Some {| ccis_library := ""; ccis_cell := "cfg2";
                                    ccis_sourceRange := 2 |}) None true) 3] |}.

Definition innerConfig : ConfigDeclarationSyntax :=
  {| cds_name := "cfg2";
     cds_topCells := [{| ccis_library := ""; ccis_cell := "leaf2";
                         ccis_sourceRange := 4 |}];
     cds_rules := [DefaultConfigRule ["lib1"]] |}.

Definition outerConfigBlock : ConfigBlockSymbol :=
  (ConfigBlockSymbol_fromSyntax (fun _ => None) outerConfig).1.

Definition innerConfigBlock : ConfigBlockSymbol :=
  (ConfigBlockSymbol_fromSyntax
     (fun name => Some {| lib_name := name; lib_priority := 1 |})
     innerConfig).1.

(** The rule that [outerConfig] records for [top.x]. *)
Definition nestedRule : ConfigRule :=
  {| paramOverrides := None; liblist := None;
     useCell := {| cell_lib := ""; cell_name := "cfg2";
                   cell_targetConfig := true; cell_sourceRange := 2 |};
     rule_sourceRange := 3 |}.

(** The definition lookup of the example: a rule that names a configuration
    yields the configuration block. *)
Definition nestedCompilation : Compilation :=
  {| maxInstanceArray := 65535%Z; maxCheckerInstanceDepth := 8;
     getDefinition := fun name _ rule =>
       match rule with
       | Some r =>
           if cell_targetConfig (useCell r)
           then if decide (cell_name (useCell r) = "cfg2")
                then Some (IsConfigBlock innerConfigBlock) else None
           else None
       | None =>
           if decide (name = "leaf") then Some (IsDefinition (moduleNamed "leaf"))
           else None
       end;
     getDefinitionForCell := fun _ cell =>
       if decide (cell_name cell = "leaf2")
       then Some (IsDefinition (moduleNamed "leaf2")) else None |}.

(** The body of [top], the root instance of [cfg]: [top] is at address 0
    and its resolved configuration at address 2. *)
Definition configuredBody : EnclosingBody :=
  {| eb_definition := moduleNamed "top"; eb_hierarchyOverrideNode := None;
     eb_isUninstantiated := false; eb_isFromBind := false |}.

Definition configuredScope : Scope :=
  ScopeInstanceBody configuredBody
    (Some ({| ei_addr := 0; ei_name := "top";
              ei_resolvedConfig :=
                Some (2, mkResolvedConfig outerConfigBlock 0) |}, None)).

Definition nestedContext : ASTContext :=
  {| scope := configuredScope; getCompilation := nestedCompilation;
     evalDimension := fun _ =>
       {| isRange := false; dim_range := ConstantRange_default |};
     lookupUnqualified := fun _ => None;
     lookupName := fun _ => None;
     findPotentiallyImplicitNets := fun _ => [];
     defaultNetTypeIsError := false;
     findParentOverrideNode := None |}.

(** What [InstanceSymbol::fromSyntax] captures for the statement. *)
Definition nestedCap : Captured :=
  {| cap_syntax := statementOf "leaf" [instanceNamed "x" 10];
     cap_context := nestedContext;
     cap_parentInst := Some configuredBody;
     cap_inChecker := false;
     cap_owningDefinition := Some (moduleNamed "top");
     cap_parentOverrideNode := None;
     cap_resolvedConfig := Some (2, mkResolvedConfig outerConfigBlock 0) |}.

(** The override node of [top] in [cfg]. *)
Definition nestedNode : InstanceOverride :=
  default InstanceOverride_default (instanceOverrides outerConfigBlock !! "top").

(** The gates [buf b1 [0:1] (a, b);] in a module: the dimension evaluates to
    the range [0..1]. *)
Definition bufArray : HierarchicalInstanceSyntax :=
  {| decl := Some {| decl_name := "b1";
                     dimensions := [{| dim_sourceRange := 7 |}] |};
     connections := [OrderedPortConnection 10 1; OrderedPortConnection 11 2];
     his_sourceRange := 3 |}.

Definition bufOwner : ArrayOwner :=
  OwnerPrimitive (exampleContext (moduleBody false false)) bufGate [].


(* ===================================================================== *)
(** ** Configurations: the rules that are recorded                       *)
(* ===================================================================== *)

(** The rule stored at the node that a path reaches. *)
Definition ruleOf (n : InstanceOverride) (parts : list string) : option ConfigRule :=
  match findNode parts n with
  | Some m => rule m
  | None => None
  end.

(** The rules of a configuration for one instance path, in source order, as
    [buildRule] builds them. *)
Definition instanceRulesFor (getSourceLibrary : string → option SourceLibrary)
    (topModule : string) (parts : list string) (rules : list ConfigRuleSyntax)
  : list ConfigRule :=
  omap (fun ruleSyntax =>
          match ruleSyntax with
          | InstanceConfigRule t p clause range =>
              if decide (t = topModule ∧ p = parts)
              then Some (buildRule getSourceLibrary clause range)
              else None
          | _ => None
          end)
       rules.

(** Rules that reach the same node, stored one after the other. *)
Definition mergeRules (rs : list ConfigRule) (slot : option ConfigRule)
  : option ConfigRule :=
  foldl (fun slot r => (storeRule r slot).1) slot rs.

(** The cell rules of a configuration for one cell name, in source order. *)
Definition cellRulesFor (getSourceLibrary : string → option SourceLibrary)
    (cellName : string) (rules : list ConfigRuleSyntax) : list CellOverride :=
  omap (fun ruleSyntax =>
          match ruleSyntax with
          | CellConfigRule name clause range =>
              if decide (ccis_cell name = cellName)
              then Some {| specificLib :=
                             if decide (ccis_library name = "") then None
                             else getSourceLibrary (ccis_library name);
                           co_rule := buildRule getSourceLibrary clause range |}
              else None
          | _ => None
          end)
       rules.

(** The library lists of the [default liblist] rules, in source order. *)
Definition defaultRules (rules : list ConfigRuleSyntax) : list (list string) :=
  omap (fun ruleSyntax =>
          match ruleSyntax with
          | DefaultConfigRule libs => Some libs
          | _ => None
          end)
       rules.

(** A scope between a statement and the root instance of a configuration:
    the body of an instance, a generate block, a statement block or another
    named scope. *)
Inductive HierarchyFrame :=
| FrameInstance (inst : EnclosingInstance) (b : EnclosingBody)
| FrameGenerate (name : string) (isUninstantiated : bool)
| FrameBlock (name : string) (kind : StatementBlockKind)
| FrameOther (name : string).

(** The name under which [findInstanceOverrideNode] looks a frame up. *)
Definition frameName (f : HierarchyFrame) : string :=
  match f with
  | FrameInstance inst _ => ei_name inst
  | FrameGenerate name _ | FrameBlock name _ | FrameOther name => name
  end.

Definition wrapFrame (f : HierarchyFrame) (outer : Scope) : Scope :=
  match f with
  | FrameInstance inst b => ScopeInstanceBody b (Some (inst, Some outer))
  | FrameGenerate name u => ScopeGenerateBlock name u (Some outer)
  | FrameBlock name kind => ScopeStatementBlock name kind (Some outer)
  | FrameOther name => ScopeOther name (Some outer)
  end.

(** The scope reached from [outer] through the frames, outermost first. *)
Definition scopeBelow (outer : Scope) (frames : list HierarchyFrame) : Scope :=
  foldl (fun sc f => wrapFrame f sc) outer frames.

(** No instance on the way is the root instance of the configuration. *)
Definition belowRoot (root : Addr) (frames : list HierarchyFrame) : Prop :=
  Forall (fun f => match f with
                   | FrameInstance inst _ => ei_addr inst ≠ root
                   | _ => True
                   end) frames.

Definition frameSymbol (f : HierarchyFrame) : StackSymbol :=
  match f with
  | FrameInstance inst b =>
      {| ss_name := ei_name inst;
         ss_instance := Some (ei_addr inst, def_name (eb_definition b)) |}
  | FrameGenerate name _ | FrameBlock name _ | FrameOther name =>
      {| ss_name := name; ss_instance := None |}
  end.

(* ===================================================================== *)
(** ** Packages: export candidates and elaboration                       *)
(* ===================================================================== *)

(** An export declaration of the package names the symbol: it names the
    package that declares the symbol, and either exports all of it or the
    symbol's name. *)
Definition exportedBy (pkg : PackageSymbol) (sym : ImportedSymbol) : Prop :=
  hasExportAll pkg = true
  ∨ ∃ decl, decl ∈ exportDecls pkg
            ∧ pii_package decl = sym_package sym
            ∧ (pii_item decl = ExportStar ∨ pii_item decl = ExportName (sym_name sym)).

(** Every package's elaborations in the trace: none while its flag is unset,
    at most one once it is set. *)
Definition elaboratedOnce (s : PkgState) : Prop :=
  ∀ q, match packages s !! q with
       | Some pkg => if hasForceElaborated pkg
                     then forceCount q (pkgTrace s) ≤ 1
                     else forceCount q (pkgTrace s) = 0
       | None => forceCount q (pkgTrace s) = 0
       end.

(** A sequence of import lookups, one after the other on the state the
    previous one left; it stops at a lookup that runs out of fuel. *)
Fixpoint importLookups (fuel : nat) (qs : list (Addr * string)) (s : PkgState)
    : PkgState :=
  match qs with
  | [] => s
  | (p, n) :: rest =>
      match PackageSymbol_findForImport fuel p n s with
      | Some (_, s') => importLookups fuel rest s'
      | None => s
      end
  end.

(* ===================================================================== *)
(** ** Primitive instances: the binding of the connections               *)
(* ===================================================================== *)

(** A connection that is written as an expression which the context accepts
    as a simple expression, and the argument bound for it. *)
Definition boundFrom (requireSimpleExpr : PropertyExprSyntax → option nat)
    (c : PortConnectionSyntax) (b : BoundArgument) : Prop :=
  ∃ e r, c = OrderedPortConnection e r ∧ requireSimpleExpr e = Some (ba_expr b).

(** The connections that a user-defined primitive accepts: simple
    expressions and empty connections. *)
Definition udpConnection (requireSimpleExpr : PropertyExprSyntax → option nat)
    (c : PortConnectionSyntax) : Prop :=
  match c with
  | OrderedPortConnection e _ => is_Some (requireSimpleExpr e)
  | EmptyPortConnection _ => True
  | _ => False
  end.

(** The argument bound for a connection of a user-defined primitive at a
    port of direction [d]; nothing for an empty connection. *)
Definition udpArgument (requireSimpleExpr : PropertyExprSyntax → option nat)
    (c : PortConnectionSyntax) (d : PrimitivePortDirection) : option BoundArgument :=
  match c with
  | OrderedPortConnection e _ =>
      (fun x => {| ba_direction := portDirection d; ba_expr := x |})
        <$> requireSimpleExpr e
  | _ => None
  end.

Definition emptyPortDiag (c : PortConnectionSyntax) : option Diagnostic :=
  match c with
  | EmptyPortConnection r => Some {| diagCode := EmptyUdpPort; diagRange := r |}
  | _ => None
  end.

(** A user-defined primitive with three ports, instantiated with its second
    port left empty. *)
Definition latchUdp : PrimitiveSymbol :=
  {| prim_name := "latch"; primitiveKind := UserDefined;
     prim_ports := [PrimitivePortDirection_OutReg; PrimitivePortDirection_In;
                    PrimitivePortDirection_In] |}.

Definition latchInstance : HierarchicalInstanceSyntax :=
  {| decl := None;
     connections := [OrderedPortConnection 10 1; EmptyPortConnection 2;
                     OrderedPortConnection 11 3];
     his_sourceRange := 4 |}.

(** The diagnostics that end the binding of the connections. *)
Definition connectionErrors (ds : list Diagnostic) : list Diagnostic :=
  filter (fun d => diagCode d ≠ EmptyUdpPort) ds.

(* ===================================================================== *)
(** ** Instance arrays: what a recursion leaves                          *)
(* ===================================================================== *)

(** What the three array recursions do when the dimensions are used up. *)
Definition ownerLeaf (o : ArrayOwner) (syntax : HierarchicalInstanceSyntax)
    (path : list Z) : M Addr :=
  match o with
  | OwnerModule b node => InstanceBuilder_createInstance b syntax node path
  | OwnerPrimitive _ primitive attrs => createPrimInst primitive syntax attrs path
  | OwnerChecker context checker attrs isProcedural isFromBind =>
      CheckerInstanceSymbol_fromSyntax_instance context checker syntax attrs
        path isProcedural isFromBind
  end.

(** What the recursion for element [k] of an array carries: the module
    recursion passes the child of the override node that is stored under
    the position [k] of the element. *)
Definition ownerChild (o : ArrayOwner) (k : nat) : ArrayOwner :=
  match o with
  | OwnerModule b node =>
      OwnerModule b match node with
                    | Some n => childrenBySyntax n !! inr k
                    | None => None
                    end
  | other => other
  end.

(** The [parent] member of a symbol that can be an element of an array. *)
Definition Symbol_parent (s : Symbol) : option Addr :=
  match s with
  | SInstance i => inst_parent i
  | SInstanceArray a => arr_parent a
  | SPrimitiveInstance p => prim_parent p
  | SCheckerInstance c => ci_parent c
  | _ => None
  end.

Definition nameAt (m : gmap Addr Symbol) (a : Addr) : option string :=
  m !! a ≫= Symbol_name.

Definition parentAt (m : gmap Addr Symbol) (a : Addr) : option Addr :=
  m !! a ≫= Symbol_parent.

(** The instance that the recursion of [o] leaves at [r] for the array path
    [path]. *)
Definition leafOf (o : ArrayOwner) (syntax : HierarchicalInstanceSyntax)
    (m : gmap Addr Symbol) (path : list Z) (r : Addr) : Prop :=
  match o with
  | OwnerModule b node =>
      ∃ i bd, m !! r = Some (SInstance i)
              ∧ arrayPath i = path ∧ inst_syntax i = Some syntax
              ∧ inst_attributes i = bld_attributes b
              ∧ body i ≠ r
              ∧ m !! body i = Some (SInstanceBody bd)
              ∧ ib_definition bd = bld_definition b
              ∧ hierarchyOverrideNode bd = node
              ∧ ib_parentInstance bd = Some r
  | OwnerPrimitive _ primitive attrs =>
      ∃ p, m !! r = Some (SPrimitiveInstance p)
           ∧ primitiveType p = primitive ∧ prim_arrayPath p = path
           ∧ prim_syntax p = Some syntax ∧ prim_attributes p = attrs
  | OwnerChecker context checker attrs isProcedural isFromBind =>
      ∃ c bd, m !! r = Some (SCheckerInstance c)
              ∧ ci_body c ≠ r
              ∧ m !! ci_body c = Some (SCheckerInstanceBody bd)
              ∧ cib_checker bd = checker
              ∧ cib_parentInstance bd = Some r
              ∧ if depthExceeded context || checkerBindUnderBind context isFromBind
                then ci_arrayPath c = [] ∧ ci_syntax c = None
                     ∧ cib_isUninstantiated bd = true
                else ci_arrayPath c = path ∧ ci_syntax c = Some syntax
                     ∧ ci_attributes c = attrs
                     ∧ cib_isUninstantiated bd = false
  end.

(** The body of an instance, when the symbol has one. *)
Definition bodyAt (m : gmap Addr Symbol) (r : Addr) : option Addr :=
  m !! r ≫= bodyOf.

(** [leafOf] with the addresses at which the instance and its body lie. *)
Definition leafIn (o : ArrayOwner) (syntax : HierarchicalInstanceSyntax)
    (m : gmap Addr Symbol) (lo hi : Addr) (path : list Z) (r : Addr) : Prop :=
  lo ≤ r < hi ∧ leafOf o syntax m path r
  ∧ ∀ b, bodyAt m r = Some b → lo ≤ b < hi.

(** The elements [es] of an array, element by element from position [k] on,
    in consecutive parts of the addresses from [lo] up to [hi]. *)
Fixpoint childrenShape (P : Addr → Addr → nat → Addr → Prop) (lo hi : Addr)
    (k : nat) (es : list Addr) : Prop :=
  match es with
  | [] => lo ≤ hi
  | e :: es' =>
      ∃ mid, lo ≤ mid ∧ P lo mid k e ∧ childrenShape P mid hi (S k) es'
  end.

(** A dimension that yields elements. *)
Definition properDimension (context : ASTContext) (d : VariableDimensionSyntax)
  : bool :=
  isRange (evalDimension context d)
  && negb (maxInstanceArray (getCompilation context)
           <? width (dim_range (evalDimension context d)))%Z.

(** What the recursion of [o] over the dimensions [dims] leaves at [r],
    within the addresses from [lo] up to [hi]: an instance when no dimension
    is left; otherwise an array that is empty when the dimension is not a
    proper one and that has, over a proper dimension, one element for every
    index of the range, each of them what the recursion over the remaining
    dimensions leaves for the path extended by the index, without a name
    and with the array as its parent. *)
Fixpoint arrayShapeIn (o : ArrayOwner) (syntax : HierarchicalInstanceSyntax)
    (m : gmap Addr Symbol) (dims : list VariableDimensionSyntax)
    (lo hi : Addr) (path : list Z) (r : Addr) : Prop :=
  match dims with
  | [] => leafIn o syntax m lo hi path r
  | d :: rest =>
      let range := dim_range (evalDimension (ownerContext o) d) in
      lo ≤ r < hi
      ∧ ∃ arr, m !! r = Some (SInstanceArray arr)
          ∧ if properDimension (ownerContext o) d then
              arr_range arr = range
              ∧ arr_syntax arr = match o with
                                 | OwnerModule _ _ => Some syntax
                                 | _ => None
                                 end
              ∧ length (elements arr) = Z.to_nat (width range)
              ∧ childrenShape
                  (fun lo' hi' k e =>
                     arrayShapeIn (ownerChild o k) syntax m rest lo' hi'
                       (path ++ [(lower range + Z.of_nat k)%Z]) e
                     ∧ nameAt m e = Some "" ∧ parentAt m e = Some r)
                  lo r 0 (elements arr)
            else elements arr = [] ∧ arr_range arr = ConstantRange_default
  end.

(** The symbols that can be elements of an array. *)
Definition isMember (sym : Symbol) : Prop :=
  match sym with
  | SInstance _ | SInstanceArray _ | SPrimitiveInstance _ | SCheckerInstance _ =>
      True
  | _ => False
  end.

(** An assignment to a member of a symbol that leaves alone what the shape
    of an array says about the symbol itself. *)
Definition rootNeutral (f : Symbol → Symbol) : Prop :=
  ∀ sym,
    bodyOf (f sym) = bodyOf sym
    ∧ match sym with
      | SInstance i =>
          ∃ i', f sym = SInstance i' ∧ arrayPath i' = arrayPath i
                ∧ inst_syntax i' = inst_syntax i
                ∧ inst_attributes i' = inst_attributes i ∧ body i' = body i
      | SInstanceArray a =>
          ∃ a', f sym = SInstanceArray a' ∧ elements a' = elements a
                ∧ arr_range a' = arr_range a ∧ arr_syntax a' = arr_syntax a
      | SPrimitiveInstance p =>
          ∃ p', f sym = SPrimitiveInstance p'
                ∧ primitiveType p' = primitiveType p
                ∧ prim_arrayPath p' = prim_arrayPath p
                ∧ prim_syntax p' = prim_syntax p
                ∧ prim_attributes p' = prim_attributes p
      | SCheckerInstance c =>
          ∃ c', f sym = SCheckerInstance c' ∧ ci_body c' = ci_body c
                ∧ ci_arrayPath c' = ci_arrayPath c ∧ ci_syntax c' = ci_syntax c
                ∧ ci_attributes c' = ci_attributes c
      | _ => True
      end.

(** The members of the state that an array recursion does not write. *)
Definition sameVectors (s s' : Elab) : Prop :=
  results s' = results s ∧ implicitNets s' = implicitNets s
  ∧ trace s' = trace s.

(** The elements of an array when it has been filled and before its
    elements are made its members. *)
Definition unparented (o : ArrayOwner) (syntax : HierarchicalInstanceSyntax)
    (m : gmap Addr Symbol) (rest : list VariableDimensionSyntax)
    (path : list Z) (range : ConstantRange) (lo hi : Addr) (k : nat) (e : Addr)
  : Prop :=
  arrayShapeIn (ownerChild o k) syntax m rest lo hi
    (path ++ [(lower range + Z.of_nat k)%Z]) e
  ∧ nameAt m e = Some "".

Definition parented (o : ArrayOwner) (syntax : HierarchicalInstanceSyntax)
    (m : gmap Addr Symbol) (rest : list VariableDimensionSyntax)
    (path : list Z) (range : ConstantRange) (r : Addr) (lo hi : Addr) (k : nat)
    (e : Addr) : Prop :=
  arrayShapeIn (ownerChild o k) syntax m rest lo hi
    (path ++ [(lower range + Z.of_nat k)%Z]) e
  ∧ nameAt m e = Some "" ∧ parentAt m e = Some r.

(** The element of a nest of arrays at the positions [idx], one position for
    every level. *)
Fixpoint elementAt (m : gmap Addr Symbol) (r : Addr) (idx : list nat)
  : option Addr :=
  match idx with
  | [] => Some r
  | k :: idx' =>
      match m !! r with
      | Some (SInstanceArray arr) =>
          match elements arr !! k with
          | Some e => elementAt m e idx'
          | None => None
          end
      | _ => None
      end
  end.

(** A position within a proper dimension. *)
Definition validIndex (context : ASTContext) (d : VariableDimensionSyntax)
    (k : nat) : Prop :=
  properDimension context d = true
  ∧ k < Z.to_nat (width (dim_range (evalDimension context d))).

(** The array path of the element at the positions [idx]: for every
    dimension the lower bound of its range plus the position. *)
Definition indexPath (context : ASTContext) (dims : list VariableDimensionSyntax)
    (idx : list nat) : list Z :=
  zip_with (fun d k =>
              (lower (dim_range (evalDimension context d)) + Z.of_nat k)%Z)
           dims idx.

(** The name of what an array recursion returns: the name of the instance,
    except for a checker instance that is replaced by the invalid one. *)
Definition resultName (o : ArrayOwner) (syntax : HierarchicalInstanceSyntax)
    (dims : list VariableDimensionSyntax) : string :=
  match dims, o with
  | [], OwnerChecker context checker _ _ isFromBind =>
      if depthExceeded context || checkerBindUnderBind context isFromBind
      then checker_name checker
      else getNameLoc syntax
  | _, _ => getNameLoc syntax
  end.

(** The loop of the array recursions over the indices of a range. *)
Definition arrayElements (o : ArrayOwner) (syntax : HierarchicalInstanceSyntax)
    (rest : list VariableDimensionSyntax) (path : list Z) (range : ConstantRange)
    (ks : list nat) : M (list Addr) :=
  mapM (fun k : nat =>
          symbol ← recurseArray (ownerChild o k) syntax rest
                     (path ++ [(lower range + Z.of_nat k)%Z]);
          modify symbol (Symbol_setName "");;
          mret symbol) ks.

(* ===================================================================== *)
(** ** Instance arrays: name and dimensions                              *)
(* ===================================================================== *)

(** [scope && scope->asSymbol().kind == SymbolKind::InstanceArray] for the
    parent scope of a symbol: the array that the symbol is a member of. *)
Definition parentArray (m : gmap Addr Symbol) (sym : Symbol) : option Addr :=
  match Symbol_parent sym with
  | Some p =>
      match m !! p with
      | Some (SInstanceArray _) => Some p
      | _ => None
      end
  | None => None
  end.

(** [InstanceArraySymbol::getArrayName]; the recursion follows the parent
    pointers, so the definition takes fuel. *)
Fixpoint InstanceArraySymbol_getArrayName (fuel : nat) (m : gmap Addr Symbol)
    (a : Addr) : option string :=
  match fuel with
  | O => None
  | S fuel' =>
      match m !! a with
      | Some (SInstanceArray arr) =>
          match parentArray m (SInstanceArray arr) with
          | Some p => InstanceArraySymbol_getArrayName fuel' m p
          | None => Some (arr_name arr)
          end
      | _ => None
      end
  end.

(** [InstanceSymbolBase::getArrayName], of an instance, a primitive instance
    or a checker instance. *)
Definition InstanceSymbolBase_getArrayName (fuel : nat) (m : gmap Addr Symbol)
    (a : Addr) : option string :=
  match m !! a with
  | Some (SInstance _ as sym) | Some (SPrimitiveInstance _ as sym)
  | Some (SCheckerInstance _ as sym) =>
      match parentArray m sym with
      | Some p => InstanceArraySymbol_getArrayName fuel m p
      | None => Symbol_name sym
      end
  | _ => None
  end.

(** [getInstanceArrayDimensions]: the dimensions of the enclosing arrays
    first, then the range of the array. *)
Fixpoint getInstanceArrayDimensions (fuel : nat) (m : gmap Addr Symbol)
    (a : Addr) : option (list ConstantRange) :=
  match fuel with
  | O => None
  | S fuel' =>
      match m !! a with
      | Some (SInstanceArray arr) =>
          match parentArray m (SInstanceArray arr) with
          | Some p =>
              match getInstanceArrayDimensions fuel' m p with
              | Some dimensions => Some (dimensions ++ [arr_range arr])
              | None => None
              end
          | None => Some [arr_range arr]
          end
      | _ => None
      end
  end.

(** [InstanceSymbolBase::getArrayDimensions]. *)
Definition InstanceSymbolBase_getArrayDimensions (fuel : nat)
    (m : gmap Addr Symbol) (a : Addr) : option (list ConstantRange) :=
  match m !! a with
  | Some (SInstance _ as sym) | Some (SPrimitiveInstance _ as sym)
  | Some (SCheckerInstance _ as sym) =>
      match parentArray m sym with
      | Some p => getInstanceArrayDimensions fuel m p
      | None => Some []
      end
  | _ => None
  end.

(** The ranges of the dimensions. *)
Definition dimensionRanges (context : ASTContext)
    (dims : list VariableDimensionSyntax) : list ConstantRange :=
  map (fun d => dim_range (evalDimension context d)) dims.

(* ===================================================================== *)
(** ** Instantiation statements: nets and results                        *)
(* ===================================================================== *)

(** The expression of a port connection, if it has one. *)
Definition connectionExpr (conn : PortConnectionSyntax)
  : option PropertyExprSyntax :=
  match conn with
  | OrderedPortConnection e _ => Some e
  | NamedPortConnection _ e _ => e
  | _ => None
  end.

(** The identifiers in the connections of an instance that may name
    implicit nets, in the order of the connections. *)
Definition implicitNetCandidates (context : ASTContext)
    (instance : HierarchicalInstanceSyntax) : list string :=
  flat_map (fun conn =>
              match connectionExpr conn with
              | Some e => findPotentiallyImplicitNets context e
              | None => []
              end)
           (connections instance).

(** The inner loop of [createImplicitNets] over the identifiers. *)
Definition createNets (names : gset string) (idents : list string)
  : M (gset string) :=
  foldM (fun names' ins =>
           if bool_decide (ins ∈ names') then mret names'
           else
             net ← emplace (SNet ins);
             pushImplicitNet net;;
             mret ({[ins]} ∪ names'))
        names idents.

(** The declared dimensions of an instance. *)
Definition instDims (inst : HierarchicalInstanceSyntax)
  : list VariableDimensionSyntax :=
  match decl inst with
  | Some d => dimensions d
  | None => []
  end.

Definition isArray (sym : Symbol) : Prop := ∃ arr, sym = SInstanceArray arr.

(** What a loop over the instances [insts] appends to [results] on the way
    from [s] to [s']: one new symbol for every instance, in order, each of
    them as [P] says. *)
Definition yieldsEach (P : HierarchicalInstanceSyntax → Symbol → Prop)
    (insts : list HierarchicalInstanceSyntax) (s s' : Elab) : Prop :=
  ∃ rs, results s' = results s ++ rs
        ∧ Forall2 (fun inst r =>
                     nextAddr s ≤ r < nextAddr s'
                     ∧ ∃ sym, symbols s' !! r = Some sym ∧ P inst sym)
                  insts rs
        ∧ NoDup rs.

(** The symbol that a primitive instantiation yields for an instance. *)
Definition primitiveResult (primitive : PrimitiveSymbol)
    (attrs : list AttributeInstanceSyntax)
    (inst : HierarchicalInstanceSyntax) (sym : Symbol) : Prop :=
  Symbol_name sym = Some (getNameLoc inst)
  ∧ Symbol_parent sym = None
  ∧ match instDims inst with
    | [] => ∃ p, sym = SPrimitiveInstance p ∧ primitiveType p = primitive
                 ∧ prim_arrayPath p = [] ∧ prim_syntax p = Some inst
                 ∧ prim_attributes p = attrs
    | _ :: _ => isArray sym
    end.

(** The instance that the recursion of [o] creates when no dimension is
    left, as far as the symbol itself goes. *)
Definition leafSymbol (o : ArrayOwner) (syntax : HierarchicalInstanceSyntax)
    (path : list Z) (sym : Symbol) : Prop :=
  match o with
  | OwnerModule b _ =>
      ∃ i, sym = SInstance i ∧ arrayPath i = path
           ∧ inst_syntax i = Some syntax
           ∧ inst_attributes i = bld_attributes b
  | OwnerPrimitive _ primitive attrs =>
      ∃ p, sym = SPrimitiveInstance p ∧ primitiveType p = primitive
           ∧ prim_arrayPath p = path ∧ prim_syntax p = Some syntax
           ∧ prim_attributes p = attrs
  | OwnerChecker _ _ _ _ _ => ∃ c, sym = SCheckerInstance c
  end.

(** The number of symbols that one call of the [createInstances] lambda
    appends to [results]. *)
Definition createdCount (cap : Captured) (def : option DefinitionLike)
    (specificInstance : option HierarchicalInstanceSyntax) (isFromBind : bool)
  : nat :=
  let requested :=
    match specificInstance with
    | Some _ => 1
    | None => length (instances (cap_syntax cap))
    end in
  match def with
  | None => requested
  | Some (IsPrimitive _) => length (instances (cap_syntax cap))
  | Some (IsConfigBlock _) => 0
  | Some (IsDefinition _) =>
      if parentIsFromBind cap && isFromBind then 0 else requested
  end.

(** The override node of the configuration that
    [InstanceSymbol::fromSyntax] finds for the scope of a statement. *)
Definition statementOverrideNode (context : ASTContext) : option InstanceOverride :=
  match findParentInst (scope context) false false with
  | (Some (_, Some (inst, _)), _, _) =>
      match ei_resolvedConfig inst with
      | Some (_, resolved) => findInstanceOverrideNode resolved (scope context)
      | None => None
      end
  | _ => None
  end.

(** The two cases in which an instantiation in an instantiated scope yields
    nothing: its type names a configuration, or it is a bind of a module,
    an interface or a program beneath a bind. *)
Definition yieldsNothing (syntax : InstantiationSyntax) (context : ASTContext)
    (isFromBind : bool) : bool :=
  let '(parentInst, isUninstantiated, _) :=
    findParentInst (scope context) false false in
  negb isUninstantiated
  && match lookupUnqualified context (type syntax) with
     | Some (FoundChecker _) => false
     | _ =>
         match getDefinition (getCompilation context) (type syntax)
                 (scope context) None with
         | Some (IsConfigBlock _) => true
         | Some (IsDefinition _) =>
             match parentInst with
             | Some (b, _) => eb_isFromBind b && isFromBind
             | None => false
             end
         | _ => false
         end
     end.

(** A design in which the configuration of [top] has a rule for [top.x],
    and in which [latch] names a user-defined primitive. *)
Definition udpCompilation : Compilation :=
  {| maxInstanceArray := 65535%Z; maxCheckerInstanceDepth := 8;
     getDefinition := fun name _ rule =>
       match rule with
       | Some _ => None
       | None =>
           if decide (name = "latch")
           then Some (IsPrimitive
                        {| prim_name := "latch"; primitiveKind := UserDefined;
                           prim_ports := [PrimitivePortDirection_OutReg;
                                          PrimitivePortDirection_In] |})
           else None
       end;
     getDefinitionForCell := fun _ _ => None |}.

Definition udpContext : ASTContext :=
  {| scope := configuredScope; getCompilation := udpCompilation;
     evalDimension := fun _ =>
       {| isRange := false; dim_range := ConstantRange_default |};
     lookupUnqualified := fun _ => None;
     lookupName := fun _ => None;
     findPotentiallyImplicitNets := fun _ => [];
     defaultNetTypeIsError := false;
     findParentOverrideNode := None |}.

(* ===================================================================== *)
(** ** Instances: the port connections                                   *)
(* ===================================================================== *)

(** The members of an instance that hold its connections. *)
Definition sameConnections (a b : InstanceState) : Prop :=
  connectionMap a = connectionMap b
  ∧ inst_connections a = inst_connections b
  ∧ connectionStore a = connectionStore b
  ∧ nextConnection a = nextConnection b.

(** The connection objects that are created one after the other from the
    address [n] on. *)
Fixpoint fillStore (conns : list PortConnection) (n : Addr)
    (store : gmap Addr PortConnection) : gmap Addr PortConnection :=
  match conns with
  | [] => store
  | c :: rest => fillStore rest (S n) (<[n := c]> store)
  end.

(** The entries that [connectionMap->emplace] makes for the connections at
    the addresses from [n] on; an entry that exists is kept. *)
Fixpoint fillMap (conns : list PortConnection) (n : Addr)
    (m : gmap Addr Addr) : gmap Addr Addr :=
  match conns with
  | [] => m
  | c :: rest =>
      fillMap rest (S n)
        match m !! pc_port c with
        | Some _ => m
        | None => <[pc_port c := n]> m
        end
  end.

(** The connections that [makeConnections] yields for the ports. *)
Definition syntaxConnections (env : InstanceEnv) : list PortConnection :=
  map (fun port => {| pc_port := port_addr port;
                      pc_actual := ActualExpr (connectPort env port) |})
      (portList env).

(** The connections that [connectDefaultIfacePorts] creates: one for every
    interface port whose interface definition is known. *)
Definition defaultConnections (env : InstanceEnv) : list PortConnection :=
  omap (fun port =>
          match port_kind port with
          | Port_Interface (Some def) =>
              Some {| pc_port := port_addr port;
                      pc_actual := ActualDefaultInterface def |}
          | _ => None
          end)
       (portList env).

(** The connections that a first resolution makes. *)
Definition resolvedConnections (env : InstanceEnv) : list PortConnection :=
  match instanceSyntax env with
  | Some _ => syntaxConnections env
  | None =>
      if isTopLevel env && allowTopLevelIfacePorts env
      then defaultConnections env
      else []
  end.

(** [InstanceSymbol::getPortConnection(port)] on an instance whose map is
    set. *)
Definition connectionOf (s : InstanceState) (port : Addr) : option Addr :=
  match connectionMap s with
  | Some m => m !! port
  | None => None
  end.

(** A top-level module with an interface port, in a compilation that
    allows interface ports at the top level. *)
Definition topLevelEnv : InstanceEnv :=
  {| portList := [{| port_addr := 100; port_name := "bus";
                     port_kind := Port_Interface
                                    (Some {| def_name := "I";
                                             definitionKind := DefinitionKind_Interface |}) |};
                  {| port_addr := 101; port_name := "clk";
                     port_kind := Port_Plain |}];
     instanceSyntax := None;
     isTopLevel := true; allowTopLevelIfacePorts := true;
     reentrantCalls := [];
     connectPort := fun _ => None |}.

(* ===================================================================== *)
(** ** Placeholders: port names and connections                          *)
(* ===================================================================== *)

(** An assertion expression as far as the placeholder looks at it: the
    syntax it was bound from, whether its kind is [Simple], and whether a
    simple expression has a repetition. *)
Record AssertionExpr := {
  ae_syntax : PropertyExprSyntax;
  ae_isSimple : bool;
  ae_repetition : bool }.

(** [bindUnknownPortConn]: a simple property expression that is a simple
    sequence expression without a repetition ([isPlainSequence]) is bound as
    a simple assertion expression without a repetition, whether it names an
    interface or is an ordinary expression; anything else is bound by
    [AssertionExpr::bind] ([bindAssertion], declared outside the sources). *)
Definition bindUnknownPortConn (isPlainSequence : PropertyExprSyntax → bool)
    (bindAssertion : PropertyExprSyntax → AssertionExpr)
    (syntax : PropertyExprSyntax) : AssertionExpr :=
  if isPlainSequence syntax
  then {| ae_syntax := syntax; ae_isSimple := true; ae_repetition := false |}
  else bindAssertion syntax.

(** The lazily computed members of an [UninstantiatedDefSymbol]. *)
Record UninstantiatedPorts := {
  up_ports : option (list AssertionExpr);
  up_portNames : list string;
  up_mustBeChecker : bool }.

(** The loop of [getPortConnections] over the connections. *)
Fixpoint bindConnections (bind : PropertyExprSyntax → AssertionExpr)
    (connections : list PortConnectionSyntax)
    (results : list AssertionExpr) (names : list string)
  : list AssertionExpr * list string :=
  match connections with
  | [] => (results, names)
  | port :: rest =>
      match port with
      | OrderedPortConnection e _ =>
          bindConnections bind rest (results ++ [bind e]) (names ++ [""])
      | NamedPortConnection name e _ =>
          bindConnections bind rest
            match e with
            | Some ex => results ++ [bind ex]
            | None => results
            end
            (names ++ [name])
      | _ => bindConnections bind rest results names
      end
  end.

(** The loop over the bound connections that ends at the first one that is
    not simple or has a repetition. *)
Fixpoint anyAssertion (ports : list AssertionExpr) : bool :=
  match ports with
  | [] => false
  | port :: rest =>
      if negb (ae_isSimple port) || ae_repetition port then true
      else anyAssertion rest
  end.

(** [UninstantiatedDefSymbol::getPortConnections]. *)
Definition UninstantiatedDefSymbol_getPortConnections
    (isPlainSequence : PropertyExprSyntax → bool)
    (bindAssertion : PropertyExprSyntax → AssertionExpr)
    (connections : list PortConnectionSyntax) (u : UninstantiatedPorts)
  : list AssertionExpr * UninstantiatedPorts :=
  match up_ports u with
  | Some ports => (ports, u)
  | None =>
      let '(results, names) :=
        bindConnections (bindUnknownPortConn isPlainSequence bindAssertion)
          connections [] [] in
      (results,
       {| up_ports := Some results; up_portNames := names;
          up_mustBeChecker :=
            if anyAssertion results then true else up_mustBeChecker u |})
  end.

(** [UninstantiatedDefSymbol::getPortNames]. *)
Definition UninstantiatedDefSymbol_getPortNames
    (isPlainSequence : PropertyExprSyntax → bool)
    (bindAssertion : PropertyExprSyntax → AssertionExpr)
    (connections : list PortConnectionSyntax) (u : UninstantiatedPorts)
  : list string * UninstantiatedPorts :=
  let u' :=
    match up_ports u with
    | Some _ => u
    | None => (UninstantiatedDefSymbol_getPortConnections isPlainSequence
                 bindAssertion connections u).2
    end in
  (up_portNames u', u').

(** [UninstantiatedDefSymbol::isChecker]. *)
Definition UninstantiatedDefSymbol_isChecker
    (isPlainSequence : PropertyExprSyntax → bool)
    (bindAssertion : PropertyExprSyntax → AssertionExpr)
    (connections : list PortConnectionSyntax) (u : UninstantiatedPorts)
  : bool * UninstantiatedPorts :=
  let u' :=
    match up_ports u with
    | Some _ => u
    | None => (UninstantiatedDefSymbol_getPortConnections isPlainSequence
                 bindAssertion connections u).2
    end in
  (up_mustBeChecker u', u').

(** The name that a connection contributes: the empty name for an ordered
    connection, the port name for a named one. *)
Definition connectionName (conn : PortConnectionSyntax) : option string :=
  match conn with
  | OrderedPortConnection _ _ => Some ""
  | NamedPortConnection name _ _ => Some name
  | _ => None
  end.

(** The named connections without an expression, [.p()]. *)
Definition emptyNamed (conn : PortConnectionSyntax) : bool :=
  match conn with
  | NamedPortConnection _ None _ => true
  | _ => false
  end.

(* ===================================================================== *)
(** ** Checker instances: the connections of the formals                 *)
(* ===================================================================== *)

(* ===================================================================== *)
(** * The connections of a checker instance                               *)
(* ===================================================================== *)

(** A formal port of a checker ([AssertionPortSymbol]) as far as the
    connection loop reads it. *)
Record CheckerPort := {
  cp_name : string;
  cp_direction : option ArgumentDirection;
  cp_defaultValueSyntax : option PropertyExprSyntax }.

(** A named connection as [PortConnection::ConnMap] holds it: [.name],
    [.name()] or [.name(expr)]. *)
Record NamedConnection := {
  nc_openParen : bool;
  nc_expr : option PropertyExprSyntax;
  nc_sourceRange : SourceRange;
  nc_nameRange : SourceRange }.

(** [PortConnection::ConnMap], which is built outside the sources from the
    connections of the instance: either the ordered connections, in order,
    or the named connections by name and whether there is a wildcard. *)
Record ConnMap := {
  usingOrdered : bool;
  orderedConns : list PortConnectionSyntax;
  namedConns : gmap string NamedConnection;
  hasWildcard : bool;
  wildcardRange : SourceRange }.

(** The diagnostics of the connection loop. *)
Inductive ConnectionDiagCode :=
| UnconnectedArg
| CheckerArgCannotBeEmpty
| ImplicitNamedPortNotFound
| TooManyPortConnections
| PortDoesNotExist.

#[global] Instance ConnectionDiagCode_eq_dec : EqDecision ConnectionDiagCode.
Proof. solve_decision. Defined.

(** A diagnostic with the name it is reported for: the port, or the
    connection that names no port. *)
Record ConnectionDiagnostic := {
  cd_code : ConnectionDiagCode;
  cd_range : SourceRange;
  cd_name : string }.

(** The expression that is entered for a formal: an expression of the
    syntax, or the reference to the name of the port that an implicit named
    connection or a wildcard stands for. *)
Inductive FormalExpr :=
| FormalSyntax (e : PropertyExprSyntax)
| FormalImplicitName (name : string).

(** An entry of [assertionDetails->argumentMap] together with the
    [Connection] of the port: the expression, whether it is bound in the
    context of the default value ([argCtx = &defValCtx]), and the initial
    value of an output. *)
Record FormalArgument := {
  fa_port : string;
  fa_expr : option FormalExpr;
  fa_defaultContext : bool;
  fa_outputInitial : option nat }.

Definition connectionRange (pc : PortConnectionSyntax) : SourceRange :=
  match pc with
  | OrderedPortConnection _ r | NamedPortConnection _ _ r
  | WildcardPortConnection r | EmptyPortConnection r => r
  end.

(** The [outputInitialSyntax] that [createCheckerFormal] sets. *)
Definition outputInitial (requireSimpleExpr : PropertyExprSyntax → option nat)
    (port : CheckerPort) : option nat :=
  match cp_direction port with
  | Some ArgumentDirection_Out =>
      match cp_defaultValueSyntax port with
      | Some d => requireSimpleExpr d
      | None => None
      end
  | _ => None
  end.

(** The default value that may stand for a missing connection. *)
Definition inputDefault (port : CheckerPort) : option PropertyExprSyntax :=
  match cp_defaultValueSyntax port, cp_direction port with
  | Some d, Some ArgumentDirection_In => Some d
  | _, _ => None
  end.

(** The [setDefault] lambda: the expression, whether the context of the
    default value is used, and the diagnostics. *)
Definition setDefault (syntaxRange : SourceRange) (port : CheckerPort)
    (explicitRange : option SourceRange)
  : option FormalExpr * bool * list ConnectionDiagnostic :=
  match inputDefault port with
  | None =>
      (None, false,
       [{| cd_code := match explicitRange with
                      | Some _ => CheckerArgCannotBeEmpty
                      | None => UnconnectedArg
                      end;
           cd_range := default syntaxRange explicitRange;
           cd_name := cp_name port |}])
  | Some d => (Some (FormalSyntax d), true, [])
  end.

(** The [createImplicitNamed] lambda; [lookupUnqualified name isWildcard]
    tells whether the name is found in the scope of the instance. *)
Definition createImplicitNamed (lookupUnqualified : string → bool → bool)
    (port : CheckerPort) (range : SourceRange) (isWildcard : bool)
  : option FormalExpr * list ConnectionDiagnostic :=
  if lookupUnqualified (cp_name port) isWildcard
  then (Some (FormalImplicitName (cp_name port)), [])
  else
    match (if isWildcard then inputDefault port else None) with
    | Some d => (Some (FormalSyntax d), [])
    | None => (None, [{| cd_code := ImplicitNamedPortNotFound;
                         cd_range := range; cd_name := cp_name port |}])
    end.

(** What the loop carries: the index into the ordered connections, the
    named connections that have been used, the connections made and the
    diagnostics. *)
Record ConnectState := {
  orderedIndex : nat;
  usedNames : gset string;
  cs_connections : list FormalArgument;
  cs_diags : list ConnectionDiagnostic }.

(** The connection that the body of the loop finds for a port: the
    expression, whether the context of the default value is used, the
    diagnostics, and the index and the used names afterwards. *)
Definition formalChoice (lookupUnqualified : string → bool → bool)
    (syntaxRange : SourceRange) (connMap : ConnMap)
    (st : ConnectState) (port : CheckerPort)
  : option FormalExpr * bool * list ConnectionDiagnostic * nat * gset string :=
  if usingOrdered connMap then
    match orderedConns connMap !! orderedIndex st with
    | None =>
        let '(e, c, ds) := setDefault syntaxRange port None in
        (e, c, ds, S (orderedIndex st), usedNames st)
    | Some pc =>
        match pc with
        | OrderedPortConnection e _ =>
            (Some (FormalSyntax e), false, [], S (orderedIndex st),
             usedNames st)
        | _ =>
            let '(e, c, ds) :=
              setDefault syntaxRange port (Some (connectionRange pc)) in
            (e, c, ds, S (orderedIndex st), usedNames st)
        end
    end
  else
    match namedConns connMap !! cp_name port with
    | None =>
        if hasWildcard connMap then
          let '(e, ds) :=
            createImplicitNamed lookupUnqualified port
              (wildcardRange connMap) true in
          (e, false, ds, orderedIndex st, usedNames st)
        else
          let '(e, c, ds) := setDefault syntaxRange port None in
          (e, c, ds, orderedIndex st, usedNames st)
    | Some conn =>
        let used := {[cp_name port]} ∪ usedNames st in
        if nc_openParen conn then
          match nc_expr conn with
          | Some e =>
              (Some (FormalSyntax e), false, [], orderedIndex st, used)
          | None =>
              (None, false,
               [{| cd_code := CheckerArgCannotBeEmpty;
                   cd_range := nc_sourceRange conn;
                   cd_name := cp_name port |}],
               orderedIndex st, used)
          end
        else
          let '(e, ds) :=
            createImplicitNamed lookupUnqualified port
              (nc_nameRange conn) false in
          (e, false, ds, orderedIndex st, used)
    end.

(** One iteration of the loop over the ports of the checker; a port
    without a name is skipped. *)
Definition connectFormal (lookupUnqualified : string → bool → bool)
    (requireSimpleExpr : PropertyExprSyntax → option nat)
    (syntaxRange : SourceRange) (connMap : ConnMap)
    (st : ConnectState) (port : CheckerPort) : ConnectState :=
  if bool_decide (cp_name port = "") then st
  else
    let '(expr, defaultContext, ds, index', used') :=
      formalChoice lookupUnqualified syntaxRange connMap st port in
    {| orderedIndex := index'; usedNames := used';
       cs_connections :=
         cs_connections st
         ++ [{| fa_port := cp_name port; fa_expr := expr;
                fa_defaultContext := defaultContext;
                fa_outputInitial := outputInitial requireSimpleExpr port |}];
       cs_diags := cs_diags st ++ ds |}.

(** The checks that follow the loop: an ordered connection that is left
    over, and the named connections that no port has used. *)
Definition leftoverDiags (checkerName : string) (connMap : ConnMap)
    (st : ConnectState) : list ConnectionDiagnostic :=
  if usingOrdered connMap then
    match orderedConns connMap !! orderedIndex st with
    | Some pc => [{| cd_code := TooManyPortConnections;
                     cd_range := connectionRange pc; cd_name := checkerName |}]
    | None => []
    end
  else
    omap (fun entry : string * NamedConnection =>
            if bool_decide (entry.1 ∈ usedNames st) then None
            else Some {| cd_code := PortDoesNotExist;
                         cd_range := nc_nameRange entry.2;
                         cd_name := entry.1 |})
         (map_to_list (namedConns connMap)).

(** The part of [CheckerInstanceSymbol::fromSyntax] that builds the
    connections of the instance from the ports of the checker and the
    connections of the syntax. *)
Definition connectCheckerFormals (lookupUnqualified : string → bool → bool)
    (requireSimpleExpr : PropertyExprSyntax → option nat)
    (checkerName : string) (syntaxRange : SourceRange)
    (ports : list CheckerPort) (connMap : ConnMap)
  : list FormalArgument * list ConnectionDiagnostic :=
  let st := foldl (connectFormal lookupUnqualified requireSimpleExpr
                     syntaxRange connMap)
                  {| orderedIndex := 0; usedNames := ∅; cs_connections := [];
                     cs_diags := [] |}
                  ports in
  (cs_connections st, cs_diags st ++ leftoverDiags checkerName connMap st).

(** The ports that take part in the connections. *)
Definition namedPorts (ports : list CheckerPort) : list CheckerPort :=
  filter (fun port => cp_name port ≠ "") ports.

(** The diagnostics that say that a formal has no expression. *)
Definition missingArgument (d : ConnectionDiagnostic) : Prop :=
  cd_code d = UnconnectedArg ∨ cd_code d = CheckerArgCannotBeEmpty
  ∨ cd_code d = ImplicitNamedPortNotFound.

#[global] Instance missingArgument_dec d : Decision (missingArgument d).
Proof. unfold missingArgument. apply _. Defined.

(** The number of connections for the port [name] that have no
    expression, and the number of diagnostics that report a missing
    argument for it. *)
Definition unconnected (name : string) (args : list FormalArgument) : nat :=
  length (filter (fun a => fa_port a = name ∧ fa_expr a = None) args).

Definition reportedMissing (name : string) (ds : list ConnectionDiagnostic) : nat :=
  length (filter (fun d => cd_name d = name ∧ missingArgument d) ds).

(** A checker with the ports [clk] and [en], the second with a default
    value, instantiated with one ordered connection, and with the named
    connections [.clk(c)] and [.rst(r)]. *)
Definition examplePorts : list CheckerPort :=
  [{| cp_name := "clk"; cp_direction := Some ArgumentDirection_In;
      cp_defaultValueSyntax := None |};
   {| cp_name := "en"; cp_direction := Some ArgumentDirection_In;
      cp_defaultValueSyntax := Some 7 |}].

Definition orderedExample : ConnMap :=
  {| usingOrdered := true; orderedConns := [OrderedPortConnection 10 1];
     namedConns := ∅; hasWildcard := false; wildcardRange := 0 |}.

Definition namedExample : ConnMap :=
  {| usingOrdered := false; orderedConns := [];
     namedConns :=
       {[ "clk" := {| nc_openParen := true; nc_expr := Some 10;
                      nc_sourceRange := 1; nc_nameRange := 2 |};
          "rst" := {| nc_openParen := true; nc_expr := Some 11;
                      nc_sourceRange := 3; nc_nameRange := 4 |} ]};
     hasWildcard := false; wildcardRange := 0 |}.
(* ********************************************************************* *)
(** * Properties                                                          *)
(* ********************************************************************* *)

(* ===================================================================== *)
(** ** Merging the instance rules of a configuration                      *)
(* ===================================================================== *)

Section ConfigProperties.

Variable getSourceLibrary : string → option SourceLibrary.

(** A rule that is stored at an empty node is kept as it is. *)
Lemma storeRule_first (r : ConfigRule) :
  storeRule r None = (Some r, []).
Proof. reflexivity. Qed.

(** Two rules without a common slot are merged into one rule that holds
    every slot that either of them sets. *)
Lemma storeRule_orthogonal (r nr : ConfigRule) :
  slotConflict r nr = false →
  ∃ m, storeRule r (Some nr) = (Some m, [])
       ∧ (is_Some (paramOverrides m)
          ↔ is_Some (paramOverrides r) ∨ is_Some (paramOverrides nr))
       ∧ (is_Some (liblist m) ↔ is_Some (liblist r) ∨ is_Some (liblist nr))
       ∧ (cell_name (useCell m) ≠ ""
          ↔ cell_name (useCell r) ≠ "" ∨ cell_name (useCell nr) ≠ "").
Proof.
  intros Hc. unfold storeRule. rewrite Hc.
  eexists; split; [reflexivity|]. unfold slotConflict in Hc.
  apply orb_false_elim in Hc as [Hc Hu].
  apply orb_false_elim in Hc as [Hp Hl].
  unfold mergeSlots; simpl.
  repeat split; intros H;
    repeat (case_bool_decide; simpl in *); try tauto; try discriminate;
    destruct H; tauto.
Qed.

(** A rule that sets a slot which the stored rule sets too leaves the
    stored rule as it is, and nothing is reported. *)
Lemma storeRule_conflict (r nr : ConfigRule) :
  slotConflict r nr = true → storeRule r (Some nr) = (Some nr, []).
Proof. intros Hc. unfold storeRule. now rewrite Hc. Qed.

(** No branch of the rule loop reports a diagnostic. *)
Lemma addRule_diags st ruleSyntax :
  snd (addRule getSourceLibrary st ruleSyntax) = snd st.
Proof.
  assert (H : ∀ r slot, snd (storeRule r slot) = []).
  { intros r [nr|]; simpl; [destruct (slotConflict r nr)|]; reflexivity. }
  destruct st as [cb ds].
  destruct ruleSyntax; unfold addRule; cbn [snd]; try reflexivity.
  destruct (findNode _ _); rewrite H; apply app_nil_r.
Qed.

Lemma ConfigBlockSymbol_fromSyntax_diags syntax :
  snd (ConfigBlockSymbol_fromSyntax getSourceLibrary syntax) = [].
Proof.
  unfold ConfigBlockSymbol_fromSyntax.
  generalize (setTopCells
    (omap (fun cellId : ConfigCellIdentifierSyntax =>
             if decide (ccis_cell cellId = "") then None
             else Some (mkConfigCellId (ccis_library cellId) (ccis_cell cellId)
                                       (ccis_sourceRange cellId)))
          (cds_topCells syntax)) (allocConfigBlock (cds_name syntax))).
  intros cb.
  assert (H : ∀ rules st, snd (foldl (addRule getSourceLibrary) st rules) = snd st).
  { induction rules as [|r rules IH]; intros st; simpl; [reflexivity|].
    rewrite IH. apply addRule_diags. }
  apply (H _ (cb, [])).
Qed.

End ConfigProperties.

(** C2 (the code at the failing input).  Two rules that set the same slot
    ([useCell]) for the path [top.a]: the configuration is built without any
    diagnostic, and the rule recorded for the path is the first one. *)
Theorem conflicting_instance_rules_unreported :
  let '(cb, reported) := ConfigBlockSymbol_fromSyntax (fun _ => None) conflictingConfig in
  reported = []
  ∧ (cell_name ∘ useCell) <$> ruleAt cb "top" ["a"] = Some "foo".
Proof. vm_compute. split; reflexivity. Qed.

(* ===================================================================== *)
(** ** Directions of the connections of a built-in gate                   *)
(* ===================================================================== *)

(** Connection [i] of an N-input gate: the first is the output. *)
Lemma nGateDirection_NInput i size :
  nGateDirection NInput i size
  = if bool_decide (i = 0) then ArgumentDirection_Out else ArgumentDirection_In.
Proof. reflexivity. Qed.

(** Connection [i] of an N-output gate with at least two connections: the
    direction does not depend on [i]. *)
Lemma nGateDirection_NOutput i size :
  2 ≤ size → nGateDirection NOutput i size = ArgumentDirection_In.
Proof.
  intros H. unfold nGateDirection. simpl.
  case_bool_decide; [reflexivity | lia].
Qed.

(** C9 (the code at the failing input).  The two connections of an N-output
    gate are both bound with direction In; the first one is an output. *)
Theorem noutput_gate_first_connection_bound_in :
  map ba_direction
      (fst (PrimitiveInstanceSymbol_getPortConnections Some bufGate bufInstance))
  = [ArgumentDirection_In; ArgumentDirection_In].
Proof. vm_compute. reflexivity. Qed.

(* ===================================================================== *)
(** ** Import lookup in a package                                         *)
(* ===================================================================== *)

Lemma pkg_le_refl a : pkg_le a a.
Proof. unfold pkg_le; tauto. Qed.

Lemma pkgs_le_refl s : pkgs_le s s.
Proof. intros q. destruct (packages s !! q); auto using pkg_le_refl. Qed.

Lemma pkgs_le_trans s1 s2 s3 : pkgs_le s1 s2 → pkgs_le s2 s3 → pkgs_le s1 s3.
Proof.
  intros H1 H2 q. specialize (H1 q). specialize (H2 q).
  destruct (packages s1 !! q), (packages s2 !! q), (packages s3 !! q);
    try tauto.
  unfold pkg_le in *. intuition congruence.
Qed.

Lemma pkgs_le_same s s' : packages s' = packages s → pkgs_le s s'.
Proof. intros H q. rewrite H. destruct (packages s !! q); auto using pkg_le_refl. Qed.

Lemma noteCandidate_packages p sym s :
  packages (notePackageExportCandidate p sym s) = packages s
  ∧ pkgTrace (notePackageExportCandidate p sym s) = pkgTrace s.
Proof. unfold notePackageExportCandidate. destruct (_ !! _); auto. Qed.

Lemma noteImport_packages p sym s :
  packages (PackageSymbol_noteImport p sym s) = packages s
  ∧ pkgTrace (PackageSymbol_noteImport p sym s) = pkgTrace s.
Proof.
  unfold PackageSymbol_noteImport.
  destruct (packages s !! p) as [pkg|]; auto.
  destruct (hasExportAll pkg); [apply noteCandidate_packages|].
  case_bool_decide; auto.
  destruct (matchingExportDecl _ _); [apply noteCandidate_packages|auto].
Qed.

Lemma forceCount_app p t1 t2 :
  forceCount p (t1 ++ t2) = forceCount p t1 + forceCount p t2.
Proof. unfold forceCount. now rewrite filter_app, length_app. Qed.

Lemma pkgs_le_forced s s' p pkg :
  pkgs_le s s' → packages s !! p = Some pkg → hasForceElaborated pkg = true →
  ∃ pkg', packages s' !! p = Some pkg' ∧ hasForceElaborated pkg' = true
          ∧ pkg_le pkg pkg'.
Proof.
  intros H Hp Hf. specialize (H p). rewrite Hp in H.
  destruct (packages s' !! p) as [pkg'|]; [|tauto].
  exists pkg'. repeat split; try apply H; auto.
Qed.

Lemma pkgExtends_refl s : pkgExtends s s.
Proof.
  split; [apply pkgs_le_refl|]. exists []. split; [now rewrite app_nil_r|].
  reflexivity.
Qed.

Lemma pkgExtends_trans s1 s2 s3 : pkgExtends s1 s2 → pkgExtends s2 s3 → pkgExtends s1 s3.
Proof.
  intros [L1 (e1 & T1 & C1)] [L2 (e2 & T2 & C2)].
  split; [eauto using pkgs_le_trans|].
  exists (e1 ++ e2). split; [now rewrite T2, T1, app_assoc|].
  intros p pkg Hp Hf. rewrite forceCount_app, (C1 p pkg Hp Hf).
  destruct (pkgs_le_forced _ _ _ _ L1 Hp Hf) as (pkg' & Hp' & Hf' & _).
  now rewrite (C2 p pkg' Hp' Hf').
Qed.

Lemma pkgExtends_noteImport p sym s : pkgExtends s (PackageSymbol_noteImport p sym s).
Proof.
  destruct (noteImport_packages p sym s) as [Hp Ht].
  split; [now apply pkgs_le_same|].
  exists []. rewrite Ht, app_nil_r. auto.
Qed.

Lemma pkgExtends_force s p pkg :
  packages s !! p = Some pkg → hasForceElaborated pkg = false →
  pkgExtends s (PkgState_log (EvForceElaborate p)
               (PkgState_setPackages
                  (<[p := PackageSymbol_setForceElaborated pkg]> (packages s)) s)).
Proof.
  intros Hp Hf. split.
  - intros q. simpl. destruct (decide (q = p)) as [->|Hne].
    + rewrite Hp, lookup_insert_eq. unfold pkg_le; simpl; tauto.
    + rewrite lookup_insert_ne by congruence.
      destruct (packages s !! q); auto using pkg_le_refl.
  - exists [EvForceElaborate p]. split; [reflexivity|].
    intros q pkg' Hq Hf'. unfold forceCount. simpl.
    rewrite filter_cons. case_decide as Heq; [|reflexivity].
    inversion Heq; subst. congruence.
Qed.

Lemma pkgExtends_log_find s p n : pkgExtends s (PkgState_log (EvFindCandidate p n) s).
Proof.
  split; [now apply pkgs_le_same|].
  exists [EvFindCandidate p n]. split; [reflexivity|].
  intros q pkg _ _. unfold forceCount. rewrite filter_cons.
  case_decide as Hd; [discriminate Hd|done].
Qed.

Lemma forceElaborate_pkgExtends find p body :
  (∀ q n s r s', find q n s = Some (r, s') → pkgExtends s s') →
  ∀ s s', Compilation_forceElaborate find p body s = Some s' → pkgExtends s s'.
Proof.
  intros Hfind. induction body as [|wl rest IH]; intros s s' H; simpl in H.
  - inversion H. apply pkgExtends_refl.
  - destruct (find _ _ s) as [[[sym|] s1]|] eqn:E; [| |discriminate].
    + eapply pkgExtends_trans; [eapply Hfind, E|].
      eapply pkgExtends_trans; [apply (pkgExtends_noteImport p sym)|]. now apply IH.
    + eapply pkgExtends_trans; [eapply Hfind, E|]. now apply IH.
Qed.

Lemma findForImport_pkgExtends fuel :
  ∀ p n s r s', PackageSymbol_findForImport fuel p n s = Some (r, s') →
                pkgExtends s s'.
Proof.
  induction fuel as [|fuel IH]; intros p n s r s' H; [discriminate|].
  simpl in H.
  destruct (packages s !! p) as [pkg|] eqn:Hp;
    [|inversion H; apply pkgExtends_refl].
  destruct (pkg_members pkg !! n); [inversion H; apply pkgExtends_refl|].
  destruct (negb (hasExportAll pkg) && bool_decide (exportDecls pkg = []));
    [inversion H; apply pkgExtends_refl|].
  destruct (hasForceElaborated pkg) eqn:Hf; simpl in H.
  - inversion H. apply pkgExtends_log_find.
  - destruct (Compilation_forceElaborate _ _ _ _) as [s2|] eqn:E; [|discriminate].
    inversion H; subst.
    eapply pkgExtends_trans; [apply (pkgExtends_force _ _ _ Hp Hf)|].
    eapply pkgExtends_trans; [|apply pkgExtends_log_find].
    eapply forceElaborate_pkgExtends; [|exact E]. apply IH.
Qed.

Lemma unforced_le s s' : pkgs_le s s' → unforced s' ≤ unforced s.
Proof.
  intros H. unfold unforced.
  rewrite <- !(size_dom (D := gset Addr)). apply subseteq_size.
  intros q. rewrite !elem_of_dom. intros [b Hb].
  apply map_lookup_filter_Some in Hb as [Hb Hf]. simpl in Hf.
  specialize (H q). rewrite Hb in H.
  destruct (packages s !! q) as [a|] eqn:Ha; [|tauto].
  exists a. apply map_lookup_filter_Some. split; [done|]. simpl.
  destruct (hasForceElaborated a) eqn:Hfa; [|done].
  destruct H as (_ & _ & _ & _ & _ & H). rewrite H in Hf; done.
Qed.

Lemma unforced_force s p pkg :
  packages s !! p = Some pkg → hasForceElaborated pkg = false →
  S (unforced (PkgState_log (EvForceElaborate p)
                 (PkgState_setPackages
                    (<[p := PackageSymbol_setForceElaborated pkg]> (packages s)) s)))
  = unforced s.
Proof.
  intros Hp Hf. unfold unforced. simpl.
  rewrite map_filter_insert_False by (simpl; congruence).
  rewrite map_filter_delete, map_size_delete.
  assert (Hin : filter (λ kv : Addr * PackageSymbol,
                          hasForceElaborated kv.2 = false) (packages s) !! p
                = Some pkg).
  { apply map_lookup_filter_Some. split; done. }
  rewrite Hin.
  assert (Hpos : size (filter (λ kv : Addr * PackageSymbol,
                          hasForceElaborated kv.2 = false) (packages s)) ≠ 0).
  { intros Hz. apply map_size_empty_inv in Hz. rewrite Hz in Hin.
    rewrite lookup_empty in Hin. discriminate. }
  lia.
Qed.

(** With more fuel than there are packages left to elaborate, a lookup
    returns. *)
Lemma forceElaborate_total find p body bound :
  (∀ q n s, unforced s ≤ bound →
            ∃ r s', find q n s = Some (r, s') ∧ pkgExtends s s') →
  ∀ s, unforced s ≤ bound →
       ∃ s', Compilation_forceElaborate find p body s = Some s'.
Proof.
  intros Hfind. induction body as [|wl rest IH]; intros s Hs; simpl.
  - eauto.
  - destruct (Hfind (wl_package wl) (wl_name wl) s Hs) as (r & s1 & E & [L _]).
    rewrite E. pose proof (unforced_le _ _ L) as Hle.
    destruct r as [sym|].
    + apply IH. unfold unforced in *.
      rewrite (proj1 (noteImport_packages p sym s1)). lia.
    + apply IH. lia.
Qed.

Lemma findForImport_total fuel :
  ∀ p n s, unforced s < fuel →
           ∃ r s', PackageSymbol_findForImport fuel p n s = Some (r, s').
Proof.
  induction fuel as [|fuel IH]; intros p n s Hs; [lia|]. simpl.
  destruct (packages s !! p) as [pkg|] eqn:Hp; [|eauto].
  destruct (pkg_members pkg !! n); [eauto|].
  destruct (negb (hasExportAll pkg) && bool_decide (exportDecls pkg = []));
    [eauto|].
  destruct (hasForceElaborated pkg) eqn:Hf; simpl; [eauto|].
  pose proof (unforced_force _ _ _ Hp Hf) as Hu.
  destruct (forceElaborate_total (PackageSymbol_findForImport fuel) p
              (pkg_body pkg) (fuel - 1)) with
    (s := PkgState_log (EvForceElaborate p)
            (PkgState_setPackages
               (<[p := PackageSymbol_setForceElaborated pkg]> (packages s)) s))
    as [s2 E].
  - intros q m s0 Hs0. destruct (IH q m s0) as (r & s' & E); [lia|].
    exists r, s'. split; [done|]. eapply findForImport_pkgExtends, E.
  - lia.
  - rewrite E. eauto.
Qed.




(* ===================================================================== *)
(** ** Port connections of an instance                                    *)
(* ===================================================================== *)

Lemma sameControl_refl s : sameControl s s.
Proof. unfold sameControl; tauto. Qed.

Lemma sameControl_trans s1 s2 s3 :
  sameControl s1 s2 → sameControl s2 s3 → sameControl s1 s3.
Proof. unfold sameControl. intuition congruence. Qed.

Lemma sameControl_emplace c s : sameControl s (emplaceConnection c s).2.
Proof. unfold sameControl; simpl; tauto. Qed.

Lemma sameControl_mapEmplace p c s : sameControl s (mapEmplace p c s).
Proof.
  unfold mapEmplace. destruct (connectionMap s) as [m|] eqn:E;
    [|apply sameControl_refl].
  destruct (m !! p); [apply sameControl_refl|].
  unfold sameControl; simpl. rewrite E. repeat split; eauto.
Qed.

Lemma sameControl_setConnections l s : sameControl s (setConnections l s).
Proof. unfold sameControl; simpl; tauto. Qed.

Lemma sameControl_connectFromSyntax env s :
  sameControl s (connectFromSyntax env s).
Proof.
  unfold connectFromSyntax.
  assert (H1 : ∀ ports cs st,
             sameControl st
               (foldl (λ acc port,
                        let '(cs, st) := acc in
                        let '(c, st') :=
                          emplaceConnection
                            {| pc_port := port_addr port;
                               pc_actual := ActualExpr (connectPort env port) |} st in
                        (cs ++ [(port_addr port, c)], st'))
                      (cs, st) ports).2).
  { induction ports as [|port ports IH]; intros cs st; simpl;
      [apply sameControl_refl|].
    eapply sameControl_trans; [|apply IH]. apply sameControl_emplace. }
  assert (H2 : ∀ (conns : list (Addr * Addr)) st,
             sameControl st (foldl (λ st pc, mapEmplace pc.1 pc.2 st) st conns)).
  { induction conns as [|pc conns IH]; intros st; simpl;
      [apply sameControl_refl|].
    eapply sameControl_trans; [|apply IH]. apply sameControl_mapEmplace. }
  specialize (H1 (portList env) [] s).
  destruct (foldl _ ([], s) (portList env)) as [conns s1]. simpl in H1.
  eapply sameControl_trans; [exact H1|].
  eapply sameControl_trans; [apply H2|]. apply sameControl_setConnections.
Qed.

Lemma sameControl_connectDefault env s :
  sameControl s (connectDefaultIfacePorts env s).
Proof.
  unfold connectDefaultIfacePorts.
  assert (H1 : ∀ ports cs st,
             sameControl st
               (foldl (λ acc port,
                        let '(cs, st) := acc in
                        match port_kind port with
                        | Port_Interface (Some def) =>
                            let '(c, st') :=
                              emplaceConnection
                                {| pc_port := port_addr port;
                                   pc_actual := ActualDefaultInterface def |} st in
                            (cs ++ [c], mapEmplace (port_addr port) c st')
                        | _ => (cs, st)
                        end)
                      (cs, st) ports).2).
  { induction ports as [|port ports IH]; intros cs st; simpl;
      [apply sameControl_refl|].
    destruct (port_kind port) as [| |[def|]]; try apply IH.
    eapply sameControl_trans; [|apply IH].
    eapply sameControl_trans; [apply sameControl_emplace|].
    apply sameControl_mapEmplace. }
  specialize (H1 (portList env) [] s).
  destruct (foldl _ ([], s) (portList env)) as [conns s1]. simpl in H1.
  eapply sameControl_trans; [exact H1|]. apply sameControl_setConnections.
Qed.

(** After the port list is there: the map is set afterwards; a map that was
    set is only observed; a map that was not set is allocated once and the
    connections are made at most once. *)
Lemma resolveWithPortList_set env d s m :
  connectionMap s = Some m →
  resolveWithPortList env d s = logPort (EvObserveSet d) s.
Proof. intros H. unfold resolveWithPortList. now rewrite H. Qed.

Lemma resolveWithPortList_unset env d s :
  connectionMap s = None →
  let s' := resolveWithPortList env d s in
  is_Some (connectionMap s')
  ∧ bodyPorts s' = bodyPorts s ∧ active s' = active s
  ∧ ∃ mid, portLog s' = portLog s ++ EvAllocMap d :: mid
           ∧ (mid = [] ∨ mid = [EvMakeConnections d]).
Proof.
  intros H. unfold resolveWithPortList. rewrite H.
  destruct (instanceSyntax env).
  - destruct (sameControl_connectFromSyntax env
                (logPort (EvMakeConnections d)
                   (setConnectionMap (Some ∅) (logPort (EvAllocMap d) s))))
      as (Hb & Ha & Hl & Hm).
    simpl in *. split; [eauto|]. split; [done|]. split; [done|].
    exists [EvMakeConnections d]. rewrite Hl, <- app_assoc. eauto.
  - destruct (isTopLevel env && allowTopLevelIfacePorts env).
    + destruct (sameControl_connectDefault env
                  (setConnectionMap (Some ∅) (logPort (EvAllocMap d) s)))
        as (Hb & Ha & Hl & Hm).
      simpl in *. split; [eauto|]. split; [done|]. split; [done|].
      exists []. rewrite Hl. eauto.
    + simpl. split; [eauto|]. split; [done|]. split; [done|].
      exists []. eauto.
Qed.

(** A call that finds the port list of the body at hand. *)
Lemma resolve_listed fuel env s :
  bodyPorts s ≠ Unset →
  InstanceSymbol_resolvePortConnections (S fuel) env s
  = Some (setActive (active s)
            (resolveWithPortList env (S (active s))
               (logPort (EvEnterResolve (S (active s)))
                  (setActive (S (active s)) s)))).
Proof.
  intros H. simpl. unfold InstanceBodySymbol_getPortList. simpl.
  destruct (bodyPorts s); [done| |]; reflexivity.
Qed.

Lemma demand_set resolve p s m :
  connectionMap s = Some m →
  getPortConnection_with resolve p s = Some (m !! p, s).
Proof. intros H. unfold getPortConnection_with. now rewrite H. Qed.

(** Once the map is set, the connection requests of the elaboration change
    nothing. *)
Lemma reentrantDemands_set resolve ports s :
  is_Some (connectionMap s) →
  reentrantDemands (getPortConnection_with resolve) ports s = Some s.
Proof.
  intros [m H]. induction ports as [|p ports IH]; simpl; [done|].
  now rewrite (demand_set _ _ _ _ H).
Qed.

Lemma resolve_unfold fuel env s :
  InstanceSymbol_resolvePortConnections (S fuel) env s
  = match InstanceBodySymbol_getPortList
            (getPortConnection_with
               (InstanceSymbol_resolvePortConnections fuel env))
            env (logPort (EvEnterResolve (S (active s)))
                   (setActive (S (active s)) s)) with
    | None => None
    | Some s1 =>
        Some (setActive (active s)
                (resolveWithPortList env (S (active s)) s1))
    end.
Proof. reflexivity. Qed.

(** A call that finds the map unset, with fuel for one nested call: it
    returns with the map set, and the log tells which call allocated the
    map. *)
Lemma resolve_unset fuel env s :
  connectionMap s = None →
  ∃ s1 mid,
    InstanceSymbol_resolvePortConnections (S (S fuel)) env s = Some s1
    ∧ is_Some (connectionMap s1)
    ∧ active s1 = active s
    ∧ (mid = [] ∨ ∃ d, mid = [EvMakeConnections d])
    ∧ (bodyPorts s = Unset → reentrantCalls env ≠ [] →
       portLog s1
       = portLog s ++ [EvEnterResolve (S (active s));
                       EvEnterResolve (S (S (active s)));
                       EvAllocMap (S (S (active s)))]
                   ++ mid ++ [EvObserveSet (S (active s))])
    ∧ (bodyPorts s ≠ Unset ∨ reentrantCalls env = [] →
       portLog s1
       = portLog s ++ [EvEnterResolve (S (active s));
                       EvAllocMap (S (active s))] ++ mid).
Proof.
  intros Hmap.
  destruct (decide (bodyPorts s = Unset)) as [Hu|Hu].
  - rewrite resolve_unfold. unfold InstanceBodySymbol_getPortList.
    cbn [bodyPorts logPort setActive]. rewrite Hu.
    destruct (reentrantCalls env) as [|p rest] eqn:Hre.
    + cbn [reentrantDemands].
      edestruct (resolveWithPortList_unset env (S (active s))
                   (setBodyPorts Ready
                      (setBodyPorts InProgress
                         (logPort (EvEnterResolve (S (active s)))
                            (setActive (S (active s)) s)))))
        as (Hs & Hb & Ha & mid & Hl & Hmid); [exact Hmap|].
      eexists _, mid. split; [reflexivity|].
      split; [exact Hs|]. split; [reflexivity|].
      split; [destruct Hmid; eauto|].
      split; [intros _ Hne; done|].
      intros _. cbn [portLog setActive]. rewrite Hl. cbn.
      now rewrite <- app_assoc.
    + cbn [reentrantDemands]. unfold getPortConnection_with at 1.
      cbn [connectionMap setBodyPorts logPort setActive]. rewrite Hmap.
      rewrite resolve_listed by (cbn; discriminate).
      cbn [active setBodyPorts logPort setActive].
      edestruct (resolveWithPortList_unset env (S (S (active s)))
                   (logPort (EvEnterResolve (S (S (active s))))
                      (setActive (S (S (active s)))
                         (setBodyPorts InProgress
                            (logPort (EvEnterResolve (S (active s)))
                               (setActive (S (active s)) s))))))
        as (Hs & Hb & Ha & mid & Hl & Hmid); [exact Hmap|].
      set (inner := resolveWithPortList _ _ _) in *.
      rewrite reentrantDemands_set by (cbn; exact Hs).
      destruct Hs as [m Hm].
      rewrite (resolveWithPortList_set env _ _ m) by (cbn; exact Hm).
      eexists _, mid. split; [reflexivity|].
      split; [cbn; eauto|]. split; [reflexivity|].
      split; [destruct Hmid; eauto|].
      split.
      * intros _ _. cbn. rewrite Hl. cbn. now rewrite <- !app_assoc.
      * intros [H|H]; [done|discriminate].
  - rewrite resolve_listed by done.
    edestruct (resolveWithPortList_unset env (S (active s))
                 (logPort (EvEnterResolve (S (active s)))
                    (setActive (S (active s)) s)))
      as (Hs & Hb & Ha & mid & Hl & Hmid); [exact Hmap|].
    eexists _, mid. split; [reflexivity|].
    split; [exact Hs|]. split; [reflexivity|].
    split; [destruct Hmid; eauto|].
    split; [intros H; done|].
    intros _. cbn [portLog setActive]. rewrite Hl. cbn.
    now rewrite <- app_assoc.
Qed.

(** C5 (amended).  With fuel for one nested call, [getPortConnections]
    returns, and the map is set afterwards.  A second call returns the same
    connections and the same map contents and logs no further work.  When
    the first call finds the map unset, the map is allocated exactly once
    and the connections are made at most once: by the first re-entrant call
    when the elaboration of the port list re-enters (the first call then
    observes the map that is set), and by the first call itself otherwise. *)
Theorem getPortConnections_idempotent fuel env s :
  2 ≤ fuel →
  ∃ conns s1 mid,
    InstanceSymbol_getPortConnections fuel env s = Some (conns, s1)
    ∧ is_Some (connectionMap s1)
    ∧ (∃ conns' s2,
         InstanceSymbol_getPortConnections fuel env s1 = Some (conns', s2)
         ∧ conns' = conns ∧ mapContents s2 = mapContents s1
         ∧ portLog s2 = portLog s1)
    ∧ (connectionMap s = None →
       allocations (portLog s1) = S (allocations (portLog s))
       ∧ connectionsMade (portLog s1) ≤ S (connectionsMade (portLog s))
       ∧ (bodyPorts s = Unset → reentrantCalls env ≠ [] →
          portLog s1
          = portLog s ++ [EvEnterResolve (S (active s));
                          EvEnterResolve (S (S (active s)));
                          EvAllocMap (S (S (active s)))]
                      ++ mid ++ [EvObserveSet (S (active s))])
       ∧ (bodyPorts s ≠ Unset ∨ reentrantCalls env = [] →
          portLog s1
          = portLog s ++ [EvEnterResolve (S (active s));
                          EvAllocMap (S (active s))] ++ mid))
    ∧ (is_Some (connectionMap s) → s1 = s).
Proof.
  intros Hfuel. destruct fuel as [|[|fuel]]; [lia|lia|].
  destruct (connectionMap s) as [m|] eqn:Hmap.
  - exists (inst_connections s), s, []. unfold InstanceSymbol_getPortConnections.
    rewrite Hmap. split; [done|]. split; [eauto|].
    split; [eauto 10|]. split; [discriminate|done].
  - destruct (resolve_unset fuel env s Hmap)
      as (s1 & mid & E & [m Hm] & Ha & Hmid & Hre & Hdirect).
    exists (inst_connections s1), s1, mid.
    unfold InstanceSymbol_getPortConnections. rewrite Hmap, E, Hm.
    split; [done|]. split; [eauto|]. split; [eauto 10|].
    split; [|intros [? ?]; discriminate].
    intros _.
    assert (Hlog : ∃ pre post,
               portLog s1 = portLog s ++ pre ++ mid ++ post
               ∧ allocations pre = 1 ∧ connectionsMade pre = 0
               ∧ allocations post = 0 ∧ connectionsMade post = 0).
    { destruct (decide (bodyPorts s = Unset)) as [Hu|Hu];
        [destruct (reentrantCalls env) as [|p rest] eqn:Hc|].
      - eexists _, []. rewrite app_nil_r. split; [apply Hdirect; eauto|done].
      - eexists _, _. split; [apply Hre; done|done].
      - eexists _, []. rewrite app_nil_r. split; [apply Hdirect; eauto|done]. }
    destruct Hlog as (pre & post & Hl & Ap & Cp & Apo & Cpo).
    assert (Hmid' : allocations mid = 0 ∧ connectionsMade mid ≤ 1).
    { destruct Hmid as [->|[d ->]]; cbn; lia. }
    split; [|split; [|split; [exact Hre|exact Hdirect]]];
      unfold allocations, connectionsMade in *;
      rewrite Hl, !List.filter_app, !length_app; lia.
Qed.

Lemma getPortConnections_idempotent_witness :
  ∃ conns s1 mid,
    InstanceSymbol_getPortConnections 2 reentrantEnv InstanceState_initial
    = Some (conns, s1)
    ∧ is_Some (connectionMap s1)
    ∧ (∃ conns' s2,
         InstanceSymbol_getPortConnections 2 reentrantEnv s1 = Some (conns', s2)
         ∧ conns' = conns ∧ mapContents s2 = mapContents s1
         ∧ portLog s2 = portLog s1)
    ∧ (connectionMap InstanceState_initial = None →
       allocations (portLog s1) = S (allocations (portLog InstanceState_initial))
       ∧ connectionsMade (portLog s1)
         ≤ S (connectionsMade (portLog InstanceState_initial))
       ∧ (bodyPorts InstanceState_initial = Unset →
          reentrantCalls reentrantEnv ≠ [] →
          portLog s1
          = portLog InstanceState_initial
            ++ [EvEnterResolve (S (active InstanceState_initial));
                EvEnterResolve (S (S (active InstanceState_initial)));
                EvAllocMap (S (S (active InstanceState_initial)))]
            ++ mid ++ [EvObserveSet (S (active InstanceState_initial))])
       ∧ (bodyPorts InstanceState_initial ≠ Unset
          ∨ reentrantCalls reentrantEnv = [] →
          portLog s1
          = portLog InstanceState_initial
            ++ [EvEnterResolve (S (active InstanceState_initial));
                EvAllocMap (S (active InstanceState_initial))] ++ mid))
    ∧ (is_Some (connectionMap InstanceState_initial) → s1 = InstanceState_initial).
Proof.
  apply (getPortConnections_idempotent 2 reentrantEnv InstanceState_initial).
  lia.
Defined.

(** C5 (counterexample).  An instance whose body asks for the connection of
    its interface port while its port list is elaborated: the re-entrant
    call (depth 2) finds the map unset, allocates it and makes the
    connections; the first call (depth 1) allocates nothing and only
    observes the map that is set. *)
Lemma reentrant_call_allocates_the_map :
  ∃ conns s1,
    InstanceSymbol_getPortConnections 2 reentrantEnv InstanceState_initial
    = Some (conns, s1)
    ∧ portLog s1 = [EvEnterResolve 1; EvEnterResolve 2; EvAllocMap 2;
                    EvMakeConnections 2; EvObserveSet 1]
    ∧ (EvAllocMap 1 ∉ portLog s1)
    ∧ (EvObserveSet 2 ∉ portLog s1).
Proof.
  eexists _, _. split; [vm_compute; reflexivity|].
  split; [reflexivity|].
  split; intros H; repeat (apply elem_of_cons in H as [H|H]; [discriminate|]);
    inversion H.
Qed.

(* ===================================================================== *)
(** ** Invariants of the elaboration state                               *)
(* ===================================================================== *)

Lemma run_bind {A B} (m : M A) (k : A → M B) s :
  (m ≫= k) s = k (m s).1 (m s).2.
Proof. unfold mbind, M_bind. now destruct (m s). Qed.

Lemma run_ret {A} (a : A) s : (mret a : M A) s = (a, s).
Proof. reflexivity. Qed.

Lemma preserves_ret I {A} (a : A) : preserves I (mret a : M A).
Proof. intros s H. exact H. Qed.

Lemma preserves_bind I {A B} (m : M A) (k : A → M B) :
  preserves I m → (∀ a, preserves I (k a)) → preserves I (m ≫= k).
Proof. intros Hm Hk s H. rewrite run_bind. apply Hk, Hm, H. Qed.

(** The rule for a continuation that relies on a property of the value. *)
Lemma preserves_bind_val I {A B} (P : A → Prop) (m : M A) (k : A → M B) :
  preserves I m → (∀ s, P (m s).1) → (∀ a, P a → preserves I (k a)) →
  preserves I (m ≫= k).
Proof. intros Hm HP Hk s H. rewrite run_bind. apply Hk; [apply HP|apply Hm, H]. Qed.

Lemma preserves_mapM I {A B} (f : A → M B) xs :
  (∀ x, preserves I (f x)) → preserves I (mapM f xs).
Proof.
  intros Hf. induction xs as [|x xs IH]; simpl; [apply preserves_ret|].
  apply preserves_bind; [apply Hf|intros y].
  apply preserves_bind; [apply IH|intros ys]. apply preserves_ret.
Qed.

Lemma preserves_forM_ I {A} (f : A → M unit) xs :
  (∀ x, preserves I (f x)) → preserves I (forM_ f xs).
Proof.
  intros Hf. induction xs as [|x xs IH]; simpl; [apply preserves_ret|].
  apply preserves_bind; [apply Hf|intros _; apply IH].
Qed.

Lemma preserves_foldM I {A B} (f : B → A → M B) xs :
  (∀ b x, preserves I (f b x)) → ∀ b, preserves I (foldM f b xs).
Proof.
  intros Hf. induction xs as [|x xs IH]; intros b; simpl; [apply preserves_ret|].
  apply preserves_bind; [apply Hf|intros b'; apply IH].
Qed.

Lemma mapM_length {A B} (f : A → M B) xs s :
  length (mapM f xs s).1 = length xs.
Proof.
  revert s. induction xs as [|x xs IH]; intros s; simpl; [reflexivity|].
  rewrite run_bind, run_bind. simpl. now rewrite IH.
Qed.

Create HintDb pres.
#[local] Hint Resolve preserves_ret preserves_mapM preserves_forM_ preserves_foldM : pres.

Ltac pres_step :=
  lazymatch goal with
  | |- preserves _ (mret _) => apply preserves_ret
  | |- preserves _ (_ ≫= _) => apply preserves_bind; [|intros ?]
  | |- preserves _ (if ?c then _ else _) => destruct c
  | |- preserves _ (match ?x with _ => _ end) => destruct x
  | |- preserves _ _ => solve [eauto with pres]
  end.

Ltac pres := repeat pres_step.

Section Invariant.

Variable I : Elab → Prop.
Variable goodBuilder : InstanceBuilder → Prop.
Hypothesis I_stable : Stable I goodBuilder.

Let I_addDiag := stable_addDiag I goodBuilder I_stable.
Let I_logEvent := stable_logEvent I goodBuilder I_stable.
Let I_pushResult := stable_pushResult I goodBuilder I_stable.
Let I_pushImplicitNet := stable_pushImplicitNet I goodBuilder I_stable.
Let I_getResults := stable_getResults I goodBuilder I_stable.
Let I_setName := stable_setName I goodBuilder I_stable.
Let I_setParent := stable_setParent I goodBuilder I_stable.
Let I_setArraySyntax := stable_setArraySyntax I goodBuilder I_stable.
Let I_setMustBeChecker := stable_setMustBeChecker I goodBuilder I_stable.
Let I_net := stable_net I goodBuilder I_stable.
Let I_uninstantiated := stable_uninstantiated I goodBuilder I_stable.
Let I_primitive := stable_primitive I goodBuilder I_stable.
Let I_array := stable_array I goodBuilder I_stable.
Let I_emplaceResolvedConfig :=
  stable_emplaceResolvedConfig I goodBuilder I_stable.
Let I_createInstance := stable_createInstance I goodBuilder I_stable.
Let I_checker := stable_checker I goodBuilder I_stable.

#[local] Hint Resolve I_addDiag I_logEvent I_pushResult I_pushImplicitNet
  I_getResults I_setName I_setParent I_setArraySyntax I_setMustBeChecker
  I_net I_uninstantiated I_primitive I_emplaceResolvedConfig
  I_createInstance I_checker : pres.

Lemma createEmpty_preserves name : preserves I (createEmpty name).
Proof. apply I_array. left. split; reflexivity. Qed.
#[local] Hint Resolve createEmpty_preserves : pres.

Lemma recurse_preserves b :
  goodBuilder b →
  ∀ dims syn node path,
    preserves I (InstanceBuilder_recurse b syn node dims path).
Proof.
  intros Hb. induction dims as [|d rest IH]; intros syn node path; simpl.
  - auto with pres.
  - destruct (negb _); [pres|]. destruct (_ <? _)%Z; [pres|].
    eapply preserves_bind_val
      with (P := λ elems, length elems = Z.to_nat (width (dim_range (evalDimension (bld_context b) d)))).
    + apply preserves_mapM. intros i. pres; try apply IH.
    + intros s. now rewrite mapM_length, length_seq.
    + intros elems Hlen.
      apply preserves_bind; [apply I_array; right; exact Hlen|intros r; pres].
Qed.

Lemma create_preserves b syn :
  goodBuilder b → preserves I (InstanceBuilder_create b syn).
Proof.
  intros Hb. unfold InstanceBuilder_create.
  destruct (decl syn); [apply recurse_preserves, Hb|]. pres.
Qed.

Lemma recursePrimArray_preserves prim inst ctx attrs :
  ∀ dims path, preserves I (recursePrimArray prim inst ctx dims attrs path).
Proof.
  induction dims as [|d rest IH]; intros path; simpl.
  - unfold createPrimInst. auto with pres.
  - destruct (negb _); [pres|]. destruct (_ <? _)%Z; [pres|].
    eapply preserves_bind_val
      with (P := λ elems, length elems = Z.to_nat (width (dim_range (evalDimension ctx d)))).
    + apply preserves_mapM. intros i. pres; try apply IH.
    + intros s. now rewrite mapM_length, length_seqZ.
    + intros elems Hlen.
      apply preserves_bind; [apply I_array; right; exact Hlen|intros r; pres].
Qed.

Lemma recurseCheckerArray_preserves chk inst ctx attrs ip fb :
  ∀ dims path,
    preserves I (recurseCheckerArray chk inst ctx dims attrs path ip fb).
Proof.
  induction dims as [|d rest IH]; intros path; simpl.
  - auto with pres.
  - destruct (negb _); [pres|]. destruct (_ <? _)%Z; [pres|].
    eapply preserves_bind_val
      with (P := λ elems, length elems = Z.to_nat (width (dim_range (evalDimension ctx d)))).
    + apply preserves_mapM. intros i. pres; try apply IH.
    + intros s. now rewrite mapM_length, length_seqZ.
    + intros elems Hlen.
      apply preserves_bind; [apply I_array; right; exact Hlen|intros r; pres].
Qed.

Lemma createImplicitNets_preserves inst ctx names :
  preserves I (createImplicitNets inst ctx names).
Proof.
  unfold createImplicitNets. destruct (defaultNetTypeIsError ctx); [pres|].
  apply preserves_foldM. intros nm conn.
  destruct (match conn with
            | OrderedPortConnection e _ => Some e
            | NamedPortConnection _ e _ => e
            | _ => None
            end); [|pres].
  apply preserves_foldM. intros nm' ins. pres.
Qed.
#[local] Hint Resolve recursePrimArray_preserves recurseCheckerArray_preserves
  createImplicitNets_preserves create_preserves : pres.

Lemma createPrimitives_body_preserves prim syn ctx names inst :
  preserves I (createPrimitives_body prim syn ctx names inst).
Proof. unfold createPrimitives_body, createPrimInst. pres. Qed.

Lemma createPrimitives_preserves prim syn ctx :
  preserves I (createPrimitives prim syn ctx).
Proof.
  unfold createPrimitives. pres.
  apply preserves_foldM. intros nm inst.
  apply createPrimitives_body_preserves.
Qed.

Lemma createCheckers_body_preserves chk syn ctx ip fb names inst :
  preserves I (createCheckers_body chk syn ctx ip fb names inst).
Proof. unfold createCheckers_body. pres. Qed.

Lemma createCheckers_preserves chk syn ctx ip fb :
  preserves I (createCheckers chk syn ctx ip fb).
Proof.
  unfold createCheckers. pres.
  apply preserves_foldM. intros nm inst.
  apply createCheckers_body_preserves.
Qed.

Lemma createUninstantiatedDef_preserves syn inst name ctx params names :
  preserves I (createUninstantiatedDef syn inst name ctx params names).
Proof. unfold createUninstantiatedDef. pres. Qed.
#[local] Hint Resolve createPrimitives_preserves createCheckers_preserves
  createUninstantiatedDef_preserves : pres.

Lemma createUninstantiatedDefs_preserves syn name ctx params :
  preserves I (createUninstantiatedDefs syn name ctx params).
Proof. unfold createUninstantiatedDefs. pres. Qed.
#[local] Hint Resolve createUninstantiatedDefs_preserves : pres.

Lemma UninstantiatedDefSymbol_fromSyntax_preserves syn ctx :
  preserves I (UninstantiatedDefSymbol_fromSyntax syn ctx).
Proof. unfold UninstantiatedDefSymbol_fromSyntax. pres. Qed.

Lemma UninstantiatedDefSymbol_fromSyntax_specific_preserves syn inst ctx names :
  preserves I (UninstantiatedDefSymbol_fromSyntax_specific syn inst ctx names).
Proof. unfold UninstantiatedDefSymbol_fromSyntax_specific. pres. Qed.

Lemma UninstantiatedDefSymbol_fromSyntax_checker_preserves syn ctx :
  preserves I (UninstantiatedDefSymbol_fromSyntax_checker syn ctx).
Proof. unfold UninstantiatedDefSymbol_fromSyntax_checker. pres. Qed.
#[local] Hint Resolve UninstantiatedDefSymbol_fromSyntax_preserves
  UninstantiatedDefSymbol_fromSyntax_specific_preserves
  UninstantiatedDefSymbol_fromSyntax_checker_preserves : pres.

Lemma CheckerInstanceSymbol_fromSyntax_preserves syn ctx fb :
  preserves I (CheckerInstanceSymbol_fromSyntax syn ctx fb).
Proof. unfold CheckerInstanceSymbol_fromSyntax. pres. Qed.

Lemma createInstances_body_preserves b ctx names inst :
  goodBuilder b → preserves I (createInstances_body b ctx names inst).
Proof. intros Hb. unfold createInstances_body. pres. Qed.

(** The functions that build their own instance builder need every
    builder to be good. *)
Hypothesis all_good : ∀ b, goodBuilder b.

Lemma createInstances_preserves cap def inst rule root shared :
  preserves I (createInstances cap def inst rule root shared).
Proof.
  unfold createInstances, PrimitiveInstanceSymbol_fromSyntax.
  destruct shared as [names fb]. pres.
  all: try (apply preserves_foldM; intros nm i).
  all: apply createInstances_body_preserves, all_good.
Qed.
#[local] Hint Resolve createInstances_preserves : pres.

Lemma createOverriddenInstance_preserves cap node st inst :
  preserves I (createOverriddenInstance cap node st inst).
Proof.
  unfold createOverriddenInstance. destruct st as [explicitDef shared].
  destruct (_ ≫= rule); [|pres].
  apply preserves_bind; [pres|intros _].
  destruct (resolveRuleTarget _ _). pres.
Qed.
#[local] Hint Resolve createOverriddenInstance_preserves : pres.

Lemma InstanceSymbol_fromSyntax_preserves syn ctx fb :
  preserves I (InstanceSymbol_fromSyntax syn ctx fb).
Proof.
  unfold InstanceSymbol_fromSyntax, CheckerInstanceSymbol_fromSyntax_hierarchy.
  destruct (findParentInst _ _ _) as [[parentInst u] c].
  destruct u; [pres|].
  apply preserves_bind; [pres|intros _].
  destruct (lookupUnqualified ctx (type syn)) as [[chk| | |]|];
    try solve [pres].
  all: match goal with
       | |- preserves _ (match ?x with _ => _ end) => destruct x
       end; pres.
Qed.

End Invariant.

(* ===================================================================== *)
(** ** Instance arrays                                                   *)
(* ===================================================================== *)

Lemma arrayNeutral_setName n : arrayNeutral (Symbol_setName n).
Proof. intros [] arr' H; inversion H; eauto. Qed.

Lemma arrayNeutral_setParent p : arrayNeutral (Symbol_setParent p).
Proof. intros [] arr' H; inversion H; eauto. Qed.

Lemma arrayNeutral_setArraySyntax syn : arrayNeutral (Symbol_setArraySyntax syn).
Proof. intros [] arr' H; inversion H; eauto. Qed.

Lemma arrayNeutral_setMustBeChecker : arrayNeutral Symbol_setMustBeChecker.
Proof. intros [] arr' H; inversion H; eauto. Qed.

Lemma arrayNeutral_setInstanceDetails path syn attrs :
  arrayNeutral (Symbol_setInstanceDetails path syn attrs).
Proof. intros [] arr' H; inversion H; eauto. Qed.

Lemma arrayNeutral_setResolvedConfig rc :
  arrayNeutral (Symbol_setResolvedConfig rc).
Proof. intros [] arr' H; inversion H; eauto. Qed.

Lemma arrayNeutral_setParentInstance this :
  arrayNeutral (Symbol_setParentInstance this).
Proof. intros [] arr' H; inversion H; eauto. Qed.

Lemma arrayInv_modify a f :
  arrayNeutral f → preserves arrayInv (modify a f).
Proof.
  intros Hf s H x arr'. simpl. rewrite lookup_alter.
  case_decide; [subst|apply H].
  destruct (symbols s !! x) as [sym|] eqn:E; simpl; [|discriminate].
  intros Heq. inversion Heq as [Hs].
  destruct (Hf _ _ Hs) as (arr & -> & He & Hr).
  specialize (H _ _ E). unfold goodArray in *. rewrite He, Hr. exact H.
Qed.

Lemma arrayInv_store a sym :
  (∀ arr, sym = SInstanceArray arr → goodArray arr) →
  preserves arrayInv (store a sym).
Proof.
  intros Hsym s H x arr. simpl. rewrite lookup_insert.
  case_decide; [|apply H]. intros Heq. inversion Heq. now apply Hsym.
Qed.

Lemma arrayInv_symbols {A} (m : M A) :
  (∀ s, symbols (m s).2 = symbols s) → preserves arrayInv m.
Proof. intros Hm s H x arr. rewrite Hm. apply H. Qed.

Lemma arrayInv_emplace sym :
  (∀ arr, sym = SInstanceArray arr → goodArray arr) →
  preserves arrayInv (emplace sym).
Proof.
  intros Hsym. unfold emplace.
  apply preserves_bind; [now apply arrayInv_symbols|intros a].
  apply preserves_bind; [now apply arrayInv_store|intros _].
  apply preserves_ret.
Qed.

#[local] Hint Resolve arrayNeutral_setName arrayNeutral_setParent
  arrayNeutral_setArraySyntax arrayNeutral_setMustBeChecker
  arrayNeutral_setInstanceDetails arrayNeutral_setResolvedConfig
  arrayNeutral_setParentInstance arrayInv_modify : pres.

Lemma arrayInv_emplace_other sym :
  (∀ arr, sym ≠ SInstanceArray arr) → preserves arrayInv (emplace sym).
Proof. intros H. apply arrayInv_emplace. intros arr E. now destruct (H arr). Qed.

Lemma arrayInv_createInstance b syn node path :
  preserves arrayInv (InstanceBuilder_createInstance b syn node path).
Proof.
  unfold InstanceBuilder_createInstance, InstanceSymbol_new,
    InstanceBodySymbol_fromDefinition.
  pres; try (apply arrayInv_symbols; reflexivity);
    try (apply arrayInv_emplace_other; discriminate);
    try (apply arrayInv_store; discriminate).
Qed.

Lemma arrayInv_checker ctx chk syn attrs path ip fb :
  preserves arrayInv
    (CheckerInstanceSymbol_fromSyntax_instance ctx chk syn attrs path ip fb).
Proof.
  unfold CheckerInstanceSymbol_fromSyntax_instance,
    CheckerInstanceSymbol_createInvalid, CheckerInstanceSymbol_new.
  pres; try (apply arrayInv_symbols; reflexivity);
    try (apply arrayInv_emplace_other; discriminate);
    try (apply arrayInv_store; discriminate).
Qed.

(** [arrayInv] is stable under the steps of the elaboration. *)
Lemma arrayInv_stable : Stable arrayInv (λ _, True).
Proof.
  split; intros;
    try (apply arrayInv_symbols; reflexivity);
    try (apply arrayInv_modify; auto with pres);
    try (apply arrayInv_emplace_other; discriminate).
  - apply arrayInv_emplace. intros ? [= <-]. assumption.
  - apply arrayInv_createInstance.
  - apply arrayInv_checker.
Qed.

Lemma arrayInv_recurseArray o syn dims path :
  preserves arrayInv (recurseArray o syn dims path).
Proof.
  destruct o; simpl.
  - now apply (recurse_preserves arrayInv (λ _, True) arrayInv_stable).
  - apply (recursePrimArray_preserves arrayInv (λ _, True) arrayInv_stable).
  - apply (recurseCheckerArray_preserves arrayInv (λ _, True) arrayInv_stable).
Qed.

(** An array that is in the arena stays one, with its elements and range,
    when its elements are made its members. *)
Lemma lookup_array_setParent r elems :
  ∀ s arr, symbols s !! r = Some (SInstanceArray arr) →
    ∃ arr', symbols (forM_ (λ element, modify element (Symbol_setParent r))
                           elems s).2 !! r = Some (SInstanceArray arr')
            ∧ elements arr' = elements arr ∧ arr_range arr' = arr_range arr.
Proof.
  induction elems as [|e elems IH]; intros s arr H; simpl; [eauto|].
  rewrite run_bind.
  destruct (decide (e = r)) as [->|Hne].
  - edestruct (IH (modify r (Symbol_setParent r) s).2) as (arr' & H' & He & Hr).
    { simpl. rewrite lookup_alter_eq, H. reflexivity. }
    eauto.
  - apply IH. simpl. now rewrite lookup_alter_ne.
Qed.

Lemma createEmpty_run name s :
  createEmpty name s
  = (nextAddr s,
     {| nextAddr := S (nextAddr s);
        symbols := <[nextAddr s := SInstanceArray (emptyArray name)]> (symbols s);
        resolvedConfigs := resolvedConfigs s; diags := diags s;
        trace := trace s; results := results s;
        implicitNets := implicitNets s |}).
Proof. reflexivity. Qed.

Lemma emplace_run sym s :
  emplace sym s
  = (nextAddr s,
     {| nextAddr := S (nextAddr s);
        symbols := <[nextAddr s := sym]> (symbols s);
        resolvedConfigs := resolvedConfigs s; diags := diags s;
        trace := trace s; results := results s;
        implicitNets := implicitNets s |}).
Proof. reflexivity. Qed.

Lemma symbols_modify a f s :
  symbols (modify a f s).2 = alter f a (symbols s).
Proof. reflexivity. Qed.

Lemma width_upper_lower r : width r = (upper r - lower r + 1)%Z.
Proof. reflexivity. Qed.


(* ===================================================================== *)
(** ** Back-pointers from a body to its instance                         *)
(* ===================================================================== *)

Lemma benign_setName n : benign (Symbol_setName n).
Proof. intros []; done. Qed.

Lemma benign_setParent p : benign (Symbol_setParent p).
Proof. intros []; done. Qed.

Lemma benign_setArraySyntax syn : benign (Symbol_setArraySyntax syn).
Proof. intros []; done. Qed.

Lemma benign_setMustBeChecker : benign Symbol_setMustBeChecker.
Proof. intros []; done. Qed.

Lemma benign_setInstanceDetails path syn attrs :
  benign (Symbol_setInstanceDetails path syn attrs).
Proof. intros []; done. Qed.

Lemma benign_setResolvedConfig rc : benign (Symbol_setResolvedConfig rc).
Proof. intros []; done. Qed.

Lemma linked_refl s : wfArena s → backPointers s → linked s s.
Proof.
  intros Hw Hb. split; [done|]. split; [done|].
  intros a sym b Ha Hbody. eauto.
Qed.

(** A state change that leaves the symbols alone and does not lower the
    next free address. *)
Lemma linked_symbols s0 {A} (m : M A) :
  (∀ s, symbols (m s).2 = symbols s ∧ nextAddr s ≤ nextAddr (m s).2) →
  preserves (linked s0) m.
Proof.
  intros Hm s (Hw & Hb & Hp). destruct (Hm s) as [Hs Hn].
  split; [|split].
  - intros a Ha. rewrite Hs in Ha. specialize (Hw a Ha). lia.
  - intros a sym b. rewrite Hs. apply Hb.
  - intros a sym b. rewrite Hs. apply Hp.
Qed.

Lemma linked_modify s0 a f : benign f → preserves (linked s0) (modify a f).
Proof.
  intros Hf s (Hw & Hb & Hp).
  assert (Hlook : ∀ x, ∃ g, symbols (modify a f s).2 !! x = g <$> symbols s !! x
                            ∧ benign g).
  { intros x. simpl. rewrite lookup_alter. case_decide.
    - subst. eauto.
    - exists id. split; [now rewrite option_fmap_id|]. intros sym; done. }
  split; [|split].
  - intros x Hx. apply Hw. destruct (Hlook x) as (g & Hg & _).
    rewrite Hg in Hx. now apply fmap_is_Some in Hx.
  - intros x sym b Hx Hbody. destruct (Hlook x) as (g & Hg & Hben).
    rewrite Hg in Hx. apply fmap_Some in Hx as (sym0 & Hx & ->).
    destruct (Hben sym0) as (Hk & Hbo & Ho). rewrite Hbo in Hbody.
    destruct (Hb x sym0 b Hx Hbody) as (bsym & Hbs & Hfor & Hown).
    destruct (Hlook b) as (g' & Hg' & Hben').
    exists (g' bsym). rewrite Hg', Hbs. split; [done|].
    destruct (Hben' bsym) as (Hk' & _ & Ho').
    unfold isBodyFor in *. rewrite Hk, Hk', Ho'. done.
  - intros x sym b Hx Hbody.
    destruct (Hp x sym b Hx Hbody) as (sym' & Hx' & Hk & Hbo).
    destruct (Hlook x) as (g & Hg & Hben).
    exists (g sym'). rewrite Hg, Hx'. split; [done|].
    destruct (Hben sym') as (Hk' & Hbo' & _). rewrite Hk', Hbo'. done.
Qed.

(** A symbol without a body is stored at a fresh address. *)
Lemma linked_emplace s0 sym :
  bodyOf sym = None → preserves (linked s0) (emplace sym).
Proof.
  intros Hsym s (Hw & Hb & Hp).
  assert (Hfresh : symbols s !! nextAddr s = None).
  { destruct (symbols s !! nextAddr s) eqn:E; [|done].
    assert (nextAddr s < nextAddr s) by (apply Hw; eauto). lia. }
  unfold linked, wfArena, backPointers, persists. rewrite emplace_run. simpl.
  split; [|split].
  - intros x Hx. rewrite lookup_insert in Hx. case_decide; [lia|].
    specialize (Hw x Hx). lia.
  - intros x sym' b Hx Hbody. rewrite lookup_insert in Hx.
    case_decide; [simplify_eq; congruence|].
    destruct (Hb x sym' b Hx Hbody) as (bsym & Hbs & Hrest).
    exists bsym. split; [|done]. rewrite lookup_insert_ne; [done|].
    intros Heq. rewrite <- Heq in Hbs. congruence.
  - intros x sym' b Hx Hbody.
    destruct (Hp x sym' b Hx Hbody) as (sym'' & Hx' & Hrest).
    exists sym''. split; [|done]. rewrite lookup_insert_ne; [done|].
    intros Heq. rewrite <- Heq in Hx'. congruence.
Qed.

(** An instance and its body are stored at two fresh addresses and point to
    each other. *)
Lemma linked_pair s0 s s' x y isym bsym :
  linked s0 s →
  x ≠ y → nextAddr s ≤ x → nextAddr s ≤ y →
  x < nextAddr s' → y < nextAddr s' → nextAddr s ≤ nextAddr s' →
  bodyOf isym = Some y → bodyOf bsym = None →
  isBodyFor isym bsym → ownerOf bsym = Some (Some x) →
  (∀ z, symbols s' !! z
        = if decide (z = x) then Some isym
          else if decide (z = y) then Some bsym
          else symbols s !! z) →
  linked s0 s'.
Proof.
  intros (Hw & Hb & Hp) Hxy Hx Hy Hx' Hy' Hn Hbody Hnone Hfor Hown Hlook.
  assert (Hold : ∀ z, is_Some (symbols s !! z) → z ≠ x ∧ z ≠ y).
  { intros z Hz. specialize (Hw z Hz). lia. }
  split; [|split].
  - intros z Hz. rewrite Hlook in Hz. repeat case_decide; subst; try lia.
    specialize (Hw z Hz). lia.
  - intros z sym b Hz Hbo. rewrite Hlook in Hz. repeat case_decide.
    + simplify_eq. exists bsym. rewrite Hlook.
      rewrite decide_False, decide_True by done. done.
    + simplify_eq; try congruence.
    + destruct (Hb z sym b Hz Hbo) as (bs & Hbs & Hrest).
      exists bs. split; [|done]. rewrite Hlook.
      destruct (Hold b) as [? ?]; [eauto|].
      now rewrite !decide_False by done.
  - intros z sym b Hz Hbo.
    destruct (Hp z sym b Hz Hbo) as (sym' & Hz' & Hrest).
    exists sym'. split; [|done]. rewrite Hlook.
    destruct (Hold z) as [? ?]; [eauto|].
    now rewrite !decide_False by done.
Qed.

Ltac heap_lookup :=
  repeat first [rewrite lookup_alter | rewrite lookup_insert | case_decide];
  subst; simpl; try lia; try done.

Lemma InstanceSymbol_new_run name def node u fb s :
  InstanceSymbol_new name def node u fb s
  = (nextAddr s,
     {| nextAddr := S (S (nextAddr s));
        symbols :=
          alter (Symbol_setParentInstance (nextAddr s)) (S (nextAddr s))
            (<[nextAddr s :=
                 SInstance {| inst_name := name; body := S (nextAddr s);
                              arrayPath := []; inst_syntax := None;
                              inst_attributes := []; resolvedConfig := None;
                              inst_parent := None |}]>
               (<[S (nextAddr s) :=
                    SInstanceBody {| ib_definition := def;
                                     hierarchyOverrideNode := node;
                                     ib_isUninstantiated := u;
                                     ib_isFromBind := fb;
                                     ib_parentInstance := None |}]>
                  (symbols s)));
        resolvedConfigs := resolvedConfigs s; diags := diags s;
        trace := trace s; results := results s;
        implicitNets := implicitNets s |}).
Proof. reflexivity. Qed.

Lemma InstanceSymbol_newWithBody_run name b s :
  InstanceSymbol_newWithBody name b s
  = (nextAddr s,
     {| nextAddr := S (nextAddr s);
        symbols :=
          alter (Symbol_setParentInstance (nextAddr s)) b
            (<[nextAddr s :=
                 SInstance {| inst_name := name; body := b;
                              arrayPath := []; inst_syntax := None;
                              inst_attributes := []; resolvedConfig := None;
                              inst_parent := None |}]>
               (symbols s));
        resolvedConfigs := resolvedConfigs s; diags := diags s;
        trace := trace s; results := results s;
        implicitNets := implicitNets s |}).
Proof. reflexivity. Qed.

Lemma CheckerInstanceSymbol_new_run name b s :
  CheckerInstanceSymbol_new name b s
  = (nextAddr s,
     {| nextAddr := S (nextAddr s);
        symbols :=
          alter (Symbol_setParentInstance (nextAddr s)) b
            (<[nextAddr s :=
                 SCheckerInstance {| ci_name := name; ci_body := b;
                                     ci_arrayPath := []; ci_syntax := None;
                                     ci_attributes := []; ci_parent := None |}]>
               (symbols s));
        resolvedConfigs := resolvedConfigs s; diags := diags s;
        trace := trace s; results := results s;
        implicitNets := implicitNets s |}).
Proof. reflexivity. Qed.

Lemma linked_InstanceSymbol_new s0 name def node u fb :
  preserves (linked s0) (InstanceSymbol_new name def node u fb).
Proof.
  intros s H. rewrite InstanceSymbol_new_run. cbn [snd].
  eapply (linked_pair s0 s _ (nextAddr s) (S (nextAddr s))
            (SInstance {| inst_name := name; body := S (nextAddr s);
                          arrayPath := []; inst_syntax := None;
                          inst_attributes := []; resolvedConfig := None;
                          inst_parent := None |})
            (SInstanceBody {| ib_definition := def;
                              hierarchyOverrideNode := node;
                              ib_isUninstantiated := u; ib_isFromBind := fb;
                              ib_parentInstance := Some (nextAddr s) |}));
    try exact H; try (simpl; lia); try reflexivity.
  intros z. simpl. heap_lookup.
Qed.

Lemma linked_InstanceSymbol_withBody s0 name ib s :
  linked s0 s →
  linked s0 (InstanceSymbol_newWithBody name (emplace (SInstanceBody ib) s).1
               (emplace (SInstanceBody ib) s).2).2.
Proof.
  intros H. rewrite emplace_run, InstanceSymbol_newWithBody_run. cbn [fst snd].
  eapply (linked_pair s0 s _ (S (nextAddr s)) (nextAddr s)
            (SInstance {| inst_name := name; body := nextAddr s;
                          arrayPath := []; inst_syntax := None;
                          inst_attributes := []; resolvedConfig := None;
                          inst_parent := None |})
            (Symbol_setParentInstance (S (nextAddr s)) (SInstanceBody ib)));
    try exact H; try (simpl; lia); try reflexivity.
  intros z. simpl. heap_lookup.
Qed.

Lemma linked_CheckerInstanceSymbol_new s0 name cb s :
  linked s0 s →
  linked s0 (CheckerInstanceSymbol_new name
               (emplace (SCheckerInstanceBody cb) s).1
               (emplace (SCheckerInstanceBody cb) s).2).2.
Proof.
  intros H. rewrite emplace_run, CheckerInstanceSymbol_new_run. cbn [fst snd].
  eapply (linked_pair s0 s _ (S (nextAddr s)) (nextAddr s)
            (SCheckerInstance {| ci_name := name; ci_body := nextAddr s;
                                 ci_arrayPath := []; ci_syntax := None;
                                 ci_attributes := []; ci_parent := None |})
            (Symbol_setParentInstance (S (nextAddr s))
               (SCheckerInstanceBody cb)));
    try exact H; try (simpl; lia); try reflexivity.
  intros z. simpl. heap_lookup.
Qed.

Lemma linked_createInstance s0 b syn node path :
  preserves (linked s0) (InstanceBuilder_createInstance b syn node path).
Proof.
  unfold InstanceBuilder_createInstance.
  apply preserves_bind; [apply linked_InstanceSymbol_new|intros inst].
  apply preserves_bind;
    [apply linked_modify, benign_setInstanceDetails|intros _].
  apply preserves_bind; [|intros _; apply preserves_ret].
  destruct (bld_resolvedConfig b) as [[rcAddr resolved]|];
    [|apply preserves_ret].
  destruct (newConfigRoot b) as [root|].
  - apply preserves_bind; [|intros rc].
    + apply linked_symbols. intros s. simpl. split; [done|lia].
    + apply linked_modify, benign_setResolvedConfig.
  - apply linked_modify, benign_setResolvedConfig.
Qed.

Lemma linked_createInvalidChecker s0 chk :
  preserves (linked s0) (CheckerInstanceSymbol_createInvalid chk).
Proof.
  intros s H. unfold CheckerInstanceSymbol_createInvalid. rewrite run_bind.
  now apply linked_CheckerInstanceSymbol_new.
Qed.

Lemma linked_checker s0 ctx chk syn attrs path ip fb :
  preserves (linked s0)
    (CheckerInstanceSymbol_fromSyntax_instance ctx chk syn attrs path ip fb).
Proof.
  assert (Hd : ∀ c r, preserves (linked s0) (addDiag c r)).
  { intros c r. apply linked_symbols. intros s. simpl. split; [done|lia]. }
  unfold CheckerInstanceSymbol_fromSyntax_instance.
  case_bool_decide.
  { apply preserves_bind; [apply Hd|intros _]. apply linked_createInvalidChecker. }
  destruct (_ && fb).
  { apply preserves_bind; [apply Hd|intros _]. apply linked_createInvalidChecker. }
  apply preserves_bind.
  { destruct (inForkJoin _); [apply Hd|apply preserves_ret]. }
  intros _. apply preserves_bind.
  { destruct (tryFillAssertionDetails _) as [[]|]; try apply preserves_ret.
    destruct ip; [apply Hd|apply preserves_ret]. }
  intros _ s Hl. rewrite !run_bind.
  apply preserves_ret.
  apply linked_modify; [apply benign_setInstanceDetails|].
  now apply linked_CheckerInstanceSymbol_new.
Qed.

(** The invariant of the back-pointers is stable under the steps of the
    elaboration. *)
Lemma linked_stable s0 : Stable (linked s0) (λ _, True).
Proof.
  split; intros;
    try (apply linked_symbols; intros s; simpl; split; [done|lia]);
    try (apply linked_modify;
         auto using benign_setName, benign_setParent, benign_setArraySyntax,
           benign_setMustBeChecker);
    try (apply linked_emplace; reflexivity).
  - apply linked_createInstance.
  - apply linked_checker.
Qed.

Lemma linked_runOp s0 op : ∀ s, linked s0 s → linked s0 (runOp s op).
Proof.
  intros s H. destruct op; cbn [runOp].
  - now apply (InstanceSymbol_fromSyntax_preserves _ _ (linked_stable s0)).
  - now apply (CheckerInstanceSymbol_fromSyntax_preserves _ _ (linked_stable s0)).
  - unfold InstanceSymbol_createDefault, InstanceBodySymbol_fromDefinition.
    rewrite run_bind. now apply linked_InstanceSymbol_withBody.
  - unfold InstanceSymbol_createInvalid, InstanceBodySymbol_fromDefinition.
    rewrite run_bind. now apply linked_InstanceSymbol_withBody.
  - now apply linked_InstanceSymbol_new.
  - now apply linked_createInvalidChecker.
  - destruct H as (Hw & Hb & Hp). split; [|split]; done.
Qed.

Lemma linked_runOps s0 ops : ∀ s, linked s0 s → linked s0 (runOps ops s).
Proof.
  unfold runOps. induction ops as [|op ops IH]; intros s H; simpl; [done|].
  apply IH, linked_runOp, H.
Qed.

Lemma linked_trans s0 s1 s2 : linked s0 s1 → linked s1 s2 → linked s0 s2.
Proof.
  intros (_ & _ & Hp1) (Hw & Hb & Hp2). split; [done|]. split; [done|].
  intros a sym b Ha Hbody.
  destruct (Hp1 a sym b Ha Hbody) as (sym1 & Ha1 & Hk1 & Hb1).
  destruct (Hp2 a sym1 b Ha1 Hb1) as (sym2 & Ha2 & Hk2 & Hb2).
  exists sym2. split; [done|]. split; congruence.
Qed.

Lemma linked_empty : linked Elab_empty Elab_empty.
Proof.
  apply linked_refl.
  - intros a [x Hx]. simpl in Hx. rewrite lookup_empty in Hx. discriminate.
  - intros a sym b Ha. simpl in Ha. rewrite lookup_empty in Ha. discriminate.
Qed.

(** C4.  In every state [s0] that an elaboration reaches from the empty
    arena, the body of every instance and of every checker instance points
    back to it; and whatever the elaboration does after [s0], the instance
    still refers to the same body and the body still points back to it. *)
Theorem parentInstance_points_back (before after : list ElabOp) :
  let s0 := runOps before Elab_empty in
  let s := runOps after s0 in
  (∀ a i, symbols s0 !! a = Some (SInstance i) →
     (∃ b, symbols s0 !! body i = Some (SInstanceBody b)
           ∧ ib_parentInstance b = Some a)
     ∧ (∃ i' b', symbols s !! a = Some (SInstance i') ∧ body i' = body i
                 ∧ symbols s !! body i = Some (SInstanceBody b')
                 ∧ ib_parentInstance b' = Some a))
  ∧ (∀ a c, symbols s0 !! a = Some (SCheckerInstance c) →
     (∃ b, symbols s0 !! ci_body c = Some (SCheckerInstanceBody b)
           ∧ cib_parentInstance b = Some a)
     ∧ (∃ c' b', symbols s !! a = Some (SCheckerInstance c')
                 ∧ ci_body c' = ci_body c
                 ∧ symbols s !! ci_body c = Some (SCheckerInstanceBody b')
                 ∧ cib_parentInstance b' = Some a)).
Proof.
  intros s0 s.
  assert (H0 : linked Elab_empty s0) by apply linked_runOps, linked_empty.
  assert (H00 : linked s0 s0) by (apply linked_refl; apply H0).
  assert (H1 : linked s0 s) by apply linked_runOps, H00.
  destruct H0 as (_ & Hb0 & _). destruct H1 as (_ & Hb & Hp).
  split.
  - intros a i Ha. split.
    + destruct (Hb0 a _ (body i) Ha eq_refl) as (bsym & Hbs & Hfor & Hown).
      destruct bsym; try discriminate. simpl in Hown. eexists. split; [done|].
      congruence.
    + destruct (Hp a _ (body i) Ha eq_refl) as (sym' & Ha' & Hk & Hbo).
      destruct sym' as [i'| | | | | | |]; try discriminate.
      destruct (Hb a _ (body i) Ha' Hbo) as (bsym & Hbs & Hfor & Hown).
      destruct bsym; try discriminate. simpl in Hown, Hbo.
      eexists _, _. split; [done|]. split; [congruence|].
      split; [done|congruence].
  - intros a c Ha. split.
    + destruct (Hb0 a _ (ci_body c) Ha eq_refl) as (bsym & Hbs & Hfor & Hown).
      destruct bsym; try discriminate. simpl in Hown. eexists. split; [done|].
      congruence.
    + destruct (Hp a _ (ci_body c) Ha eq_refl) as (sym' & Ha' & Hk & Hbo).
      destruct sym' as [| | | |c'| | |]; try discriminate.
      destruct (Hb a _ (ci_body c) Ha' Hbo) as (bsym & Hbs & Hfor & Hown).
      destruct bsym; try discriminate. simpl in Hown, Hbo.
      eexists _, _. split; [done|]. split; [congruence|].
      split; [done|congruence].
Qed.

(* ===================================================================== *)
(** ** Instances without a name                                          *)
(* ===================================================================== *)

Lemma foldM_app {A B} (f : B → A → M B) (b : B) (xs ys : list A) (s : Elab) :
  foldM f b (xs ++ ys) s
  = foldM f (foldM f b xs s).1 ys (foldM f b xs s).2.
Proof.
  revert b s. induction xs as [|x xs IH]; intros b s; simpl; [reflexivity|].
  rewrite !run_bind. apply IH.
Qed.

Lemma netsAdded_refl s : netsAdded s s.
Proof.
  repeat split; auto.
Qed.

Lemma netsAdded_emplace s0 n : preserves (netsAdded s0) (emplace (SNet n)).
Proof.
  intros s ((Hn & Hd & Ht & Hc & Hq) & (_ & Hf) & Hr). rewrite emplace_run.
  cbn [snd]. repeat split; simpl; auto; try lia.
  - intros a sym. heap_lookup.
    + intros [= <-]. right. now exists n.
    + apply Hq.
  - intros a Ha. heap_lookup. now apply Hf.
Qed.

Lemma netsAdded_pushImplicitNet s0 a : preserves (netsAdded s0) (pushImplicitNet a).
Proof. intros s H. exact H. Qed.

Lemma createImplicitNets_netsAdded s0 inst ctx names :
  preserves (netsAdded s0) (createImplicitNets inst ctx names).
Proof.
  unfold createImplicitNets. destruct (defaultNetTypeIsError ctx);
    [apply preserves_ret|].
  apply preserves_foldM. intros nm conn.
  destruct (match conn with OrderedPortConnection e _ => Some e
                          | NamedPortConnection _ e _ => e | _ => None end);
    [|apply preserves_ret].
  apply preserves_foldM. intros nm' ins.
  case_bool_decide; [apply preserves_ret|].
  apply preserves_bind; [apply netsAdded_emplace|intros net].
  apply preserves_bind; [apply netsAdded_pushImplicitNet|intros _].
  apply preserves_ret.
Qed.

Lemma createInstance_run b syn node path s :
  let a := nextAddr s in
  let r := InstanceBuilder_createInstance b syn node path s in
  r.1 = a
  ∧ a < nextAddr r.2
  ∧ diags r.2 = diags s ∧ results r.2 = results s ∧ trace r.2 = trace s
  ∧ symbols r.2
    = <[a := SInstance {| inst_name := getNameLoc syn; body := S a;
                          arrayPath := path; inst_syntax := Some syn;
                          inst_attributes := bld_attributes b;
                          resolvedConfig := createdConfig b a;
                          inst_parent := None |}]>
        (<[S a := SInstanceBody {| ib_definition := bld_definition b;
                                   hierarchyOverrideNode := node;
                                   ib_isUninstantiated := false;
                                   ib_isFromBind := bld_isFromBind b;
                                   ib_parentInstance := Some a |}]>
           (symbols s)).
Proof.
  intros a r. subst a r. unfold InstanceBuilder_createInstance, createdConfig.
  rewrite run_bind, InstanceSymbol_new_run. cbn [fst snd].
  destruct (bld_resolvedConfig b) as [[rcAddr resolved]|];
    [destruct (newConfigRoot b)|];
    (split; [reflexivity|]); (split; [simpl; lia|]);
    (split; [reflexivity|]); (split; [reflexivity|]); (split; [reflexivity|]);
    apply map_eq; intros z; simpl; heap_lookup.
Qed.

Lemma checkerInstance_run ctx chk syn attrs path ip fb s :
  let n := nextAddr s in
  let r := CheckerInstanceSymbol_fromSyntax_instance ctx chk syn attrs path ip fb s in
  r.1 = S n
  ∧ nextAddr r.2 = S (S n)
  ∧ diags r.2 = diags s ++ checkerDiags ctx syn ip fb
  ∧ results r.2 = results s ∧ trace r.2 = trace s
  ∧ resolvedConfigs r.2 = resolvedConfigs s
  ∧ symbols r.2
    = if depthExceeded ctx || checkerBindUnderBind ctx fb
      then <[S n := SCheckerInstance (invalidCheckerInstance chk n)]>
             (<[n := SCheckerInstanceBody (invalidCheckerBody chk (S n))]>
                (symbols s))
      else <[S n := SCheckerInstance (validCheckerInstance syn attrs path n)]>
             (<[n := SCheckerInstanceBody (validCheckerBody ctx chk ip fb (S n))]>
                (symbols s)).
Proof.
  intros n r. subst n r.
  unfold CheckerInstanceSymbol_fromSyntax_instance, checkerDiags,
    checkerBindUnderBind, depthExceeded, assertionDepth,
    assertionParentIsFromBind, CheckerInstanceSymbol_createInvalid,
    validCheckerBody, validCheckerInstance, invalidCheckerBody,
    invalidCheckerInstance, assertionDepth, assertionParentIsFromBind.
  destruct (tryFillAssertionDetails (scope ctx)) as [[d pfb|pfb]|];
    case_bool_decide; cbn [negb andb orb];
    try destruct pfb; try destruct fb; cbn [negb andb orb];
    try destruct (inForkJoin (scope ctx)); try destruct ip;
    (split; [reflexivity|]); (split; [reflexivity|]);
    (split; [simpl; rewrite <- ?app_assoc, ?app_nil_r; reflexivity|]);
    (split; [reflexivity|]); (split; [reflexivity|]); (split; [reflexivity|]);
    apply map_eq; intros z; simpl; heap_lookup.
Qed.


Lemma countCode_app c ds ds' :
  countCode c (ds ++ ds') = countCode c ds + countCode c ds'.
Proof. unfold countCode. now rewrite filter_app, length_app. Qed.

Lemma checkerDiags_nameRequired ctx syn ip fb :
  countCode InstanceNameRequired (checkerDiags ctx syn ip fb) = 0.
Proof.
  unfold checkerDiags.
  destruct (depthExceeded ctx); [reflexivity|].
  destruct (checkerBindUnderBind ctx fb); [reflexivity|].
  destruct (inForkJoin (scope ctx));
    destruct (tryFillAssertionDetails (scope ctx)) as [[? ?|?]|];
    try destruct ip; reflexivity.
Qed.


(* ===================================================================== *)
(** ** Statements in an uninstantiated scope                             *)
(* ===================================================================== *)

Lemma findParentInst_true sc : ∀ c, (findParentInst sc true c).1.2 = true.
Proof.
  revert sc. fix IH 1.
  intros [b p|n u fb d p q|n u p|n k p|n p] c; simpl.
  - reflexivity.
  - destruct q as [q|]; [apply IH|reflexivity].
  - destruct p as [p|]; [apply IH|reflexivity].
  - destruct p as [p|]; [apply IH|reflexivity].
  - destruct p as [p|]; [apply IH|reflexivity].
Qed.

Lemma findParentInst_inside sc :
  insideUninstantiated sc → ∀ u c, (findParentInst sc u c).1.2 = true.
Proof.
  induction 1 as [b p Hb|n fb d p q|n p|n u p H IH|n k p H IH|n p H IH];
    intros u' c; simpl.
  - rewrite Hb. apply orb_true_r.
  - rewrite orb_true_r. destruct q; [apply findParentInst_true|reflexivity].
  - rewrite orb_true_r. destruct p; [apply findParentInst_true|reflexivity].
  - apply IH.
  - apply IH.
  - apply IH.
Qed.

Lemma Scope_isUninstantiated_inside sc :
  insideUninstantiated sc → Scope_isUninstantiated sc = true.
Proof.
  induction 1 as [b p Hb|n fb d p q|n p|n u p H IH|n k p H IH|n p H IH];
    simpl; auto.
  rewrite IH. apply orb_true_r.
Qed.

Lemma placeholdersAdded_refl s : placeholdersAdded s s.
Proof. repeat split; auto. Qed.

Lemma placeholdersAdded_emplace s0 sym :
  isNet sym ∨ isPlaceholder sym → preserves (placeholdersAdded s0) (emplace sym).
Proof.
  intros Hsym s (Hn & Hd & Ht & Hc & Hq). rewrite emplace_run.
  cbn [snd]. repeat split; simpl; auto; try lia.
  intros a sym'. heap_lookup.
  - intros [= <-]. now right.
  - apply Hq.
Qed.

Lemma placeholdersAdded_setMustBeChecker s0 a :
  preserves (placeholdersAdded s0) (modify a Symbol_setMustBeChecker).
Proof.
  intros s (Hn & Hd & Ht & Hc & Hq).
  repeat split; simpl; auto.
  intros x sym. rewrite lookup_alter. case_decide; [subst x|apply Hq].
  destruct (symbols s !! a) as [old|] eqn:Hold; [|done].
  simpl. intros [= <-].
  destruct (Hq _ _ Hold) as [H0|[[n ->]|[u ->]]].
  - destruct old; simpl; auto. right. right. now eexists.
  - right. left. now exists n.
  - right. right. now eexists.
Qed.

Lemma createImplicitNets_placeholdersAdded s0 inst ctx names :
  preserves (placeholdersAdded s0) (createImplicitNets inst ctx names).
Proof.
  unfold createImplicitNets. destruct (defaultNetTypeIsError ctx);
    [apply preserves_ret|].
  apply preserves_foldM. intros nm conn.
  destruct (match conn with OrderedPortConnection e _ => Some e
                          | NamedPortConnection _ e _ => e | _ => None end);
    [|apply preserves_ret].
  apply preserves_foldM. intros nm' ins.
  case_bool_decide; [apply preserves_ret|].
  apply preserves_bind;
    [apply placeholdersAdded_emplace; left; now eexists|intros net].
  apply preserves_bind; [intros s Hs; exact Hs|intros _].
  apply preserves_ret.
Qed.

Lemma createUninstantiatedDef_placeholdersAdded s0 syn inst name ctx params names :
  preserves (placeholdersAdded s0)
    (createUninstantiatedDef syn inst name ctx params names).
Proof.
  unfold createUninstantiatedDef.
  apply preserves_bind; [apply createImplicitNets_placeholdersAdded|intros nm].
  apply preserves_bind;
    [apply placeholdersAdded_emplace; right; now eexists|intros sym].
  apply preserves_bind; [intros s Hs; exact Hs|intros _].
  apply preserves_ret.
Qed.

Lemma createUninstantiatedDefs_placeholdersAdded s0 syn name ctx params :
  preserves (placeholdersAdded s0) (createUninstantiatedDefs syn name ctx params).
Proof.
  unfold createUninstantiatedDefs.
  apply preserves_bind; [|intros _; apply preserves_ret].
  apply preserves_foldM. intros nm inst.
  apply createUninstantiatedDef_placeholdersAdded.
Qed.

Lemma createUninstantiatedDef_run syn inst name ctx params names s :
  let nets := createImplicitNets inst ctx names s in
  createUninstantiatedDef syn inst name ctx params names s
  = (nets.1,
     {| nextAddr := S (nextAddr nets.2);
        symbols :=
          <[nextAddr nets.2 :=
              SUninstantiatedDef
                {| ud_name := getNameLoc inst; definitionName := name;
                   paramExpressions := params; mustBeChecker := false;
                   ud_syntax := Some inst;
                   ud_attributes := attributes syn |}]> (symbols nets.2);
        resolvedConfigs := resolvedConfigs nets.2; diags := diags nets.2;
        trace := trace nets.2; results := results nets.2 ++ [nextAddr nets.2];
        implicitNets := implicitNets nets.2 |}).
Proof.
  intros nets. unfold createUninstantiatedDef. rewrite run_bind. fold nets.
  reflexivity.
Qed.

Lemma placeholderFor_frame syn s s' r inst :
  r < nextAddr s → framed s s' →
  placeholderFor syn s r inst → placeholderFor syn s' r inst.
Proof.
  intros Hr [_ Hf] (u & Hu & H). exists u. split; [|exact H].
  now rewrite Hf.
Qed.

Lemma createUninstantiatedDefs_loop syn ctx params insts : ∀ names s,
  let out := foldM (fun names i =>
                      createUninstantiatedDef syn i (type syn) ctx params names)
                   names insts s in
  placeholdersFor syn insts s out.2 ∧ framed s out.2.
Proof.
  induction insts as [|inst insts IH]; intros names s; simpl.
  - split; [|split; auto].
    exists []. rewrite app_nil_r. repeat split; auto using NoDup_nil_2.
  - rewrite run_bind.
    pose proof (createUninstantiatedDef_run syn inst (type syn) ctx params names s)
      as Hrun. cbn zeta in Hrun.
    pose proof (createImplicitNets_netsAdded s inst ctx names s (netsAdded_refl s))
      as (_ & (Hn & Hf) & Hr).
    set (nets := createImplicitNets inst ctx names s) in *.
    set (s1 := (createUninstantiatedDef syn inst (type syn) ctx params names s).2).
    assert (nextAddr s1 = S (nextAddr nets.2)) as Hn1
      by (subst s1; now rewrite Hrun).
    assert (results s1 = results s ++ [nextAddr nets.2]) as Hr1
      by (subst s1; rewrite Hrun; simpl; now rewrite Hr).
    assert (placeholderFor syn s1 (nextAddr nets.2) inst) as Hp1.
    { subst s1. rewrite Hrun. eexists. split; [simpl; heap_lookup|].
      simpl. auto. }
    assert (framed s s1) as Hf1.
    { split; [lia|]. intros a Ha. subst s1. rewrite Hrun. simpl.
      heap_lookup. now apply Hf. }
    destruct (IH (createUninstantiatedDef syn inst (type syn) ctx params names s).1 s1)
      as ((rs & Hres & Hall & Hrange & Hnd) & Hf2).
    cbn zeta in Hres, Hall, Hrange, Hnd, Hf2.
    split.
    + exists (nextAddr nets.2 :: rs). split; [|split; [|split]].
      * rewrite Hres, Hr1, <- app_assoc. reflexivity.
      * constructor; [|exact Hall].
        eapply placeholderFor_frame; [|exact Hf2|exact Hp1]. lia.
      * constructor; [destruct Hf2; lia|].
        eapply Forall_impl; [exact Hrange|]. simpl. intros; lia.
      * constructor; [|exact Hnd]. intros Hin.
        rewrite Forall_forall in Hrange. apply Hrange in Hin. lia.
    + destruct Hf1 as [Ha1 Hb1], Hf2 as [Ha2 Hb2]. split; [lia|].
      intros a Ha. rewrite Hb2 by lia. now apply Hb1.
Qed.

Lemma createUninstantiatedDefs_run syn ctx params s :
  let s' := (createUninstantiatedDefs syn (type syn) ctx params s).2 in
  placeholdersFor syn (instances syn) s s' ∧ framed s s'.
Proof.
  unfold createUninstantiatedDefs. rewrite run_bind. cbn [snd mret M_ret].
  apply createUninstantiatedDefs_loop.
Qed.

Lemma setMustBeChecker_idem sym :
  Symbol_setMustBeChecker (Symbol_setMustBeChecker sym)
  = Symbol_setMustBeChecker sym.
Proof. now destruct sym. Qed.

Lemma setMustBeChecker_all rs : ∀ s,
  let s' := (forM_ (fun sym => modify sym Symbol_setMustBeChecker) rs s).2 in
  nextAddr s' = nextAddr s ∧ results s' = results s
  ∧ ∀ a, symbols s' !! a
         = if bool_decide (a ∈ rs)
           then Symbol_setMustBeChecker <$> symbols s !! a
           else symbols s !! a.
Proof.
  induction rs as [|r rs IH]; intros s; simpl.
  - repeat split.
  - rewrite run_bind.
    destruct (IH (modify r Symbol_setMustBeChecker s).2) as (Hn & Hr & Hs).
    cbn zeta in Hn, Hr, Hs.
    split; [exact Hn|]. split; [exact Hr|].
    intros a. rewrite Hs. cbn [modify snd symbols]. rewrite lookup_alter.
    destruct (decide (r = a)) as [->|Hne].
    + rewrite (bool_decide_true (a ∈ a :: rs)) by left.
      case_bool_decide; [|reflexivity].
      destruct (symbols s !! a); simpl; rewrite ?setMustBeChecker_idem;
        reflexivity.
    + case_bool_decide as H1; case_bool_decide as H2; try reflexivity;
        exfalso; rewrite elem_of_cons in *.
      * apply H2. now right.
      * destruct H2 as [->|]; done.
Qed.



(* ===================================================================== *)
(** ** Instances of one builder; a configuration block as the new root   *)
(* ===================================================================== *)

Lemma instanceNeutral_setName n : instanceNeutral (Symbol_setName n).
Proof. split; [done|]. intros [] i' [= <-]; eauto. Qed.

Lemma instanceNeutral_setParent p : instanceNeutral (Symbol_setParent p).
Proof. split; [done|]. intros [] i' [= <-]; eauto. Qed.

Lemma instanceNeutral_setArraySyntax syn :
  instanceNeutral (Symbol_setArraySyntax syn).
Proof. split; [done|]. intros [] i' [= <-]; eauto. Qed.

Lemma instanceNeutral_setMustBeChecker : instanceNeutral Symbol_setMustBeChecker.
Proof. split; [done|]. intros [] i' [= <-]; eauto. Qed.

Lemma builtBy_same B lo s s' :
  symbols s' = symbols s → resolvedConfigs s' = resolvedConfigs s →
  nextAddr s' = nextAddr s → builtBy B lo s → builtBy B lo s'.
Proof.
  intros Hs Hc Hn (Hlo & [Hw Hr] & Hi). unfold builtBy, wfElab, wfArena, instanceOf.
  rewrite Hs, Hc, Hn. auto.
Qed.

Lemma builtBy_modify B lo a f :
  instanceNeutral f → preserves (builtBy B lo) (modify a f).
Proof.
  intros [Hbody Hinst] s (Hlo & [Hw Hr] & Hi).
  split; [exact Hlo|]. split; [split|].
  - intros x Hx. apply Hw. simpl in Hx. rewrite lookup_alter in Hx.
    case_decide; [subst; now apply fmap_is_Some in Hx|exact Hx].
  - exact Hr.
  - intros x i' Hx Hl. simpl in Hl. rewrite lookup_alter in Hl.
    assert (∃ i, symbols s !! x = Some (SInstance i) ∧ body i' = body i
                 ∧ resolvedConfig i' = resolvedConfig i) as (i & Hsi & Hb & Hc).
    { case_decide; [|eauto]. subst.
      apply fmap_Some in Hl as (sym & Hsym & Hf). symmetry in Hf.
      destruct (Hinst _ _ Hf) as (i & -> & ? & ?). eauto. }
    destruct (Hi x i Hx Hsi) as (bd & Hbd & Hdef & Hfb & Hun & Hrc).
    exists bd. rewrite Hb, Hc. split;
      [|repeat (split; [assumption|]); exact Hrc].
    cbn [modify snd symbols]. rewrite lookup_alter.
    destruct (decide (a = body i)) as [Hd|Hd]; [|exact Hbd].
    rewrite Hd, Hbd. simpl. now rewrite Hbody.
Qed.

(** The rule for a step that only adds objects: what existed is kept, and
    the new instances are those of [B]. *)
Lemma builtBy_extend B lo s s' :
  builtBy B lo s →
  nextAddr s ≤ nextAddr s' → wfElab s' →
  (∀ z, z < nextAddr s → symbols s' !! z = symbols s !! z) →
  (∀ z, z < nextAddr s → resolvedConfigs s' !! z = resolvedConfigs s !! z) →
  (∀ a i, nextAddr s ≤ a → symbols s' !! a = Some (SInstance i) →
          instanceOf B lo s' a i) →
  builtBy B lo s'.
Proof.
  intros (Hlo & [Hw Hr] & Hi) Hn Hwf Hsym Hrc Hnew.
  split; [lia|]. split; [exact Hwf|].
  intros a i Ha Hl. destruct (decide (a < nextAddr s)) as [Hlt|Hge];
    [|apply Hnew; [lia|exact Hl]].
  rewrite Hsym in Hl by exact Hlt.
  destruct (Hi a i Ha Hl) as (bd & Hbd & Hdef & Hfb & Hun & Hc).
  exists bd. split; [|split; [done|split; [done|split; [done|]]]].
  - rewrite Hsym; [exact Hbd|]. apply Hw. eauto.
  - destruct (bld_resolvedConfig B) as [[rcAddr resolved]|]; [|exact Hc].
    destruct (newConfigRoot B) as [root|]; [|exact Hc].
    destruct Hc as (Hr1 & Hr3). split; [exact Hr1|].
    rewrite Hrc; [exact Hr3|]. apply Hr. eauto.
Qed.

Lemma builtBy_emplace B lo sym :
  (∀ i, sym ≠ SInstance i) → preserves (builtBy B lo) (emplace sym).
Proof.
  intros Hsym s H. pose proof H as (Hlo & [Hw Hr] & Hi).
  rewrite emplace_run. cbn [snd].
  apply (builtBy_extend B lo s); simpl; auto.
  - split.
    + intros z Hz. simpl in Hz. rewrite lookup_insert in Hz.
      case_decide; [simpl; lia|]. specialize (Hw z Hz). simpl. lia.
    + intros z Hz. specialize (Hr z Hz). simpl. lia.
  - intros z Hz. rewrite lookup_insert. case_decide; [lia|done].
  - intros a i Ha. rewrite lookup_insert.
    case_decide; [intros [= E]; now destruct (Hsym i)|].
    intros Hl. assert (a < nextAddr s) by (apply Hw; eauto). lia.
Qed.

Lemma builtBy_emplaceResolvedConfig B lo rc :
  preserves (builtBy B lo) (emplaceResolvedConfig rc).
Proof.
  intros s H. pose proof H as (Hlo & [Hw Hr] & Hi).
  apply (builtBy_extend B lo s); simpl; auto.
  - split.
    + intros z Hz. specialize (Hw z Hz). simpl. lia.
    + intros z Hz. simpl in Hz. rewrite lookup_insert in Hz.
      case_decide; [simpl; lia|]. specialize (Hr z Hz). simpl. lia.
  - intros z Hz. rewrite lookup_insert. case_decide; [lia|done].
  - intros a i Ha Hl. assert (a < nextAddr s) by (apply Hw; eauto). lia.
Qed.

Lemma createInstance_configs b syn node path s :
  let a := nextAddr s in
  let r := InstanceBuilder_createInstance b syn node path s in
  match bld_resolvedConfig b, newConfigRoot b with
  | Some (_, resolved), Some root =>
      nextAddr r.2 = S (S (S a))
      ∧ resolvedConfigs r.2
        = <[S (S a) := ResolvedConfig_setConfigRule (configRule resolved)
                         (mkResolvedConfig root a)]> (resolvedConfigs s)
  | _, _ => nextAddr r.2 = S (S a) ∧ resolvedConfigs r.2 = resolvedConfigs s
  end.
Proof.
  intros a r. subst a r. unfold InstanceBuilder_createInstance.
  rewrite run_bind, InstanceSymbol_new_run. cbn [fst snd].
  destruct (bld_resolvedConfig b) as [[rcAddr resolved]|];
    [destruct (newConfigRoot b)|]; split; reflexivity.
Qed.

Lemma builtBy_createInstance B lo syn node path :
  preserves (builtBy B lo) (InstanceBuilder_createInstance B syn node path).
Proof.
  intros s H. pose proof H as (Hlo & [Hw Hr] & Hi).
  pose proof (createInstance_run B syn node path s) as (_ & Hlt & _ & _ & _ & Hs).
  pose proof (createInstance_configs B syn node path s) as Hc.
  cbn zeta in Hlt, Hs, Hc.
  set (s' := (InstanceBuilder_createInstance B syn node path s).2) in *.
  assert (nextAddr s' = S (S (nextAddr s)) ∨ nextAddr s' = S (S (S (nextAddr s))))
    as Hn.
  { destruct (bld_resolvedConfig B) as [[rcAddr resolved]|];
      [destruct (newConfigRoot B)|]; destruct Hc; auto. }
  assert (∀ z, z < nextAddr s → resolvedConfigs s' !! z = resolvedConfigs s !! z)
    as Hrc.
  { intros z Hz. destruct (bld_resolvedConfig B) as [[rcAddr resolved]|];
      [destruct (newConfigRoot B)|]; destruct Hc as [_ ->]; try done.
    rewrite lookup_insert. case_decide; [lia|done]. }
  apply (builtBy_extend B lo s); auto; try lia.
  - split.
    + intros z Hz. rewrite Hs in Hz. rewrite !lookup_insert in Hz.
      repeat case_decide; try lia. specialize (Hw z Hz). lia.
    + intros z Hz. destruct (bld_resolvedConfig B) as [[rcAddr resolved]|];
        [destruct (newConfigRoot B)|]; destruct Hc as [Hn' Hc];
        rewrite Hc in Hz; try (specialize (Hr z Hz); lia).
      rewrite lookup_insert in Hz. case_decide; [lia|].
      specialize (Hr z Hz). lia.
  - intros z Hz. rewrite Hs, !lookup_insert. repeat case_decide; try lia. done.
  - intros a i Ha. rewrite Hs, !lookup_insert. repeat case_decide; try done.
    + intros [= <-]. subst a. unfold instanceOf. rewrite Hs. cbn [body].
      eexists. rewrite !lookup_insert. rewrite decide_False by lia.
      rewrite decide_True by done.
      split; [reflexivity|]. simpl. do 3 (split; [reflexivity|]).
      unfold createdConfig.
      destruct (bld_resolvedConfig B) as [[rcAddr resolved]|];
        [destruct (newConfigRoot B)|]; try reflexivity.
      destruct Hc as [_ ->]. split; [reflexivity|].
      rewrite lookup_insert. now rewrite decide_True.
    + intros Hl. assert (a < nextAddr s) by (apply Hw; eauto). lia.
Qed.

Lemma builtBy_checker B lo ctx chk syn attrs path ip fb :
  preserves (builtBy B lo)
    (CheckerInstanceSymbol_fromSyntax_instance ctx chk syn attrs path ip fb).
Proof.
  intros s H. pose proof H as (Hlo & [Hw Hr] & Hi).
  pose proof (checkerInstance_run ctx chk syn attrs path ip fb s)
    as (_ & Hn & _ & _ & _ & Hc & Hs).
  cbn zeta in Hn, Hc, Hs.
  set (s' := (CheckerInstanceSymbol_fromSyntax_instance ctx chk syn attrs path
                ip fb s).2) in *.
  apply (builtBy_extend B lo s); auto; try lia.
  - split.
    + intros z Hz. rewrite Hs in Hz.
      destruct (_ || _); rewrite !lookup_insert in Hz;
        repeat case_decide; try lia; specialize (Hw z Hz); lia.
    + intros z Hz. rewrite Hc in Hz. specialize (Hr z Hz). lia.
  - intros z Hz. rewrite Hs.
    destruct (_ || _); rewrite !lookup_insert; repeat case_decide; try lia; done.
  - intros z Hz. now rewrite Hc.
  - intros a i Ha. rewrite Hs.
    destruct (_ || _); rewrite !lookup_insert; repeat case_decide; try done;
      intros Hl; assert (a < nextAddr s) by (apply Hw; eauto); lia.
Qed.

Lemma builtBy_stable B lo : Stable (builtBy B lo) (fun b => b = B).
Proof.
  split; intros;
    try (intros s; apply builtBy_same; reflexivity);
    try (apply builtBy_modify;
         auto using instanceNeutral_setName, instanceNeutral_setParent,
           instanceNeutral_setArraySyntax, instanceNeutral_setMustBeChecker);
    try (apply builtBy_emplace; intros i; discriminate).
  - apply builtBy_emplaceResolvedConfig.
  - subst. apply builtBy_createInstance.
  - apply builtBy_checker.
Qed.

Lemma builtBy_start B s : wfElab s → builtBy B (nextAddr s) s.
Proof.
  intros [Hw Hr]. split; [lia|]. split; [split; assumption|].
  intros a i Ha Hl. assert (a < nextAddr s) by (apply Hw; eauto). lia.
Qed.

Lemma wfElab_same s s' :
  symbols s' = symbols s → resolvedConfigs s' = resolvedConfigs s →
  nextAddr s' = nextAddr s → wfElab s → wfElab s'.
Proof.
  intros Hs Hc Hn [Hw Hr]. unfold wfElab, wfArena. rewrite Hs, Hc, Hn. auto.
Qed.

Lemma wfElab_empty : wfElab Elab_empty.
Proof.
  split; intros a [x Hx]; simpl in Hx; now rewrite lookup_empty in Hx.
Qed.

(** The module path of [createInstances] when no bind is beneath a bind:
    after the checks, the call runs the loop body with one builder [B], for
    the one instance or for all instances of the statement, from a state
    [s'] to which at most a resolved configuration has been added, and hands
    on the from-bind flag of [B]. *)
Lemma createInstances_definition cap d spec rule root names fb s :
  parentIsFromBind cap && fb = false →
  ∃ B s',
    createInstances cap (Some (IsDefinition d)) spec rule root (names, fb) s
    = (let r := match spec with
                | Some inst => createInstances_body B (cap_context cap) names inst s'
                | None => foldM (createInstances_body B (cap_context cap)) names
                                (instances (cap_syntax cap)) s'
                end in
       ((r.1, bld_isFromBind B), r.2))
    ∧ symbols s' = symbols s ∧ results s' = results s
    ∧ nextAddr s ≤ nextAddr s'
    ∧ (wfElab s → builtBy B (nextAddr s) s')
    ∧ bld_definition B = d
    ∧ newConfigRoot B = root
    ∧ bld_isFromBind B = parentIsFromBind cap || fb
    ∧ match rule, cap_resolvedConfig cap with
      | Some cr, Some _ =>
          ∃ a rc, bld_resolvedConfig B = Some (a, rc) ∧ configRule rc = Some cr
      | Some _, None => bld_resolvedConfig B = None
      | None, _ => bld_resolvedConfig B = cap_resolvedConfig cap
      end.
Proof.
  intros Hbind.
  unfold createInstances, parentIsFromBind in *.
  rewrite run_bind. set (s1 := (logEvent _ s).2).
  rewrite run_bind.
  match goal with
  | |- context [(?m s1).2] => set (s2 := (m s1).2)
  end.
  assert (symbols s2 = symbols s ∧ resolvedConfigs s2 = resolvedConfigs s
          ∧ nextAddr s2 = nextAddr s ∧ results s2 = results s)
    as (Hs2 & Hc2 & Hn2 & Hr2).
  { subst s2 s1. destruct (cap_inChecker cap); [done|].
    destruct (cap_owningDefinition cap); [|done].
    destruct (_ || _); done. }
  clearbody s2. clear s1.
  set (pfb := match cap_parentInst cap with
              | Some parent => eb_isFromBind parent
              | None => false
              end) in *.
  rewrite Hbind.
  set (fb' := if pfb then true else fb).
  assert (fb' = pfb || fb) as Hfb' by (subst fb'; now destruct pfb).
  rewrite run_bind.
  match goal with
  | |- context [(?m s2).2] => set (s3 := (m s2).2); set (lc := (m s2).1)
  end.
  exists {| bld_context := cap_context cap; bld_definition := d;
            parentOverrideNode := cap_parentOverrideNode cap;
            bld_attributes := attributes (cap_syntax cap);
            bld_resolvedConfig := lc; newConfigRoot := root;
            bld_isFromBind := fb' |}, s3.
  split; [destruct spec; rewrite run_bind; reflexivity|].
  split; [|split; [|split; [|split; [|split; [reflexivity|split;
    [reflexivity|split; [exact Hfb'|]]]]]]].
  - subst s3. destruct rule as [cr|];
      [destruct (cap_resolvedConfig cap) as [[? ?]|]|]; exact Hs2.
  - subst s3. destruct rule as [cr|];
      [destruct (cap_resolvedConfig cap) as [[? ?]|]|]; exact Hr2.
  - subst s3. destruct rule as [cr|];
      [destruct (cap_resolvedConfig cap) as [[? ?]|]|]; simpl; lia.
  - intros Hwf. assert (wfElab s2) as Hwf2 by (eapply wfElab_same; eauto).
    subst s3. destruct rule as [cr|];
      [destruct (cap_resolvedConfig cap) as [[? ?]|]|].
    + rewrite run_bind. cbn [snd mret M_ret].
      apply builtBy_emplaceResolvedConfig. rewrite <- Hn2.
      now apply builtBy_start.
    + rewrite <- Hn2. now apply builtBy_start.
    + rewrite <- Hn2. now apply builtBy_start.
  - subst lc. destruct rule as [cr|];
      [destruct (cap_resolvedConfig cap) as [[? ?]|]|]; try reflexivity.
    rewrite run_bind. cbn [fst mret M_ret]. eexists _, _. split; [reflexivity|].
    destruct (liblist cr); reflexivity.
Qed.

(** Every instance that such a call creates is one of its builder. *)
Lemma createInstances_builtBy cap d spec rule root names fb s :
  wfElab s →
  parentIsFromBind cap && fb = false →
  let out := createInstances cap (Some (IsDefinition d)) spec rule root
               (names, fb) s in
  ∃ B, builtBy B (nextAddr s) out.2
       ∧ bld_definition B = d
       ∧ newConfigRoot B = root
       ∧ bld_isFromBind B = parentIsFromBind cap || fb
       ∧ out.1.2 = parentIsFromBind cap || fb
       ∧ match rule, cap_resolvedConfig cap with
         | Some cr, Some _ =>
             ∃ a rc, bld_resolvedConfig B = Some (a, rc)
                     ∧ configRule rc = Some cr
         | Some _, None => bld_resolvedConfig B = None
         | None, _ => bld_resolvedConfig B = cap_resolvedConfig cap
         end.
Proof.
  intros Hwf Hbind out. subst out.
  destruct (createInstances_definition cap d spec rule root names fb s Hbind)
    as (B & s' & -> & _ & _ & _ & Hb & Hd & Hroot & Hfb & Hrc).
  exists B. cbn [fst snd].
  split; [|split; [exact Hd|split; [exact Hroot|split;
    [exact Hfb|split; [exact Hfb|exact Hrc]]]]].
  destruct spec as [inst|].
  - eapply createInstances_body_preserves;
      [apply builtBy_stable|reflexivity|exact (Hb Hwf)].
  - eapply preserves_foldM; [|exact (Hb Hwf)]. intros nm i.
    eapply createInstances_body_preserves; [apply builtBy_stable|reflexivity].
Qed.

(** The loop body for an instance without dimensions: the symbol it appends
    to [results] is a new instance. *)
Lemma createInstances_body_single B ctx names inst s :
  match decl inst with
  | Some dcl => dimensions dcl = []
  | None => True
  end →
  let out := createInstances_body B ctx names inst s in
  ∃ a i, results out.2 = results s ++ [a] ∧ nextAddr s ≤ a
         ∧ symbols out.2 !! a = Some (SInstance i)
         ∧ inst_name i = getNameLoc inst.
Proof.
  intros Hdims out. subst out. unfold createInstances_body.
  rewrite run_bind.
  pose proof (createImplicitNets_netsAdded s inst ctx names s (netsAdded_refl s))
    as ((Hn & _) & _ & Hr).
  set (nets := createImplicitNets inst ctx names s) in *.
  assert (∃ node s1, InstanceBuilder_create B inst nets.2
                     = InstanceBuilder_createInstance B inst node [] s1
                     ∧ nextAddr s1 = nextAddr nets.2
                     ∧ results s1 = results nets.2) as (node & s1 & Hc & Hn1 & Hr1).
  { unfold InstanceBuilder_create. destruct (decl inst) as [dcl|].
    - rewrite Hdims. simpl. eexists _, _. split; [reflexivity|]. split; reflexivity.
    - rewrite run_bind. eexists _, _. split; [reflexivity|]. split; reflexivity. }
  rewrite run_bind, Hc.
  pose proof (createInstance_run B inst node [] s1) as (Ha & _ & _ & Hres & _ & Hs).
  cbn zeta in Ha, Hres, Hs.
  rewrite run_bind. cbn [fst snd mret M_ret pushResult results symbols].
  rewrite Ha, Hres, Hs, Hr1, Hr, Hn1.
  eexists _, _. split; [reflexivity|]. split; [exact Hn|].
  split; [now rewrite lookup_insert, decide_True|reflexivity].
Qed.


(* ===================================================================== *)
(** ** Binds beneath binds                                               *)
(* ===================================================================== *)

(** A bind beneath a bind on the module path: the call reports
    [BindUnderBind] after the check of the parent, creates nothing and
    appends nothing to [results]. *)
Lemma createInstances_bind_under_bind cap d spec rule root names s :
  parentIsFromBind cap = true →
  let out := createInstances cap (Some (IsDefinition d)) spec rule root
               (names, true) s in
  out.1 = (names, true)
  ∧ symbols out.2 = symbols s ∧ results out.2 = results s
  ∧ nextAddr out.2 = nextAddr s
  ∧ ∃ ds, diags out.2
          = diags s ++ ds ++ [{| diagCode := BindUnderBind;
                                 diagRange := diagSite cap spec rule |}]
          ∧ countCode BindUnderBind ds = 0.
Proof.
  intros Hp out. subst out. unfold createInstances, parentIsFromBind, diagSite in *.
  rewrite Hp. cbn [andb]. rewrite !run_bind.
  destruct (cap_inChecker cap);
    [|destruct (cap_owningDefinition cap) as [owning|];
      [destruct (_ || _)|]];
    (split; [reflexivity|]); (split; [reflexivity|]); (split; [reflexivity|]);
    (split; [reflexivity|]).
  - eexists [_]. simpl. rewrite <- app_assoc. split; reflexivity.
  - eexists [_]. simpl. rewrite <- app_assoc. split; reflexivity.
  - exists []. split; reflexivity.
  - exists []. split; reflexivity.
Qed.

(** An instantiation that is not from a bind, in a body that is: every
    instance that the call creates has a body marked as from-bind, and the
    captured flag [isFromBind] is left set for the calls that follow. *)
Lemma createInstances_marks_from_bind cap d spec rule root names s :
  wfElab s →
  parentIsFromBind cap = true →
  let out := createInstances cap (Some (IsDefinition d)) spec rule root
               (names, false) s in
  out.1.2 = true
  ∧ ∀ a i, nextAddr s ≤ a → symbols out.2 !! a = Some (SInstance i) →
      ∃ bd, symbols out.2 !! body i = Some (SInstanceBody bd)
            ∧ ib_isFromBind bd = true.
Proof.
  intros Hwf Hp out. subst out.
  destruct (createInstances_builtBy cap d spec rule root names false s Hwf)
    as (B & (_ & _ & Hi) & _ & _ & HB & Hout & _).
  { now rewrite Hp. }
  rewrite Hp in HB, Hout. split; [exact Hout|].
  intros a i Ha Hl. destruct (Hi a i Ha Hl) as (bd & Hbd & _ & Hfb & _).
  exists bd. split; [exact Hbd|]. now rewrite Hfb.
Qed.

(** C7 (the code at the failing input).  The statement [leaf x(), y();] is
    not from a bind; it stands in the body of [b1], which was created from a
    bind, and the configuration has a rule for [top.b1.x].  The instance [x]
    is created and marked as from-bind; the instance [y] of the same
    statement is rejected with [BindUnderBind] and is not created.  The
    statement [leaf y();] alone at the same place creates [y]. *)
Theorem bind_flag_reaches_the_next_instance :
  (diags (InstanceSymbol_fromSyntax
            (statementOf "leaf" [instanceNamed "x" 10; instanceNamed "y" 11])
            bindContext false (arenaFrom 5)).2
   = [{| diagCode := BindUnderBind; diagRange := 1 |}]
   ∧ instanceNames (InstanceSymbol_fromSyntax
                      (statementOf "leaf" [instanceNamed "x" 10; instanceNamed "y" 11])
                      bindContext false (arenaFrom 5)).2
     = ["x"]
   ∧ bodyFlags (InstanceSymbol_fromSyntax
                  (statementOf "leaf" [instanceNamed "x" 10; instanceNamed "y" 11])
                  bindContext false (arenaFrom 5)).2
     = [true])
  ∧ (diags (InstanceSymbol_fromSyntax
              (statementOf "leaf" [instanceNamed "y" 11])
              bindContext false (arenaFrom 5)).2
     = []
     ∧ instanceNames (InstanceSymbol_fromSyntax
                        (statementOf "leaf" [instanceNamed "y" 11])
                        bindContext false (arenaFrom 5)).2
       = ["y"]).
Proof. vm_compute. repeat split; reflexivity. Qed.

(* ===================================================================== *)
(** ** A nested configuration, end to end                                *)
(* ===================================================================== *)

Lemma wfElab_arenaFrom n : wfElab (arenaFrom n).
Proof.
  split; intros a [x Hx]; simpl in Hx; now rewrite lookup_empty in Hx.
Qed.


(** The same statement through [InstanceSymbol::fromSyntax]. *)
Example nested_configuration_end_to_end :
  results (InstanceSymbol_fromSyntax (statementOf "leaf" [instanceNamed "x" 10])
             nestedContext false (arenaFrom 5)).2 = [6]
  ∧ resolvedConfigs
      (InstanceSymbol_fromSyntax (statementOf "leaf" [instanceNamed "x" 10])
         nestedContext false (arenaFrom 5)).2 !! 8
    = Some {| useConfig := innerConfigBlock; rootInstance := 6;
              rc_liblist := [{| lib_name := "lib1"; lib_priority := 1 |}];
              configRule := Some nestedRule |}
  ∧ instanceNames
      (InstanceSymbol_fromSyntax (statementOf "leaf" [instanceNamed "x" 10])
         nestedContext false (arenaFrom 5)).2 = ["x"].
Proof. vm_compute. repeat split; reflexivity. Qed.

(* ===================================================================== *)
(** ** An array of gates                                                 *)
(* ===================================================================== *)


(* ===================================================================== *)
(** ** Configurations: the rules that are recorded                       *)
(* ===================================================================== *)

Lemma ruleOf_default parts : ruleOf InstanceOverride_default parts = None.
Proof. destruct parts; reflexivity. Qed.

Lemma ruleOf_cons n p parts :
  ruleOf n (p :: parts)
  = match childNodes n !! p with
    | Some c => ruleOf c parts
    | None => None
    end.
Proof. unfold ruleOf. cbn [findNode]. now destruct (childNodes n !! p). Qed.

(** Lookup after update, at the updated path. *)
Lemma ruleOf_updateNode_eq parts f : ∀ n,
  ruleOf (updateNode parts f n) parts = f (ruleOf n parts).
Proof.
  induction parts as [|p parts IH]; intros n; [reflexivity|].
  rewrite !ruleOf_cons. cbn [updateNode childNodes].
  rewrite lookup_insert_eq, IH.
  destruct (childNodes n !! p) as [c|]; [reflexivity|].
  cbn [default]. now rewrite ruleOf_default.
Qed.

(** Lookup after update, at any other path. *)
Lemma ruleOf_updateNode_ne parts f : ∀ n q,
  q ≠ parts → ruleOf (updateNode parts f n) q = ruleOf n q.
Proof.
  induction parts as [|p parts IH]; intros n q Hne.
  - destruct q as [|y q]; [done|]. reflexivity.
  - destruct q as [|y q]; [reflexivity|].
    rewrite !ruleOf_cons. cbn [updateNode childNodes].
    destruct (decide (p = y)) as [->|Hpy].
    + rewrite lookup_insert_eq, IH by congruence.
      destruct (childNodes n !! y) as [c|]; [reflexivity|].
      cbn [default]. now rewrite ruleOf_default.
    + now rewrite lookup_insert_ne.
Qed.

Lemma ruleAt_ruleOf cb top parts :
  ruleAt cb top parts
  = ruleOf (default InstanceOverride_default (instanceOverrides cb !! top)) parts.
Proof.
  unfold ruleAt, ruleOf. destruct (instanceOverrides cb !! top); [reflexivity|].
  cbn [default]. symmetry. apply ruleOf_default.
Qed.

(** One rule of the loop, seen from an instance path. *)
Lemma ruleAt_addRule gsl cb ds ruleSyntax top parts :
  ruleAt (addRule gsl (cb, ds) ruleSyntax).1 top parts
  = mergeRules (instanceRulesFor gsl top parts [ruleSyntax]) (ruleAt cb top parts).
Proof.
  destruct ruleSyntax as [libs|name clause range|t p clause range];
    try reflexivity.
  unfold instanceRulesFor, mergeRules. cbn [omap list_omap addRule fst].
  rewrite !ruleAt_ruleOf. cbn [setInstanceOverrides instanceOverrides].
  destruct (decide (t = top ∧ p = parts)) as [[-> ->]|Hne].
  - rewrite lookup_insert_eq. cbn [default foldl app].
    apply ruleOf_updateNode_eq.
  - cbn [foldl app]. destruct (decide (t = top)) as [->|Ht].
    + rewrite lookup_insert_eq. cbn [default].
      apply ruleOf_updateNode_ne. intros ->. now apply Hne.
    + now rewrite lookup_insert_ne.
Qed.

Lemma instanceRulesFor_cons gsl top parts r rules :
  instanceRulesFor gsl top parts (r :: rules)
  = instanceRulesFor gsl top parts [r] ++ instanceRulesFor gsl top parts rules.
Proof.
  unfold instanceRulesFor. cbn [omap list_omap].
  destruct (match r with InstanceConfigRule _ _ _ _ => _ | _ => None end);
    reflexivity.
Qed.

Lemma ruleAt_rules gsl rules : ∀ cb ds top parts,
  ruleAt (foldl (addRule gsl) (cb, ds) rules).1 top parts
  = mergeRules (instanceRulesFor gsl top parts rules) (ruleAt cb top parts).
Proof.
  induction rules as [|r rules IH]; intros cb ds top parts; [reflexivity|].
  cbn [foldl]. destruct (addRule gsl (cb, ds) r) as [cb' ds'] eqn:E.
  rewrite IH, instanceRulesFor_cons. unfold mergeRules. rewrite foldl_app.
  f_equal. change cb' with (cb', ds').1. rewrite <- E. apply ruleAt_addRule.
Qed.

Lemma storeRule_is_Some r slot : is_Some (storeRule r slot).1.
Proof.
  destruct slot as [nr|]; simpl; [destruct (slotConflict r nr)|]; simpl; eauto.
Qed.

Lemma mergeRules_is_Some rs : ∀ slot,
  is_Some (mergeRules rs slot) ↔ rs ≠ [] ∨ is_Some slot.
Proof.
  induction rs as [|r rs IH]; intros slot.
  - simpl. split; [auto|]. intros [?|?]; done.
  - unfold mergeRules in *. cbn [foldl]. rewrite IH. split; [auto|].
    intros _. right. apply storeRule_is_Some.
Qed.

(** X1.  The rule that a configuration records for an instance path is the
    merge, in source order, of exactly the [instance] rules that name this
    path: rules for other paths, cell rules and default rules do not touch
    it, and a rule is recorded if and only if some rule names the path. *)
Theorem instance_rules_merge_per_path
    (getSourceLibrary : string → option SourceLibrary)
    (syntax : ConfigDeclarationSyntax) (topModule : string)
    (parts : list string) :
  ruleAt (ConfigBlockSymbol_fromSyntax getSourceLibrary syntax).1 topModule parts
  = mergeRules (instanceRulesFor getSourceLibrary topModule parts
                  (cds_rules syntax)) None
  ∧ (is_Some (ruleAt (ConfigBlockSymbol_fromSyntax getSourceLibrary syntax).1
                topModule parts)
     ↔ ∃ clause range,
         InstanceConfigRule topModule parts clause range ∈ cds_rules syntax).
Proof.
  assert (ruleAt (ConfigBlockSymbol_fromSyntax getSourceLibrary syntax).1
            topModule parts
          = mergeRules (instanceRulesFor getSourceLibrary topModule parts
                          (cds_rules syntax)) None) as Heq.
  { unfold ConfigBlockSymbol_fromSyntax. rewrite ruleAt_rules. f_equal. }
  split; [exact Heq|]. rewrite Heq, mergeRules_is_Some.
  split.
  - intros [Hne|[x Hx]]; [|done].
    destruct (instanceRulesFor _ _ _ _) as [|r rs] eqn:E; [done|].
    assert (r ∈ instanceRulesFor getSourceLibrary topModule parts (cds_rules syntax))
      as Hin by (rewrite E; left).
    apply list_elem_of_omap in Hin as (rs' & Hin & Hr).
    destruct rs' as [| |t p clause range]; try discriminate.
    case_decide as Hd; [|discriminate]. destruct Hd as [-> ->]. eauto.
  - intros (clause & range & Hin). left. intros Hnil.
    assert (buildRule getSourceLibrary clause range
            ∈ instanceRulesFor getSourceLibrary topModule parts (cds_rules syntax))
      as Hr.
    { apply list_elem_of_omap. eexists. split; [exact Hin|].
      simpl. now rewrite decide_True. }
    rewrite Hnil in Hr. now apply elem_of_nil in Hr.
Qed.

Lemma storeRule_keeps r nr :
  ∃ m, (storeRule r (Some nr)).1 = Some m
       ∧ rule_sourceRange m = rule_sourceRange nr
       ∧ (is_Some (paramOverrides nr) → paramOverrides m = paramOverrides nr)
       ∧ (is_Some (liblist nr) → liblist m = liblist nr)
       ∧ (cell_name (useCell nr) ≠ "" → useCell m = useCell nr).
Proof.
  unfold storeRule. destruct (slotConflict r nr) eqn:Hc.
  - exists nr. simpl. auto.
  - eexists. split; [reflexivity|]. unfold slotConflict in Hc.
    apply orb_false_elim in Hc as [Hc Hu].
    apply orb_false_elim in Hc as [Hp Hl].
    unfold mergeSlots; simpl.
    repeat split; intros H;
      repeat (case_bool_decide; simpl in *); try tauto; try discriminate.
Qed.

Lemma mergeRules_keeps rs : ∀ r1,
  ∃ r2, mergeRules rs (Some r1) = Some r2
        ∧ rule_sourceRange r2 = rule_sourceRange r1
        ∧ (is_Some (paramOverrides r1) → paramOverrides r2 = paramOverrides r1)
        ∧ (is_Some (liblist r1) → liblist r2 = liblist r1)
        ∧ (cell_name (useCell r1) ≠ "" → useCell r2 = useCell r1).
Proof.
  induction rs as [|r rs IH]; intros r1.
  - exists r1. simpl. auto.
  - unfold mergeRules in *. cbn [foldl].
    destruct (storeRule_keeps r r1) as (m & -> & Hs & Hp & Hl & Hu).
    destruct (IH m) as (r2 & -> & Hs2 & Hp2 & Hl2 & Hu2).
    exists r2. split; [reflexivity|]. split; [congruence|].
    split; [|split].
    + intros H. rewrite <- (Hp H). apply Hp2. now rewrite (Hp H).
    + intros H. rewrite <- (Hl H). apply Hl2. now rewrite (Hl H).
    + intros H. rewrite <- (Hu H). apply Hu2. now rewrite (Hu H).
Qed.

(** X2.  The slots of a recorded instance rule are written once: whatever
    rules follow, the rule recorded for a path keeps its source range and
    every slot ([paramOverrides], [liblist], [useCell]) that was set. *)
Theorem instance_rule_slots_are_written_once
    (getSourceLibrary : string → option SourceLibrary)
    (name : string) (cells : list ConfigCellIdentifierSyntax)
    (rules more : list ConfigRuleSyntax) (topModule : string)
    (parts : list string) (r1 : ConfigRule) :
  ruleAt (ConfigBlockSymbol_fromSyntax getSourceLibrary
            {| cds_name := name; cds_topCells := cells; cds_rules := rules |}).1
         topModule parts = Some r1 →
  ∃ r2,
    ruleAt (ConfigBlockSymbol_fromSyntax getSourceLibrary
              {| cds_name := name; cds_topCells := cells;
                 cds_rules := rules ++ more |}).1
           topModule parts = Some r2
    ∧ rule_sourceRange r2 = rule_sourceRange r1
    ∧ (is_Some (paramOverrides r1) → paramOverrides r2 = paramOverrides r1)
    ∧ (is_Some (liblist r1) → liblist r2 = liblist r1)
    ∧ (cell_name (useCell r1) ≠ "" → useCell r2 = useCell r1).
Proof.
  intros H1.
  destruct (mergeRules_keeps (instanceRulesFor getSourceLibrary topModule parts more)
              r1) as (r2 & Hm & Hrest).
  exists r2. split; [|exact Hrest].
  unfold ConfigBlockSymbol_fromSyntax in *. cbn [cds_rules cds_name cds_topCells] in *.
  rewrite foldl_app.
  destruct (foldl (addRule getSourceLibrary) _ rules) as [cb ds].
  rewrite ruleAt_rules. cbn [fst] in H1. now rewrite H1.
Qed.

Lemma instance_rule_slots_are_written_once_witness :
  ∃ r2,
    ruleAt (ConfigBlockSymbol_fromSyntax (fun _ => None)
              {| cds_name := "cfg";
                 cds_topCells := cds_topCells conflictingConfig;
                 cds_rules := take 1 (cds_rules conflictingConfig)
                              ++ drop 1 (cds_rules conflictingConfig) |}).1
           "top" ["a"] = Some r2
    ∧ rule_sourceRange r2 = 3
    ∧ (is_Some (None : option ParameterValueAssignmentSyntax) →
       paramOverrides r2 = None)
    ∧ (is_Some (None : option (list SourceLibrary)) → liblist r2 = None)
    ∧ ("foo" ≠ "" →
       useCell r2 = {| cell_lib := ""; cell_name := "foo";
                       cell_targetConfig := false; cell_sourceRange := 2 |}).
Proof.
  apply (instance_rule_slots_are_written_once (fun _ => None) "cfg"
           (cds_topCells conflictingConfig)
           (take 1 (cds_rules conflictingConfig))
           (drop 1 (cds_rules conflictingConfig)) "top" ["a"]
           {| paramOverrides := None; liblist := None;
              useCell := {| cell_lib := ""; cell_name := "foo";
                            cell_targetConfig := false; cell_sourceRange := 2 |};
              rule_sourceRange := 3 |}).
  vm_compute. reflexivity.
Defined.

Lemma cellOverrides_rules gsl rules : ∀ cb ds c,
  cellOverrides (foldl (addRule gsl) (cb, ds) rules).1 !! c
  = match cellRulesFor gsl c rules with
    | [] => cellOverrides cb !! c
    | l => Some (default [] (cellOverrides cb !! c) ++ l)
    end.
Proof.
  induction rules as [|r rules IH]; intros cb ds c; [reflexivity|].
  cbn [foldl]. destruct (addRule gsl (cb, ds) r) as [cb' ds'] eqn:E.
  rewrite IH. unfold cellRulesFor. cbn [omap list_omap].
  fold (cellRulesFor gsl c rules).
  destruct r as [libs|name clause range|t p clause range];
    simpl in E; injection E as <- <-; cbn [cellOverrides setDefaultLiblist
      setCellOverrides setInstanceOverrides]; try reflexivity.
  destruct (decide (ccis_cell name = c)) as [<-|Hne].
  - rewrite lookup_insert_eq.
    destruct (cellRulesFor gsl (ccis_cell name) rules) as [|x l];
      [reflexivity|]. simpl. now rewrite <- app_assoc.
  - now rewrite lookup_insert_ne.
Qed.

Lemma fixed_members_rules gsl rules : ∀ cb ds,
  cb_name (foldl (addRule gsl) (cb, ds) rules).1 = cb_name cb
  ∧ topCells (foldl (addRule gsl) (cb, ds) rules).1 = topCells cb
  ∧ defaultLiblist (foldl (addRule gsl) (cb, ds) rules).1
    = match last (defaultRules rules) with
      | Some libs => buildLiblist gsl libs
      | None => defaultLiblist cb
      end.
Proof.
  induction rules as [|r rules IH]; intros cb ds; [done|].
  cbn [foldl]. destruct (addRule gsl (cb, ds) r) as [cb' ds'] eqn:E.
  destruct (IH cb' ds') as (-> & -> & ->).
  unfold defaultRules. cbn [omap list_omap]. fold (defaultRules rules).
  destruct r as [libs|name clause range|t p clause range];
    simpl in E; injection E as <- <-; cbn [cb_name topCells defaultLiblist
      setDefaultLiblist setCellOverrides setInstanceOverrides]; try done.
  split; [done|]. split; [done|].
  rewrite last_cons. now destruct (last (defaultRules rules)).
Qed.

(** X3.  The cell rules of a configuration accumulate: the overrides
    recorded for a cell name are the [cell] rules that name it, one entry
    each, in source order; they are never merged or dropped, and the other
    kinds of rules do not touch them.  A cell that no rule names has no
    entry. *)
Theorem cell_rules_accumulate
    (getSourceLibrary : string → option SourceLibrary)
    (syntax : ConfigDeclarationSyntax) (cellName : string) :
  cellOverrides (ConfigBlockSymbol_fromSyntax getSourceLibrary syntax).1 !! cellName
  = match cellRulesFor getSourceLibrary cellName (cds_rules syntax) with
    | [] => None
    | l => Some l
    end.
Proof.
  unfold ConfigBlockSymbol_fromSyntax. rewrite cellOverrides_rules.
  cbn [cellOverrides setTopCells allocConfigBlock].
  rewrite lookup_empty. reflexivity.
Qed.

(** X4.  The design statement and the default library list: the top cells
    are the cells of the design statement whose name is not empty, in
    order, whatever the rules are; the default library list is that of the
    last [default liblist] rule, without the libraries that are not
    registered, and is empty when there is no such rule. *)
Theorem design_cells_and_default_liblist
    (getSourceLibrary : string → option SourceLibrary)
    (syntax : ConfigDeclarationSyntax) :
  let cb := (ConfigBlockSymbol_fromSyntax getSourceLibrary syntax).1 in
  cb_name cb = cds_name syntax
  ∧ map cell_name (topCells cb)
    = filter (fun n => n ≠ "") (map ccis_cell (cds_topCells syntax))
  ∧ length (topCells cb) ≤ length (cds_topCells syntax)
  ∧ defaultLiblist cb
    = match last (defaultRules (cds_rules syntax)) with
      | Some libs => omap getSourceLibrary libs
      | None => []
      end.
Proof.
  intros cb. subst cb. unfold ConfigBlockSymbol_fromSyntax.
  destruct (fixed_members_rules getSourceLibrary (cds_rules syntax)
              (setTopCells
                 (omap (fun cellId : ConfigCellIdentifierSyntax =>
                          if decide (ccis_cell cellId = "") then None
                          else Some (mkConfigCellId (ccis_library cellId)
                                       (ccis_cell cellId) (ccis_sourceRange cellId)))
                       (cds_topCells syntax))
                 (allocConfigBlock (cds_name syntax))) [])
    as (-> & -> & ->).
  split; [reflexivity|]. cbn [topCells setTopCells].
  split; [|split; [|reflexivity]].
  - induction (cds_topCells syntax) as [|c cs IH]; [reflexivity|].
    cbn [omap list_omap map]. rewrite filter_cons.
    destruct (decide (ccis_cell c = "")) as [He|He].
    + rewrite decide_False by (intros Hn; now apply Hn). exact IH.
    + rewrite decide_True by exact He. cbn [map]. now rewrite IH.
  - induction (cds_topCells syntax) as [|c cs IH]; [reflexivity|].
    cbn [omap list_omap]. destruct (decide (ccis_cell c = "")); simpl; lia.
Qed.

Lemma parentStackOf_below root rootBody rootInst outer frames :
  ei_addr rootInst = root → belowRoot root frames →
  parentStackOf root
    (scopeBelow (ScopeInstanceBody rootBody (Some (rootInst, outer))) frames)
  = Some (reverse
            ({| ss_name := ei_name rootInst;
                ss_instance := Some (ei_addr rootInst,
                                     def_name (eb_definition rootBody)) |}
             :: map frameSymbol frames)).
Proof.
  intros Hroot. induction frames as [|f frames IH] using rev_ind; intros Hb.
  - cbn. rewrite bool_decide_true by exact Hroot. now destruct outer.
  - apply Forall_app in Hb as [Hb Hf]. rewrite Forall_singleton in Hf.
    unfold scopeBelow in *. rewrite foldl_app. cbn [foldl].
    rewrite map_app. cbn [map]. rewrite app_comm_cons, reverse_app.
    change (reverse [frameSymbol f]) with [frameSymbol f]. cbn [app].
    specialize (IH Hb).
    destruct f as [inst b|name u|name kind|name]; cbn [wrapFrame parentStackOf];
      rewrite ?(bool_decide_false _ Hf), IH; reflexivity.
Qed.

Lemma findNode_app parts x : ∀ n m,
  findNode (parts ++ [x]) n = Some m →
  ∃ node, findNode parts n = Some node ∧ childNodes node !! x = Some m.
Proof.
  induction parts as [|p parts IH]; intros n m H.
  - cbn in H. exists n. split; [reflexivity|].
    destruct (childNodes n !! x); [congruence|discriminate].
  - cbn [app findNode] in *. destruct (childNodes n !! p); [|discriminate].
    now apply IH.
Qed.

(** X5.  A rule that a configuration records for the path
    [top.f1. ... .fn.x] is found when the instance [x] is elaborated: in the
    scope reached from the body of the root instance through the frames
    [f1 ... fn] (instances, generate blocks or other named scopes),
    [findInstanceOverrideNode] yields a node whose child [x] holds the
    rule, which is what the per-instance loop of [InstanceSymbol::fromSyntax]
    tests. *)
Theorem recorded_rule_reaches_the_instance
    (resolved : ResolvedConfig) (rootBody : EnclosingBody)
    (rootInst : EnclosingInstance) (outer : option Scope)
    (frames : list HierarchyFrame) (x : string) (r : ConfigRule) :
  ei_addr rootInst = rootInstance resolved →
  belowRoot (rootInstance resolved) frames →
  ruleAt (useConfig resolved) (def_name (eb_definition rootBody))
         (map frameName frames ++ [x]) = Some r →
  ∃ node,
    findInstanceOverrideNode resolved
      (scopeBelow (ScopeInstanceBody rootBody (Some (rootInst, outer))) frames)
    = Some node
    ∧ childNodes node !! x ≫= rule = Some r.
Proof.
  intros Hroot Hbelow Hrule. unfold findInstanceOverrideNode, ruleAt in *.
  destruct (instanceOverrides (useConfig resolved)
              !! def_name (eb_definition rootBody)) as [rootNode|] eqn:Htop;
    [|discriminate].
  destruct (findNode (map frameName frames ++ [x]) rootNode) as [m|] eqn:Hm;
    [|discriminate].
  destruct (findNode_app _ _ _ _ Hm) as (node & Hnode & Hx).
  exists node. split; [|now rewrite Hx].
  rewrite bool_decide_false
    by (eapply map_size_ne_0_lookup_2; rewrite Htop; eauto).
  rewrite (parentStackOf_below _ rootBody rootInst outer frames Hroot Hbelow).
  rewrite reverse_involutive. cbn [ss_instance]. rewrite Htop.
  replace (map ss_name (map frameSymbol frames)) with (map frameName frames).
  - rewrite Hnode.
    rewrite bool_decide_false
      by (eapply map_size_ne_0_lookup_2; rewrite Hx; eauto).
    reflexivity.
  - rewrite map_map. apply map_ext. now intros [].
Qed.

Lemma recorded_rule_reaches_the_instance_witness :
  ∃ node,
    findInstanceOverrideNode (mkResolvedConfig bindConfigBlock 0)
      (scopeBelow
         (ScopeInstanceBody
            {| eb_definition := moduleNamed "top";
               eb_hierarchyOverrideNode := None;
               eb_isUninstantiated := false; eb_isFromBind := false |}
            (Some ({| ei_addr := 0; ei_name := "top";
                      ei_resolvedConfig := None |}, None)))
         [FrameInstance {| ei_addr := 3; ei_name := "b1";
                           ei_resolvedConfig := None |}
                        {| eb_definition := moduleNamed "mid";
                           eb_hierarchyOverrideNode := None;
                           eb_isUninstantiated := false;
                           eb_isFromBind := true |}])
    = Some node
    ∧ childNodes node !! "x" ≫= rule
      = Some {| paramOverrides := None; liblist := None;
                useCell := {| cell_lib := ""; cell_name := "leaf2";
                              cell_targetConfig := false;
                              cell_sourceRange := 2 |};
                rule_sourceRange := 3 |}.
Proof.
  apply (recorded_rule_reaches_the_instance (mkResolvedConfig bindConfigBlock 0)).
  - reflexivity.
  - repeat constructor. simpl. lia.
  - vm_compute. reflexivity.
Defined.

(* ===================================================================== *)
(** ** Packages: export candidates and elaboration                       *)
(* ===================================================================== *)

Lemma matchingExportDecl_spec decls sym :
  matchingExportDecl decls sym = true
  ↔ ∃ decl, decl ∈ decls ∧ pii_package decl = sym_package sym
            ∧ (pii_item decl = ExportStar
               ∨ pii_item decl = ExportName (sym_name sym)).
Proof.
  induction decls as [|d rest IH]; simpl.
  - split; [discriminate|]. intros (d & Hd & _). inversion Hd.
  - case_bool_decide as Hp; simpl.
    + destruct (pii_item d) as [|n] eqn:Hi.
      * split; [|done]. intros _. exists d. rewrite Hi. split; [left|]; auto.
      * case_bool_decide as Hn.
        -- split; [|done]. intros _. exists d. rewrite Hi, Hn.
           split; [left|]; auto.
        -- rewrite IH. split.
           ++ intros (d' & Hin & Hrest). exists d'. split; [by right|done].
           ++ intros (d' & Hin & Hpk & Hit).
              apply elem_of_cons in Hin as [->|Hin].
              ** rewrite Hi in Hit. destruct Hit as [Hit|Hit]; [discriminate|].
                 inversion Hit; contradiction.
              ** exists d'; auto.
    + rewrite IH. split.
      * intros (d' & Hin & Hrest). exists d'. split; [by right|done].
      * intros (d' & Hin & Hpk & Hit).
        apply elem_of_cons in Hin as [->|Hin]; [contradiction|].
        exists d'; auto.
Qed.

Lemma elaboratedOnce_noteImport p sym s :
  elaboratedOnce s → elaboratedOnce (PackageSymbol_noteImport p sym s).
Proof.
  intros H q. specialize (H q).
  destruct (noteImport_packages p sym s) as [-> ->]. exact H.
Qed.

Lemma elaboratedOnce_find p n s :
  elaboratedOnce s → elaboratedOnce (PkgState_log (EvFindCandidate p n) s).
Proof.
  intros H q. specialize (H q). simpl. rewrite forceCount_app.
  replace (forceCount q [EvFindCandidate p n]) with 0.
  - rewrite Nat.add_0_r. exact H.
  - unfold forceCount. rewrite filter_cons_False by discriminate. done.
Qed.

Lemma elaboratedOnce_force p pkg s :
  packages s !! p = Some pkg → hasForceElaborated pkg = false →
  elaboratedOnce s →
  elaboratedOnce (PkgState_log (EvForceElaborate p)
                    (PkgState_setPackages
                       (<[p := PackageSymbol_setForceElaborated pkg]> (packages s)) s)).
Proof.
  intros Hp Hf H q. specialize (H q). simpl. rewrite forceCount_app.
  destruct (decide (q = p)) as [->|Hne].
  - rewrite lookup_insert_eq. simpl. rewrite Hp, Hf in H. rewrite H.
    unfold forceCount. rewrite filter_cons_True by done. simpl. lia.
  - rewrite lookup_insert_ne by done.
    replace (forceCount q [EvForceElaborate p]) with 0.
    + rewrite Nat.add_0_r. exact H.
    + unfold forceCount. rewrite filter_cons_False by congruence. done.
Qed.

Lemma elaboratedOnce_forceElaborate find p body :
  (∀ q n s r s', find q n s = Some (r, s') → elaboratedOnce s → elaboratedOnce s') →
  ∀ s s', Compilation_forceElaborate find p body s = Some s' →
          elaboratedOnce s → elaboratedOnce s'.
Proof.
  intros Hfind. induction body as [|wl rest IH]; intros s s' H Hs; simpl in H.
  - inversion H; subst; done.
  - destruct (find _ _ s) as [[[sym|] s1]|] eqn:E; [| |discriminate].
    + eapply IH; [exact H|]. apply elaboratedOnce_noteImport. eapply Hfind; eauto.
    + eapply IH; [exact H|]. eapply Hfind; eauto.
Qed.

Lemma elaboratedOnce_findForImport fuel :
  ∀ p n s r s', PackageSymbol_findForImport fuel p n s = Some (r, s') →
                elaboratedOnce s → elaboratedOnce s'.
Proof.
  induction fuel as [|fuel IH]; intros p n s r s' H Hs; [discriminate|].
  simpl in H.
  destruct (packages s !! p) as [pkg|] eqn:Hp; [|inversion H; subst; done].
  destruct (pkg_members pkg !! n); [inversion H; subst; done|].
  destruct (negb (hasExportAll pkg) && bool_decide (exportDecls pkg = []));
    [inversion H; subst; done|].
  destruct (hasForceElaborated pkg) eqn:Hf; simpl in H.
  - inversion H. now apply elaboratedOnce_find.
  - destruct (Compilation_forceElaborate _ _ _ _) as [s2|] eqn:E; [|discriminate].
    inversion H; subst. apply elaboratedOnce_find.
    eapply elaboratedOnce_forceElaborate; [apply IH|exact E|].
    now apply elaboratedOnce_force.
Qed.

Lemma elaboratedOnce_importLookups fuel qs :
  ∀ s, elaboratedOnce s → elaboratedOnce (importLookups fuel qs s).
Proof.
  induction qs as [|[p n] rest IH]; intros s Hs; simpl; [done|].
  destruct (PackageSymbol_findForImport fuel p n s) as [[r s']|] eqn:E; [|done].
  apply IH. eapply elaboratedOnce_findForImport; eauto.
Qed.

(** X6.  Whatever import lookups are made, in whatever order and on whatever
    packages, starting from a compilation in which nothing has been
    elaborated: no package body is force-elaborated more than once, and a
    package with an elaboration on record has its flag set. *)
Theorem no_package_is_elaborated_twice pkgs cands fuel qs q :
  let s := importLookups fuel qs
             {| packages := pkgs; exportCandidates := cands; pkgTrace := [] |} in
  forceCount q (pkgTrace s) ≤ 1
  ∧ (forceCount q (pkgTrace s) = 1 →
     hasForceElaborated <$> packages s !! q = Some true).
Proof.
  cbv zeta.
  assert (H0 : elaboratedOnce
                 {| packages := pkgs; exportCandidates := cands; pkgTrace := [] |}).
  { intros x. simpl. repeat case_match; unfold forceCount; simpl; lia. }
  pose proof (elaboratedOnce_importLookups fuel qs _ H0 q) as H.
  destruct (packages _ !! q) as [pkg|]; simpl.
  - destruct (hasForceElaborated pkg); [split; [lia|done]|].
    rewrite H. split; [lia|discriminate].
  - rewrite H. split; [lia|discriminate].
Qed.

(** X7.  Noting an imported symbol in a package records it as an export
    candidate exactly when the package exports everything, or one of its
    export declarations names the package that declares the symbol together
    with a star or the symbol's name; otherwise nothing changes.  In both
    cases the packages and the elaboration record are left alone. *)
Theorem noteImport_records_exported_symbols p pkg sym s :
  packages s !! p = Some pkg →
  (exportedBy pkg sym →
   PackageSymbol_noteImport p sym s = notePackageExportCandidate p sym s)
  ∧ (¬ exportedBy pkg sym → PackageSymbol_noteImport p sym s = s)
  ∧ packages (PackageSymbol_noteImport p sym s) = packages s
  ∧ pkgTrace (PackageSymbol_noteImport p sym s) = pkgTrace s.
Proof.
  intros Hp. split; [|split; [|split]].
  - intros [Ha|Hd]; unfold PackageSymbol_noteImport; rewrite Hp.
    + now rewrite Ha.
    + destruct (hasExportAll pkg); [done|].
      apply matchingExportDecl_spec in Hd as Hm. rewrite Hm.
      case_bool_decide as He; [|done].
      destruct Hd as (d & Hin & _). rewrite He in Hin. inversion Hin.
  - intros Hn. unfold PackageSymbol_noteImport. rewrite Hp.
    destruct (hasExportAll pkg) eqn:Ha; [exfalso; apply Hn; now left|].
    case_bool_decide; [done|].
    destruct (matchingExportDecl _ _) eqn:Hm; [|done].
    exfalso. apply Hn. right. now apply matchingExportDecl_spec.
  - apply noteImport_packages.
  - apply noteImport_packages.
Qed.

Lemma noteImport_records_exported_symbols_witness :
  let sym := {| sym_name := "x"; sym_package := "P" |} in
  PackageSymbol_noteImport 1 sym exportingState
  = notePackageExportCandidate 1 sym exportingState.
Proof.
  cbv zeta.
  refine (proj1 (noteImport_records_exported_symbols 1 _ _ exportingState _) _).
  - vm_compute. reflexivity.
  - left. reflexivity.
Defined.

(* ===================================================================== *)
(** ** Primitive instances: the binding of the connections               *)
(* ===================================================================== *)

Lemma collectConns_not_udp rse kind conns cs ds :
  kind ≠ UserDefined →
  collectConns rse kind conns = (Some cs, ds) →
  ds = []
  ∧ Forall2 (fun c o => ∃ e r, c = OrderedPortConnection e r
                               ∧ rse e = o ∧ is_Some o) conns cs.
Proof.
  intros Hk. revert cs ds.
  induction conns as [|c rest IH]; intros cs ds H; simpl in H.
  - inversion H; subst. split; constructor.
  - destruct c as [e r| | |r]; try discriminate.
    + destruct (rse e) as [x|] eqn:He; [|discriminate].
      destruct (collectConns rse kind rest) as [[cs'|] ds'] eqn:E;
        simpl in H; [|discriminate].
      inversion H; subst. destruct (IH _ _ eq_refl) as [-> HF].
      split; [done|]. constructor; [|done]. exists e, r. eauto.
    + rewrite bool_decide_eq_true_2 in H by done. discriminate.
Qed.

Lemma bound_imap rse conns cs :
  Forall2 (fun c o => ∃ e r, c = OrderedPortConnection e r
                             ∧ rse e = o ∧ is_Some o) conns cs →
  ∀ f : nat → nat → BoundArgument,
    (∀ i e, ba_expr (f i e) = e) →
    Forall2 (boundFrom rse) conns (omap id (imap (fun i c => f i <$> c) cs)).
Proof.
  induction 1 as [|c o conns cs (e & r & -> & He & [x Hx]) _ IH]; intros f Hf.
  - constructor.
  - subst o. simpl. rewrite Hx. simpl. constructor.
    + exists e, r. split; [done|]. now rewrite Hf.
    + apply (IH (fun i => f (S i))). intros; apply Hf.
Qed.

Lemma bound_zip rse conns cs :
  Forall2 (fun c o => ∃ e r, c = OrderedPortConnection e r
                             ∧ rse e = o ∧ is_Some o) conns cs →
  ∀ (ports : list PrimitivePortDirection) (f : PrimitivePortDirection → nat → BoundArgument),
    (∀ d e, ba_expr (f d e) = e) →
    length cs = length ports →
    Forall2 (boundFrom rse) conns
            (omap id (zip_with (fun c d => f d <$> c) cs ports)).
Proof.
  induction 1 as [|c o conns cs (e & r & -> & He & [x Hx]) _ IH];
    intros ports f Hf Hlen.
  - constructor.
  - destruct ports as [|d ports]; [discriminate|]. subst o. simpl.
    rewrite Hx. simpl. constructor.
    + exists e, r. split; [done|]. now rewrite Hf.
    + apply IH; [done|]. simpl in Hlen. lia.
Qed.

(** X8.  A primitive that is not user-defined binds all of its connections
    or none: when anything is bound, every connection is an expression that
    the context accepts (so the assertion in the loop over the connections
    of an n-gate holds), the arguments are these expressions in order, no
    diagnostic is reported, and the number of connections is the number of
    ports of a fixed primitive and at least two for an n-gate. *)
Theorem builtin_primitive_binds_all_or_nothing rse primitiveType his res ds :
  primitiveKind primitiveType ≠ UserDefined →
  PrimitiveInstanceSymbol_getPortConnections rse primitiveType his = (res, ds) →
  res ≠ [] →
  ds = []
  ∧ Forall2 (boundFrom rse) (connections his) res
  ∧ (if bool_decide (primitiveKind primitiveType = Fixed)
     then length (connections his) = length (prim_ports primitiveType)
     else 2 ≤ length (connections his)).
Proof.
  intros Hk H Hres. unfold PrimitiveInstanceSymbol_getPortConnections in H.
  cbv zeta in H.
  destruct (collectConns rse _ (connections his)) as [[cs|] ds0] eqn:E;
    [|inversion H; subst; done].
  destruct (collectConns_not_udp _ _ _ _ _ Hk E) as [-> HF].
  pose proof (Forall2_length _ _ _ HF) as Hlen.
  destruct (primitiveKind primitiveType) eqn:Ek; try done; simpl in H.
  - case_bool_decide as Hn; [inversion H; subst; done|].
    inversion H; subst. split; [done|]. split.
    + apply bound_zip; [done|done|]. lia.
    + rewrite bool_decide_eq_true_2 by done. lia.
  - case_bool_decide as Hn; [inversion H; subst; done|].
    inversion H; subst. split; [done|]. split.
    + apply (bound_imap _ _ _ HF
               (fun i e => {| ba_direction := nGateDirection NInput i (length cs);
                              ba_expr := e |})). done.
    + rewrite bool_decide_eq_false_2 by done. lia.
  - case_bool_decide as Hn; [inversion H; subst; done|].
    inversion H; subst. split; [done|]. split.
    + apply (bound_imap _ _ _ HF
               (fun i e => {| ba_direction := nGateDirection NOutput i (length cs);
                              ba_expr := e |})). done.
    + rewrite bool_decide_eq_false_2 by done. lia.
Qed.

Lemma builtin_primitive_binds_all_or_nothing_witness :
  Forall2 (boundFrom Some) (connections bufInstance)
    (PrimitiveInstanceSymbol_getPortConnections Some bufGate bufInstance).1.
Proof.
  refine (proj1 (proj2 (builtin_primitive_binds_all_or_nothing
                          Some bufGate bufInstance _ _ _ eq_refl _))).
  - vm_compute. discriminate.
  - vm_compute. discriminate.
Defined.

Lemma collectConns_udp rse conns :
  Forall (udpConnection rse) conns →
  collectConns rse UserDefined conns
  = (Some (map (fun c => match c with
                         | OrderedPortConnection e _ => rse e
                         | _ => None
                         end) conns),
     omap emptyPortDiag conns).
Proof.
  induction 1 as [|c rest Hc _ IH]; simpl; [done|].
  destruct c as [e r| | |r]; simpl in Hc; try done.
  - destruct Hc as [x Hx]. rewrite Hx, IH. reflexivity.
  - rewrite IH. done.
Qed.

(** X9.  A user-defined primitive whose connections are expressions or
    empty, as many as it has ports: an empty connection is reported as
    EmptyUdpPort and bound to nothing, and every other connection is bound
    with the direction of the port at its own position, in order. *)
Theorem udp_empty_connections_are_skipped rse primitiveType his :
  primitiveKind primitiveType = UserDefined →
  Forall (udpConnection rse) (connections his) →
  length (connections his) = length (prim_ports primitiveType) →
  PrimitiveInstanceSymbol_getPortConnections rse primitiveType his
  = (omap id (zip_with (udpArgument rse) (connections his)
                       (prim_ports primitiveType)),
     omap emptyPortDiag (connections his)).
Proof.
  intros Hk Hv Hlen. unfold PrimitiveInstanceSymbol_getPortConnections.
  cbv zeta. rewrite Hk, (collectConns_udp _ _ Hv). simpl.
  rewrite length_map, bool_decide_eq_false_2 by (intros Hn; apply Hn, Hlen).
  f_equal. f_equal. clear Hlen Hv Hk.
  generalize (prim_ports primitiveType) as ports.
  induction (connections his) as [|c rest IH]; intros [|d ports]; simpl; try done.
  rewrite IH. destruct c; done.
Qed.

Lemma udp_empty_connections_are_skipped_witness :
  PrimitiveInstanceSymbol_getPortConnections Some latchUdp latchInstance
  = ([{| ba_direction := ArgumentDirection_Out; ba_expr := 10 |};
      {| ba_direction := ArgumentDirection_In; ba_expr := 11 |}],
     [{| diagCode := EmptyUdpPort; diagRange := 2 |}]).
Proof.
  refine (eq_trans (udp_empty_connections_are_skipped
                      Some latchUdp latchInstance eq_refl _ eq_refl) _).
  - repeat constructor; simpl; eauto.
  - reflexivity.
Defined.

Lemma collectConns_errors rse kind conns r ds :
  collectConns rse kind conns = (r, ds) →
  (is_Some r → connectionErrors ds = [])
  ∧ length (connectionErrors ds) ≤ 1
  ∧ (kind ≠ UserDefined → countCode EmptyUdpPort ds = 0).
Proof.
  assert (Hstop : ∀ ds0, length ds0 ≤ 1 → countCode EmptyUdpPort ds0 = 0 →
            (is_Some (@None (list (option nat))) → connectionErrors ds0 = [])
            ∧ length (connectionErrors ds0) ≤ 1
            ∧ (kind ≠ UserDefined → countCode EmptyUdpPort ds0 = 0)).
  { intros ds0 Hl Hc. split; [intros [? ?]; done|]. split; [|done].
    unfold connectionErrors. etrans; [apply length_filter|done]. }
  revert r ds. induction conns as [|c rest IH]; intros r ds H; simpl in H.
  - inversion H; subst. simpl. split; [done|]. split; [lia|done].
  - destruct c as [e rg|n oe rg|rg|rg].
    + destruct (rse e) as [x|].
      * destruct (collectConns rse kind rest) as [r' ds'] eqn:E.
        inversion H; subst. destruct (IH _ _ eq_refl) as (H1 & H2 & H3).
        split; [|done]. intros [? Hs]. apply H1.
        destruct r'; [eauto|discriminate].
      * inversion H; subst. apply Hstop; simpl; [lia|done].
    + inversion H; subst. apply Hstop; simpl; [lia|done].
    + inversion H; subst. apply Hstop; simpl; [lia|done].
    + case_bool_decide as Hk.
      * inversion H; subst. apply Hstop; simpl; [lia|done].
      * destruct (collectConns rse kind rest) as [r' ds'] eqn:E.
        inversion H; subst. destruct (IH _ _ eq_refl) as (H1 & H2 & H3).
        unfold connectionErrors in *.
        rewrite filter_cons_False by (simpl; intros Hn; apply Hn; reflexivity).
        split; [|split; [done|]].
        -- intros [? Hs]. apply H1. destruct r'; [eauto|discriminate].
        -- intros Hn. contradiction.
Qed.

Lemma connectionErrors_app a b :
  connectionErrors (a ++ b) = connectionErrors a ++ connectionErrors b.
Proof. apply filter_app. Qed.

(** X10.  Binding the connections of a primitive instance reports at most
    one diagnostic other than EmptyUdpPort, and when it reports one it binds
    nothing; EmptyUdpPort is never reported for a primitive that is not
    user-defined. *)
Theorem primitive_connections_report_one_error rse primitiveType his :
  let r := PrimitiveInstanceSymbol_getPortConnections rse primitiveType his in
  length (connectionErrors r.2) ≤ 1
  ∧ (connectionErrors r.2 ≠ [] → r.1 = [])
  ∧ (primitiveKind primitiveType ≠ UserDefined → countCode EmptyUdpPort r.2 = 0).
Proof.
  cbv zeta. unfold PrimitiveInstanceSymbol_getPortConnections. cbv zeta.
  destruct (collectConns rse _ (connections his)) as [[cs|] ds0] eqn:E;
    destruct (collectConns_errors _ _ _ _ _ E) as (H1 & H2 & H3); simpl.
  - specialize (H1 (ex_intro _ cs eq_refl)).
    destruct (_ || _).
    + case_bool_decide; simpl.
      * rewrite connectionErrors_app, countCode_app, H1. simpl.
        repeat split; auto. intros Hk. rewrite (H3 Hk). reflexivity.
      * rewrite H1. repeat split; auto. done.
    + case_bool_decide; simpl.
      * rewrite connectionErrors_app, countCode_app, H1. simpl.
        repeat split; auto. intros Hk. rewrite (H3 Hk). reflexivity.
      * rewrite H1. repeat split; auto. done.
  - repeat split; auto.
Qed.

(* ===================================================================== *)
(** ** Instance arrays: what a recursion leaves                          *)
(* ===================================================================== *)

Lemma mapM_ext {A B} (f g : A → M B) xs :
  (∀ x s, f x s = g x s) → ∀ s, mapM f xs s = mapM g xs s.
Proof.
  intros H. induction xs as [|x xs IH]; intros s; cbn [mapM]; [done|].
  rewrite !run_bind, !H, !IH. done.
Qed.

Lemma mapM_fmap {A B C} (f : B → M C) (g : A → B) xs :
  ∀ s, mapM f (g <$> xs) s = mapM (fun x => f (g x)) xs s.
Proof.
  induction xs as [|x xs IH]; intros s; cbn [mapM fmap list_fmap]; [done|].
  rewrite !run_bind, !IH. done.
Qed.

Lemma recurseArray_nil o syntax path :
  recurseArray o syntax [] path = ownerLeaf o syntax path.
Proof. destruct o; reflexivity. Qed.

Lemma recurseArray_cons o syntax d rest path s :
  recurseArray o syntax (d :: rest) path s
  = (let dim := evalDimension (ownerContext o) d in
     let range := dim_range dim in
     if negb (isRange dim) then createEmpty (getNameLoc syntax) s
     else if (maxInstanceArray (getCompilation (ownerContext o)) <? width range)%Z
     then (addDiag MaxInstanceArrayExceeded (dim_sourceRange d);;
           createEmpty (getNameLoc syntax)) s
     else
       (elems ← arrayElements o syntax rest path range
                  (seq 0 (Z.to_nat (width range)));
        result ← emplace (SInstanceArray
                            {| arr_name := getNameLoc syntax; elements := elems;
                               arr_range := range; arr_syntax := None;
                               arr_parent := None |});
        match o with
        | OwnerModule _ _ => modify result (Symbol_setArraySyntax syntax)
        | _ => mret tt
        end;;
        forM_ (fun element => modify element (Symbol_setParent result)) elems;;
        mret result) s).
Proof.
  cbv zeta.
  destruct o as [b node|ctx prim attrs|ctx chk attrs ip fb];
    cbn [recurseArray ownerContext InstanceBuilder_recurse recursePrimArray
           recurseCheckerArray];
    destruct (negb (isRange _)); try reflexivity;
    destruct (_ <? _)%Z; try reflexivity.
  - rewrite !run_bind. unfold arrayElements, seqZ. rewrite mapM_fmap.
    erewrite mapM_ext; [reflexivity|]. intros k s0. cbn [recurseArray ownerChild].
    now rewrite Z.add_comm.
  - rewrite !run_bind. unfold arrayElements, seqZ. rewrite mapM_fmap.
    erewrite mapM_ext; [reflexivity|]. intros k s0. cbn [recurseArray ownerChild].
    now rewrite Z.add_comm.
Qed.

Lemma rootNeutral_setName n : rootNeutral (Symbol_setName n).
Proof. intros [i|b|a|p|c|b|u|x]; simpl; split; eauto 10. Qed.

Lemma rootNeutral_setParent q : rootNeutral (Symbol_setParent q).
Proof. intros [i|b|a|p|c|b|u|x]; simpl; split; eauto 10. Qed.

Lemma childrenShape_le P lo hi k es : childrenShape P lo hi k es → lo ≤ hi.
Proof.
  revert lo k. induction es as [|e es IH]; intros lo k H; simpl in H; [done|].
  destruct H as (mid & Hle & _ & H). apply IH in H. lia.
Qed.

Lemma childrenShape_impl (P Q : Addr → Addr → nat → Addr → Prop) hi es :
  ∀ lo k, childrenShape P lo hi k es →
  (∀ lo' hi' k' e, lo ≤ lo' → lo' ≤ hi' → hi' ≤ hi → P lo' hi' k' e → Q lo' hi' k' e) →
  childrenShape Q lo hi k es.
Proof.
  induction es as [|e es IH]; intros lo k H HPQ; simpl in *; [done|].
  destruct H as (mid & Hle & HP & H). exists mid. split; [done|].
  pose proof (childrenShape_le _ _ _ _ _ H) as Hmid.
  split; [apply HPQ; auto|].
  apply IH; [done|]. intros lo' hi' k' e' ? ? ? HP'. apply HPQ; auto. lia.
Qed.

Lemma shape_bounds o syntax m dims lo hi path r :
  arrayShapeIn o syntax m dims lo hi path r → lo ≤ r < hi.
Proof. destruct dims; simpl; [intros (H & _)|intros (H & _)]; exact H. Qed.

Lemma leafOf_member o syntax m path r :
  leafOf o syntax m path r → ∃ sym, m !! r = Some sym ∧ isMember sym.
Proof.
  destruct o; simpl.
  - intros (i & bd & H & _). eexists; split; [exact H|done].
  - intros (p & H & _). eexists; split; [exact H|done].
  - intros (c & bd & H & _). eexists; split; [exact H|done].
Qed.

Lemma shape_member o syntax m dims lo hi path r :
  arrayShapeIn o syntax m dims lo hi path r →
  ∃ sym, m !! r = Some sym ∧ isMember sym.
Proof.
  destruct dims; simpl.
  - intros (_ & H & _). eapply leafOf_member, H.
  - intros (_ & arr & H & _). eexists; split; [exact H|done].
Qed.

Lemma leafIn_mono o syntax m m' lo hi path r :
  (∀ a, lo ≤ a < hi → m' !! a = m !! a) →
  leafIn o syntax m lo hi path r → leafIn o syntax m' lo hi path r.
Proof.
  intros Hag (Hb & Hleaf & Hbody).
  assert (Hr : m' !! r = m !! r) by (apply Hag; lia).
  split; [done|]. split.
  - destruct o; simpl in *.
    + destruct Hleaf as (i & bd & H1 & H2 & H3 & H4 & H5 & H6 & H7).
      exists i, bd. rewrite Hr. split; [done|]. repeat (split; [tauto|]).
      split; [|tauto]. rewrite Hag; [tauto|].
      apply Hbody. unfold bodyAt. now rewrite H1.
    + destruct Hleaf as (p & H1 & H2). exists p. now rewrite Hr.
    + destruct Hleaf as (c & bd & H1 & H2 & H3 & H4).
      exists c, bd. rewrite Hr. split; [done|]. split; [done|].
      split; [|done]. rewrite Hag; [done|].
      apply Hbody. unfold bodyAt. now rewrite H1.
  - intros b. unfold bodyAt. rewrite Hr. apply Hbody.
Qed.

Lemma shape_mono syntax dims :
  ∀ o m m' lo hi path r,
    (∀ a, lo ≤ a < hi → m' !! a = m !! a) →
    arrayShapeIn o syntax m dims lo hi path r →
    arrayShapeIn o syntax m' dims lo hi path r.
Proof.
  induction dims as [|d rest IH]; intros o m m' lo hi path r Hag; simpl.
  - now apply leafIn_mono.
  - intros (Hb & arr & Hr & H). split; [done|]. exists arr.
    split; [rewrite Hag; [done|lia]|].
    destruct (properDimension _ _); [|done].
    destruct H as (H1 & H2 & H3 & H4). repeat (split; [done|]).
    eapply childrenShape_impl; [exact H4|].
    intros lo' hi' k e Hlo Hle Hhi (Hs & Hn & Hp).
    pose proof (shape_bounds _ _ _ _ _ _ _ _ Hs) as He.
    assert (Hag' : ∀ a, lo' ≤ a < hi' → m' !! a = m !! a)
      by (intros a Ha; apply Hag; lia).
    split; [eapply IH; eauto|].
    unfold nameAt, parentAt in *. rewrite Hag' by lia. done.
Qed.

Lemma shape_alter_root syntax f dims o m lo hi path r :
  rootNeutral f →
  arrayShapeIn o syntax m dims lo hi path r →
  arrayShapeIn o syntax (alter f r m) dims lo hi path r.
Proof.
  intros Hf. destruct dims as [|d rest]; simpl.
  - intros (Hb & Hleaf & Hbody). split; [done|].
    assert (Hbo : bodyAt (alter f r m) r = bodyAt m r).
    { unfold bodyAt. rewrite lookup_alter_eq.
      destruct (m !! r) as [sym|]; [|done]. simpl. apply Hf. }
    split; [|intros b; rewrite Hbo; apply Hbody].
    destruct o; simpl in *.
    + destruct Hleaf as (i & bd & H1 & H2 & H3 & H4 & H5 & H6 & H7).
      destruct (Hf (SInstance i)) as (_ & i' & E & E1 & E2 & E3 & E4).
      exists i', bd. rewrite lookup_alter_eq, H1. simpl. rewrite E.
      split; [done|]. rewrite E1, E2, E3, E4.
      repeat (split; [tauto|]). split; [|tauto].
      rewrite lookup_alter_ne by (intros ->; tauto). tauto.
    + destruct Hleaf as (p & H1 & H2).
      destruct (Hf (SPrimitiveInstance p)) as (_ & p' & E & E1 & E2 & E3 & E4).
      exists p'. rewrite lookup_alter_eq, H1. simpl. rewrite E, E1, E2, E3, E4.
      done.
    + destruct Hleaf as (c & bd & H1 & H2 & H3 & H4).
      destruct (Hf (SCheckerInstance c)) as (_ & c' & E & E1 & E2 & E3 & E4).
      exists c', bd. rewrite lookup_alter_eq, H1. simpl. rewrite E.
      split; [done|]. rewrite E1, E2, E3, E4. split; [done|].
      split; [|done]. rewrite lookup_alter_ne by (intros ->; tauto). done.
  - intros (Hb & arr & Hr & H).
    destruct (Hf (SInstanceArray arr)) as (_ & arr' & E & E1 & E2 & E3).
    split; [done|]. exists arr'.
    split; [rewrite lookup_alter_eq, Hr; simpl; now rewrite E|].
    rewrite E1, E2, E3.
    destruct (properDimension _ _); [|done].
    destruct H as (H1 & H2 & H3 & H4). repeat (split; [done|]).
    eapply childrenShape_impl; [exact H4|].
    intros lo' hi' k e Hlo Hle Hhi (Hs & Hn & Hp).
    pose proof (shape_bounds _ _ _ _ _ _ _ _ Hs) as He.
    split; [eapply shape_mono; [|exact Hs];
            intros a Ha; apply lookup_alter_ne; lia|].
    unfold nameAt, parentAt in *. rewrite lookup_alter_ne by lia. done.
Qed.

Lemma framed_refl s : framed s s.
Proof. split; [lia|done]. Qed.

Lemma framed_trans s1 s2 s3 : framed s1 s2 → framed s2 s3 → framed s1 s3.
Proof.
  intros [H1 H2] [H3 H4]. split; [lia|]. intros a Ha.
  rewrite H4 by lia. now apply H2.
Qed.

Lemma sameVectors_refl s : sameVectors s s.
Proof. repeat split. Qed.

Lemma sameVectors_trans s1 s2 s3 :
  sameVectors s1 s2 → sameVectors s2 s3 → sameVectors s1 s3.
Proof. unfold sameVectors. intuition congruence. Qed.

Lemma ownerLeaf_spec o syntax path s :
  let res := ownerLeaf o syntax path s in
  framed s res.2 ∧ sameVectors s res.2
  ∧ leafIn o syntax (symbols res.2) (nextAddr s) (nextAddr res.2) path res.1
  ∧ nameAt (symbols res.2) res.1 = Some (resultName o syntax [])
  ∧ parentAt (symbols res.2) res.1 = None.
Proof.
  cbv zeta. destruct o as [b node|ctx prim attrs|ctx chk attrs ip fb];
    cbn [ownerLeaf].
  - pose proof (createInstance_run b syntax node path s) as H. cbv zeta in H.
    destruct H as (Hr & Hlt & _ & Hres & Htr & Hsym).
    assert (Hmore : S (S (nextAddr s))
                    ≤ nextAddr (InstanceBuilder_createInstance b syntax node path s).2
                    ∧ implicitNets (InstanceBuilder_createInstance b syntax node path s).2
                      = implicitNets s).
    { unfold InstanceBuilder_createInstance.
      rewrite run_bind, InstanceSymbol_new_run. cbn [fst snd].
      destruct (bld_resolvedConfig b) as [[rcAddr resolved]|];
        [destruct (newConfigRoot b)|]; simpl; split; (lia || reflexivity). }
    destruct Hmore as [Hn Hnets].
    rewrite Hr. split; [|split; [done|split]].
    + split; [lia|]. intros a Ha. rewrite Hsym.
      rewrite !lookup_insert_ne by lia. done.
    + split; [lia|]. split.
      * simpl. eexists _, _. rewrite Hsym, lookup_insert_eq.
        split; [reflexivity|]. simpl.
        rewrite lookup_insert_ne by lia. rewrite lookup_insert_eq.
        repeat split; try reflexivity. lia.
      * intros bd. unfold bodyAt. rewrite Hsym, lookup_insert_eq. simpl.
        intros [= <-]. lia.
    + unfold nameAt, parentAt. now rewrite Hsym, lookup_insert_eq.
  - unfold createPrimInst. rewrite emplace_run. cbn [fst snd nextAddr symbols].
    split; [|split; [done|split]].
    + split; [simpl; lia|]. intros a Ha. simpl. now rewrite lookup_insert_ne by lia.
    + split; [lia|]. split.
      * simpl. eexists. rewrite lookup_insert_eq. repeat split; reflexivity.
      * intros bd. unfold bodyAt. rewrite lookup_insert_eq. discriminate.
    + unfold nameAt, parentAt. now rewrite lookup_insert_eq.
  - pose proof (checkerInstance_run ctx chk syntax attrs path ip fb s) as H.
    cbv zeta in H. destruct H as (Hr & Hn & _ & Hres & Htr & _ & Hsym).
    assert (Hnets : implicitNets (CheckerInstanceSymbol_fromSyntax_instance
                                    ctx chk syntax attrs path ip fb s).2
                    = implicitNets s).
    { unfold CheckerInstanceSymbol_fromSyntax_instance,
        CheckerInstanceSymbol_createInvalid.
      destruct (tryFillAssertionDetails (scope ctx)) as [[d pfb|pfb]|];
        case_bool_decide; cbn [negb andb orb];
        try destruct pfb; try destruct fb; cbn [negb andb orb];
        try destruct (inForkJoin (scope ctx)); try destruct ip; reflexivity. }
    rewrite Hr, Hn. split; [|split; [done|split]].
    + split; [lia|]. intros a Ha. rewrite Hsym.
      destruct (_ || _); rewrite !lookup_insert_ne by lia; done.
    + split; [lia|]. rewrite Hsym. split.
      * simpl. destruct (_ || _); eexists _, _;
          rewrite lookup_insert_eq; (split; [reflexivity|]); simpl;
          rewrite lookup_insert_ne by lia; rewrite lookup_insert_eq;
          repeat split; try reflexivity; lia.
      * intros bd. unfold bodyAt.
        destruct (_ || _); rewrite lookup_insert_eq; simpl; intros [= <-]; lia.
    + unfold nameAt, parentAt. rewrite Hsym. simpl.
      destruct (_ || _); now rewrite lookup_insert_eq.
Qed.

Lemma member_name sym n :
  isMember sym → Symbol_name (Symbol_setName n sym) = Some n.
Proof. destruct sym; simpl; done. Qed.

Lemma member_parent sym q :
  isMember sym →
  Symbol_parent (Symbol_setParent q sym) = Some q
  ∧ Symbol_name (Symbol_setParent q sym) = Symbol_name sym.
Proof. destruct sym; simpl; done. Qed.

(** The loop over the indices: the elements lie one after the other in the
    new part of the arena, each with the shape of the recursion over the
    remaining dimensions and without a name. *)
Lemma arrayElements_spec o syntax rest path range
    (IH : ∀ o path s,
        let res := recurseArray o syntax rest path s in
        framed s res.2 ∧ sameVectors s res.2
        ∧ arrayShapeIn o syntax (symbols res.2) rest (nextAddr s)
            (nextAddr res.2) path res.1
        ∧ nameAt (symbols res.2) res.1 = Some (resultName o syntax rest)
        ∧ parentAt (symbols res.2) res.1 = None) n :
  ∀ k s,
    let res := arrayElements o syntax rest path range (seq k n) s in
    framed s res.2 ∧ sameVectors s res.2 ∧ length res.1 = n
    ∧ childrenShape (unparented o syntax (symbols res.2) rest path range)
        (nextAddr s) (nextAddr res.2) k res.1.
Proof.
  induction n as [|n IHn]; intros k s; cbv zeta.
  - simpl. split; [apply framed_refl|]. split; [apply sameVectors_refl|].
    split; [done|]. simpl. lia.
  - unfold arrayElements. cbn [seq mapM]. rewrite !run_bind.
    fold (arrayElements o syntax rest path range (seq (S k) n)).
    cbn [mret M_ret fst snd].
    specialize (IH (ownerChild o k) (path ++ [(lower range + Z.of_nat k)%Z]) s).
    cbv zeta in IH.
    destruct (recurseArray (ownerChild o k) syntax rest _ s) as [e s0] eqn:E0.
    cbn [fst snd] in *. destruct IH as (Hf0 & Hv0 & Hs0 & _).
    set (s1 := (modify e (Symbol_setName "") s0).2).
    specialize (IHn (S k) s1). cbv zeta in IHn.
    destruct (arrayElements o syntax rest path range (seq (S k) n) s1)
      as [es s2] eqn:E2.
    cbn [fst snd] in *. destruct IHn as (Hf2 & Hv2 & Hlen & Hch).
    assert (Hf1 : framed s s1).
    { destruct Hf0 as [Hn0 Hag0]. split; [exact Hn0|]. intros a Ha.
      subst s1. simpl. pose proof (shape_bounds _ _ _ _ _ _ _ _ Hs0).
      rewrite lookup_alter_ne by lia. now apply Hag0. }
    split; [eapply framed_trans; eauto|].
    split. { eapply sameVectors_trans; [exact Hv0|]. exact Hv2. }
    split; [simpl; lia|].
    simpl. exists (nextAddr s1). split; [apply Hf1|].
    split; [|exact Hch].
    destruct (shape_member _ _ _ _ _ _ _ _ Hs0) as (sym & Hsym & Hmem).
    assert (H1 : unparented o syntax (symbols s1) rest path range
                   (nextAddr s) (nextAddr s1) k e).
    { split.
      - subst s1. simpl. apply shape_alter_root; [apply rootNeutral_setName|].
        exact Hs0.
      - unfold nameAt. subst s1. simpl. rewrite lookup_alter_eq, Hsym. simpl.
        now apply member_name. }
    destruct H1 as [Hsh Hnm]. destruct Hf2 as [Hn2 Hag2].
    split.
    + eapply shape_mono; [|exact Hsh]. intros a Ha. apply Hag2. lia.
    + unfold nameAt in *. rewrite Hag2; [exact Hnm|].
      pose proof (shape_bounds _ _ _ _ _ _ _ _ Hsh). lia.
Qed.

Lemma forM_modify_fields f es :
  ∀ s, let s' := (forM_ (fun e => modify e f) es s).2 in
       nextAddr s' = nextAddr s ∧ sameVectors s s' ∧ diags s' = diags s
       ∧ resolvedConfigs s' = resolvedConfigs s.
Proof.
  induction es as [|e es IH]; intros s; cbv zeta; cbn [forM_].
  - repeat split.
  - rewrite run_bind. specialize (IH (modify e f s).2). cbv zeta in IH.
    destruct IH as (H1 & (H2 & H3 & H4) & H5 & H6).
    rewrite H1, H5, H6. unfold sameVectors. rewrite H2, H3, H4. done.
Qed.

(** The loop that makes the elements members of the array. *)
Lemma setParent_spec o syntax rest path range r es :
  ∀ lo hi k s,
    childrenShape (unparented o syntax (symbols s) rest path range) lo hi k es →
    let s' := (forM_ (fun e => modify e (Symbol_setParent r)) es s).2 in
    (∀ a, ¬ (lo ≤ a < hi) → symbols s' !! a = symbols s !! a)
    ∧ childrenShape (parented o syntax (symbols s') rest path range r) lo hi k es.
Proof.
  induction es as [|e es IH]; intros lo hi k s H; cbv zeta; cbn [forM_].
  - split; [done|]. exact H.
  - rewrite run_bind. cbn [fst snd]. simpl in H.
    destruct H as (mid & Hle & (Hsh & Hnm) & Hrest).
    set (s1 := (modify e (Symbol_setParent r) s).2).
    pose proof (shape_bounds _ _ _ _ _ _ _ _ Hsh) as He.
    pose proof (childrenShape_le _ _ _ _ _ Hrest) as Hmid.
    assert (Hrest1 : childrenShape
                       (unparented o syntax (symbols s1) rest path range)
                       mid hi (S k) es).
    { eapply childrenShape_impl; [exact Hrest|].
      intros lo' hi' k' e' ? ? ? (Hs' & Hn').
      pose proof (shape_bounds _ _ _ _ _ _ _ _ Hs').
      split.
      - eapply shape_mono; [|exact Hs']. intros a Ha. subst s1. simpl.
        apply lookup_alter_ne. lia.
      - unfold nameAt in *. subst s1. simpl. rewrite lookup_alter_ne by lia.
        exact Hn'. }
    destruct (IH mid hi (S k) s1 Hrest1) as (Hag & Hch).
    split.
    + intros a Ha. rewrite Hag by lia. subst s1. simpl.
      apply lookup_alter_ne. lia.
    + simpl. exists mid. split; [done|]. split; [|exact Hch].
      destruct (shape_member _ _ _ _ _ _ _ _ Hsh) as (sym & Hsym & Hmem).
      destruct (member_parent sym r Hmem) as [Hp Hn].
      assert (Hag' : ∀ a, lo ≤ a < mid →
                symbols (forM_ (fun e => modify e (Symbol_setParent r)) es s1).2 !! a
                = symbols s1 !! a)
        by (intros a Ha; apply Hag; lia).
      split; [|split].
      * eapply shape_mono; [exact Hag'|]. subst s1. simpl.
        apply shape_alter_root; [apply rootNeutral_setParent|exact Hsh].
      * unfold nameAt in *. rewrite Hag' by lia. subst s1. simpl.
        rewrite lookup_alter_eq, Hsym in *. simpl in *. now rewrite Hn.
      * unfold parentAt. rewrite Hag' by lia. subst s1. simpl.
        rewrite lookup_alter_eq, Hsym. simpl. exact Hp.
Qed.

Lemma createEmpty_shape o syntax d rest path s s0 :
  properDimension (ownerContext o) d = false →
  nextAddr s ≤ nextAddr s0 →
  arrayShapeIn o syntax (symbols (createEmpty (getNameLoc syntax) s0).2)
    (d :: rest) (nextAddr s) (nextAddr (createEmpty (getNameLoc syntax) s0).2)
    path (createEmpty (getNameLoc syntax) s0).1.
Proof.
  intros Hp Hn. rewrite createEmpty_run. cbn [fst snd nextAddr symbols].
  simpl. split; [lia|]. eexists. rewrite lookup_insert_eq.
  split; [reflexivity|]. rewrite Hp. done.
Qed.

(** What an array recursion leaves: the symbols that existed, the result
    vectors and the log of lookups are as they were, and the new part of the
    arena holds the instance or the array of the recursion. *)
Lemma recurseArray_spec syntax dims :
  ∀ o path s,
    let res := recurseArray o syntax dims path s in
    framed s res.2 ∧ sameVectors s res.2
    ∧ arrayShapeIn o syntax (symbols res.2) dims (nextAddr s) (nextAddr res.2)
        path res.1
    ∧ nameAt (symbols res.2) res.1 = Some (resultName o syntax dims)
    ∧ parentAt (symbols res.2) res.1 = None.
Proof.
  assert (Hname : ∀ o d rest, resultName o syntax (d :: rest) = getNameLoc syntax)
    by (intros []; reflexivity).
  induction dims as [|d rest IH]; intros o path s; cbv zeta.
  - rewrite recurseArray_nil. apply ownerLeaf_spec.
  - rewrite recurseArray_cons. cbv zeta.
    destruct (isRange (evalDimension (ownerContext o) d)) eqn:Hr; cbn [negb].
    2:{ split; [|split; [done|split]].
        - rewrite createEmpty_run. split; [simpl; lia|]. intros a Ha. simpl.
          now rewrite lookup_insert_ne by lia.
        - apply createEmpty_shape; [|lia]. unfold properDimension. now rewrite Hr.
        - rewrite Hname, createEmpty_run. unfold nameAt, parentAt. simpl.
          now rewrite lookup_insert_eq. }
    destruct (_ <? _)%Z eqn:Hw.
    { rewrite run_bind. cbn [fst snd]. split; [|split; [done|split]].
      - rewrite createEmpty_run. split; [simpl; lia|]. intros a Ha. simpl.
        now rewrite lookup_insert_ne by lia.
      - apply (createEmpty_shape o syntax d rest path s
                 (addDiag MaxInstanceArrayExceeded (dim_sourceRange d) s).2);
          [|simpl; lia].
        unfold properDimension. now rewrite Hr, Hw.
      - rewrite Hname, createEmpty_run. unfold nameAt, parentAt. simpl.
        now rewrite lookup_insert_eq. }
    set (range := dim_range (evalDimension (ownerContext o) d)) in *.
    rewrite run_bind.
    pose proof (arrayElements_spec o syntax rest path range IH
                  (Z.to_nat (width range)) 0 s) as HE.
    cbv zeta in HE.
    destruct (arrayElements o syntax rest path range _ s) as [elems s1] eqn:E1.
    cbn [fst snd] in *. destruct HE as (Hf1 & Hv1 & Hlen & Hch).
    rewrite run_bind, emplace_run. cbn [fst snd].
    set (arr := {| arr_name := getNameLoc syntax; elements := elems;
                   arr_range := range; arr_syntax := None; arr_parent := None |}).
    set (r := nextAddr s1).
    set (s2 := {| nextAddr := S r;
                  symbols := <[r := SInstanceArray arr]> (symbols s1);
                  resolvedConfigs := resolvedConfigs s1; diags := diags s1;
                  trace := trace s1; results := results s1;
                  implicitNets := implicitNets s1 |}).
    rewrite run_bind.
    set (arr3 := {| arr_name := getNameLoc syntax; elements := elems;
                    arr_range := range;
                    arr_syntax := match o with
                                  | OwnerModule _ _ => Some syntax
                                  | _ => None
                                  end;
                    arr_parent := None |}).
    set (s3 := (match o with
                | OwnerModule _ _ => modify r (Symbol_setArraySyntax syntax)
                | _ => mret tt
                end s2).2).
    assert (H3 : nextAddr s3 = S r ∧ sameVectors s1 s3
                 ∧ symbols s3 = <[r := SInstanceArray arr3]> (symbols s1)).
    { subst s3 s2 arr3 arr. destruct o; simpl; repeat split;
        try reflexivity.
      apply map_eq. intros a. destruct (decide (a = r)) as [->|Hne].
      - now rewrite lookup_alter_eq, !lookup_insert_eq.
      - now rewrite lookup_alter_ne, !lookup_insert_ne by done. }
    destruct H3 as (Hn3 & Hv3 & Hsym3).
    rewrite run_bind. cbn [mret M_ret fst snd].
    pose proof (childrenShape_le _ _ _ _ _ Hch) as Hlo.
    fold r in Hch, Hlo.
    assert (Hch3 : childrenShape
                     (unparented o syntax (symbols s3) rest path range)
                     (nextAddr s) r 0 elems).
    { eapply childrenShape_impl; [exact Hch|].
      intros lo' hi' k' e' ? ? ? (Hs' & Hn').
      pose proof (shape_bounds _ _ _ _ _ _ _ _ Hs').
      split.
      - eapply shape_mono; [|exact Hs']. intros a Ha. rewrite Hsym3.
        apply lookup_insert_ne. lia.
      - unfold nameAt in *. rewrite Hsym3, lookup_insert_ne by lia. exact Hn'. }
    destruct (setParent_spec o syntax rest path range r elems _ _ _ s3 Hch3)
      as (Hag4 & Hch4).
    pose proof (forM_modify_fields (Symbol_setParent r) elems s3) as H4.
    cbv zeta in H4. destruct H4 as (Hn4 & Hv4 & _).
    set (s4 := (forM_ (fun e => modify e (Symbol_setParent r)) elems s3).2) in *.
    destruct Hf1 as [Hle1 Hag1].
    split; [|split; [|split]].
    4:{ rewrite Hname. unfold nameAt, parentAt. rewrite Hag4 by lia.
        now rewrite Hsym3, lookup_insert_eq. }
    + split; [rewrite Hn4, Hn3; lia|]. intros a Ha.
      rewrite Hag4 by lia. rewrite Hsym3, lookup_insert_ne by lia.
      now apply Hag1.
    + eapply sameVectors_trans; [exact Hv1|].
      eapply sameVectors_trans; [exact Hv3|exact Hv4].
    + simpl. fold range. rewrite Hn4, Hn3. split; [lia|].
      exists arr3. split.
      { rewrite Hag4 by lia. rewrite Hsym3. apply lookup_insert_eq. }
      unfold properDimension. fold range. rewrite Hr, Hw. cbn [andb negb].
      repeat (split; [done|]). exact Hch4.
Qed.

Lemma ownerContext_child o k : ownerContext (ownerChild o k) = ownerContext o.
Proof. destruct o; reflexivity. Qed.

Lemma childrenShape_lookup P es :
  ∀ lo hi k j e, childrenShape P lo hi k es → es !! j = Some e →
                 ∃ lo' hi', lo ≤ lo' ∧ hi' ≤ hi ∧ P lo' hi' (k + j) e.
Proof.
  induction es as [|e0 es IH]; intros lo hi k j e H Hj; [done|].
  simpl in H. destruct H as (mid & Hle & HP & H).
  pose proof (childrenShape_le _ _ _ _ _ H).
  destruct j as [|j]; simpl in Hj.
  - inversion Hj; subst. exists lo, mid. rewrite Nat.add_0_r. auto.
  - destruct (IH _ _ _ _ _ H Hj) as (lo' & hi' & ? & ? & HP').
    exists lo', hi'. replace (k + S j) with (S k + j) by lia.
    repeat split; auto; lia.
Qed.

Lemma removelast_cons {A} (x : A) l : l ≠ [] → removelast (x :: l) = x :: removelast l.
Proof. destruct l; done. Qed.

Lemma shape_elementAt syntax dims :
  ∀ o m lo hi path r idx,
    arrayShapeIn o syntax m dims lo hi path r →
    Forall2 (validIndex (ownerContext o)) dims idx →
    ∃ e, elementAt m r idx = Some e
         ∧ leafOf (foldl ownerChild o idx) syntax m
             (path ++ indexPath (ownerContext o) dims idx) e
         ∧ (idx ≠ [] → nameAt m e = Some ""
                       ∧ parentAt m e = elementAt m r (removelast idx)).
Proof.
  induction dims as [|d rest IH]; intros o m lo hi path r idx Hs Hidx.
  - inversion Hidx; subst. exists r. simpl in *. rewrite app_nil_r.
    destruct Hs as (_ & H & _). done.
  - inversion Hidx as [|d' k rest' idx' [Hp Hk] Hrest]; subst.
    simpl in Hs. destruct Hs as (Hb & arr & Hr & H). rewrite Hp in H.
    destruct H as (H1 & H2 & H3 & H4).
    destruct (lookup_lt_is_Some_2 (elements arr) k) as [e He]; [lia|].
    destruct (childrenShape_lookup _ _ _ _ _ _ _ H4 He)
      as (lo' & hi' & _ & _ & Hs' & Hn & Hpar).
    simpl in Hs'.
    rewrite <- (ownerContext_child o k) in Hrest.
    destruct (IH _ _ _ _ _ _ _ Hs' Hrest) as (leaf & Hat & Hleaf & Hmore).
    exists leaf. cbn [elementAt foldl]. rewrite Hr, He.
    split; [exact Hat|]. split.
    + unfold indexPath in *. cbn [zip_with].
      rewrite ownerContext_child in Hleaf.
      rewrite <- app_assoc in Hleaf. exact Hleaf.
    + intros _. destruct idx' as [|k' idx''].
      * simpl in Hat. inversion Hat; subst leaf. simpl. done.
      * destruct (Hmore ltac:(done)) as [Hnm Hpa]. split; [exact Hnm|].
        rewrite removelast_cons by done. cbn [elementAt]. rewrite Hr, He.
        exact Hpa.
Qed.


(** X12.  An array recursion is local: the symbols that existed are as they
    were, the result is a new object, and nothing is appended to the result
    vector, to the implicit nets or to the record of lookups. *)
Theorem array_creation_is_local o syntax dims path s :
  let res := recurseArray o syntax dims path s in
  (∀ a, a < nextAddr s → symbols res.2 !! a = symbols s !! a)
  ∧ nextAddr s ≤ res.1 < nextAddr res.2
  ∧ results res.2 = results s
  ∧ implicitNets res.2 = implicitNets s
  ∧ trace res.2 = trace s.
Proof.
  cbv zeta.
  destruct (recurseArray_spec syntax dims o path s) as ([_ Hf] & Hv & Hs & _).
  split; [exact Hf|]. split; [eapply shape_bounds, Hs|]. exact Hv.
Qed.

Lemma childrenShape_members P es :
  ∀ lo hi k, childrenShape P lo hi k es →
    (∀ lo' hi' k' e, P lo' hi' k' e → lo' ≤ e < hi') →
    NoDup es ∧ ∀ e, e ∈ es → lo ≤ e < hi.
Proof.
  induction es as [|e0 es IH]; intros lo hi k H HP.
  - split; [constructor|]. intros e He. inversion He.
  - simpl in H. destruct H as (mid & Hle & H0 & H).
    pose proof (childrenShape_le _ _ _ _ _ H).
    destruct (IH _ _ _ H HP) as [Hnd Hin]. apply HP in H0.
    split.
    + constructor; [|done]. intros He. apply Hin in He. lia.
    + intros e He. apply elem_of_cons in He as [->|He]; [lia|].
      apply Hin in He. lia.
Qed.




(* ===================================================================== *)
(** ** Instance arrays: name and dimensions                              *)
(* ===================================================================== *)

Lemma getArrayName_step fuel m a arr p :
  m !! a = Some (SInstanceArray arr) →
  parentArray m (SInstanceArray arr) = Some p →
  InstanceArraySymbol_getArrayName (S fuel) m a
  = InstanceArraySymbol_getArrayName fuel m p.
Proof.
  intros H1 H2. cbn [InstanceArraySymbol_getArrayName]. now rewrite H1, H2.
Qed.

Lemma getInstanceArrayDimensions_step fuel m a arr p :
  m !! a = Some (SInstanceArray arr) →
  parentArray m (SInstanceArray arr) = Some p →
  getInstanceArrayDimensions (S fuel) m a
  = (fun ds => ds ++ [arr_range arr]) <$> getInstanceArrayDimensions fuel m p.
Proof.
  intros H1 H2. cbn [getInstanceArrayDimensions]. rewrite H1, H2.
  now destruct (getInstanceArrayDimensions fuel m p).
Qed.

(** The name and the dimensions that an element of a nest of arrays is
    given by the arrays above it: those of the array [r] when the element
    is [r] itself, and those that its parent passes down otherwise. *)
Lemma shape_arrays_above syntax dims :
  ∀ o m lo hi path r idx,
    arrayShapeIn o syntax m dims lo hi path r →
    Forall2 (validIndex (ownerContext o)) dims idx →
    ∀ k idx' e, idx = k :: idx' → elementAt m r idx = Some e →
    ∃ p, parentAt m e = Some p
         ∧ (∃ arr, m !! p = Some (SInstanceArray arr))
         ∧ ∀ fuel,
             InstanceArraySymbol_getArrayName (fuel + length idx) m p
             = InstanceArraySymbol_getArrayName (S fuel) m r
             ∧ getInstanceArrayDimensions (fuel + length idx) m p
               = (fun ds => ds ++ dimensionRanges (ownerContext o) (tail dims))
                   <$> getInstanceArrayDimensions (S fuel) m r.
Proof.
  induction dims as [|d rest IH]; intros o m lo hi path r idx Hs Hidx k idx' e -> He.
  - inversion Hidx.
  - inversion Hidx as [|d' k0 rest' idx0 [Hp Hk] Hrest]; subst.
    simpl in Hs. destruct Hs as (Hb & arr & Hr & H). rewrite Hp in H.
    destruct H as (H1 & H2 & H3 & H4).
    cbn [elementAt] in He. rewrite Hr in He.
    destruct (elements arr !! k) as [c|] eqn:Hc; [|discriminate].
    destruct (childrenShape_lookup _ _ _ _ _ _ _ H4 Hc)
      as (lo' & hi' & _ & _ & Hs' & Hn & Hpar).
    simpl in Hs'.
    destruct idx' as [|k' idx''].
    + simpl in He. inversion He; subst e. exists r.
      split; [exact Hpar|]. split; [eauto|]. intros fuel.
      inversion Hrest; subst. cbn [length tail]. rewrite Nat.add_1_r.
      split; [reflexivity|].
      generalize (getInstanceArrayDimensions (S fuel) m r). intros [ds|];
        cbn [fmap option_fmap option_map dimensionRanges map];
        [now rewrite app_nil_r|done].
    + rewrite <- (ownerContext_child o k) in Hrest.
      destruct (IH _ _ _ _ _ _ _ Hs' Hrest k' idx'' e eq_refl He)
        as (p & Hpe & Hparr & Hup).
      exists p. split; [exact Hpe|]. split; [exact Hparr|]. intros fuel.
      destruct (Hup (S fuel)) as [Hnm Hdm].
      replace (fuel + length (k :: k' :: idx''))
        with (S fuel + length (k' :: idx'')) by (simpl; lia).
      rewrite Hnm, Hdm.
      destruct (shape_member _ _ _ _ _ _ _ _ Hs') as (csym & Hcs & Hmem).
      assert (Hcarr : ∃ carr, csym = SInstanceArray carr
                              ∧ arr_range carr
                                = dim_range (evalDimension (ownerContext o)
                                               (hd d rest))
                              ∧ rest ≠ []).
      { inversion Hrest as [|d2 k2 rest2 idx2 [Hp2 _] _]; subst.
        simpl in Hs'. destruct Hs' as (_ & carr & Hc2 & Hsh2).
        rewrite Hp2 in Hsh2. destruct Hsh2 as (Hrange & _).
        rewrite Hcs in Hc2. inversion Hc2; subst.
        exists carr. rewrite ownerContext_child in Hrange. done. }
      destruct Hcarr as (carr & -> & Hcr & Hne).
      assert (Hpc : parentArray m (SInstanceArray carr) = Some r).
      { unfold parentArray. unfold parentAt in Hpar. rewrite Hcs in Hpar.
        simpl in Hpar. inversion Hpar as [Hq]. simpl. rewrite Hq, Hr. done. }
      rewrite (getArrayName_step _ _ _ _ _ Hcs Hpc),
        (getInstanceArrayDimensions_step _ _ _ _ _ Hcs Hpc).
      split; [reflexivity|].
      destruct rest as [|d2 rest2]; [done|]. simpl in Hcr.
      rewrite ownerContext_child.
      destruct (getInstanceArrayDimensions (S fuel) m r) as [ds|];
        cbn [fmap option_fmap option_map dimensionRanges map tail]; [|done].
      rewrite Hcr, <- app_assoc. reflexivity.
Qed.



(* ===================================================================== *)
(** ** Instantiation statements: nets and results                        *)
(* ===================================================================== *)

Lemma createImplicitNets_flat instance context names s :
  defaultNetTypeIsError context = false →
  createImplicitNets instance context names s
  = createNets names (implicitNetCandidates context instance) s.
Proof.
  intros Hd. unfold createImplicitNets, implicitNetCandidates. rewrite Hd.
  revert names s. induction (connections instance) as [|conn conns IH];
    intros names s; [reflexivity|].
  cbn [foldM flat_map]. rewrite run_bind. unfold createNets.
  rewrite foldM_app. unfold createNets in IH.
  replace (match conn with
           | OrderedPortConnection e _ => Some e
           | NamedPortConnection _ e _ => e
           | _ => None
           end) with (connectionExpr conn) by reflexivity.
  destruct (connectionExpr conn) as [e|]; cbn [foldM]; apply IH.
Qed.

Lemma createNets_spec idents :
  ∀ names s,
    let res := createNets names idents s in
    framed s res.2
    ∧ results res.2 = results s ∧ diags res.2 = diags s ∧ trace res.2 = trace s
    ∧ res.1 = names ∪ list_to_set idents
    ∧ ∃ nets added,
        implicitNets res.2 = implicitNets s ++ nets
        ∧ Forall2 (fun a n => nextAddr s ≤ a
                              ∧ symbols res.2 !! a = Some (SNet n)) nets added
        ∧ NoDup added
        ∧ ∀ n, n ∈ added ↔ n ∈ idents ∧ n ∉ names.
Proof.
  induction idents as [|x idents IH]; intros names s; cbv zeta.
  - simpl. split; [apply framed_refl|]. repeat (split; [done|]).
    split; [set_solver|]. exists [], []. rewrite app_nil_r.
    split; [done|]. split; [constructor|]. split; [constructor|].
    intros n. split; [intros H; inversion H|intros [H _]; inversion H].
  - unfold createNets. cbn [foldM]. rewrite run_bind.
    fold (createNets (((if bool_decide (x ∈ names) then mret names
                        else net ← emplace (SNet x); pushImplicitNet net;;
                             mret ({[x]} ∪ names)) : M (gset string)) s).1 idents).
    case_bool_decide as Hx.
    + cbn [mret M_ret fst snd]. specialize (IH names s). cbv zeta in IH.
      destruct IH as (Hf & Hr & Hd & Ht & Hn & nets & added & Hi & HF & Hnd & Hin).
      split; [done|]. repeat (split; [done|]). split; [set_solver|].
      exists nets, added. repeat (split; [done|]).
      intros n. rewrite Hin. set_solver.
    + rewrite !run_bind, emplace_run.
      cbn [mret M_ret fst snd pushImplicitNet nextAddr symbols resolvedConfigs
             diags trace results implicitNets].
      set (s1 := {| nextAddr := S (nextAddr s);
                    symbols := <[nextAddr s := SNet x]> (symbols s);
                    resolvedConfigs := resolvedConfigs s; diags := diags s;
                    trace := trace s; results := results s;
                    implicitNets := implicitNets s ++ [nextAddr s] |}).
      specialize (IH ({[x]} ∪ names) s1). cbv zeta in IH.
      destruct IH as ([Hle Hag] & Hr & Hd & Ht & Hn & nets & added & Hi & HF & Hnd & Hin).
      subst s1. cbn [nextAddr symbols implicitNets results diags trace] in *.
      split.
      { split; [lia|]. intros a Ha. rewrite Hag by (simpl; lia).
        simpl. now rewrite lookup_insert_ne by lia. }
      repeat (split; [done|]). split; [rewrite Hn; set_solver|].
      exists (nextAddr s :: nets), (x :: added).
      split; [rewrite Hi; simpl; now rewrite <- app_assoc|].
      split.
      { constructor.
        - split; [lia|]. rewrite Hag by (simpl; lia). simpl.
          apply lookup_insert_eq.
        - eapply Forall2_impl; [exact HF|]. simpl. intros a n [Ha Hs].
          split; [lia|done]. }
      split.
      { constructor; [|done]. rewrite Hin. set_solver. }
      intros n. rewrite elem_of_cons, Hin, elem_of_cons.
      destruct (decide (n = x)) as [->|Hne]; set_solver.
Qed.

(** X15.  The implicit nets of the connections of an instance: nothing is
    created when the default net type is the error type; otherwise one net
    is created for every identifier of the connections that is not among
    the names collected so far, once however often it occurs, and the
    names collected grow by the identifiers.  Nothing else changes: no
    existing symbol, no result, no diagnostic. *)
Theorem implicit_nets_are_created_once instance context names s :
  let res := createImplicitNets instance context names s in
  if defaultNetTypeIsError context then res = (names, s)
  else
    res.1 = names ∪ list_to_set (implicitNetCandidates context instance)
    ∧ (∀ a, a < nextAddr s → symbols res.2 !! a = symbols s !! a)
    ∧ results res.2 = results s ∧ diags res.2 = diags s
    ∧ ∃ nets added,
        implicitNets res.2 = implicitNets s ++ nets
        ∧ Forall2 (fun a n => nextAddr s ≤ a
                              ∧ symbols res.2 !! a = Some (SNet n)) nets added
        ∧ NoDup added
        ∧ ∀ n, n ∈ added
               ↔ n ∈ implicitNetCandidates context instance ∧ n ∉ names.
Proof.
  cbv zeta. destruct (defaultNetTypeIsError context) eqn:Hd.
  - unfold createImplicitNets. now rewrite Hd.
  - rewrite createImplicitNets_flat by done.
    pose proof (createNets_spec (implicitNetCandidates context instance) names s)
      as H. cbv zeta in H.
    destruct H as ([_ Hag] & Hr & Hdg & _ & Hn & Hex). auto.
Qed.

Lemma leafOf_symbol o syntax m path r sym :
  leafOf o syntax m path r → m !! r = Some sym → leafSymbol o syntax path sym.
Proof.
  destruct o; simpl.
  - intros (i & bd & H & H1 & H2 & H3 & _) Hs. rewrite Hs in H.
    inversion H; subst. eauto.
  - intros (p & H & H1) Hs. rewrite Hs in H. inversion H; subst. eauto.
  - intros (c & bd & H & _) Hs. rewrite Hs in H. inversion H; subst. eauto.
Qed.

Lemma yieldsEach_length P insts s s' :
  yieldsEach P insts s s' → length (results s') = length (results s) + length insts.
Proof.
  intros (rs & Hr & HF & _). rewrite Hr, length_app.
  now rewrite (Forall2_length _ _ _ HF).
Qed.

Lemma yieldsEach_impl (P Q : HierarchicalInstanceSyntax → Symbol → Prop) insts s s' :
  (∀ inst sym, inst ∈ insts → P inst sym → Q inst sym) →
  yieldsEach P insts s s' → yieldsEach Q insts s s'.
Proof.
  intros HPQ (rs & Hr & HF & Hnd). exists rs. split; [done|]. split; [|done].
  apply Forall2_same_length_lookup. split; [eapply Forall2_length, HF|].
  intros j inst r Hi Hj.
  destruct (Forall2_lookup_lr _ _ _ _ _ _ HF Hi Hj) as (Hb & sym & Hs & HP).
  split; [done|]. exists sym. split; [done|].
  apply HPQ; [|done]. eapply list_elem_of_lookup_2, Hi.
Qed.

Lemma loop_yieldsEach P (body : gset string → HierarchicalInstanceSyntax → M (gset string)) :
  (∀ names inst s, framed s (body names inst s).2
                   ∧ yieldsEach P [inst] s (body names inst s).2) →
  ∀ insts names s,
    framed s (foldM body names insts s).2
    ∧ yieldsEach P insts s (foldM body names insts s).2.
Proof.
  intros Hbody. induction insts as [|inst insts IH]; intros names s.
  - simpl. split; [apply framed_refl|]. exists []. rewrite app_nil_r.
    repeat split; constructor.
  - cbn [foldM]. rewrite run_bind.
    destruct (Hbody names inst s) as (Hf1 & rs1 & Hr1 & HF1 & _).
    set (s1 := (body names inst s).2) in *.
    destruct (IH (body names inst s).1 s1) as (Hf2 & rs & Hr & HF & Hnd).
    set (s' := (foldM body (body names inst s).1 insts s1).2) in *.
    inversion HF1 as [|? r ? rest1 (Hb1 & sym1 & Hs1 & HP1) Hnil]; subst.
    inversion Hnil; subst.
    destruct Hf1 as [Hle1 Hag1], Hf2 as [Hle2 Hag2].
    split; [split; [lia|intros a Ha; rewrite Hag2 by lia; now apply Hag1]|].
    exists (r :: rs). split; [rewrite Hr, Hr1, <- app_assoc; reflexivity|].
    split.
    + constructor.
      * split; [lia|]. exists sym1. rewrite Hag2 by lia. done.
      * eapply Forall2_impl; [exact HF|]. simpl.
        intros i r' (Hb & Hsym). split; [lia|exact Hsym].
    + constructor; [|exact Hnd]. intros Hin.
      apply list_elem_of_lookup in Hin as [j Hj].
      destruct (Forall2_lookup_r _ _ _ _ _ HF Hj) as (i & _ & Hb & _). lia.
Qed.

(** The recursion for an instance of a statement and the [push_back] of its
    result. *)
Lemma recurse_push o inst dims s0 s :
  framed s0 s → results s = results s0 →
  let res := (sym ← recurseArray o inst dims []; pushResult sym) s in
  framed s0 res.2
  ∧ yieldsEach (fun _ sym =>
                  Symbol_name sym = Some (resultName o inst dims)
                  ∧ Symbol_parent sym = None
                  ∧ (dims = [] → leafSymbol o inst [] sym)
                  ∧ (dims ≠ [] → isArray sym))
      [inst] s0 res.2.
Proof.
  intros [Hle0 Hag0] Hr0. cbv zeta. rewrite run_bind.
  destruct (recurseArray_spec inst dims o [] s)
    as ([Hle Hag] & (Hv1 & Hv2 & Hv3) & Hs & Hnm & Hpa).
  pose proof (shape_bounds _ _ _ _ _ _ _ _ Hs) as Hb.
  set (r := (recurseArray o inst dims [] s).1) in *.
  set (s1 := (recurseArray o inst dims [] s).2) in *.
  unfold pushResult, framed, yieldsEach. simpl.
  split; [split; [lia|intros a Ha; rewrite Hag by lia; now apply Hag0]|].
  exists [r]. split; [now rewrite Hv1, Hr0|]. split; [|repeat constructor; set_solver].
  constructor; [|constructor]. split; [lia|].
  destruct (shape_member _ _ _ _ _ _ _ _ Hs) as (sym & Hsym & _).
  exists sym. split; [exact Hsym|].
  unfold nameAt, parentAt in Hnm, Hpa. rewrite Hsym in Hnm, Hpa. simpl in Hnm, Hpa.
  split; [exact Hnm|]. split; [exact Hpa|]. split.
  - intros ->. simpl in Hs. eapply leafOf_symbol; [apply Hs|exact Hsym].
  - intros Hne. destruct dims as [|d rest]; [done|]. simpl in Hs.
    destruct Hs as (_ & arr & Harr & _). rewrite Hsym in Harr.
    inversion Harr. now exists arr.
Qed.

Lemma createImplicitNets_keeps inst ctx names s :
  framed s (createImplicitNets inst ctx names s).2
  ∧ results (createImplicitNets inst ctx names s).2 = results s.
Proof.
  pose proof (createImplicitNets_netsAdded s inst ctx names s (netsAdded_refl s))
    as (_ & Hf & Hr). done.
Qed.

Lemma createPrimitives_body_yields primitive syntax ctx names inst s :
  let res := createPrimitives_body primitive syntax ctx names inst s in
  framed s res.2
  ∧ yieldsEach (primitiveResult primitive (attributes syntax)) [inst] s res.2.
Proof.
  cbv zeta. unfold createPrimitives_body. rewrite run_bind.
  destruct (createImplicitNets_keeps inst ctx names s) as [Hf Hr].
  set (s1 := (createImplicitNets inst ctx names s).2) in *.
  pose proof (recurse_push (OwnerPrimitive ctx primitive (attributes syntax))
                inst (instDims inst) s s1 Hf Hr) as H.
  cbv zeta in H. rewrite run_bind in H.
  assert (E : ∀ k : Addr → M (gset string),
            (match decl inst with
             | Some d => sym ← recursePrimArray primitive inst ctx (dimensions d)
                                (attributes syntax) []; k sym
             | None => sym ← createPrimInst primitive inst (attributes syntax) [];
                       k sym
             end) s1
            = k (recurseArray (OwnerPrimitive ctx primitive (attributes syntax))
                   inst (instDims inst) [] s1).1
                (recurseArray (OwnerPrimitive ctx primitive (attributes syntax))
                   inst (instDims inst) [] s1).2).
  { intros k. unfold instDims. destruct (decl inst); rewrite run_bind; reflexivity. }
  rewrite E, run_bind. cbn [mret M_ret snd].
  destruct H as [Hf' Hy]. split; [exact Hf'|].
  eapply yieldsEach_impl; [|exact Hy]. cbv beta.
  intros i sym ->%list_elem_of_singleton (Hnm & Hpa & Hleaf & Harr).
  unfold primitiveResult.
  split; [rewrite Hnm; now destruct (instDims inst)|]. split; [exact Hpa|].
  destruct (instDims inst) as [|d rest] eqn:Hd; [|now apply Harr].
  exact (Hleaf eq_refl).
Qed.


Lemma createCheckers_body_yields checker syntax ctx ip fb names inst s :
  let res := createCheckers_body checker syntax ctx ip fb names inst s in
  framed s res.2 ∧ yieldsEach (fun _ _ => True) [inst] s res.2.
Proof.
  cbv zeta. unfold createCheckers_body. rewrite run_bind.
  assert (Hk : framed s ((if ip then mret names
                          else createImplicitNets inst ctx names) s).2
               ∧ results ((if ip then mret names
                           else createImplicitNets inst ctx names) s).2
                 = results s).
  { destruct ip; [split; [apply framed_refl|done]|apply createImplicitNets_keeps]. }
  destruct Hk as [Hf Hr].
  set (s1 := ((if ip then mret names else createImplicitNets inst ctx names) s).2) in *.
  set (o := OwnerChecker ctx checker (attributes syntax) ip fb).
  destruct (decl inst) as [d|].
  - pose proof (recurse_push o inst (dimensions d) s s1 Hf Hr) as H.
    cbv zeta in H. rewrite run_bind in H.
    rewrite !run_bind. cbn [mret M_ret snd].
    destruct H as [Hf' Hy]. split; [exact Hf'|].
    eapply yieldsEach_impl; [|exact Hy]. done.
  - rewrite !run_bind.
    set (s2 := (addDiag InstanceNameRequired (his_sourceRange inst) s1).2).
    assert (Hf2 : framed s s2) by (destruct Hf; split; done).
    pose proof (recurse_push o inst [] s s2 Hf2 Hr) as H.
    cbv zeta in H. rewrite run_bind in H.
    cbn [mret M_ret snd]. destruct H as [Hf' Hy]. split; [exact Hf'|].
    eapply yieldsEach_impl; [|exact Hy]. done.
Qed.

Lemma createInstances_body_yields builder ctx names inst s :
  let res := createInstances_body builder ctx names inst s in
  framed s res.2 ∧ yieldsEach (fun _ _ => True) [inst] s res.2.
Proof.
  cbv zeta. unfold createInstances_body. rewrite run_bind.
  destruct (createImplicitNets_keeps inst ctx names s) as [Hf Hr].
  set (s1 := (createImplicitNets inst ctx names s).2) in *.
  unfold InstanceBuilder_create. destruct (decl inst) as [d|].
  - match goal with
    | |- context [InstanceBuilder_recurse builder inst ?node (dimensions d) []] =>
        pose proof (recurse_push (OwnerModule builder node) inst (dimensions d)
                      s s1 Hf Hr) as H
    end.
    cbv zeta in H. rewrite run_bind in H.
    rewrite !run_bind. cbn [mret M_ret snd].
    destruct H as [Hf' Hy]. split; [exact Hf'|].
    eapply yieldsEach_impl; [|exact Hy]. done.
  - rewrite !run_bind.
    set (s2 := (addDiag InstanceNameRequired (his_sourceRange inst) s1).2).
    assert (Hf2 : framed s s2) by (destruct Hf; split; done).
    pose proof (recurse_push (OwnerModule builder None) inst [] s s2 Hf2 Hr) as H.
    cbv zeta in H. rewrite run_bind in H.
    cbn [mret M_ret snd]. destruct H as [Hf' Hy]. split; [exact Hf'|].
    eapply yieldsEach_impl; [|exact Hy]. done.
Qed.

Lemma createCheckers_length checker syntax ctx ip fb s :
  length (results (createCheckers checker syntax ctx ip fb s).2)
  = length (results s) + length (instances syntax).
Proof.
  unfold createCheckers. rewrite !run_bind. cbn [mret M_ret snd].
  set (s1 := (match parameters syntax with
              | Some p => addDiag CheckerParameterAssign (pvas_sourceRange p)
              | None => mret tt
              end s).2).
  assert (Hr : results s1 = results s) by (subst s1; destruct (parameters syntax); done).
  destruct (loop_yieldsEach (fun _ _ => True)
              (createCheckers_body checker syntax ctx ip fb)
              (createCheckers_body_yields checker syntax ctx ip fb)
              (instances syntax) ∅ s1) as [_ Hy].
  apply yieldsEach_length in Hy. now rewrite Hy, Hr.
Qed.

Lemma createPrimitives_length primitive syntax ctx s :
  length (results (PrimitiveInstanceSymbol_fromSyntax primitive syntax ctx s).2)
  = length (results s) + length (instances syntax).
Proof.
  unfold PrimitiveInstanceSymbol_fromSyntax, createPrimitives.
  rewrite run_bind. cbn [mret M_ret snd].
  destruct (loop_yieldsEach _ _ (createPrimitives_body_yields primitive syntax ctx)
              (instances syntax) ∅ s) as [_ Hy].
  now apply yieldsEach_length in Hy.
Qed.

Lemma createUninstantiatedDefs_length syntax name ctx params s :
  length (results (createUninstantiatedDefs syntax name ctx params s).2)
  = length (results s) + length (instances syntax).
Proof.
  unfold createUninstantiatedDefs. rewrite run_bind. cbn [mret M_ret snd].
  generalize (∅ : gset string) as names. revert s.
  induction (instances syntax) as [|inst insts IH]; intros s names.
  - simpl. lia.
  - cbn [foldM]. rewrite run_bind, IH.
    rewrite (createUninstantiatedDef_run syntax inst name ctx params names s).
    cbn [snd results]. destruct (createImplicitNets_keeps inst ctx names s) as [_ Hr].
    rewrite length_app, Hr. simpl. lia.
Qed.

Lemma uninstantiatedLoop_length syntax name ctx params insts :
  ∀ names s,
    length (results (foldM (fun names i =>
                              createUninstantiatedDef syntax i name ctx params names)
                           names insts s).2)
    = length (results s) + length insts.
Proof.
  induction insts as [|inst insts IH]; intros names s.
  - simpl. lia.
  - cbn [foldM]. rewrite run_bind, IH.
    rewrite (createUninstantiatedDef_run syntax inst name ctx params names s).
    cbn [snd results]. destruct (createImplicitNets_keeps inst ctx names s) as [_ Hr].
    rewrite length_app, Hr. simpl. lia.
Qed.

Lemma createInstances_length cap def spec rule root names fb s :
  length (results (createInstances cap def spec rule root (names, fb) s).2)
  = length (results s) + createdCount cap def spec fb.
Proof.
  unfold createdCount. cbv zeta.
  destruct def as [[d|prim|cb]|].
  - destruct (parentIsFromBind cap && fb) eqn:Hb.
    + apply andb_true_iff in Hb as [Hp ->].
      pose proof (createInstances_bind_under_bind cap d spec rule root names s Hp)
        as H. cbv zeta in H. destruct H as (_ & _ & Hr & _). rewrite Hr. lia.
    + destruct (createInstances_definition cap d spec rule root names fb s Hb)
        as (B & s' & E & _ & Hr & _).
      rewrite E. cbv zeta. cbn [snd]. destruct spec as [inst|].
      * destruct (createInstances_body_yields B (cap_context cap) names inst s')
          as [_ Hy]. apply yieldsEach_length in Hy. rewrite Hy, Hr. reflexivity.
      * destruct (loop_yieldsEach _ _ (createInstances_body_yields B (cap_context cap))
                    (instances (cap_syntax cap)) names s') as [_ Hy].
        apply yieldsEach_length in Hy. rewrite Hy, Hr. reflexivity.
  - unfold createInstances. rewrite !run_bind. cbn [mret M_ret snd getResults fst].
    set (s1 := (PrimitiveInstanceSymbol_fromSyntax prim (cap_syntax cap)
                  (cap_context cap) s).2).
    assert (Hr : length (results s1)
                 = length (results s) + length (instances (cap_syntax cap)))
      by apply createPrimitives_length.
    rewrite <- Hr.
    case_bool_decide; [|reflexivity].
    destruct (_ || _); [reflexivity|]. destruct fb; reflexivity.
  - unfold createInstances. simpl. lia.
  - unfold createInstances. rewrite run_bind. cbn [mret M_ret snd].
    unfold UninstantiatedDefSymbol_fromSyntax_specific. destruct spec as [inst|].
    + rewrite (createUninstantiatedDef_run _ inst _ _ _ names s).
      cbn [snd results].
      destruct (createImplicitNets_keeps inst (cap_context cap) names s) as [_ Hr].
      rewrite length_app, Hr. reflexivity.
    + apply uninstantiatedLoop_length.
Qed.



Lemma overridden_primitives_length cap node primitive insts :
  getDefinition (getCompilation (cap_context cap)) (type (cap_syntax cap))
    (scope (cap_context cap)) None = Some (IsPrimitive primitive) →
  Forall (fun i => childNodes node !! getNameLoc i ≫= rule = None) insts →
  ∀ explicitDef shared s,
    explicitDef = None ∨ explicitDef = Some (Some (IsPrimitive primitive)) →
    length (results (foldM (createOverriddenInstance cap node)
                           (explicitDef, shared) insts s).2)
    = length (results s) + length insts * length (instances (cap_syntax cap)).
Proof.
  intros Hdef Hrules. induction Hrules as [|inst insts Hrule _ IH];
    intros explicitDef [names fb] s Hexp.
  - simpl. lia.
  - cbn [foldM]. rewrite run_bind.
    assert (Hstep : ∃ names' fb',
              (createOverriddenInstance cap node (explicitDef, (names, fb)) inst s).1
              = (Some (Some (IsPrimitive primitive)), (names', fb'))
              ∧ length (results (createOverriddenInstance cap node
                                   (explicitDef, (names, fb)) inst s).2)
                = length (results s) + length (instances (cap_syntax cap))).
    { unfold createOverriddenInstance. rewrite Hrule.
      destruct Hexp as [->| ->]; rewrite !run_bind; cbn [mret M_ret fst snd].
      - rewrite Hdef.
        match goal with
        | |- context [createInstances cap ?d ?sp ?r ?rt ?sh ?st] =>
            set (X := createInstances cap d sp r rt sh st);
            assert (HX : length (results X.2)
                         = length (results s) + length (instances (cap_syntax cap)))
              by (subst X; rewrite createInstances_length; reflexivity)
        end.
        exists X.1.1, X.1.2. split; [|exact HX].
        destruct X as [[? ?] ?]; reflexivity.
      - match goal with
        | |- context [createInstances cap ?d ?sp ?r ?rt ?sh ?st] =>
            set (X := createInstances cap d sp r rt sh st);
            assert (HX : length (results X.2)
                         = length (results s) + length (instances (cap_syntax cap)))
              by (subst X; rewrite createInstances_length; reflexivity)
        end.
        exists X.1.1, X.1.2. split; [|exact HX].
        destruct X as [[? ?] ?]; reflexivity. }
    destruct Hstep as (names' & fb' & E1 & E2).
    rewrite E1, IH by (now right). rewrite E2. simpl. lia.
Qed.



(* ===================================================================== *)
(** ** Instances: the port connections                                   *)
(* ===================================================================== *)

Lemma connectFromSyntax_run env s m0 :
  connectionMap s = Some m0 →
  connectFromSyntax env s
  = {| connectionMap := Some (fillMap (syntaxConnections env) (nextConnection s) m0);
       inst_connections := seq (nextConnection s) (length (portList env));
       bodyPorts := bodyPorts s;
       connectionStore := fillStore (syntaxConnections env) (nextConnection s)
                            (connectionStore s);
       nextConnection := nextConnection s + length (portList env);
       active := active s; portLog := portLog s |}.
Proof.
  intros Hm. unfold connectFromSyntax, syntaxConnections.
  assert (H1 : ∀ ports cs st,
            foldl (λ acc port,
                     let '(cs, st) := acc in
                     let '(c, st') :=
                       emplaceConnection
                         {| pc_port := port_addr port;
                            pc_actual := ActualExpr (connectPort env port) |} st in
                     (cs ++ [(port_addr port, c)], st'))
                  (cs, st) ports
            = (cs ++ zip (map port_addr ports)
                         (seq (nextConnection st) (length ports)),
               {| connectionMap := connectionMap st;
                  inst_connections := inst_connections st;
                  bodyPorts := bodyPorts st;
                  connectionStore :=
                    fillStore (map (fun port =>
                                      {| pc_port := port_addr port;
                                         pc_actual := ActualExpr (connectPort env port) |})
                                   ports)
                              (nextConnection st) (connectionStore st);
                  nextConnection := nextConnection st + length ports;
                  active := active st; portLog := portLog st |})).
  { induction ports as [|port ports IH]; intros cs st.
    - simpl. rewrite app_nil_r, Nat.add_0_r. now destruct st.
    - cbn [foldl emplaceConnection]. rewrite IH. simpl.
      rewrite <- app_assoc. simpl. do 2 f_equal. lia. }
  rewrite H1. cbn [app].
  assert (H2 : ∀ ports n st m,
            connectionMap st = Some m →
            foldl (λ st pc, mapEmplace pc.1 pc.2 st) st
                  (zip (map port_addr ports) (seq n (length ports)))
            = setConnectionMap
                (Some (fillMap (map (fun port =>
                                       {| pc_port := port_addr port;
                                          pc_actual := ActualExpr (connectPort env port) |})
                                    ports) n m)) st).
  { induction ports as [|port ports IH]; intros n st m Hst.
    - simpl. destruct st; simpl in *. now rewrite Hst.
    - cbn [map length seq zip zip_with foldl fst snd fillMap pc_port].
      unfold mapEmplace at 2. rewrite Hst.
      destruct (m !! port_addr port) eqn:E.
      + now rewrite (IH _ _ m).
      + rewrite (IH _ _ (<[port_addr port := n]> m)) by reflexivity.
        reflexivity. }
  rewrite (H2 _ _ _ m0) by (simpl; exact Hm).
  unfold setConnections, setConnectionMap. simpl.
  rewrite snd_zip by (rewrite length_map, length_seq; lia). reflexivity.
Qed.

Lemma connectDefaultIfacePorts_run env s m0 :
  connectionMap s = Some m0 →
  connectDefaultIfacePorts env s
  = {| connectionMap := Some (fillMap (defaultConnections env) (nextConnection s) m0);
       inst_connections := seq (nextConnection s) (length (defaultConnections env));
       bodyPorts := bodyPorts s;
       connectionStore := fillStore (defaultConnections env) (nextConnection s)
                            (connectionStore s);
       nextConnection := nextConnection s + length (defaultConnections env);
       active := active s; portLog := portLog s |}.
Proof.
  intros Hm. unfold connectDefaultIfacePorts, defaultConnections.
  set (conn := fun port =>
                 match port_kind port with
                 | Port_Interface (Some def) =>
                     Some {| pc_port := port_addr port;
                             pc_actual := ActualDefaultInterface def |}
                 | _ => None
                 end).
  match goal with
  | |- context [foldl ?f ([], s) (portList env)] => set (F := f)
  end.
  assert (Hstep : ∀ cs st port,
            F (cs, st) port
            = match conn port with
              | Some c => (cs ++ [nextConnection st],
                           mapEmplace (pc_port c) (nextConnection st)
                             (emplaceConnection c st).2)
              | None => (cs, st)
              end).
  { intros cs st port. unfold F, conn.
    destruct (port_kind port) as [| |[def|]]; reflexivity. }
  assert (H1 : ∀ ports cs st m,
            connectionMap st = Some m →
            foldl F (cs, st) ports
            = (cs ++ seq (nextConnection st) (length (omap conn ports)),
               {| connectionMap :=
                    Some (fillMap (omap conn ports) (nextConnection st) m);
                  inst_connections := inst_connections st;
                  bodyPorts := bodyPorts st;
                  connectionStore :=
                    fillStore (omap conn ports) (nextConnection st)
                              (connectionStore st);
                  nextConnection := nextConnection st + length (omap conn ports);
                  active := active st; portLog := portLog st |})).
  { clear Hm. induction ports as [|port ports IH]; intros cs st m Hst.
    - simpl. rewrite app_nil_r, Nat.add_0_r. destruct st; simpl in *.
      now rewrite Hst.
    - cbn [foldl omap list_omap]. rewrite Hstep.
      destruct (conn port) as [c|]; [|now apply IH].
      unfold mapEmplace. cbn [emplaceConnection snd connectionMap]. rewrite Hst.
      destruct (m !! pc_port c) eqn:E.
      + rewrite (IH _ _ m) by reflexivity. simpl. rewrite E, <- app_assoc. simpl.
        do 2 f_equal. lia.
      + rewrite (IH _ _ (<[pc_port c := nextConnection st]> m)) by reflexivity.
        simpl. rewrite E, <- app_assoc. simpl. do 2 f_equal. lia. }
  rewrite (H1 _ _ _ m0 Hm). reflexivity.
Qed.

Lemma fillStore_below conns : ∀ n store a,
  a < n → fillStore conns n store !! a = store !! a.
Proof.
  induction conns as [|c conns IH]; intros n store a Ha; simpl; [done|].
  rewrite IH by lia. apply lookup_insert_ne. lia.
Qed.

Lemma fillStore_lookup conns : ∀ n store j c,
  conns !! j = Some c → fillStore conns n store !! (n + j) = Some c.
Proof.
  induction conns as [|c0 conns IH]; intros n store j c Hj; [done|].
  destruct j as [|j]; simpl in *.
  - inversion Hj; subst. rewrite fillStore_below by lia.
    rewrite Nat.add_0_r. apply lookup_insert_eq.
  - replace (n + S j) with (S n + j) by lia. now apply IH.
Qed.

Lemma fillMap_other conns : ∀ n m a,
  (∀ c, c ∈ conns → pc_port c ≠ a) → fillMap conns n m !! a = m !! a.
Proof.
  induction conns as [|c0 conns IH]; intros n m a H; simpl; [done|].
  rewrite IH by (intros c Hc; apply H; now right).
  destruct (m !! pc_port c0); [done|].
  apply lookup_insert_ne. apply H. now left.
Qed.

Lemma fillMap_lookup conns : ∀ n m j c,
  NoDup (map pc_port conns) →
  (∀ c, c ∈ conns → m !! pc_port c = None) →
  conns !! j = Some c → fillMap conns n m !! pc_port c = Some (n + j).
Proof.
  induction conns as [|c0 conns IH]; intros n m j c Hnd Hm Hj; [done|].
  inversion Hnd as [|? ? Hnotin Hnd']; subst.
  destruct j as [|j]; simpl in *.
  - inversion Hj; subst. rewrite Hm by now left.
    rewrite fillMap_other.
    + rewrite Nat.add_0_r. apply lookup_insert_eq.
    + intros c' Hc' Heq. apply Hnotin. rewrite <- Heq.
      apply list_elem_of_fmap. eauto.
  - rewrite Hm by now left.
    replace (n + S j) with (S n + j) by lia. apply IH; [done| |done].
    intros c' Hc'. rewrite lookup_insert_ne; [apply Hm; now right|].
    intros Heq. apply Hnotin. rewrite Heq. apply list_elem_of_fmap. eauto.
Qed.

Lemma sameConnections_refl s : sameConnections s s.
Proof. repeat split. Qed.

Lemma sameConnections_trans a b c :
  sameConnections a b → sameConnections b c → sameConnections a c.
Proof. unfold sameConnections. intuition congruence. Qed.

Lemma sameConnections_sym a b : sameConnections a b → sameConnections b a.
Proof. unfold sameConnections. intuition congruence. Qed.

(** What a first resolution leaves in the members that hold the
    connections. *)
Lemma resolveWithPortList_fields env d s :
  connectionMap s = None →
  let s' := resolveWithPortList env d s in
  connectionMap s'
  = Some (fillMap (resolvedConnections env) (nextConnection s) ∅)
  ∧ connectionStore s'
    = fillStore (resolvedConnections env) (nextConnection s) (connectionStore s)
  ∧ inst_connections s'
    = (if bool_decide (is_Some (instanceSyntax env))
          || (isTopLevel env && allowTopLevelIfacePorts env)
       then seq (nextConnection s) (length (resolvedConnections env))
       else inst_connections s).
Proof.
  intros Hm. cbv zeta. unfold resolveWithPortList, resolvedConnections.
  rewrite Hm. destruct (instanceSyntax env) as [syn|].
  - rewrite bool_decide_eq_true_2 by eauto.
    rewrite (connectFromSyntax_run env _ ∅) by reflexivity. simpl.
    unfold syntaxConnections. rewrite length_map. done.
  - rewrite bool_decide_eq_false_2 by (intros [? ?]; done). cbn [orb].
    destruct (isTopLevel env && allowTopLevelIfacePorts env).
    + rewrite (connectDefaultIfacePorts_run env _ ∅) by reflexivity. done.
    + done.
Qed.

Lemma resolveWithPortList_same env d d' a b :
  connectionMap a = None → sameConnections a b →
  sameConnections (resolveWithPortList env d a) (resolveWithPortList env d' b).
Proof.
  intros Ha (Hm & Hc & Hs & Hn).
  assert (Hb : connectionMap b = None) by congruence.
  destruct (resolveWithPortList_fields env d a Ha) as (A1 & A2 & A3).
  destruct (resolveWithPortList_fields env d' b Hb) as (B1 & B2 & B3).
  assert (A4 : nextConnection (resolveWithPortList env d a)
               = nextConnection a + length (resolvedConnections env)).
  { unfold resolveWithPortList, resolvedConnections. rewrite Ha.
    destruct (instanceSyntax env).
    - rewrite (connectFromSyntax_run env _ ∅) by reflexivity. simpl.
      unfold syntaxConnections. now rewrite length_map.
    - destruct (_ && _);
        [rewrite (connectDefaultIfacePorts_run env _ ∅) by reflexivity|];
        simpl; lia. }
  assert (B4 : nextConnection (resolveWithPortList env d' b)
               = nextConnection b + length (resolvedConnections env)).
  { unfold resolveWithPortList, resolvedConnections. rewrite Hb.
    destruct (instanceSyntax env).
    - rewrite (connectFromSyntax_run env _ ∅) by reflexivity. simpl.
      unfold syntaxConnections. now rewrite length_map.
    - destruct (_ && _);
        [rewrite (connectDefaultIfacePorts_run env _ ∅) by reflexivity|];
        simpl; lia. }
  unfold sameConnections. rewrite A1, A2, A3, A4, B1, B2, B3, B4, Hn, Hs, Hc.
  done.
Qed.

(** A first resolution, with or without a re-entrant call: the connections
    are those that [resolveWithPortList] makes from the state at the call. *)
Lemma resolve_connections fuel env s :
  connectionMap s = None →
  ∃ s1, InstanceSymbol_resolvePortConnections (S (S fuel)) env s = Some s1
        ∧ sameConnections s1 (resolveWithPortList env 0 s).
Proof.
  intros Hmap.
  destruct (decide (bodyPorts s = Unset)) as [Hu|Hu].
  - rewrite resolve_unfold. unfold InstanceBodySymbol_getPortList.
    cbn [bodyPorts logPort setActive]. rewrite Hu.
    destruct (reentrantCalls env) as [|p rest] eqn:Hre.
    + cbn [reentrantDemands]. eexists. split; [reflexivity|].
      eapply sameConnections_trans;
        [|apply (resolveWithPortList_same env (S (active s)) 0
                   (setBodyPorts Ready
                      (setBodyPorts InProgress
                         (logPort (EvEnterResolve (S (active s)))
                            (setActive (S (active s)) s)))) s);
          [exact Hmap|repeat split]].
      repeat split.
    + cbn [reentrantDemands]. unfold getPortConnection_with at 1.
      cbn [connectionMap setBodyPorts logPort setActive]. rewrite Hmap.
      rewrite resolve_listed by (cbn; discriminate).
      cbn [active setBodyPorts logPort setActive].
      edestruct (resolveWithPortList_unset env (S (S (active s)))
                   (logPort (EvEnterResolve (S (S (active s))))
                      (setActive (S (S (active s)))
                         (setBodyPorts InProgress
                            (logPort (EvEnterResolve (S (active s)))
                               (setActive (S (active s)) s))))))
        as (Hs & _); [exact Hmap|].
      pose proof (resolveWithPortList_same env (S (S (active s))) 0
                    (logPort (EvEnterResolve (S (S (active s))))
                       (setActive (S (S (active s)))
                          (setBodyPorts InProgress
                             (logPort (EvEnterResolve (S (active s)))
                                (setActive (S (active s)) s))))) s Hmap
                    ltac:(repeat split)) as Hsame.
      set (inner := resolveWithPortList _ _ _) in *.
      rewrite reentrantDemands_set by (cbn; exact Hs).
      destruct Hs as [m Hm].
      rewrite (resolveWithPortList_set env _ _ m) by (cbn; exact Hm).
      eexists. split; [reflexivity|].
      eapply sameConnections_trans; [|exact Hsame]. repeat split.
  - rewrite resolve_listed by done. eexists. split; [reflexivity|].
    eapply sameConnections_trans;
      [|apply (resolveWithPortList_same env (S (active s)) 0
                 (logPort (EvEnterResolve (S (active s)))
                    (setActive (S (active s)) s)) s);
        [exact Hmap|repeat split]].
    repeat split.
Qed.

(** X19.  The connections of an instance that is created from syntax,
    after the first call of [getPortConnections] (the ports of the body are
    distinct objects): there is one connection for every port of the body,
    in the order of the ports; it is the connection of that port, and
    [getPortConnection] finds it for the port.  For anything that is not a
    port of the body, [getPortConnection] finds nothing. *)
Theorem port_connections_follow_the_port_list fuel env s syn :
  2 ≤ fuel →
  connectionMap s = None →
  instanceSyntax env = Some syn →
  NoDup (map port_addr (portList env)) →
  ∃ conns s1,
    InstanceSymbol_getPortConnections fuel env s = Some (conns, s1)
    ∧ Forall2 (fun port c =>
                 connectionStore s1 !! c
                 = Some {| pc_port := port_addr port;
                           pc_actual := ActualExpr (connectPort env port) |}
                 ∧ connectionOf s1 (port_addr port) = Some c)
              (portList env) conns
    ∧ ∀ a, a ∉ map port_addr (portList env) → connectionOf s1 a = None.
Proof.
  intros Hfuel Hmap Hsyn Hnd. destruct fuel as [|[|fuel]]; [lia|lia|].
  destruct (resolve_connections fuel env s Hmap) as (s1 & E & Hm & Hc & Hs & _).
  destruct (resolveWithPortList_fields env 0 s Hmap) as (F1 & F2 & F3).
  rewrite F1 in Hm. rewrite F2 in Hs. rewrite F3 in Hc.
  unfold resolvedConnections in *. rewrite Hsyn in *.
  rewrite bool_decide_eq_true_2 in Hc by eauto. cbn [orb] in Hc.
  exists (inst_connections s1), s1.
  unfold InstanceSymbol_getPortConnections. rewrite Hmap, E.
  split; [reflexivity|].
  assert (Hports : map pc_port (syntaxConnections env) = map port_addr (portList env)).
  { unfold syntaxConnections. rewrite map_map. reflexivity. }
  split.
  - rewrite Hc. apply Forall2_same_length_lookup.
    split; [unfold syntaxConnections; now rewrite length_seq, length_map|].
    intros j port c Hp Hj.
    apply lookup_seq in Hj as [-> Hlt].
    assert (Hcj : syntaxConnections env !! j
                  = Some {| pc_port := port_addr port;
                            pc_actual := ActualExpr (connectPort env port) |}).
    { unfold syntaxConnections. rewrite list_lookup_fmap, Hp. reflexivity. }
    split.
    + rewrite Hs. now apply fillStore_lookup.
    + unfold connectionOf. rewrite Hm.
      apply (fillMap_lookup _ _ _ _ _ ltac:(now rewrite Hports)
               ltac:(intros; apply lookup_empty) Hcj).
  - intros a Ha. unfold connectionOf. rewrite Hm.
    rewrite fillMap_other; [apply lookup_empty|].
    intros c Hc' Heq. apply Ha. rewrite <- Hports, <- Heq.
    apply list_elem_of_fmap. eauto.
Qed.

(** X20.  The connections of an instance without syntax, after the first
    call of [getPortConnections]: a top-level instance in a compilation
    that allows interface ports at the top level has one connection for
    every interface port whose interface definition is known, in the order
    of the ports, and [getPortConnection] finds it for the port; its other
    ports have no connection.  Any other instance without syntax has no
    connection at all. *)
Theorem top_level_interface_ports_are_connected fuel env s :
  2 ≤ fuel →
  connectionMap s = None →
  instanceSyntax env = None →
  NoDup (map port_addr (portList env)) →
  ∃ conns s1,
    InstanceSymbol_getPortConnections fuel env s = Some (conns, s1)
    ∧ if isTopLevel env && allowTopLevelIfacePorts env then
        Forall2 (fun conn c => connectionStore s1 !! c = Some conn
                               ∧ connectionOf s1 (pc_port conn) = Some c)
                (defaultConnections env) conns
        ∧ ∀ port, port ∈ portList env →
                  (∀ def, port_kind port ≠ Port_Interface (Some def)) →
                  connectionOf s1 (port_addr port) = None
      else conns = inst_connections s ∧ ∀ a, connectionOf s1 a = None.
Proof.
  intros Hfuel Hmap Hsyn Hnd. destruct fuel as [|[|fuel]]; [lia|lia|].
  destruct (resolve_connections fuel env s Hmap) as (s1 & E & Hm & Hc & Hs & _).
  destruct (resolveWithPortList_fields env 0 s Hmap) as (F1 & F2 & F3).
  rewrite F1 in Hm. rewrite F2 in Hs. rewrite F3 in Hc.
  unfold resolvedConnections in *. rewrite Hsyn in *.
  rewrite bool_decide_eq_false_2 in Hc by (intros [? ?]; done). cbn [orb] in Hc.
  exists (inst_connections s1), s1.
  unfold InstanceSymbol_getPortConnections. rewrite Hmap, E.
  split; [reflexivity|].
  destruct (isTopLevel env && allowTopLevelIfacePorts env).
  - assert (Hsub : ∀ c, c ∈ defaultConnections env →
                        ∃ port def, port ∈ portList env
                                    ∧ port_kind port = Port_Interface (Some def)
                                    ∧ pc_port c = port_addr port).
    { intros c Hin. unfold defaultConnections in Hin.
      apply list_elem_of_omap in Hin as (port & Hp & Hc').
      destruct (port_kind port) as [| |[def|]] eqn:Hk; try discriminate.
      inversion Hc'; subst. eauto. }
    assert (Hnd' : NoDup (map pc_port (defaultConnections env))).
    { unfold defaultConnections. clear -Hnd.
      induction (portList env) as [|port ports IH]; [constructor|].
      inversion Hnd as [|? ? Hnotin Hnd']; subst. cbn [omap list_omap].
      destruct (port_kind port) as [| |[def|]]; try (now apply IH).
      cbn [map]. constructor; [|now apply IH].
      intros Hin. apply Hnotin. apply list_elem_of_fmap in Hin as (c & Hc & Hin).
      apply list_elem_of_omap in Hin as (port' & Hp' & Hc').
      destruct (port_kind port') as [| |[def'|]]; try discriminate.
      inversion Hc'; subst. simpl. apply list_elem_of_fmap. eauto. }
    split.
    + rewrite Hc. apply Forall2_same_length_lookup.
      split; [now rewrite length_seq|].
      intros j conn c Hp Hj. apply lookup_seq in Hj as [-> Hlt].
      split.
      * rewrite Hs. now apply fillStore_lookup.
      * unfold connectionOf. rewrite Hm.
        apply (fillMap_lookup _ _ _ _ _ Hnd' ltac:(intros; apply lookup_empty) Hp).
    + intros port Hin Hkind. unfold connectionOf. rewrite Hm.
      rewrite fillMap_other; [apply lookup_empty|].
      intros c Hc' Heq. destruct (Hsub c Hc') as (port' & def & Hin' & Hk & Hpc).
      assert (port' = port).
      { apply list_elem_of_lookup in Hin as [i Hi].
        apply list_elem_of_lookup in Hin' as [i' Hi'].
        assert (i' = i).
        { eapply (NoDup_lookup _ i' i (port_addr port)); [exact Hnd| |].
          - rewrite list_lookup_fmap, Hi'. simpl. congruence.
          - rewrite list_lookup_fmap, Hi. reflexivity. }
        subst. congruence. }
      subst. eapply Hkind, Hk.
  - split; [exact Hc|]. intros a. unfold connectionOf. rewrite Hm.
    apply lookup_empty.
Qed.

Lemma port_connections_follow_the_port_list_witness :
  ∃ conns s1,
    InstanceSymbol_getPortConnections 2 reentrantEnv InstanceState_initial
    = Some (conns, s1)
    ∧ Forall2 (fun port c =>
                 connectionStore s1 !! c
                 = Some {| pc_port := port_addr port;
                           pc_actual := ActualExpr (connectPort reentrantEnv port) |}
                 ∧ connectionOf s1 (port_addr port) = Some c)
              (portList reentrantEnv) conns
    ∧ ∀ a, a ∉ map port_addr (portList reentrantEnv) → connectionOf s1 a = None.
Proof.
  refine (port_connections_follow_the_port_list 2 reentrantEnv
            InstanceState_initial _ _ eq_refl eq_refl _).
  - lia.
  - apply (bool_decide_unpack _). vm_compute. exact I.
Defined.

Lemma top_level_interface_ports_are_connected_witness :
  ∃ conns s1,
    InstanceSymbol_getPortConnections 2 topLevelEnv InstanceState_initial
    = Some (conns, s1)
    ∧ if isTopLevel topLevelEnv && allowTopLevelIfacePorts topLevelEnv then
        Forall2 (fun conn c => connectionStore s1 !! c = Some conn
                               ∧ connectionOf s1 (pc_port conn) = Some c)
                (defaultConnections topLevelEnv) conns
        ∧ ∀ port, port ∈ portList topLevelEnv →
                  (∀ def, port_kind port ≠ Port_Interface (Some def)) →
                  connectionOf s1 (port_addr port) = None
      else conns = inst_connections InstanceState_initial
           ∧ ∀ a, connectionOf s1 a = None.
Proof.
  refine (top_level_interface_ports_are_connected 2 topLevelEnv
            InstanceState_initial _ eq_refl eq_refl _).
  - lia.
  - apply (bool_decide_unpack _). vm_compute. exact I.
Defined.

(* ===================================================================== *)
(** ** Placeholders: port names and connections                          *)
(* ===================================================================== *)

Lemma bindConnections_spec bind connections :
  ∀ results names,
    bindConnections bind connections results names
    = (results ++ omap (fun conn => bind <$> connectionExpr conn) connections,
       names ++ omap connectionName connections).
Proof.
  induction connections as [|conn rest IH]; intros results names; simpl.
  - now rewrite !app_nil_r.
  - destruct conn as [e r|name [e|] r|r|r]; rewrite IH; simpl;
      rewrite <- ?app_assoc; reflexivity.
Qed.

Lemma names_and_expressions connections (f : PropertyExprSyntax → AssertionExpr) :
  length (omap connectionName connections)
  = length (omap (fun conn => f <$> connectionExpr conn) connections)
    + length (filter (fun conn => emptyNamed conn = true) connections).
Proof.
  induction connections as [|conn rest IH]; [reflexivity|].
  rewrite filter_cons.
  destruct conn as [e r|name [e|] r|r|r]; case_decide as Hd; simpl in Hd;
    try discriminate; try congruence;
    cbn [omap list_omap connectionName connectionExpr fmap option_fmap
           option_map length]; rewrite IH; lia.
Qed.

(** X21.  The port names and the port connections of a placeholder, at the
    first call: there is a name for every ordered and every named
    connection, but a connection only for those that have an expression.
    So the names outnumber the connections by the named connections
    without an expression, and the two vectors have the same size, as
    [serializeTo] asserts they have, exactly when there is no such
    connection. *)
Theorem placeholder_names_outnumber_connections
    isPlainSequence bindAssertion connections u :
  up_ports u = None →
  let conns := (UninstantiatedDefSymbol_getPortConnections isPlainSequence
                  bindAssertion connections u) in
  let names := (UninstantiatedDefSymbol_getPortNames isPlainSequence
                  bindAssertion connections conns.2) in
  names.2 = conns.2
  ∧ names.1 = omap connectionName connections
  ∧ conns.1 = omap (fun conn => bindUnknownPortConn isPlainSequence bindAssertion
                                  <$> connectionExpr conn) connections
  ∧ length names.1
    = length conns.1 + length (filter (fun conn => emptyNamed conn = true) connections)
  ∧ (length conns.1 = length names.1
     ↔ ∀ name range, NamedPortConnection name None range ∉ connections).
Proof.
  intros Hu. cbv zeta.
  unfold UninstantiatedDefSymbol_getPortNames,
    UninstantiatedDefSymbol_getPortConnections.
  rewrite Hu, bindConnections_spec. cbn [app fst snd up_ports up_portNames].
  pose proof (names_and_expressions connections
                (bindUnknownPortConn isPlainSequence bindAssertion)) as Hlen.
  repeat (split; [done|]). rewrite Hlen. split.
  - intros Heq name range Hin.
    assert (Hpos : NamedPortConnection name None range
                   ∈ filter (fun conn => emptyNamed conn = true) connections)
      by (apply list_elem_of_filter; split; [reflexivity|exact Hin]).
    destruct (filter _ connections); [inversion Hpos|simpl in Heq; lia].
  - intros Hno.
    destruct (filter (fun conn => emptyNamed conn = true) connections)
      as [|conn rest] eqn:Hf; [simpl; lia|].
    assert (Hin : conn ∈ filter (fun conn => emptyNamed conn = true) connections)
      by (rewrite Hf; now left).
    apply list_elem_of_filter in Hin as [He Hin].
    destruct conn as [e r|name [e|] r|r|r]; try discriminate.
    exfalso. eapply Hno, Hin.
Qed.

Lemma placeholder_names_outnumber_connections_witness :
  length (UninstantiatedDefSymbol_getPortNames (fun _ => true)
            (fun e => {| ae_syntax := e; ae_isSimple := false;
                         ae_repetition := false |})
            [OrderedPortConnection 10 1; NamedPortConnection "p" None 2]
            (UninstantiatedDefSymbol_getPortConnections (fun _ => true)
               (fun e => {| ae_syntax := e; ae_isSimple := false;
                            ae_repetition := false |})
               [OrderedPortConnection 10 1; NamedPortConnection "p" None 2]
               {| up_ports := None; up_portNames := [];
                  up_mustBeChecker := false |}).2).1
  = length (UninstantiatedDefSymbol_getPortConnections (fun _ => true)
              (fun e => {| ae_syntax := e; ae_isSimple := false;
                           ae_repetition := false |})
              [OrderedPortConnection 10 1; NamedPortConnection "p" None 2]
              {| up_ports := None; up_portNames := [];
                 up_mustBeChecker := false |}).1
    + length (filter (fun conn => emptyNamed conn = true)
                [OrderedPortConnection 10 1; NamedPortConnection "p" None 2]).
Proof.
  refine (proj1 (proj2 (proj2 (proj2
            (placeholder_names_outnumber_connections (fun _ => true)
               (fun e => {| ae_syntax := e; ae_isSimple := false;
                            ae_repetition := false |})
               [OrderedPortConnection 10 1; NamedPortConnection "p" None 2]
               {| up_ports := None; up_portNames := [];
                  up_mustBeChecker := false |} eq_refl))))).
Defined.

Lemma anyAssertion_spec ports :
  anyAssertion ports = true
  ↔ ∃ port, port ∈ ports ∧ (ae_isSimple port = false ∨ ae_repetition port = true).
Proof.
  induction ports as [|port rest IH]; simpl.
  - split; [discriminate|]. intros (p & H & _). inversion H.
  - destruct (negb (ae_isSimple port) || ae_repetition port) eqn:E.
    + split; [|done]. intros _. exists port. split; [now left|].
      destruct (ae_isSimple port), (ae_repetition port); auto; discriminate.
    + rewrite IH. split.
      * intros (p & Hin & Hp). exists p. split; [now right|done].
      * intros (p & Hin & Hp). apply elem_of_cons in Hin as [->|Hin].
        -- destruct (ae_isSimple port), (ae_repetition port), Hp; discriminate.
        -- eauto.
Qed.

(** X22.  A placeholder is taken for a checker exactly when it was marked
    so at its creation, or one of its connections has an expression that is
    not a plain sequence expression and that is bound to an assertion
    expression which is not simple or has a repetition.  Plain expressions
    never turn a placeholder into a checker. *)
Theorem placeholder_is_checker_for_assertion_arguments
    isPlainSequence bindAssertion connections u :
  up_ports u = None →
  (UninstantiatedDefSymbol_isChecker isPlainSequence bindAssertion connections u).1
  = true
  ↔ up_mustBeChecker u = true
    ∨ ∃ conn e, conn ∈ connections ∧ connectionExpr conn = Some e
                ∧ isPlainSequence e = false
                ∧ (ae_isSimple (bindAssertion e) = false
                   ∨ ae_repetition (bindAssertion e) = true).
Proof.
  intros Hu. unfold UninstantiatedDefSymbol_isChecker,
    UninstantiatedDefSymbol_getPortConnections.
  rewrite Hu, bindConnections_spec. cbn [app fst snd up_mustBeChecker].
  set (ports := omap _ connections).
  assert (Hports : anyAssertion ports = true
                   ↔ ∃ conn e, conn ∈ connections ∧ connectionExpr conn = Some e
                               ∧ isPlainSequence e = false
                               ∧ (ae_isSimple (bindAssertion e) = false
                                  ∨ ae_repetition (bindAssertion e) = true)).
  { rewrite anyAssertion_spec. subst ports. split.
    - intros (port & Hin & Hp).
      apply list_elem_of_omap in Hin as (conn & Hc & Hb).
      destruct (connectionExpr conn) as [e|] eqn:He; [|discriminate].
      simpl in Hb. inversion Hb; subst. exists conn, e.
      unfold bindUnknownPortConn in Hp.
      destruct (isPlainSequence e); [destruct Hp; discriminate|]. auto.
    - intros (conn & e & Hin & He & Hplain & Hp).
      exists (bindAssertion e). split; [|exact Hp].
      apply list_elem_of_omap. exists conn. split; [exact Hin|].
      rewrite He. simpl. unfold bindUnknownPortConn. now rewrite Hplain. }
  destruct (anyAssertion ports) eqn:Ha.
  - split; [|done]. intros _. right. now apply Hports.
  - split; [now left|]. intros [H|H]; [exact H|].
    apply Hports in H. discriminate.
Qed.

Lemma placeholder_is_checker_for_assertion_arguments_witness :
  (UninstantiatedDefSymbol_isChecker (fun _ => false)
     (fun e => {| ae_syntax := e; ae_isSimple := false; ae_repetition := false |})
     [OrderedPortConnection 10 1]
     {| up_ports := None; up_portNames := []; up_mustBeChecker := false |}).1
  = true.
Proof.
  refine (proj2 (placeholder_is_checker_for_assertion_arguments (fun _ => false)
                   (fun e => {| ae_syntax := e; ae_isSimple := false;
                                ae_repetition := false |})
                   [OrderedPortConnection 10 1]
                   {| up_ports := None; up_portNames := [];
                      up_mustBeChecker := false |} eq_refl) _).
  right. exists (OrderedPortConnection 10 1), 10.
  split; [now left|]. repeat split. now left.
Defined.

(* ===================================================================== *)
(** ** Checker instances: the connections of the formals                 *)
(* ===================================================================== *)

Section CheckerConnections.

Variable lookupUnqualified : string → bool → bool.
Variable requireSimpleExpr : PropertyExprSyntax → option nat.
Variable checkerName : string.
Variable syntaxRange : SourceRange.
Variable connMap : ConnMap.

#[local] Abbreviation step :=
  (connectFormal lookupUnqualified requireSimpleExpr syntaxRange connMap).
#[local] Abbreviation choice := (formalChoice lookupUnqualified syntaxRange connMap).

Lemma setDefault_reports port explicitRange :
  let '(e, c, ds) := setDefault syntaxRange port explicitRange in
  match e with
  | Some _ => ds = []
  | None => ∃ d, ds = [d] ∧ cd_name d = cp_name port ∧ missingArgument d
  end.
Proof.
  unfold setDefault. destruct (inputDefault port); [done|].
  eexists. split; [reflexivity|]. split; [reflexivity|].
  unfold missingArgument. destruct explicitRange; simpl; auto.
Qed.

Lemma createImplicitNamed_reports port range isWildcard :
  let '(e, ds) := createImplicitNamed lookupUnqualified port range isWildcard in
  match e with
  | Some _ => ds = []
  | None => ∃ d, ds = [d] ∧ cd_name d = cp_name port ∧ missingArgument d
  end.
Proof.
  unfold createImplicitNamed. destruct (lookupUnqualified _ _); [done|].
  destruct (if isWildcard then inputDefault port else None); [done|].
  eexists. split; [reflexivity|]. split; [reflexivity|].
  unfold missingArgument. simpl. auto.
Qed.

(** An iteration reports a missing argument exactly when it finds no
    expression for the port. *)
Lemma formalChoice_reports st port :
  let '(e, c, ds, i, u) := choice st port in
  match e with
  | Some _ => ds = []
  | None => ∃ d, ds = [d] ∧ cd_name d = cp_name port ∧ missingArgument d
  end.
Proof.
  unfold formalChoice.
  destruct (usingOrdered connMap).
  - destruct (orderedConns connMap !! orderedIndex st) as [pc|].
    + destruct pc; try done;
        match goal with
        | |- context [setDefault ?r ?p ?x] =>
            pose proof (setDefault_reports p x) as H;
            destruct (setDefault r p x) as [[e c] ds]; exact H
        end.
    + pose proof (setDefault_reports port None) as H.
      destruct (setDefault syntaxRange port None) as [[e c] ds]. exact H.
  - destruct (namedConns connMap !! cp_name port) as [conn|].
    + destruct (nc_openParen conn).
      * destruct (nc_expr conn); [done|].
        eexists. split; [reflexivity|]. split; [reflexivity|].
        unfold missingArgument. simpl. auto.
      * pose proof (createImplicitNamed_reports port (nc_nameRange conn) false) as H.
        destruct (createImplicitNamed _ _ _ _) as [e ds]. exact H.
    + destruct (hasWildcard connMap).
      * pose proof (createImplicitNamed_reports port (wildcardRange connMap) true) as H.
        destruct (createImplicitNamed _ _ _ _) as [e ds]. exact H.
      * pose proof (setDefault_reports port None) as H.
        destruct (setDefault syntaxRange port None) as [[e c] ds]. exact H.
Qed.

Lemma formalChoice_index st port :
  let '(e, c, ds, i, u) := choice st port in
  if usingOrdered connMap
  then i = S (orderedIndex st) ∧ u = usedNames st
  else i = orderedIndex st
       ∧ u = if bool_decide (is_Some (namedConns connMap !! cp_name port))
             then {[cp_name port]} ∪ usedNames st else usedNames st.
Proof.
  unfold formalChoice. destruct (usingOrdered connMap).
  - destruct (orderedConns connMap !! orderedIndex st) as [pc|];
      [destruct pc|]; try done;
      destruct (setDefault _ _ _) as [[e c] ds]; done.
  - destruct (namedConns connMap !! cp_name port) as [conn|].
    + rewrite bool_decide_eq_true_2 by eauto.
      destruct (nc_openParen conn); [destruct (nc_expr conn); done|].
      destruct (createImplicitNamed _ _ _ _) as [e ds]. done.
    + rewrite bool_decide_eq_false_2 by (intros [? ?]; done).
      destruct (hasWildcard connMap).
      * destruct (createImplicitNamed _ _ _ _) as [e ds]. done.
      * destruct (setDefault _ _ _) as [[e c] ds]. done.
Qed.

Lemma step_unnamed st port : cp_name port = "" → step st port = st.
Proof. intros H. unfold connectFormal. now rewrite bool_decide_eq_true_2. Qed.

Lemma step_named st port :
  cp_name port ≠ "" →
  step st port
  = {| orderedIndex := (choice st port).1.2;
       usedNames := (choice st port).2;
       cs_connections :=
         cs_connections st
         ++ [{| fa_port := cp_name port; fa_expr := (choice st port).1.1.1.1;
                fa_defaultContext := (choice st port).1.1.1.2;
                fa_outputInitial := outputInitial requireSimpleExpr port |}];
       cs_diags := cs_diags st ++ (choice st port).1.1.2 |}.
Proof.
  intros H. unfold connectFormal. rewrite bool_decide_eq_false_2 by done.
  destruct (choice st port) as [[[[e c] ds] i] u]. reflexivity.
Qed.

(** The connections that the loop appends: one for every named port, in
    the order of the ports. *)
Lemma loop_connections ports :
  ∀ st, ∃ new,
    cs_connections (foldl step st ports) = cs_connections st ++ new
    ∧ Forall2 (fun port a => fa_port a = cp_name port
                             ∧ fa_outputInitial a = outputInitial requireSimpleExpr port)
              (namedPorts ports) new.
Proof.
  induction ports as [|port ports IH]; intros st.
  - exists []. simpl. rewrite app_nil_r. split; [done|constructor].
  - cbn [foldl]. unfold namedPorts. rewrite filter_cons.
    destruct (decide (cp_name port ≠ "")) as [Hn|Hn].
    + destruct (IH (step st port)) as (new & E & HF).
      rewrite step_named in E by done. cbn [cs_connections] in E.
      rewrite step_named by done.
      eexists (_ :: new). split; [rewrite E, <- app_assoc; reflexivity|].
      constructor; [done|exact HF].
    + rewrite step_unnamed by (destruct (decide (cp_name port = "")); tauto).
      apply IH.
Qed.

(** X23.  A checker instance gets one connection for every port of the
    checker that has a name, in the order of the ports, with the initial
    value of an output port taken from the default value of the port.
    Ports without a name get none. *)
Theorem checker_connections_follow_the_ports ports :
  let res := connectCheckerFormals lookupUnqualified requireSimpleExpr
               checkerName syntaxRange ports connMap in
  map fa_port res.1 = map cp_name (namedPorts ports)
  ∧ Forall2 (fun port a => fa_port a = cp_name port
                           ∧ fa_outputInitial a
                             = outputInitial requireSimpleExpr port)
            (namedPorts ports) res.1.
Proof.
  cbv zeta. unfold connectCheckerFormals. cbn [fst].
  destruct (loop_connections ports
              {| orderedIndex := 0; usedNames := ∅; cs_connections := [];
                 cs_diags := [] |}) as (new & E & HF).
  rewrite E. cbn [cs_connections app]. split; [|exact HF].
  clear E. induction HF as [|port a ps as' [Hp _] _ IH]; [done|].
  simpl. now rewrite Hp, IH.
Qed.

Lemma unconnected_app name a b :
  unconnected name (a ++ b) = unconnected name a + unconnected name b.
Proof. unfold unconnected. now rewrite filter_app, length_app. Qed.

Lemma reportedMissing_app name a b :
  reportedMissing name (a ++ b) = reportedMissing name a + reportedMissing name b.
Proof. unfold reportedMissing. now rewrite filter_app, length_app. Qed.

Lemma loop_reports name ports :
  ∀ st, unconnected name (cs_connections st) = reportedMissing name (cs_diags st) →
        unconnected name (cs_connections (foldl step st ports))
        = reportedMissing name (cs_diags (foldl step st ports)).
Proof.
  induction ports as [|port ports IH]; intros st Hst; [exact Hst|].
  cbn [foldl]. apply IH.
  destruct (decide (cp_name port = "")) as [Hn|Hn];
    [now rewrite step_unnamed|].
  rewrite step_named by done. cbn [cs_connections cs_diags].
  rewrite unconnected_app, reportedMissing_app, Hst. f_equal.
  pose proof (formalChoice_reports st port) as H.
  destruct (choice st port) as [[[[e c] ds] i] u]. cbn [fst snd].
  unfold unconnected, reportedMissing. rewrite filter_cons, filter_nil.
  destruct e as [e|].
  - subst ds. case_decide as Hd; [destruct Hd; discriminate|reflexivity].
  - destruct H as (d & -> & Hname & Hmiss).
    rewrite filter_cons, filter_nil. simpl.
    destruct (decide (cp_name port = name)) as [Hp|Hp].
    + rewrite !decide_True by (split; congruence). reflexivity.
    + rewrite !decide_False by (intros [? ?]; congruence). reflexivity.
Qed.

Lemma leftoverDiags_not_missing st :
  Forall (fun d => ¬ missingArgument d) (leftoverDiags checkerName connMap st).
Proof.
  unfold leftoverDiags. destruct (usingOrdered connMap).
  - destruct (_ !! _); repeat constructor.
    unfold missingArgument. simpl. intros [|[|]]; discriminate.
  - apply Forall_forall. intros d Hd.
    apply list_elem_of_omap in Hd as ([n c] & _ & Hc).
    simpl in Hc. case_bool_decide; [discriminate|]. inversion Hc; subst.
    unfold missingArgument. simpl. intros [|[|]]; discriminate.
Qed.


Lemma loop_index ports :
  ∀ st, usingOrdered connMap = true →
        orderedIndex (foldl step st ports)
        = orderedIndex st + length (namedPorts ports).
Proof.
  intros st Ho. revert st.
  induction ports as [|port ports IH]; intros st; [simpl; lia|].
  cbn [foldl]. rewrite IH. unfold namedPorts. rewrite filter_cons.
  destruct (decide (cp_name port ≠ "")) as [Hn|Hn].
  - rewrite step_named by done. cbn [orderedIndex length].
    pose proof (formalChoice_index st port) as H.
    destruct (choice st port) as [[[[e c] ds] i] u]. rewrite Ho in H.
    destruct H as [-> _]. simpl. lia.
  - rewrite step_unnamed by (destruct (decide (cp_name port = "")); tauto).
    lia.
Qed.

Lemma loop_ordered ports :
  usingOrdered connMap = true →
  ∀ st new,
    cs_connections (foldl step st ports) = cs_connections st ++ new →
    ∀ j port, namedPorts ports !! j = Some port →
      ∃ a, new !! j = Some a
           ∧ (fa_expr a, fa_defaultContext a)
             = match orderedConns connMap !! (orderedIndex st + j) with
               | Some (OrderedPortConnection e _) => (Some (FormalSyntax e), false)
               | Some pc => (setDefault syntaxRange port
                               (Some (connectionRange pc))).1
               | None => (setDefault syntaxRange port None).1
               end.
Proof.
  intros Ho. induction ports as [|port ports IH]; intros st new E j p Hj;
    [done|].
  cbn [foldl] in E. unfold namedPorts in Hj. rewrite filter_cons in Hj.
  destruct (decide (cp_name port ≠ "")) as [Hn|Hn].
  - destruct (loop_connections ports (step st port)) as (new' & E' & _).
    rewrite E' in E. rewrite step_named in E by done. cbn [cs_connections] in E.
    rewrite <- app_assoc in E. apply app_inv_head in E. subst new.
    destruct j as [|j].
    + simpl in Hj. inversion Hj; subst p. eexists. split; [reflexivity|].
      cbn [fa_expr fa_defaultContext]. rewrite Nat.add_0_r.
      unfold formalChoice. rewrite Ho.
      destruct (orderedConns connMap !! orderedIndex st) as [pc|];
        [destruct pc|]; try reflexivity;
        destruct (setDefault _ _ _) as [[e c] ds]; reflexivity.
    + simpl in Hj.
      destruct (IH (step st port) new' E' j p Hj) as (a & Ha & Hexp).
      exists a. split; [exact Ha|]. rewrite Hexp.
      rewrite step_named by done. cbn [orderedIndex].
      pose proof (formalChoice_index st port) as H.
      destruct (choice st port) as [[[[e c] ds] i] u]. rewrite Ho in H.
      destruct H as [-> _]. cbn [fst snd].
      replace (S (orderedIndex st) + j) with (orderedIndex st + S j) by lia.
      reflexivity.
  - rewrite step_unnamed in E by (destruct (decide (cp_name port = "")); tauto).
    eapply IH; eauto.
Qed.

Lemma loop_diags_codes ports :
  ∀ st, Forall missingArgument (cs_diags st) →
        Forall missingArgument (cs_diags (foldl step st ports)).
Proof.
  induction ports as [|port ports IH]; intros st Hst; [exact Hst|].
  cbn [foldl]. apply IH.
  destruct (decide (cp_name port = "")) as [Hn|Hn];
    [now rewrite step_unnamed|].
  rewrite step_named by done. cbn [cs_diags]. apply Forall_app. split; [done|].
  pose proof (formalChoice_reports st port) as H.
  destruct (choice st port) as [[[[e c] ds] i] u]. cbn [fst snd].
  destruct e; [subst; constructor|].
  destruct H as (d & -> & _ & Hm). apply Forall_cons. split; [exact Hm|constructor].
Qed.


Lemma loop_used ports :
  usingOrdered connMap = false →
  ∀ st name,
    name ∈ usedNames (foldl step st ports)
    ↔ name ∈ usedNames st
      ∨ (is_Some (namedConns connMap !! name)
         ∧ name ∈ map cp_name (namedPorts ports)).
Proof.
  intros Ho. induction ports as [|port ports IH]; intros st name.
  - simpl. split; [auto|]. intros [H|[_ H]]; [exact H|inversion H].
  - cbn [foldl]. rewrite IH. unfold namedPorts. rewrite filter_cons.
    destruct (decide (cp_name port ≠ "")) as [Hn|Hn].
    + rewrite step_named by done. cbn [usedNames map].
      pose proof (formalChoice_index st port) as H.
      destruct (choice st port) as [[[[e c] ds] i] u]. rewrite Ho in H.
      destruct H as [_ ->]. cbn [fst snd]. rewrite elem_of_cons.
      case_bool_decide as Hd.
      * rewrite elem_of_union, elem_of_singleton. split.
        -- intros [[->|H]|[H1 H2]]; auto.
        -- intros [H|[H1 [->|H2]]]; auto.
      * split.
        -- intros [H|[H1 H2]]; auto.
        -- intros [H|[H1 [->|H2]]]; auto. contradiction.
    + rewrite step_unnamed by (destruct (decide (cp_name port = "")); tauto).
      reflexivity.
Qed.


End CheckerConnections.


